(** * Verified model of the instructional ADT library (src/adts)

  Shallow embedding of the C++ containers: array stack, linked stack,
  linked queue, doubly-linked list, singly-linked list with a sentinel,
  reference-counted shared binary tree (manual and [std::shared_ptr]
  variants), open hash map and unbalanced search-tree map and set,
  followed by the properties the specification states about them and by
  further properties of the code. *)

From Stdlib Require Import ZArith Lia Ascii.
From Stdlib Require Import Floats.SpecFloat.
From stdpp Require Import gmap list fin_maps sorting strings.

Local Open Scope Z_scope.

(** ** Exceptions.h *)

Inductive Exception : Type :=
| EmptyStackException
| FullStackException
| EmptyQueueException
| EmptyDequeException
| EmptyListException
| InvalidAccessException
| EmptyTreeException
| BadKeyException.

(** The result of one call: a normal return, a thrown exception,
  [Abort] when the call trips an [assert] or dereferences a pointer that
  is null or no longer allocated (undefined behaviour in C++), and
  [OutOfFuel] when a recursion or loop of the model was cut off before
  the call finished. *)
Inductive outcome (A : Type) : Type :=
| Return (a : A)
| Throw (e : Exception)
| Abort
| OutOfFuel.
Arguments Return {A} a.
Arguments Throw {A} e.
Arguments Abort {A}.
Arguments OutOfFuel {A}.

Definition obind {A B} (m : outcome A) (f : A -> outcome B) : outcome B :=
match m with
| Return a => f a
| Throw e => Throw e
| Abort => Abort
| OutOfFuel => OutOfFuel
end.

(** Calls that may change a state [S]. *)
Definition sbind {S A B} (m : S -> outcome A * S) (f : A -> S -> outcome B * S)
  : S -> outcome B * S :=
fun s =>
  match m s with
  | (Return a, s') => f a s'
  | (Throw e, s') => (Throw e, s')
  | (Abort, s') => (Abort, s')
  | (OutOfFuel, s') => (OutOfFuel, s')
  end.

Definition sret {S A} (a : A) : S -> outcome A * S := fun s => (Return a, s).

Notation "'let?' x ':=' m 'in' k" := (obind m (fun x => k))
(at level 10, x pattern, m at level 100, k at level 200).
Notation "'let*' x ':=' m 'in' k" := (sbind m (fun x => k))
(at level 10, x pattern, m at level 100, k at level 200).

(** [unsigned int] arithmetic wraps modulo [2^32]. *)
Definition wrap32 (z : Z) : Z := z mod 2 ^ 32.

(** Conversion of an [unsigned int] value to [int]. *)
Definition to_int (z : Z) : Z := if z <? 2 ^ 31 then z else z - 2 ^ 32.

(** The largest value of an [int].  Counters declared [int] ([_refs] of a
    tree node, [_size] of TreeMap and Queue) are kept as the numbers they
    count; the statements about them bound the calls or the counts so that
    the counter stays at or below [INT_MAX], and say so. *)
Definition INT_MAX : Z := 2 ^ 31 - 1.

(** ** Dynamic memory

  Nodes created with [new] live in a store indexed by addresses.  The
  allocator hands out addresses in increasing order and never reuses
  one; [delete] removes the cell. *)
Module Mem.
Record heap (N : Type) : Type := Heap { cells : gmap positive N; brk : positive }.
Arguments Heap {N} cells brk.
Arguments cells {N} h.
Arguments brk {N} h.

Definition empty {N} : heap N := Heap ∅ 1%positive.

Definition alloc {N} (n : N) (h : heap N) : positive * heap N :=
  (brk h, Heap (<[brk h := n]> (cells h)) (Pos.succ (brk h))).

Definition read {N} (p : positive) (h : heap N) : option N := cells h !! p.

Definition write {N} (p : positive) (n : N) (h : heap N) : heap N :=
  Heap (<[p := n]> (cells h)) (brk h).

Definition dealloc {N} (p : positive) (h : heap N) : heap N :=
  Heap (delete p (cells h)) (brk h).
End Mem.

(** ** Linked sequences of nodes (vocabulary of the properties)

  A container that links nodes owns a store of its own.  [cells] lists
  the nodes of a chain in order, each with its address. *)
Module Linked.
Section Linked.
Context {N T : Type} (elem : N -> T) (next : N -> option positive).

(** Every node of [cells] is in the store with its element, linked to the
    node after it; the last one is linked to [tail]. *)
Definition chain (h : Mem.heap N) (cells : list (positive * T))
    (tail : option positive) : Prop :=
  forall i a e, cells !! i = Some (a, e) ->
    exists n, Mem.read a h = Some n /\ elem n = e /\
              next n = match cells !! S i with
                       | Some (b, _) => Some b
                       | None => tail
                       end.

(** The nodes of [cells] are distinct, they are all the nodes of the
    store, and the allocator is past them. *)
Definition owns (h : Mem.heap N) (cells : list (positive * T)) : Prop :=
  NoDup cells.*1 /\
  (forall a, is_Some (Mem.read a h) -> a ∈ cells.*1) /\
  (forall a, a ∈ cells.*1 -> (a < Mem.brk h)%positive).
End Linked.

(** The address of the first and of the last node. *)
Definition first {T} (cells : list (positive * T)) : option positive :=
  fst <$> head cells.
Definition final {T} (cells : list (positive * T)) : option positive :=
  fst <$> last cells.
End Linked.

(** ** Stack.h: stack on a dynamic array *)
Module Stack.
Section Stack.
Context {T : Type} `{Inhabited T}.

Record t : Type := Build { _data : list T; _max : Z; _size : Z }.

Definition INITIAL_CAPACITY : Z := 10.

(** [new T[n]]: [n] default-constructed cells. *)
Definition new_array (n : Z) : list T := replicate (Z.to_nat n) inhabitant.

Definition init : t :=
  {| _data := new_array INITIAL_CAPACITY; _max := INITIAL_CAPACITY; _size := 0 |}.

Definition empty (s : t) : bool := _size s =? 0.

Definition size (s : t) : Z := to_int (_size s).

(** The copy loop [for (i = 0; i < _size; ++i) _data[i] = old[i]]. *)
Definition copy_cells (old : list T) (n : Z) (fresh : list T) : list T :=
  foldl (fun d i => <[i := old !!! i]> d) fresh (seq 0 (Z.to_nat n)).

Definition grow (s : t) : t :=
  let max' := wrap32 (_max s * 2) in
  {| _data := copy_cells (_data s) (_size s) (new_array max');
     _max := max';
     _size := _size s |}.

Definition push (e : T) (s : t) : t :=
  let s1 := {| _data := <[Z.to_nat (_size s) := e]> (_data s);
               _max := _max s;
               _size := wrap32 (_size s + 1) |} in
  if _size s1 =? _max s1 then grow s1 else s1.

Definition pop (s : t) : outcome unit * t :=
  if empty s then (Throw EmptyStackException, s)
  else (Return tt, {| _data := _data s; _max := _max s; _size := wrap32 (_size s - 1) |}).

Definition top (s : t) : outcome T :=
  if empty s then Throw EmptyStackException
  else Return (_data s !!! Z.to_nat (_size s - 1)).

(** *** Further operations: copy, comparison *)

(** [copy(other)], the body of the copy constructor. *)
Definition copy (other : t) : t :=
  let max' := wrap32 (_size other + INITIAL_CAPACITY) in
  {| _data := copy_cells (_data other) (_size other) (new_array max');
     _max := max';
     _size := _size other |}.

(** [operator==]; the loop [for (i = 0; i < _size && same; ++i)] sets
    [same] to false at the first pair of cells that differ. *)
Definition eq `{EqDecision T} (lhs rhs : t) : bool :=
  if bool_decide (_size lhs <> _size rhs) then false
  else
    foldl (fun (same : bool) i =>
             if same then bool_decide (_data lhs !!! i = _data rhs !!! i) else false)
          true (seq 0 (Z.to_nat (_size lhs))).

Definition neq `{EqDecision T} (lhs rhs : t) : bool := negb (eq lhs rhs).

(** *** Vocabulary of the properties *)

(** The elements of the stack, bottom first. *)
Definition elems (s : t) : list T := take (Z.to_nat (_size s)) (_data s).

(** The array has [_max] cells, of which [_size], fewer than [_max], are
    in use. *)
Definition ok (s : t) : Prop :=
  0 <= _size s < _max s /\ length (_data s) = Z.to_nat (_max s).

(** A sequence of [push] and [pop] calls. *)
Inductive op : Type :=
  | Push (e : T)
  | Pop.

Definition apply (s : t) (o : op) : t :=
  match o with
  | Push e => push e s
  | Pop => (pop s).2
  end.

Definition run (ops : list op) : t := foldl apply init ops.

(** The same calls on a list, its last element the top; [pop] leaves the
    empty list as it is (the call throws). *)
Definition model_apply (l : list T) (o : op) : list T :=
  match o with
  | Push e => l ++ [e]
  | Pop => removelast l
  end.

Definition model (ops : list op) : list T := foldl model_apply [] ops.
End Stack.
Arguments t T : clear implicits.
Arguments op T : clear implicits.
End Stack.

(** ** Queue.h: queue on a singly-linked list *)
Module Queue.
Section Queue.
Context {T : Type}.

Record Node : Type := MkNode { _elem : T; _next : option positive }.

Record t : Type :=
  Build { nodes : Mem.heap Node; _first : option positive;
          _last : option positive; _size : Z }.

Definition init : t :=
  {| nodes := Mem.empty; _first := None; _last := None; _size := 0 |}.

Definition empty (q : t) : bool :=
  match _first q with None => true | Some _ => false end.

Definition size (q : t) : Z := _size q.

Definition push_back (e : T) (q : t) : outcome unit * t :=
  let '(newNode, h1) := Mem.alloc (MkNode e None) (nodes q) in
  let linked :=
    match _last q with
    | None => Some h1
    | Some l =>
        match Mem.read l h1 with
        | Some n => Some (Mem.write l (MkNode (_elem n) (Some newNode)) h1)
        | None => None
        end
    end in
  match linked with
  | None => (Abort, q)
  | Some h2 =>
      (Return tt,
       {| nodes := h2;
          _first := match _first q with None => Some newNode | Some f => Some f end;
          _last := Some newNode;
          _size := _size q + 1 |})
  end.

Definition pop_front (q : t) : outcome unit * t :=
  if empty q then (Throw EmptyQueueException, q)
  else
    match _first q with
    | None => (Abort, q)
    | Some toRemove =>
        match Mem.read toRemove (nodes q) with
        | None => (Abort, q)
        | Some n =>
            let first' := _next n in
            (Return tt,
             {| nodes := Mem.dealloc toRemove (nodes q);
                _first := first';
                _last := match first' with None => None | Some _ => _last q end;
                _size := _size q - 1 |})
        end
    end.

Definition front (q : t) : outcome T :=
  if empty q then Throw EmptyQueueException
  else
    match _first q with
    | None => Abort
    | Some f =>
        match Mem.read f (nodes q) with
        | Some n => Return (_elem n)
        | None => Abort
        end
    end.
(** *** Further operations: copy, comparison *)

(** The loop of [copy]: appends a copy of every node after [current] to
    the new chain, whose last node is [prev]; [fuel] bounds the number of
    nodes. *)
Fixpoint copy_loop (fuel : nat) (other : Mem.heap Node) (current : Node)
    (prev : positive) (h : Mem.heap Node) : outcome (Mem.heap Node * positive) :=
  match _next current with
  | None => Return (h, prev)
  | Some c =>
      match fuel with
      | O => OutOfFuel
      | S fuel' =>
          match Mem.read c other with
          | None => Abort
          | Some cn =>
              let '(p, h1) := Mem.alloc (MkNode (_elem cn) None) h in
              match Mem.read prev h1 with
              | None => Abort
              | Some pn =>
                  copy_loop fuel' other cn p
                    (Mem.write prev (MkNode (_elem pn) (Some p)) h1)
              end
          end
      end
  end.

(** [copy(other)] into a new queue, the body of the copy constructor. *)
Definition copy (other : t) : outcome t :=
  if empty other then Return {| nodes := Mem.empty; _first := None; _last := None; _size := 0 |}
  else
    match _first other with
    | None => Abort
    | Some c =>
        match Mem.read c (nodes other) with
        | None => Abort
        | Some cn =>
            let '(p, h) := Mem.alloc (MkNode (_elem cn) None) Mem.empty in
            let? (h', prev) :=
              copy_loop (Pos.to_nat (Mem.brk (nodes other))) (nodes other) cn p h in
            Return {| nodes := h'; _first := Some p; _last := Some prev;
                      _size := _size other |}
        end
    end.

(** The loop of [operator==]. *)
Fixpoint eq_loop `{EqDecision T} (fuel : nat) (h1 h2 : Mem.heap Node)
    (p1 p2 : option positive) : outcome bool :=
  match p1, p2 with
  | Some a1, Some a2 =>
      match fuel with
      | O => OutOfFuel
      | S fuel' =>
          match Mem.read a1 h1, Mem.read a2 h2 with
          | Some n1, Some n2 =>
              if bool_decide (_elem n1 <> _elem n2) then Return false
              else eq_loop fuel' h1 h2 (_next n1) (_next n2)
          | _, _ => Abort
          end
      end
  | _, _ => Return true
  end.

Definition eq `{EqDecision T} (lhs rhs : t) : outcome bool :=
  if bool_decide (_size lhs <> _size rhs) then Return false
  else eq_loop (Pos.to_nat (Mem.brk (nodes lhs))) (nodes lhs) (nodes rhs)
         (_first lhs) (_first rhs).

(** *** Vocabulary of the properties *)

(** The queue consists of the nodes [cells], front first. *)
Definition rep (q : t) (cells : list (positive * T)) : Prop :=
  Linked.chain _elem _next (nodes q) cells None /\
  Linked.owns (nodes q) cells /\
  _first q = Linked.first cells /\
  _last q = Linked.final cells /\
  _size q = Z.of_nat (length cells).

(** A sequence of [push_back] and [pop_front] calls. *)
Inductive op : Type :=
  | PushBack (e : T)
  | PopFront.

Definition apply (q : t) (o : op) : t :=
  match o with
  | PushBack e => (push_back e q).2
  | PopFront => (pop_front q).2
  end.

Definition run (ops : list op) : t := foldl apply init ops.

(** The same calls on a list, its head the front; [pop_front] leaves the
    empty list as it is (the call throws). *)
Definition model_apply (l : list T) (o : op) : list T :=
  match o with
  | PushBack e => l ++ [e]
  | PopFront => tail l
  end.

Definition model (ops : list op) : list T := foldl model_apply [] ops.
End Queue.
Arguments t T : clear implicits.
Arguments Node T : clear implicits.
Arguments op T : clear implicits.
End Queue.

(** ** List.h: doubly-linked list *)
Module DList.
Section DList.
Context {T : Type}.

Record Node : Type :=
  MkNode { _elem : T; _next : option positive; _prev : option positive }.

Record t : Type :=
  Build { nodes : Mem.heap Node; _first : option positive;
          _last : option positive; _size : Z }.

Definition init : t :=
  {| nodes := Mem.empty; _first := None; _last := None; _size := 0 |}.

Definition empty (l : t) : bool :=
  match _first l with None => true | Some _ => false end.

Definition size (l : t) : Z := _size l.

(** [node->_next = v] and [node->_prev = v] on an optional node. *)
Definition set_next (node : option positive) (v : option positive)
    (h : Mem.heap Node) : option (Mem.heap Node) :=
  match node with
  | None => Some h
  | Some p =>
      match Mem.read p h with
      | Some n => Some (Mem.write p (MkNode (_elem n) v (_prev n)) h)
      | None => None
      end
  end.

Definition set_prev (node : option positive) (v : option positive)
    (h : Mem.heap Node) : option (Mem.heap Node) :=
  match node with
  | None => Some h
  | Some p =>
      match Mem.read p h with
      | Some n => Some (Mem.write p (MkNode (_elem n) (_next n) v) h)
      | None => None
      end
  end.

(** Inserts between [node1] and [node2]; yields the new node. *)
Definition insertElem (e : T) (node1 node2 : option positive) (l : t)
    : outcome positive * t :=
  let '(new_node, h1) := Mem.alloc (MkNode e node2 node1) (nodes l) in
  match set_next node1 (Some new_node) h1 with
  | None => (Abort, l)
  | Some h2 =>
      match set_prev node2 (Some new_node) h2 with
      | None => (Abort, l)
      | Some h3 =>
          (Return new_node,
           {| nodes := h3; _first := _first l; _last := _last l;
              _size := wrap32 (_size l + 1) |})
      end
  end.

Definition deleteElem (n : option positive) (l : t) : outcome unit * t :=
  match n with
  | None => (Abort, l)
  | Some p =>
      match Mem.read p (nodes l) with
      | None => (Abort, l)
      | Some nd =>
          let pprev := _prev nd in
          let pnext := _next nd in
          match set_next pprev pnext (nodes l) with
          | None => (Abort, l)
          | Some h1 =>
              match set_prev pnext pprev h1 with
              | None => (Abort, l)
              | Some h2 =>
                  (Return tt,
                   {| nodes := Mem.dealloc p h2; _first := _first l;
                      _last := _last l; _size := wrap32 (_size l - 1) |})
              end
          end
      end
  end.

Definition push_front (e : T) (l : t) : outcome unit * t :=
  match insertElem e None (_first l) l with
  | (Return p, l1) =>
      (Return tt,
       {| nodes := nodes l1; _first := Some p;
          _last := match _last l1 with None => Some p | Some x => Some x end;
          _size := _size l1 |})
  | (Throw e', l1) => (Throw e', l1)
  | (Abort, l1) => (Abort, l1)
  | (OutOfFuel, l1) => (OutOfFuel, l1)
  end.

Definition push_back (e : T) (l : t) : outcome unit * t :=
  match insertElem e (_last l) None l with
  | (Return p, l1) =>
      (Return tt,
       {| nodes := nodes l1;
          _first := match _first l1 with None => Some p | Some x => Some x end;
          _last := Some p;
          _size := _size l1 |})
  | (Throw e', l1) => (Throw e', l1)
  | (Abort, l1) => (Abort, l1)
  | (OutOfFuel, l1) => (OutOfFuel, l1)
  end.

Definition front (l : t) : outcome T :=
  if empty l then Throw EmptyListException
  else
    match _first l with
    | None => Abort
    | Some f =>
        match Mem.read f (nodes l) with
        | Some n => Return (_elem n)
        | None => Abort
        end
    end.

Definition back (l : t) : outcome T :=
  if empty l then Throw EmptyListException
  else
    match _last l with
    | None => Abort
    | Some f =>
        match Mem.read f (nodes l) with
        | Some n => Return (_elem n)
        | None => Abort
        end
    end.

Definition pop_front (l : t) : outcome unit * t :=
  if empty l then (Throw EmptyListException, l)
  else
    match _first l with
    | None => (Abort, l)
    | Some aBorrar =>
        match Mem.read aBorrar (nodes l) with
        | None => (Abort, l)
        | Some nd =>
            let l1 := {| nodes := nodes l; _first := _next nd;
                         _last := _last l; _size := _size l |} in
            match deleteElem (Some aBorrar) l1 with
            | (Return _, l2) =>
                (Return tt,
                 {| nodes := nodes l2; _first := _first l2;
                    _last := match _first l2 with None => None | Some _ => _last l2 end;
                    _size := _size l2 |})
            | (Throw e', l2) => (Throw e', l2)
            | (Abort, l2) => (Abort, l2)
            | (OutOfFuel, l2) => (OutOfFuel, l2)
            end
        end
    end.

Definition pop_back (l : t) : outcome unit * t :=
  if empty l then (Throw EmptyListException, l)
  else
    match _last l with
    | None => (Abort, l)
    | Some aBorrar =>
        match Mem.read aBorrar (nodes l) with
        | None => (Abort, l)
        | Some nd =>
            let l1 := {| nodes := nodes l; _first := _first l;
                         _last := _prev nd; _size := _size l |} in
            match deleteElem (Some aBorrar) l1 with
            | (Return _, l2) =>
                (Return tt,
                 {| nodes := nodes l2;
                    _first := match _last l2 with None => None | Some _ => _first l2 end;
                    _last := _last l2;
                    _size := _size l2 |})
            | (Throw e', l2) => (Throw e', l2)
            | (Abort, l2) => (Abort, l2)
            | (OutOfFuel, l2) => (OutOfFuel, l2)
            end
        end
    end.
(** *** Further operations: indexing, iterators, copy, comparison *)

(** The loop of [at]: [n] steps along [_next] from [aux], then the
    element of the node reached. *)
Fixpoint at_loop (n : nat) (aux : option positive) (h : Mem.heap Node) : outcome T :=
  match aux with
  | None => Abort
  | Some a =>
      match Mem.read a h with
      | None => Abort
      | Some nd =>
          match n with
          | O => Return (_elem nd)
          | S n' => at_loop n' (_next nd) h
          end
      end
  end.

(** [at(idx)], [idx] an [unsigned int].  The counter of the loop is an
    [int]: it cannot reach an index from [2^31] on. *)
Definition at_ (idx : Z) (l : t) : outcome T :=
  if _size l <=? idx then Throw InvalidAccessException
  else if 2 ^ 31 <=? idx then Abort
  else at_loop (Z.to_nat idx) (_first l) (nodes l).

(** The iterators hold a pointer to the current node. *)
Record Iterator : Type := MkIterator { _current : option positive }.

Definition begin_ (l : t) : Iterator := MkIterator (_first l).
Definition end_ : Iterator := MkIterator None.

(** [it == end()] *)
Definition is_end (it : Iterator) : bool :=
  match _current it with None => true | Some _ => false end.

Definition next (it : Iterator) (l : t) : outcome Iterator :=
  match _current it with
  | None => Throw InvalidAccessException
  | Some c =>
      match Mem.read c (nodes l) with
      | Some nd => Return (MkIterator (_next nd))
      | None => Abort
      end
  end.

Definition elem (it : Iterator) (l : t) : outcome T :=
  match _current it with
  | None => Throw InvalidAccessException
  | Some c =>
      match Mem.read c (nodes l) with
      | Some nd => Return (_elem nd)
      | None => Abort
      end
  end.

Definition set (e : T) (it : Iterator) (l : t) : outcome unit * t :=
  match _current it with
  | None => (Throw InvalidAccessException, l)
  | Some c =>
      match Mem.read c (nodes l) with
      | Some nd =>
          (Return tt,
           {| nodes := Mem.write c (MkNode e (_next nd) (_prev nd)) (nodes l);
              _first := _first l; _last := _last l; _size := _size l |})
      | None => (Abort, l)
      end
  end.

Definition erase (it : Iterator) (l : t) : outcome Iterator * t :=
  match _current it with
  | None => (Throw InvalidAccessException, l)
  | Some c =>
      if bool_decide (Some c = _first l) then
        (let* _ := pop_front in fun l' => (Return (MkIterator (_first l')), l')) l
      else if bool_decide (Some c = _last l) then
        (let* _ := pop_back in sret (MkIterator None)) l
      else
        match Mem.read c (nodes l) with
        | None => (Abort, l)
        | Some nd =>
            (let* _ := deleteElem (Some c) in sret (MkIterator (_next nd))) l
        end
  end.

Definition insert (e : T) (it : Iterator) (l : t) : outcome unit * t :=
  if bool_decide (_first l = _current it) then push_front e l
  else
    match _current it with
    | None => push_back e l
    | Some c =>
        match Mem.read c (nodes l) with
        | None => (Abort, l)
        | Some nd => (let* _ := insertElem e (_prev nd) (Some c) in sret tt) l
        end
    end.

(** The loop of [operator==]. *)
Fixpoint eq_loop `{EqDecision T} (fuel : nat) (h1 h2 : Mem.heap Node)
    (p1 p2 : option positive) : outcome bool :=
  match p1, p2 with
  | Some a1, Some a2 =>
      match fuel with
      | O => OutOfFuel
      | S fuel' =>
          match Mem.read a1 h1, Mem.read a2 h2 with
          | Some n1, Some n2 =>
              if bool_decide (_elem n1 <> _elem n2) then Return false
              else eq_loop fuel' h1 h2 (_next n1) (_next n2)
          | _, _ => Abort
          end
      end
  | _, _ => Return true
  end.

Definition eq `{EqDecision T} (lhs rhs : t) : outcome bool :=
  if bool_decide (_size lhs <> _size rhs) then Return false
  else eq_loop (Pos.to_nat (Mem.brk (nodes lhs))) (nodes lhs) (nodes rhs)
         (_first lhs) (_first rhs).

Definition neq `{EqDecision T} (lhs rhs : t) : outcome bool :=
  let? b := eq lhs rhs in Return (negb b).

(** The loop of the static [free(Node *n)]. *)
Fixpoint free_loop (fuel : nat) (n : option positive) (h : Mem.heap Node)
    : outcome (Mem.heap Node) :=
  match n with
  | None => Return h
  | Some aux =>
      match fuel with
      | O => OutOfFuel
      | S fuel' =>
          match Mem.read aux h with
          | None => Abort
          | Some nd => free_loop fuel' (_next nd) (Mem.dealloc aux h)
          end
      end
  end.

(** [free()], also the destructor: the nodes are deleted and both
    pointers reset; [_size] is left as it is. *)
Definition free (l : t) : outcome t :=
  let checked :=
    match _first l with
    | None => Return tt
    | Some a =>
        match Mem.read a (nodes l) with
        | None => Abort
        | Some nd => match _prev nd with None => Return tt | Some _ => Abort end
        end
    end in
  let? _ := checked in
  let? h := free_loop (Pos.to_nat (Mem.brk (nodes l))) (_first l) (nodes l) in
  Return {| nodes := h; _first := None; _last := None; _size := _size l |}.

(** The loop of [copy]: one [push_back] on [this] for every node of the
    other list from [curr] on. *)
Fixpoint copy_loop (fuel : nat) (other : Mem.heap Node) (curr : option positive)
    (this : t) : outcome t :=
  match curr with
  | None => Return this
  | Some c =>
      match fuel with
      | O => OutOfFuel
      | S fuel' =>
          match Mem.read c other with
          | None => Abort
          | Some nd =>
              match push_back (_elem nd) this with
              | (Return _, this') => copy_loop fuel' other (_next nd) this'
              | (Throw e, _) => Throw e
              | (Abort, _) => Abort
              | (OutOfFuel, _) => OutOfFuel
              end
          end
      end
  end.

(** [this->copy(other)]: [_first] and [_size] are reset, [_last] is the
    caller's to reset. *)
Definition copy (this other : t) : outcome t :=
  copy_loop (Pos.to_nat (Mem.brk (nodes other))) (nodes other) (_first other)
    {| nodes := nodes this; _first := None; _last := _last this; _size := 0 |}.

(** The copy constructor. *)
Definition copy_ctor (other : t) : outcome t :=
  copy {| nodes := Mem.empty; _first := None; _last := None; _size := 0 |} other.

(** [*this = other] between two distinct lists. *)
Definition assign (this other : t) : outcome t :=
  let? this1 := free this in copy this1 other.

(** *** Vocabulary of the properties *)

(** The client loop [for (it = begin(); it != end(); ++it)], collecting
    [*it]; [fuel] bounds the number of rounds. *)
Fixpoint walk (fuel : nat) (it : Iterator) (l : t) : outcome (list T) :=
  if is_end it then Return []
  else
    match fuel with
    | O => OutOfFuel
    | S fuel' =>
        let? e := elem it l in
        let? it' := next it l in
        let? rest := walk fuel' it' l in
        Return (e :: rest)
    end.

Definition iterate (l : t) : outcome (list T) :=
  walk (Pos.to_nat (Mem.brk (nodes l))) (begin_ l) l.

(** The iterator [n] steps after [it]. *)
Fixpoint advance (n : nat) (it : Iterator) (l : t) : outcome Iterator :=
  match n with
  | O => Return it
  | S n' => let? it' := next it l in advance n' it' l
  end.

(** The address of the first node of [cells], [tail] when there is none;
    the address of the last one, [prev] when there is none. *)
Definition head_or (tail : option positive) (cells : list (positive * T))
    : option positive :=
  match cells with
  | [] => tail
  | (b, _) :: _ => Some b
  end.

Definition last_or (prev : option positive) (cells : list (positive * T))
    : option positive :=
  match last cells with
  | Some (a, _) => Some a
  | None => prev
  end.

(** The nodes [cells], in this order, are in the store with their
    elements, each linked to its two neighbours; the first one has [prev]
    before it and the last one [tail] after it. *)
Fixpoint chain (h : Mem.heap Node) (prev : option positive)
    (cells : list (positive * T)) (tail : option positive) : Prop :=
  match cells with
  | [] => True
  | (a, e) :: rest =>
      Mem.read a h = Some (MkNode e (head_or tail rest) prev) /\
      chain h (Some a) rest tail
  end.

(** The list consists of the nodes [cells], front first, and its store
    holds no other node. *)
Definition rep (l : t) (cells : list (positive * T)) : Prop :=
  chain (nodes l) None cells None /\
  Linked.owns (nodes l) cells /\
  _first l = Linked.first cells /\
  _last l = Linked.final cells /\
  _size l = wrap32 (Z.of_nat (length cells)).

(** A sequence of calls; a position stands for the iterator that many
    steps after [begin()]. *)
Inductive op : Type :=
  | PushFront (e : T)
  | PushBack (e : T)
  | PopFront
  | PopBack
  | Insert (i : nat) (e : T)
  | Erase (i : nat)
  | SetAt (i : nat) (e : T).

Definition apply (l : t) (o : op) : t :=
  match o with
  | PushFront e => (push_front e l).2
  | PushBack e => (push_back e l).2
  | PopFront => (pop_front l).2
  | PopBack => (pop_back l).2
  | Insert i e =>
      match advance i (begin_ l) l with
      | Return it => (insert e it l).2
      | _ => l
      end
  | Erase i =>
      match advance i (begin_ l) l with
      | Return it => (erase it l).2
      | _ => l
      end
  | SetAt i e =>
      match advance i (begin_ l) l with
      | Return it => (set e it l).2
      | _ => l
      end
  end.

Definition run (ops : list op) : t := foldl apply init ops.

(** The same calls on a list; a call that throws leaves it as it is. *)
Definition model_apply (m : list T) (o : op) : list T :=
  match o with
  | PushFront e => e :: m
  | PushBack e => m ++ [e]
  | PopFront => tail m
  | PopBack => removelast m
  | Insert i e => if bool_decide (i <= length m)%nat then take i m ++ e :: drop i m else m
  | Erase i => delete i m
  | SetAt i e => <[i := e]> m
  end.

Definition model (ops : list op) : list T := foldl model_apply [] ops.
End DList.
Arguments t T : clear implicits.
Arguments Node T : clear implicits.
Arguments op T : clear implicits.
End DList.

(** ** TreeMap.h: map on an unbalanced binary search tree

  The nodes of a [TreeMap] are owned by the map alone, so a [Node*] is
  embedded as the subtree it points to; an assignment to [p->_left] or
  [p->_right] rebuilds the node around the new child. *)
Module TreeMap.
Section TreeMap.
Context {K V : Type}.
(** The comparator [_cless]. *)
Variable cless : K -> K -> bool.

Inductive Node : Type :=
  | nullptr
  | node (_left : Node) (_key : K) (_value : V) (_right : Node).

Record t : Type := Build { _root : Node; _size : Z }.

Definition init : t := {| _root := nullptr; _size := 0 |}.

(** [insertAux] also bumps [_size], threaded here as [sz]. *)
Fixpoint insertAux (key : K) (value : V) (p : Node) (sz : Z) : Node * Z :=
  match p with
  | nullptr => (node nullptr key value nullptr, sz + 1)
  | node l k v r =>
      if cless key k then
        let '(l', sz') := insertAux key value l sz in (node l' k v r, sz')
      else if cless k key then
        let '(r', sz') := insertAux key value r sz in (node l k v r', sz')
      else (p, sz)
  end.

Definition insert (key : K) (value : V) (m : t) : t :=
  let '(r, sz) := insertAux key value (_root m) (_size m) in
  {| _root := r; _size := sz |}.

Fixpoint findAux (p : Node) (key : K) : Node :=
  match p with
  | nullptr => nullptr
  | node l k v r =>
      if cless key k then findAux l key
      else if cless k key then findAux r key
      else p
  end.

Definition at_ (key : K) (m : t) : outcome V :=
  match findAux (_root m) key with
  | nullptr => Throw BadKeyException
  | node _ _ v _ => Return v
  end.

Definition contains (key : K) (m : t) : bool :=
  match findAux (_root m) key with
  | nullptr => false
  | node _ _ _ _ => true
  end.

Definition empty (m : t) : bool :=
  match _root m with nullptr => true | node _ _ _ _ => false end.

Definition size (m : t) : Z := _size m.

(** The loop of [moveSmallestAndErase]: walks down the left spine of
    [aux]; yields the key and value of the smallest node together with
    the spine in which that node is replaced by its right child
    ([parent->_left = aux->_right]).  When [aux] itself is the smallest
    node (no parent), the remainder is [aux->_right]. *)
Fixpoint unlinkSmallest (aux : Node) : option (K * V * Node) :=
  match aux with
  | nullptr => None
  | node l k v r =>
      match unlinkSmallest l with
      | None => Some (k, v, r)
      | Some (k', v', l') => Some (k', v', node l' k v r)
      end
  end.

Definition moveSmallestAndErase (p : Node) : Node :=
  match p with
  | nullptr => nullptr
  | node l _ _ r =>
      match unlinkSmallest r with
      | Some (k', v', r') => node l k' v' r'
      | None => nullptr
      end
  end.

Definition eraseRoot (p : Node) : Node :=
  match p with
  | nullptr => nullptr
  | node nullptr _ _ r => r
  | node l _ _ nullptr => l
  | node _ _ _ _ => moveSmallestAndErase p
  end.

Fixpoint eraseAux (p : Node) (key : K) (sz : Z) : Node * Z :=
  match p with
  | nullptr => (nullptr, sz)
  | node l k v r =>
      if cless key k then
        let '(l', sz') := eraseAux l key sz in (node l' k v r, sz')
      else if cless k key then
        let '(r', sz') := eraseAux r key sz in (node l k v r', sz')
      else (eraseRoot p, sz - 1)
  end.

Definition erase (key : K) (m : t) : t :=
  let '(r, sz) := eraseAux (_root m) key (_size m) in
  {| _root := r; _size := sz |}.

(** *** Iterator

    [_ancestors] is a [Stack<Node*>]; its top is the head of the list. *)
Record Iterator : Type :=
  MkIterator { _current : Node; _ancestors : list Node }.

Fixpoint firstInOrder (p : Node) (anc : list Node) : Node * list Node :=
  match p with
  | nullptr => (nullptr, anc)
  | node l _ _ _ =>
      match l with
      | nullptr => (p, anc)
      | node _ _ _ _ => firstInOrder l (p :: anc)
      end
  end.

Definition mkIterator (current : Node) : Iterator :=
  let '(c, anc) := firstInOrder current [] in MkIterator c anc.

Definition begin_ (m : t) : Iterator := mkIterator (_root m).
Definition end_ : Iterator := mkIterator nullptr.

(** [it1 == it2] compares the current node pointers; against [end()]
    it is the null test. *)
Definition is_end (it : Iterator) : bool :=
  match _current it with nullptr => true | node _ _ _ _ => false end.

Definition next (it : Iterator) : outcome unit * Iterator :=
  match _current it with
  | nullptr => (Throw InvalidAccessException, it)
  | node _ _ _ r =>
      match r with
      | node _ _ _ _ =>
          let '(c, anc) := firstInOrder r (_ancestors it) in
          (Return tt, MkIterator c anc)
      | nullptr =>
          match _ancestors it with
          | [] => (Return tt, MkIterator nullptr [])
          | top :: rest => (Return tt, MkIterator top rest)
          end
      end
  end.

Definition key (it : Iterator) : outcome K :=
  match _current it with
  | nullptr => Throw InvalidAccessException
  | node _ k _ _ => Return k
  end.

(** The client loop [for (it = begin(); it != end(); ++it) visit(it.key())];
    [fuel] bounds the number of iterations, [None] when it is exhausted
    before [end()] is reached. *)
Fixpoint walk (fuel : nat) (it : Iterator) : option (list K) :=
  match fuel with
  | O => None
  | S fuel' =>
      if is_end it then Some []
      else
        match key it, next it with
        | Return k, (Return _, it') => cons k <$> walk fuel' it'
        | _, _ => None
        end
  end.

Fixpoint nodes (p : Node) : nat :=
  match p with
  | nullptr => O
  | node l _ _ r => S (nodes l + nodes r)
  end.

Definition iterate (m : t) : option (list K) :=
  walk (S (nodes (_root m))) (begin_ m).

(** *** Vocabulary of the properties *)

(** The keys below [p], left to right. *)
Fixpoint keys (p : Node) : list K :=
  match p with
  | nullptr => []
  | node l k _ r => keys l ++ k :: keys r
  end.

(** The keys an iterator still owes for its stacked ancestors: each one's
    own key, then its right subtree.  (A null entry would end the walk.) *)
Fixpoint pending (anc : list Node) : list K :=
  match anc with
  | [] => []
  | nullptr :: rest => []
  | node _ k _ r :: rest => k :: keys r ++ pending rest
  end.

Definition remaining (it : Iterator) : list K :=
  match _current it with
  | nullptr => []
  | node _ k _ r => k :: keys r ++ pending (_ancestors it)
  end.

(** A sequence of [insert] and [erase] calls. *)
Inductive op : Type :=
  | Insert (key : K) (value : V)
  | Erase (key : K).

Definition apply (m : t) (o : op) : t :=
  match o with
  | Insert key value => insert key value m
  | Erase key => erase key m
  end.

Definition run (ops : list op) : t := foldl apply init ops.

(** *** Further operations: [operator[]], [find] *)

(** [findOrInsert(root, key, inserted)]: the structure with the key in
    it, the node it returns (as the turns that lead to it from the root,
    [false] left and [true] right) and [inserted].  A new node holds the
    default value [V()]. *)
Fixpoint findOrInsert `{Inhabited V} (root : Node) (key : K)
    : Node * list bool * bool :=
  match root with
  | nullptr => (node nullptr key inhabitant nullptr, [], true)
  | node l k v r =>
      if cless key k then
        let '(l', ret, inserted) := findOrInsert l key in
        (node l' k v r, false :: ret, inserted)
      else if cless k key then
        let '(r', ret, inserted) := findOrInsert r key in
        (node l k v r', true :: ret, inserted)
      else (root, [], false)
  end.

(** [ret->_value] read and written through the node pointer [ret]. *)
Fixpoint value_at (ret : list bool) (root : Node) : option V :=
  match root, ret with
  | nullptr, _ => None
  | node _ _ v _, [] => Some v
  | node l _ _ _, false :: ret' => value_at ret' l
  | node _ _ _ r, true :: ret' => value_at ret' r
  end.

Fixpoint set_value_at (ret : list bool) (value : V) (root : Node) : Node :=
  match root, ret with
  | nullptr, _ => nullptr
  | node l k _ r, [] => node l k value r
  | node l k v r, false :: ret' => node (set_value_at ret' value l) k v r
  | node l k v r, true :: ret' => node l k v (set_value_at ret' value r)
  end.

(** [operator[]]: the map after the call and the node whose value the
    returned reference designates. *)
Definition subscript `{Inhabited V} (key : K) (m : t) : list bool * t :=
  let '(root, ret, inserted) := findOrInsert (_root m) key in
  (ret, {| _root := root; _size := if inserted then _size m + 1 else _size m |}).

(** [m[key]] as an rvalue, and [m[key] = value]. *)
Definition subscript_read `{Inhabited V} (key : K) (m : t) : outcome V * t :=
  let '(ret, m') := subscript key m in
  match value_at ret (_root m') with
  | Some v => (Return v, m')
  | None => (Abort, m')
  end.

Definition subscript_write `{Inhabited V} (key : K) (value : V) (m : t) : t :=
  let '(ret, m') := subscript key m in
  {| _root := set_value_at ret value (_root m'); _size := _size m' |}.

(** The loop of [find]: walks down from [p] while the key differs,
    stacking the nodes it leaves to the left. *)
Fixpoint findLoop (p : Node) (key : K) (ancestors : list Node) : Node * list Node :=
  match p with
  | nullptr => (nullptr, ancestors)
  | node l k _ r =>
      if cless k key || cless key k then
        if cless key k then findLoop l key (p :: ancestors)
        else findLoop r key ancestors
      else (p, ancestors)
  end.

Definition find (key : K) (m : t) : Iterator :=
  let '(p, ancestors) := findLoop (_root m) key [] in
  match p with
  | nullptr => MkIterator nullptr []
  | node _ _ _ _ => MkIterator p ancestors
  end.

(** [it.value()] *)
Definition value (it : Iterator) : outcome V :=
  match _current it with
  | nullptr => Throw InvalidAccessException
  | node _ _ v _ => Return v
  end.

(** *** Further vocabulary *)

(** The (key, value) pairs below [p], left to right. *)
Fixpoint bindings (p : Node) : list (K * V) :=
  match p with
  | nullptr => []
  | node l k v r => bindings l ++ (k, v) :: bindings r
  end.

(** Neither key is before the other: what the comparator takes for the
    same key. *)
Definition same_key (x y : K) : bool := negb (cless x y) && negb (cless y x).

(** The value [findAux] finds under a key. *)
Definition value_of (p : Node) (key : K) : option V :=
  match findAux p key with
  | nullptr => None
  | node _ _ v _ => Some v
  end.

(** The association that a sequence of calls builds, as a function from
    keys: [insert] binds a key that is not bound yet and leaves a bound
    one alone, [erase] unbinds. *)
Definition model_apply (f : K -> option V) (o : op) : K -> option V :=
  match o with
  | Insert key value =>
      fun x => if same_key x key then
                 match f x with Some w => Some w | None => Some value end
               else f x
  | Erase key => fun x => if same_key x key then None else f x
  end.

Definition model (ops : list op) : K -> option V :=
  foldl model_apply (fun _ => None) ops.

(** The iteration of the client loop from a given iterator. *)
Definition iterate_from (m : t) (it : Iterator) : option (list K) :=
  walk (S (nodes (_root m))) it.

(** What every call keeps: the keys in order, [_size] their number, the
    lookups those of [f], and at most [n] keys. *)
Definition tracks (m : t) (f : K -> option V) (n : nat) : Prop :=
  StronglySorted (fun x y => cless x y = true) (keys (_root m)) /\
  _size m = Z.of_nat (length (keys (_root m))) /\
  (forall x, value_of (_root m) x = f x) /\
  (length (keys (_root m)) <= n)%nat.
End TreeMap.
Arguments Node K V : clear implicits.
Arguments t K V : clear implicits.
Arguments Iterator K V : clear implicits.
Arguments op K V : clear implicits.
Arguments nullptr {K V}.
End TreeMap.

(** ** TreeSet.h: set on an unbalanced binary search tree

  Elements are compared with the element type's own [==] and [<]. *)
Module TreeSet.
Section TreeSet.
Context {T : Type} `{EqDecision T}.
(** [operator<] of the element type. *)
Variable lt : T -> T -> bool.

Inductive Node : Type :=
  | nullptr
  | node (_left : Node) (_elem : T) (_right : Node).

Record t : Type := Build { _root : Node }.

Definition init : t := {| _root := nullptr |}.

Fixpoint insertAux (elem : T) (p : Node) : Node :=
  match p with
  | nullptr => node nullptr elem nullptr
  | node l e r =>
      if bool_decide (e = elem) then p
      else if lt elem e then node (insertAux elem l) e r
      else node l e (insertAux elem r)
  end.

Definition insert (elem : T) (s : t) : t :=
  {| _root := insertAux elem (_root s) |}.

Fixpoint findAux (p : Node) (elem : T) : Node :=
  match p with
  | nullptr => nullptr
  | node l e r =>
      if bool_decide (e = elem) then p
      else if lt elem e then findAux l elem
      else findAux r elem
  end.

Definition contains (elem : T) (s : t) : bool :=
  match findAux (_root s) elem with
  | nullptr => false
  | node _ _ _ => true
  end.

Definition empty (s : t) : bool :=
  match _root s with nullptr => true | node _ _ _ => false end.

Fixpoint unlinkSmallest (aux : Node) : option (T * Node) :=
  match aux with
  | nullptr => None
  | node l e r =>
      match unlinkSmallest l with
      | None => Some (e, r)
      | Some (e', l') => Some (e', node l' e r)
      end
  end.

Definition moveSmallestAndErase (p : Node) : Node :=
  match p with
  | nullptr => nullptr
  | node l _ r =>
      match unlinkSmallest r with
      | Some (e', r') => node l e' r'
      | None => nullptr
      end
  end.

Definition eraseRoot (p : Node) : Node :=
  match p with
  | nullptr => nullptr
  | node nullptr _ r => r
  | node l _ nullptr => l
  | node _ _ _ => moveSmallestAndErase p
  end.

Fixpoint eraseAux (p : Node) (elem : T) : Node :=
  match p with
  | nullptr => nullptr
  | node l e r =>
      if bool_decide (elem = e) then eraseRoot p
      else if lt elem e then node (eraseAux l elem) e r
      else node l e (eraseAux r elem)
  end.

Definition erase (elem : T) (s : t) : t :=
  {| _root := eraseAux (_root s) elem |}.

Record Iterator : Type :=
  MkIterator { _current : Node; _ancestors : list Node }.

Fixpoint firstInOrder (p : Node) (anc : list Node) : Node * list Node :=
  match p with
  | nullptr => (nullptr, anc)
  | node l _ _ =>
      match l with
      | nullptr => (p, anc)
      | node _ _ _ => firstInOrder l (p :: anc)
      end
  end.

Definition mkIterator (act : Node) : Iterator :=
  let '(c, anc) := firstInOrder act [] in MkIterator c anc.

Definition begin_ (s : t) : Iterator := mkIterator (_root s).
Definition end_ : Iterator := mkIterator nullptr.

Definition is_end (it : Iterator) : bool :=
  match _current it with nullptr => true | node _ _ _ => false end.

Definition next (it : Iterator) : outcome unit * Iterator :=
  match _current it with
  | nullptr => (Throw InvalidAccessException, it)
  | node _ _ r =>
      match r with
      | node _ _ _ =>
          let '(c, anc) := firstInOrder r (_ancestors it) in
          (Return tt, MkIterator c anc)
      | nullptr =>
          match _ancestors it with
          | [] => (Return tt, MkIterator nullptr [])
          | top :: rest => (Return tt, MkIterator top rest)
          end
      end
  end.

Definition elem (it : Iterator) : outcome T :=
  match _current it with
  | nullptr => Throw InvalidAccessException
  | node _ e _ => Return e
  end.

Fixpoint walk (fuel : nat) (it : Iterator) : option (list T) :=
  match fuel with
  | O => None
  | S fuel' =>
      if is_end it then Some []
      else
        match elem it, next it with
        | Return e, (Return _, it') => cons e <$> walk fuel' it'
        | _, _ => None
        end
  end.

Fixpoint nodes (p : Node) : nat :=
  match p with
  | nullptr => O
  | node l _ r => S (nodes l + nodes r)
  end.

Definition iterate (s : t) : option (list T) :=
  walk (S (nodes (_root s))) (begin_ s).

(** *** Vocabulary of the properties *)

(** The elements below [p], left to right. *)
Fixpoint elems (p : Node) : list T :=
  match p with
  | nullptr => []
  | node l e r => elems l ++ e :: elems r
  end.

Fixpoint pending (anc : list Node) : list T :=
  match anc with
  | [] => []
  | nullptr :: rest => []
  | node _ e r :: rest => e :: elems r ++ pending rest
  end.

Definition remaining (it : Iterator) : list T :=
  match _current it with
  | nullptr => []
  | node _ e r => e :: elems r ++ pending (_ancestors it)
  end.

(** A sequence of [insert] and [erase] calls. *)
Inductive op : Type :=
  | Insert (elem : T)
  | Erase (elem : T).

Definition apply (s : t) (o : op) : t :=
  match o with
  | Insert e => insert e s
  | Erase e => erase e s
  end.

Definition run (ops : list op) : t := foldl apply init ops.
End TreeSet.
Arguments Node T : clear implicits.
Arguments t T : clear implicits.
Arguments Iterator T : clear implicits.
Arguments op T : clear implicits.
Arguments nullptr {T}.
End TreeSet.

(** ** HashMap.h: map on an open hash table

  Each bin is a singly-linked chain owned by the table, embedded as the
  list of its (key, value) nodes from the head of the chain; a pointer
  into a chain is the position of its node. *)
Module HashMap.
Section HashMap.
Context {K V : Type} `{EqDecision K}.
(** The hash functor [_hash], with its result read as an unsigned number. *)
Variable hash : K -> Z.

Record t : Type :=
  Build { _bins : list (list (K * V)); _binCount : Z; _entryCount : Z }.

Definition INITIAL_BIN_COUNT : Z := 8.
Definition MAX_OCCUPATION : Z := 80.

Definition init : t :=
  {| _bins := replicate (Z.to_nat INITIAL_BIN_COUNT) [];
     _binCount := INITIAL_BIN_COUNT; _entryCount := 0 |}.

(** Single-precision ([float]) arithmetic: IEEE 754 binary32. *)
Definition float_of_Z (z : Z) : spec_float := binary_normalize 24 128 z 0 false.

(** [100 * ((float) _entryCount) / _binCount] *)
Definition occupation (entryCount binCount : Z) : spec_float :=
  SFdiv 24 128
    (SFmul 24 128 (float_of_Z 100) (float_of_Z entryCount))
    (float_of_Z binCount).

(** [occupation > MAX_OCCUPATION] *)
Definition over_occupied (entryCount binCount : Z) : bool :=
  SFltb (float_of_Z MAX_OCCUPATION) (occupation entryCount binCount).

(** [_hash(key) % binCount] *)
Definition index (key : K) (binCount : Z) : nat := Z.to_nat (hash key mod binCount).

(** [_bins[idx]]; the table never reads outside the array. *)
Definition bin (bins : list (list (K * V))) (idx : nat) : list (K * V) :=
  bins !!! idx.

(** [findWithPrevious]: position of the first node of the chain holding
    [key], counted from [pos]; [None] is the null pointer.  The previous
    node is the one just before that position. *)
Fixpoint findWithPrevious (key : K) (current : list (K * V)) (pos : nat) : option nat :=
  match current with
  | [] => None
  | (k, _) :: rest =>
      if bool_decide (k = key) then Some pos
      else findWithPrevious key rest (S pos)
  end.

Definition findNode (key : K) (n : list (K * V)) : option nat :=
  findWithPrevious key n O.

(** Moves one node to the front of its bin in the new table. *)
Definition rehash_node (binCount : Z) (bins : list (list (K * V))) (aux : K * V)
    : list (list (K * V)) :=
  let idx := index (fst aux) binCount in
  <[idx := aux :: bin bins idx]> bins.

Definition grow (m : t) : t :=
  let oldBins := _bins m in
  let binCount' := wrap32 (_binCount m * 2) in
  let fresh := replicate (Z.to_nat binCount') [] in
  {| _bins := foldl (fun bins chain => foldl (rehash_node binCount') bins chain)
                fresh oldBins;
     _binCount := binCount';
     _entryCount := _entryCount m |}.

Definition insert (key : K) (value : V) (m : t) : t :=
  let m1 := if over_occupied (_entryCount m) (_binCount m) then grow m else m in
  let idx := index key (_binCount m1) in
  match findNode key (bin (_bins m1) idx) with
  | Some pos =>
      {| _bins := <[idx := <[pos := (key, value)]> (bin (_bins m1) idx)]> (_bins m1);
         _binCount := _binCount m1;
         _entryCount := _entryCount m1 |}
  | None =>
      {| _bins := <[idx := (key, value) :: bin (_bins m1) idx]> (_bins m1);
         _binCount := _binCount m1;
         _entryCount := wrap32 (_entryCount m1 + 1) |}
  end.

Definition erase (key : K) (m : t) : t :=
  let idx := index key (_binCount m) in
  match findNode key (bin (_bins m) idx) with
  | Some pos =>
      {| _bins := <[idx := delete pos (bin (_bins m) idx)]> (_bins m);
         _binCount := _binCount m;
         _entryCount := wrap32 (_entryCount m - 1) |}
  | None => m
  end.

Definition at_ (key : K) (m : t) : outcome V :=
  let chain := bin (_bins m) (index key (_binCount m)) in
  match findNode key chain with
  | None => Throw BadKeyException
  | Some pos =>
      match chain !! pos with
      | Some (_, v) => Return v
      | None => Abort
      end
  end.

Definition contains (key : K) (m : t) : bool :=
  match findNode key (bin (_bins m) (index key (_binCount m))) with
  | None => false
  | Some _ => true
  end.

Definition empty (m : t) : bool := _entryCount m =? 0.

Definition size (m : t) : Z := to_int (_entryCount m).

(** *** Vocabulary of the properties *)

(** All (key, value) nodes of the table, bin after bin. *)
Definition entries (m : t) : list (K * V) := concat (_bins m).

Definition keys (m : t) : list K := (entries m).*1.

(** A sequence of [insert] and [erase] calls. *)
Inductive op : Type :=
  | Insert (key : K) (value : V)
  | Erase (key : K).

Definition apply (m : t) (o : op) : t :=
  match o with
  | Insert key value => insert key value m
  | Erase key => erase key m
  end.

Definition run (ops : list op) : t := foldl apply init ops.

(** The reference the table is compared with: the association the same
    calls build, as a function from keys. *)
Definition ref_apply (f : K -> option V) (o : op) : K -> option V :=
  match o with
  | Insert key value => fun k => if decide (k = key) then Some value else f k
  | Erase key => fun k => if decide (k = key) then None else f k
  end.




(** The counters fit their types: doubling [_binCount] does not wrap and
    the entry count converts to [int] unchanged. *)
Definition in_range (m : t) : Prop :=
  _binCount m < 2 ^ 31 /\ _entryCount m < 2 ^ 31 - 1.

(** The representation invariant of the table. *)
Record wf (m : t) : Prop := {
  wf_count : 0 < _binCount m;
  wf_length : length (_bins m) = Z.to_nat (_binCount m);
  wf_place : forall i chain k v,
    _bins m !! i = Some chain -> (k, v) ∈ chain -> index k (_binCount m) = i;
  wf_nodup : NoDup (keys m);
  wf_entries : _entryCount m = Z.of_nat (length (entries m))
}.

(** The table holds exactly the associations of [f]. *)
Definition agrees (m : t) (f : K -> option V) : Prop :=
  forall k v, (k, v) ∈ entries m <-> f k = Some v.

(** Every table met while the calls [ops] run from [m] is in range. *)
Fixpoint within (m : t) (ops : list op) : Prop :=
  in_range m /\
  match ops with
  | [] => True
  | o :: rest => within (apply m o) rest
  end.
(** *** Further operations: [operator[]], iterators, copy *)

(** [n->_value] for the node at position [pos] of a chain. *)
Definition value_at (chain : list (K * V)) (pos : nat) : outcome V :=
  match chain !! pos with
  | Some (_, v) => Return v
  | None => Abort
  end.

(** [operator[]], read: the value the returned reference designates and
    the map after the call.  A key that is not there is first inserted
    with the default value [V()]. *)
Definition subscript `{Inhabited V} (key : K) (m : t) : outcome V * t :=
  let idx := index key (_binCount m) in
  match findNode key (bin (_bins m) idx) with
  | Some pos => (value_at (bin (_bins m) idx) pos, m)
  | None =>
      let m1 := insert key inhabitant m in
      let idx1 := index key (_binCount m1) in
      match findNode key (bin (_bins m1) idx1) with
      | Some pos => (value_at (bin (_bins m1) idx1) pos, m1)
      | None => (Abort, m1)
      end
  end.

(** [n->_value = value] for the node at position [pos] of bin [idx]. *)
Definition set_value (idx pos : nat) (value : V) (m : t) : t :=
  {| _bins :=
       <[idx := alter (fun n => (n.1, value)) pos (bin (_bins m) idx)]> (_bins m);
     _binCount := _binCount m;
     _entryCount := _entryCount m |}.

(** [m[key] = value] *)
Definition subscript_write `{Inhabited V} (key : K) (value : V) (m : t)
    : outcome unit * t :=
  let idx := index key (_binCount m) in
  match findNode key (bin (_bins m) idx) with
  | Some pos => (Return tt, set_value idx pos value m)
  | None =>
      let m1 := insert key inhabitant m in
      let idx1 := index key (_binCount m1) in
      match findNode key (bin (_bins m1) idx1) with
      | Some pos => (Return tt, set_value idx1 pos value m1)
      | None => (Abort, m1)
      end
  end.

(** An iterator over the table it is used with.  The node pointer
    [_current] is the chain from that node on, the null pointer the empty
    chain. *)
Record Iterator : Type := MkIterator { _current : list (K * V); _idx : Z }.

(** The loop [while (n == nullptr && idx < _binCount - 1) { idx++; n =
    _bins[idx]; }] of [begin] and [next]; [fuel] bounds its iterations. *)
Fixpoint skip_empty (fuel : nat) (m : t) (n : list (K * V)) (idx : Z)
    : outcome Iterator :=
  match n with
  | _ :: _ => Return (MkIterator n idx)
  | [] =>
      if idx <? wrap32 (_binCount m - 1) then
        match fuel with
        | O => OutOfFuel
        | S fuel' =>
            let idx' := wrap32 (idx + 1) in
            skip_empty fuel' m (bin (_bins m) (Z.to_nat idx')) idx'
        end
      else Return (MkIterator [] idx)
  end.

(** The loop advances [idx] at most [_binCount] times. *)
Definition skip_fuel (m : t) : nat := Z.to_nat (_binCount m).

Definition begin_ (m : t) : outcome Iterator :=
  skip_empty (skip_fuel m) m (bin (_bins m) 0) 0.

Definition end_ : Iterator := MkIterator [] 0.

(** [it != end()] compares the node pointers only. *)
Definition is_end (it : Iterator) : bool :=
  match _current it with [] => true | _ :: _ => false end.

Definition next (m : t) (it : Iterator) : outcome Iterator :=
  match _current it with
  | [] => Throw InvalidAccessException
  | _ :: rest => skip_empty (skip_fuel m) m rest (_idx it)
  end.

Definition key (it : Iterator) : outcome K :=
  match _current it with
  | [] => Throw InvalidAccessException
  | (k, _) :: _ => Return k
  end.

Definition value (it : Iterator) : outcome V :=
  match _current it with
  | [] => Throw InvalidAccessException
  | (_, v) :: _ => Return v
  end.

Definition find (key : K) (m : t) : Iterator :=
  let idx := index key (_binCount m) in
  let chain := bin (_bins m) idx in
  match findNode key chain with
  | Some pos => MkIterator (drop pos chain) (Z.of_nat idx)
  | None => MkIterator [] (Z.of_nat idx)
  end.

(** The client loop [for (it = begin(); it != end(); ++it)] collecting
    [(it.key(), it.value())]; [fuel] bounds the number of entries
    visited. *)
Fixpoint walk (fuel : nat) (m : t) (it : Iterator) : outcome (list (K * V)) :=
  match fuel with
  | O => OutOfFuel
  | S fuel' =>
      if is_end it then Return []
      else
        let? k := key it in
        let? v := value it in
        let? it' := next m it in
        let? rest := walk fuel' m it' in
        Return ((k, v) :: rest)
  end.

Definition iterate (m : t) : outcome (list (K * V)) :=
  let? it := begin_ m in
  walk (S (length (concat (_bins m)))) m it.

(** The entries an iterator still owes: its chain from the current node
    on, then the bins after its own. *)
Definition remaining (m : t) (it : Iterator) : list (K * V) :=
  _current it ++ concat (drop (S (Z.to_nat (_idx it))) (_bins m)).

(** [copy(other)]: every bin is copied node by node, each new node put in
    front of the ones copied before it. *)
Definition copy (other : t) : t :=
  {| _bins :=
       (fun i => foldl (fun b n => n :: b) [] (bin (_bins other) i))
         <$> seq 0 (Z.to_nat (_binCount other));
     _binCount := _binCount other;
     _entryCount := _entryCount other |}.
End HashMap.
Arguments t K V : clear implicits.
Arguments op K V : clear implicits.

End HashMap.

(** ** Textual input

  [std::cin] as the sequence of tokens still to be read.  One extraction
  consumes one token: [cin >> c] a character, [cin >> elem] an element.
  An extraction that meets the end of the input or a token of the other
  kind fails; every later extraction fails too, which is the behaviour of
  an exhausted stream. *)
Inductive token (T : Type) : Type :=
| Chr (c : ascii)
| Val (e : T).
Arguments Chr {T} c.
Arguments Val {T} e.

(** [cin >> elem]: on failure the variable holds the value-initialised
  [T()]. *)
Definition read_elem {T} `{Inhabited T} (cin : list (token T)) : T * list (token T) :=
match cin with
| Val e :: rest => (e, rest)
| _ => (inhabitant, [])
end.

(** [cin >> c]: on failure the character is indeterminate. *)
Definition read_char {T} (cin : list (token T)) : option ascii * list (token T) :=
match cin with
| Chr c :: rest => (Some c, rest)
| _ => (None, [])
end.

(** ** BinTree.h: shared binary tree with manual reference counting *)
Module BinTree.
Section BinTree.
Context {T : Type} `{EqDecision T} `{Inhabited T}.

Record Node : Type :=
  MkNode { _elem : T; _left : option positive; _right : option positive; _refs : Z }.

(** A tree handle is its [_root] field. *)
Definition t : Type := option positive.

Local Abbreviation store := (Mem.heap Node).
Local Abbreviation M A := (store -> outcome A * store).

Definition with_refs (n : Node) (r : Z) : Node :=
  MkNode (_elem n) (_left n) (_right n) r.

(** [assert(_refs >= 0); _refs++;] on an [int] counter: the increment is
    the mathematical one, meant for counts below [INT_MAX]. *)
Definition addRef (p : positive) : M unit := fun h =>
  match Mem.read p h with
  | None => (Abort, h)
  | Some n =>
      if 0 <=? _refs n then (Return tt, Mem.write p (with_refs n (_refs n + 1)) h)
      else (Abort, h)
  end.

Definition rmRef (p : positive) : M unit := fun h =>
  match Mem.read p h with
  | None => (Abort, h)
  | Some n =>
      if 0 <? _refs n then (Return tt, Mem.write p (with_refs n (_refs n - 1)) h)
      else (Abort, h)
  end.

(** [if (q != nullptr) q->addRef()] *)
Definition addRef_opt (q : option positive) : M unit :=
  match q with
  | None => sret tt
  | Some p => addRef p
  end.

(** [new Node(left, elem, right)] *)
Definition newNode (left : option positive) (elem : T) (right : option positive)
    : M positive := fun h =>
  let '(p, h1) := Mem.alloc (MkNode elem left right 0) h in
  (let* _ := addRef_opt left in
   let* _ := addRef_opt right in
   sret p) h1.

(** [BinTree()] *)
Definition mkEmpty : t := None.

(** [BinTree(iz, elem, dr)] *)
Definition mkNode (iz : t) (elem : T) (dr : t) : M t :=
  let* p := newNode iz elem dr in
  let* _ := addRef p in
  sret (Some p).

(** [BinTree(elem)] *)
Definition mkLeaf (elem : T) : M t :=
  let* p := newNode None elem None in
  let* _ := addRef p in
  sret (Some p).

(** The protected [BinTree(Node *raiz)]. *)
Definition fromNode (raiz : option positive) : M t :=
  let* _ := addRef_opt raiz in
  sret raiz.

(** The copy constructor, through [copy(other)]. *)
Definition copy (other : t) : M t :=
  let* _ := addRef_opt other in
  sret other.

Definition empty (tr : t) : bool :=
  match tr with None => true | Some _ => false end.

(** [free(Node *root)]; [fuel] bounds the depth of the recursion. *)
Fixpoint freeAux (fuel : nat) (root : option positive) : M unit :=
  match root with
  | None => sret tt
  | Some p =>
      match fuel with
      | O => fun h => (OutOfFuel, h)
      | S fuel' =>
          let* _ := rmRef p in
          fun h =>
            match Mem.read p h with
            | None => (Abort, h)
            | Some n =>
                if _refs n =? 0 then
                  (let* _ := freeAux fuel' (_left n) in
                   fun h1 =>
                     match Mem.read p h1 with
                     | None => (Abort, h1)
                     | Some n1 =>
                         (let* _ := freeAux fuel' (_right n1) in
                          fun h2 => (Return tt, Mem.dealloc p h2)) h1
                     end) h
                else (Return tt, h)
            end
      end
  end.

(** Addresses grow with every allocation, so the address counter bounds
    the depth of any chain of nodes. *)
Definition depth_fuel (h : store) : nat := Pos.to_nat (Mem.brk h).

(** [free()] *)
Definition free (tr : t) : M unit := fun h => freeAux (depth_fuel h) tr h.

(** The destructor [~BinTree()]. *)
Definition destroy (tr : t) : M unit := free tr.

(** [*this = other] between two distinct handle objects; yields the new
    [_root] of [this]. *)
Definition assign (this other : t) : M t :=
  let* _ := free this in
  copy other.

Definition elem (tr : t) (h : store) : outcome T :=
  if empty tr then Throw EmptyTreeException
  else
    match tr with
    | None => Abort
    | Some p =>
        match Mem.read p h with
        | Some n => Return (_elem n)
        | None => Abort
        end
    end.

Definition left (tr : t) : M t := fun h =>
  if empty tr then (Throw EmptyTreeException, h)
  else
    match tr with
    | None => (Abort, h)
    | Some p =>
        match Mem.read p h with
        | Some n => fromNode (_left n) h
        | None => (Abort, h)
        end
    end.

Definition right (tr : t) : M t := fun h =>
  if empty tr then (Throw EmptyTreeException, h)
  else
    match tr with
    | None => (Abort, h)
    | Some p =>
        match Mem.read p h with
        | Some n => fromNode (_right n) h
        | None => (Abort, h)
        end
    end.

(** *** Traversals; [acc.push_back(e)] appends to the result list. *)
Fixpoint preOrderAux (fuel : nat) (root : option positive) (acc : list T)
    (h : store) : outcome (list T) :=
  match root with
  | None => Return acc
  | Some p =>
      match fuel with
      | O => OutOfFuel
      | S fuel' =>
          match Mem.read p h with
          | None => Abort
          | Some n =>
              let? acc1 := preOrderAux fuel' (_left n) (acc ++ [_elem n]) h in
              preOrderAux fuel' (_right n) acc1 h
          end
      end
  end.

Fixpoint inOrderAux (fuel : nat) (root : option positive) (acc : list T)
    (h : store) : outcome (list T) :=
  match root with
  | None => Return acc
  | Some p =>
      match fuel with
      | O => OutOfFuel
      | S fuel' =>
          match Mem.read p h with
          | None => Abort
          | Some n =>
              let? acc1 := inOrderAux fuel' (_left n) acc h in
              inOrderAux fuel' (_right n) (acc1 ++ [_elem n]) h
          end
      end
  end.

Fixpoint postOrderAux (fuel : nat) (root : option positive) (acc : list T)
    (h : store) : outcome (list T) :=
  match root with
  | None => Return acc
  | Some p =>
      match fuel with
      | O => OutOfFuel
      | S fuel' =>
          match Mem.read p h with
          | None => Abort
          | Some n =>
              let? acc1 := postOrderAux fuel' (_left n) acc h in
              let? acc2 := postOrderAux fuel' (_right n) acc1 h in
              Return (acc2 ++ [_elem n])
          end
      end
  end.

Definition preOrder (tr : t) (h : store) : outcome (list T) :=
  preOrderAux (depth_fuel h) tr [] h.
Definition inOrder (tr : t) (h : store) : outcome (list T) :=
  inOrderAux (depth_fuel h) tr [] h.
Definition postOrder (tr : t) (h : store) : outcome (list T) :=
  postOrderAux (depth_fuel h) tr [] h.

(** The [while (!pending.empty())] loop of [levels]; [pending] is the
    queue from its front, [fuel] bounds the number of iterations. *)
Fixpoint levelsLoop (fuel : nat) (pending : list positive) (ret : list T)
    (h : store) : outcome (list T) :=
  match pending with
  | [] => Return ret
  | current :: rest =>
      match fuel with
      | O => OutOfFuel
      | S fuel' =>
          match Mem.read current h with
          | None => Abort
          | Some n =>
              levelsLoop fuel'
                (rest ++ option_list (_left n) ++ option_list (_right n))
                (ret ++ [_elem n]) h
          end
      end
  end.

(** Number of nodes met when the structure below [root] is walked as a
    tree; bounds the iterations of [levels]. *)
Fixpoint span (fuel : nat) (root : option positive) (h : store) : nat :=
  match root, fuel with
  | Some p, S fuel' =>
      match Mem.read p h with
      | Some n => S (span fuel' (_left n) h + span fuel' (_right n) h)
      | None => O
      end
  | _, _ => O
  end.

Definition levels (tr : t) (h : store) : outcome (list T) :=
  if negb (empty tr) then
    levelsLoop (span (depth_fuel h) tr h) (option_list tr) [] h
  else Return [].

(** *** Other observers *)
Fixpoint nodeCountAux (fuel : nat) (root : option positive) (h : store) : outcome Z :=
  match root with
  | None => Return 0
  | Some p =>
      match fuel with
      | O => OutOfFuel
      | S fuel' =>
          match Mem.read p h with
          | None => Abort
          | Some n =>
              let? a := nodeCountAux fuel' (_left n) h in
              let? b := nodeCountAux fuel' (_right n) h in
              Return (wrap32 (1 + a + b))
          end
      end
  end.

Fixpoint depthAux (fuel : nat) (root : option positive) (h : store) : outcome Z :=
  match root with
  | None => Return 0
  | Some p =>
      match fuel with
      | O => OutOfFuel
      | S fuel' =>
          match Mem.read p h with
          | None => Abort
          | Some n =>
              let? a := depthAux fuel' (_left n) h in
              let? b := depthAux fuel' (_right n) h in
              let leftDepth := to_int a in
              let rightDepth := to_int b in
              if leftDepth >? rightDepth then Return (wrap32 (1 + leftDepth))
              else Return (wrap32 (1 + rightDepth))
          end
      end
  end.

Fixpoint leafCountAux (fuel : nat) (root : option positive) (h : store) : outcome Z :=
  match root with
  | None => Return 0
  | Some p =>
      match fuel with
      | O => OutOfFuel
      | S fuel' =>
          match Mem.read p h with
          | None => Abort
          | Some n =>
              match _left n, _right n with
              | None, None => Return 1
              | _, _ =>
                  let? a := leafCountAux fuel' (_left n) h in
                  let? b := leafCountAux fuel' (_right n) h in
                  Return (wrap32 (a + b))
              end
          end
      end
  end.

Definition nodeCount (tr : t) (h : store) : outcome Z := nodeCountAux (depth_fuel h) tr h.
Definition depth (tr : t) (h : store) : outcome Z := depthAux (depth_fuel h) tr h.
Definition leafCount (tr : t) (h : store) : outcome Z := leafCountAux (depth_fuel h) tr h.

Fixpoint compareAux (fuel : nat) (r1 r2 : option positive) (h : store) : outcome bool :=
  if bool_decide (r1 = r2) then Return true
  else
    match r1, r2 with
    | Some p1, Some p2 =>
        match fuel with
        | O => OutOfFuel
        | S fuel' =>
            match Mem.read p1 h, Mem.read p2 h with
            | Some n1, Some n2 =>
                if bool_decide (_elem n1 = _elem n2) then
                  let? b := compareAux fuel' (_left n1) (_left n2) h in
                  if b then compareAux fuel' (_right n1) (_right n2) h
                  else Return false
                else Return false
            | _, _ => Abort
            end
        end
    | _, _ => Return false
    end.

(** [operator==] and [operator!=] *)
Definition eq (lhs rhs : t) (h : store) : outcome bool :=
  compareAux (depth_fuel h) lhs rhs h.
Definition neq (lhs rhs : t) (h : store) : outcome bool :=
  let? b := eq lhs rhs h in Return (negb b).

(** *** Input builders; the local handles [hi], [hd] ([left], [right])
    are destroyed on return, in reverse order of construction. *)
Fixpoint fromPreOrderInputAux (fuel : nat) (emptyRep : T) (cin : list (token T))
    : M (t * list (token T)) :=
  match fuel with
  | O => fun h => (OutOfFuel, h)
  | S fuel' =>
      let '(elem, cin1) := read_elem cin in
      if bool_decide (elem = emptyRep) then sret (mkEmpty, cin1)
      else
        let* (hi, cin2) := fromPreOrderInputAux fuel' emptyRep cin1 in
        let* (hd, cin3) := fromPreOrderInputAux fuel' emptyRep cin2 in
        let* res := mkNode hi elem hd in
        let* _ := destroy hd in
        let* _ := destroy hi in
        sret (res, cin3)
  end.

(** Every call consumes a token or meets the end of the input, so the
    depth of the recursion of a call that returns is at most the number of
    tokens plus one. *)
Definition fromPreOrderInput (emptyRep : T) (cin : list (token T))
    : M (t * list (token T)) :=
  fromPreOrderInputAux (S (length cin)) emptyRep cin.

Fixpoint fromInOrderInputAux (fuel : nat) (cin : list (token T))
    : M (t * list (token T)) :=
  match fuel with
  | O => fun h => (OutOfFuel, h)
  | S fuel' =>
      match read_char cin with
      | (None, _) => fun h => (Abort, h)
      | (Some c, cin1) =>
          if bool_decide (c = "."%char) then sret (mkEmpty, cin1)
          else if bool_decide (c = "("%char) then
            let* (left, cin2) := fromInOrderInputAux fuel' cin1 in
            let '(elem, cin3) := read_elem cin2 in
            let* (right, cin4) := fromInOrderInputAux fuel' cin3 in
            match read_char cin4 with
            | (Some c', cin5) =>
                if bool_decide (c' = ")"%char) then
                  let* result := mkNode left elem right in
                  let* _ := destroy right in
                  let* _ := destroy left in
                  sret (result, cin5)
                else fun h => (Abort, h)
            | (None, _) => fun h => (Abort, h)
            end
          else fun h => (Abort, h)
      end
  end.

Definition fromInOrderInput (cin : list (token T)) : M (t * list (token T)) :=
  fromInOrderInputAux (S (length cin)) cin.

(** The handles of a list going out of scope one after the other: the
    destructor runs on each of them. *)
Fixpoint destroy_all (trs : list t) : M unit :=
  match trs with
  | [] => sret tt
  | tr :: rest =>
      let* _ := destroy tr in
      destroy_all rest
  end.
End BinTree.
Arguments Node T : clear implicits.
End BinTree.

(** ** BinTreeSmart.h: shared binary tree with [std::shared_ptr]

  A [Link] ([std::shared_ptr<Node>]) is embedded as a nullable address.
  The pointee of a shared pointer lives at least as long as any owner, and
  the class never looks at use counts, so the store only ever gains nodes;
  copying and dropping a [Link] leave it untouched. *)
Module BinTreeSmart.
Section BinTreeSmart.
Context {T : Type} `{EqDecision T} `{Inhabited T}.

Record Node : Type :=
  MkNode { _elem : T; _left : option positive; _right : option positive }.

(** A tree handle is its [_root] field. *)
Definition t : Type := option positive.

Local Abbreviation store := (Mem.heap Node).
Local Abbreviation M A := (store -> outcome A * store).

(** [std::make_shared<Node>(Node(left, elem, right))] *)
Definition make_shared (left : option positive) (elem : T) (right : option positive)
    : M positive := fun h =>
  let '(p, h1) := Mem.alloc (MkNode elem left right) h in (Return p, h1).

(** [BinTreeSmart()] *)
Definition mkEmpty : t := None.

(** [BinTreeSmart(left, elem, right)] *)
Definition mkNode (left : t) (elem : T) (right : t) : M t :=
  let* p := make_shared left elem right in
  sret (Some p).

(** [BinTreeSmart(elem)] *)
Definition mkLeaf (elem : T) : M t :=
  let* p := make_shared None elem None in
  sret (Some p).

(** The protected [BinTreeSmart(Link raiz)]. *)
Definition fromNode (raiz : option positive) : M t := sret raiz.

Definition empty (tr : t) : bool :=
  match tr with None => true | Some _ => false end.

Definition elem (tr : t) (h : store) : outcome T :=
  if empty tr then Throw EmptyTreeException
  else
    match tr with
    | None => Abort
    | Some p =>
        match Mem.read p h with
        | Some n => Return (_elem n)
        | None => Abort
        end
    end.

Definition left (tr : t) : M t := fun h =>
  if empty tr then (Throw EmptyTreeException, h)
  else
    match tr with
    | None => (Abort, h)
    | Some p =>
        match Mem.read p h with
        | Some n => fromNode (_left n) h
        | None => (Abort, h)
        end
    end.

Definition right (tr : t) : M t := fun h =>
  if empty tr then (Throw EmptyTreeException, h)
  else
    match tr with
    | None => (Abort, h)
    | Some p =>
        match Mem.read p h with
        | Some n => fromNode (_right n) h
        | None => (Abort, h)
        end
    end.

Fixpoint preOrderAux (fuel : nat) (root : option positive) (acc : list T)
    (h : store) : outcome (list T) :=
  match root with
  | None => Return acc
  | Some p =>
      match fuel with
      | O => OutOfFuel
      | S fuel' =>
          match Mem.read p h with
          | None => Abort
          | Some n =>
              let? acc1 := preOrderAux fuel' (_left n) (acc ++ [_elem n]) h in
              preOrderAux fuel' (_right n) acc1 h
          end
      end
  end.

Fixpoint inOrderAux (fuel : nat) (root : option positive) (acc : list T)
    (h : store) : outcome (list T) :=
  match root with
  | None => Return acc
  | Some p =>
      match fuel with
      | O => OutOfFuel
      | S fuel' =>
          match Mem.read p h with
          | None => Abort
          | Some n =>
              let? acc1 := inOrderAux fuel' (_left n) acc h in
              inOrderAux fuel' (_right n) (acc1 ++ [_elem n]) h
          end
      end
  end.

Fixpoint postOrderAux (fuel : nat) (root : option positive) (acc : list T)
    (h : store) : outcome (list T) :=
  match root with
  | None => Return acc
  | Some p =>
      match fuel with
      | O => OutOfFuel
      | S fuel' =>
          match Mem.read p h with
          | None => Abort
          | Some n =>
              let? acc1 := postOrderAux fuel' (_left n) acc h in
              let? acc2 := postOrderAux fuel' (_right n) acc1 h in
              Return (acc2 ++ [_elem n])
          end
      end
  end.

Definition depth_fuel (h : store) : nat := Pos.to_nat (Mem.brk h).

Definition preOrder (tr : t) (h : store) : outcome (list T) :=
  preOrderAux (depth_fuel h) tr [] h.
Definition inOrder (tr : t) (h : store) : outcome (list T) :=
  inOrderAux (depth_fuel h) tr [] h.
Definition postOrder (tr : t) (h : store) : outcome (list T) :=
  postOrderAux (depth_fuel h) tr [] h.

Fixpoint levelsLoop (fuel : nat) (pending : list positive) (ret : list T)
    (h : store) : outcome (list T) :=
  match pending with
  | [] => Return ret
  | current :: rest =>
      match fuel with
      | O => OutOfFuel
      | S fuel' =>
          match Mem.read current h with
          | None => Abort
          | Some n =>
              levelsLoop fuel'
                (rest ++ option_list (_left n) ++ option_list (_right n))
                (ret ++ [_elem n]) h
          end
      end
  end.

Fixpoint span (fuel : nat) (root : option positive) (h : store) : nat :=
  match root, fuel with
  | Some p, S fuel' =>
      match Mem.read p h with
      | Some n => S (span fuel' (_left n) h + span fuel' (_right n) h)
      | None => O
      end
  | _, _ => O
  end.

Definition levels (tr : t) (h : store) : outcome (list T) :=
  if negb (empty tr) then
    levelsLoop (span (depth_fuel h) tr h) (option_list tr) [] h
  else Return [].

Fixpoint nodeCountAux (fuel : nat) (root : option positive) (h : store) : outcome Z :=
  match root with
  | None => Return 0
  | Some p =>
      match fuel with
      | O => OutOfFuel
      | S fuel' =>
          match Mem.read p h with
          | None => Abort
          | Some n =>
              let? a := nodeCountAux fuel' (_left n) h in
              let? b := nodeCountAux fuel' (_right n) h in
              Return (wrap32 (1 + a + b))
          end
      end
  end.

Fixpoint depthAux (fuel : nat) (root : option positive) (h : store) : outcome Z :=
  match root with
  | None => Return 0
  | Some p =>
      match fuel with
      | O => OutOfFuel
      | S fuel' =>
          match Mem.read p h with
          | None => Abort
          | Some n =>
              let? a := depthAux fuel' (_left n) h in
              let? b := depthAux fuel' (_right n) h in
              let leftDepth := to_int a in
              let rightDepth := to_int b in
              if leftDepth >? rightDepth then Return (wrap32 (1 + leftDepth))
              else Return (wrap32 (1 + rightDepth))
          end
      end
  end.

Fixpoint leafCountAux (fuel : nat) (root : option positive) (h : store) : outcome Z :=
  match root with
  | None => Return 0
  | Some p =>
      match fuel with
      | O => OutOfFuel
      | S fuel' =>
          match Mem.read p h with
          | None => Abort
          | Some n =>
              match _left n, _right n with
              | None, None => Return 1
              | _, _ =>
                  let? a := leafCountAux fuel' (_left n) h in
                  let? b := leafCountAux fuel' (_right n) h in
                  Return (wrap32 (a + b))
              end
          end
      end
  end.

Definition nodeCount (tr : t) (h : store) : outcome Z := nodeCountAux (depth_fuel h) tr h.
Definition depth (tr : t) (h : store) : outcome Z := depthAux (depth_fuel h) tr h.
Definition leafCount (tr : t) (h : store) : outcome Z := leafCountAux (depth_fuel h) tr h.

Fixpoint compareAux (fuel : nat) (r1 r2 : option positive) (h : store) : outcome bool :=
  if bool_decide (r1 = r2) then Return true
  else
    match r1, r2 with
    | Some p1, Some p2 =>
        match fuel with
        | O => OutOfFuel
        | S fuel' =>
            match Mem.read p1 h, Mem.read p2 h with
            | Some n1, Some n2 =>
                if bool_decide (_elem n1 = _elem n2) then
                  let? b := compareAux fuel' (_left n1) (_left n2) h in
                  if b then compareAux fuel' (_right n1) (_right n2) h
                  else Return false
                else Return false
            | _, _ => Abort
            end
        end
    | _, _ => Return false
    end.

Definition eq (lhs rhs : t) (h : store) : outcome bool :=
  compareAux (depth_fuel h) lhs rhs h.
Definition neq (lhs rhs : t) (h : store) : outcome bool :=
  let? b := eq lhs rhs h in Return (negb b).

Fixpoint fromPreOrderInputAux (fuel : nat) (emptyRep : T) (cin : list (token T))
    : M (t * list (token T)) :=
  match fuel with
  | O => fun h => (OutOfFuel, h)
  | S fuel' =>
      let '(elem, cin1) := read_elem cin in
      if bool_decide (elem = emptyRep) then sret (mkEmpty, cin1)
      else
        let* (hi, cin2) := fromPreOrderInputAux fuel' emptyRep cin1 in
        let* (hd, cin3) := fromPreOrderInputAux fuel' emptyRep cin2 in
        let* res := mkNode hi elem hd in
        sret (res, cin3)
  end.

Definition fromPreOrderInput (emptyRep : T) (cin : list (token T))
    : M (t * list (token T)) :=
  fromPreOrderInputAux (S (length cin)) emptyRep cin.

Fixpoint fromInOrderInputAux (fuel : nat) (cin : list (token T))
    : M (t * list (token T)) :=
  match fuel with
  | O => fun h => (OutOfFuel, h)
  | S fuel' =>
      match read_char cin with
      | (None, _) => fun h => (Abort, h)
      | (Some c, cin1) =>
          if bool_decide (c = "."%char) then sret (mkEmpty, cin1)
          else if bool_decide (c = "("%char) then
            let* (left, cin2) := fromInOrderInputAux fuel' cin1 in
            let '(elem, cin3) := read_elem cin2 in
            let* (right, cin4) := fromInOrderInputAux fuel' cin3 in
            match read_char cin4 with
            | (Some c', cin5) =>
                if bool_decide (c' = ")"%char) then
                  let* result := mkNode left elem right in
                  sret (result, cin5)
                else fun h => (Abort, h)
            | (None, _) => fun h => (Abort, h)
            end
          else fun h => (Abort, h)
      end
  end.

Definition fromInOrderInput (cin : list (token T)) : M (t * list (token T)) :=
  fromInOrderInputAux (S (length cin)) cin.
End BinTreeSmart.
Arguments Node T : clear implicits.
End BinTreeSmart.

(** ** Tree values

  The value a tree handle stands for: the shape and elements found by
  following the node structure from its root. *)
Module Tree.
Section Tree.
Context {T : Type}.

Inductive tree : Type :=
  | Leaf
  | Fork (l : tree) (e : T) (r : tree).

Fixpoint preorder (tr : tree) : list T :=
  match tr with
  | Leaf => []
  | Fork l e r => e :: preorder l ++ preorder r
  end.

Fixpoint inorder (tr : tree) : list T :=
  match tr with
  | Leaf => []
  | Fork l e r => inorder l ++ e :: inorder r
  end.

Fixpoint postorder (tr : tree) : list T :=
  match tr with
  | Leaf => []
  | Fork l e r => postorder l ++ postorder r ++ [e]
  end.

Fixpoint size (tr : tree) : nat :=
  match tr with
  | Leaf => O
  | Fork l _ r => S (size l + size r)
  end.

Fixpoint height (tr : tree) : nat :=
  match tr with
  | Leaf => O
  | Fork l _ r => S (Nat.max (height l) (height r))
  end.

(** A tree as a queue entry: only non-empty trees are enqueued. *)
Definition entry (tr : tree) : list tree :=
  match tr with
  | Leaf => []
  | Fork _ _ _ => [tr]
  end.

(** Breadth-first order of a queue of non-empty trees. *)
Fixpoint bfs (fuel : nat) (pending : list tree) : list T :=
  match fuel, pending with
  | S fuel', Fork l e r :: rest => e :: bfs fuel' (rest ++ entry l ++ entry r)
  | _, _ => []
  end.

Definition levelorder (tr : tree) : list T := bfs (size tr) (entry tr).

(** The three counters as the [unsigned int] arithmetic of the observers
    computes them. *)
Fixpoint nodeCount (tr : tree) : Z :=
  match tr with
  | Leaf => 0
  | Fork l _ r => wrap32 (1 + nodeCount l + nodeCount r)
  end.

Fixpoint depth (tr : tree) : Z :=
  match tr with
  | Leaf => 0
  | Fork l _ r =>
      if to_int (depth l) >? to_int (depth r) then wrap32 (1 + to_int (depth l))
      else wrap32 (1 + to_int (depth r))
  end.

Fixpoint leafCount (tr : tree) : Z :=
  match tr with
  | Leaf => 0
  | Fork Leaf _ Leaf => 1
  | Fork l _ r => wrap32 (leafCount l + leafCount r)
  end.

(** Modelled from the spec: the pre-order token output with a sentinel,
    which the library itself does not provide ([preOrder] lists the
    elements only).  "Serializing a tree via pre-order token output with a
    sentinel": the sentinel for an empty tree, otherwise the root element
    followed by the tokens of the left and of the right subtree. *)
Fixpoint serialize (emptyRep : T) (tr : tree) : list (token T) :=
  match tr with
  | Leaf => [Val emptyRep]
  | Fork l e r => Val e :: serialize emptyRep l ++ serialize emptyRep r
  end.

(** The text of a tree in the format [fromInOrderInput] expects: [.] for
    the empty tree, otherwise [(], the left subtree, the element, the right
    subtree and [)]. *)
Fixpoint parenthesize (tr : tree) : list (token T) :=
  match tr with
  | Leaf => [Chr "."%char]
  | Fork l e r =>
      Chr "("%char :: parenthesize l ++ Val e :: parenthesize r ++ [Chr ")"%char]
  end.

(** The tree with the element at the end of [path] replaced by [x];
    [path] lists the turns from the root, [false] left and [true] right.
    [None] when the path leaves the tree. *)
Fixpoint replace_at (path : list bool) (x : T) (tr : tree) : option tree :=
  match tr with
  | Leaf => None
  | Fork l e r =>
      match path with
      | [] => Some (Fork l x r)
      | false :: path' => (fun l' => Fork l' e r) <$> replace_at path' x l
      | true :: path' => (fun r' => Fork l e r') <$> replace_at path' x r
      end
  end.

#[global] Instance tree_eq_dec `{EqDecision T} : EqDecision tree.
Proof. solve_decision. Defined.

Fixpoint elem_at (path : list bool) (tr : tree) : option T :=
  match tr with
  | Leaf => None
  | Fork l e r =>
      match path with
      | [] => Some e
      | false :: path' => elem_at path' l
      | true :: path' => elem_at path' r
      end
  end.
End Tree.
Arguments tree T : clear implicits.
End Tree.

(** ** Store invariants of the reference-counted tree *)
Module RefCount.
Section RefCount.
Context {T : Type}.
Local Abbreviation Node := (BinTree.Node T).
Local Abbreviation store := (Mem.heap Node).

(** [denotes h root tr]: following the nodes of [h] from [root] yields
    the tree value [tr]. *)
Inductive denotes (h : store) : option positive -> Tree.tree T -> Prop :=
  | denotes_null : denotes h None Tree.Leaf
  | denotes_node p n l r :
      Mem.read p h = Some n ->
      denotes h (BinTree._left n) l ->
      denotes h (BinTree._right n) r ->
      denotes h (Some p) (Tree.Fork l (BinTree._elem n) r).

(** 1 when the link [o] points to [p]. *)
Definition points_to (p : positive) (o : option positive) : Z :=
  if bool_decide (o = Some p) then 1 else 0.

(** Links to [p] held by node [n]; a node whose count has dropped to zero
    is being torn down and its links no longer count. *)
Definition links (p : positive) (n : Node) : Z :=
  if 0 <? BinTree._refs n
  then points_to p (BinTree._left n) + points_to p (BinTree._right n)
  else 0.

(** Links to [p] held by all nodes of the store. *)
Definition inrefs (cells : gmap positive Node) (p : positive) : Z :=
  map_fold (fun _ n acc => links p n + acc) 0 cells.

(** Handles among [roots] whose root is [p]. *)
Definition handles (p : positive) (roots : list positive) : Z :=
  Z.of_nat (length (filter (fun q => q = p) roots)).

(** The counting invariant: [roots] lists the roots of the live non-empty
    handles (with multiplicity).  Every count equals the number of
    handles and links that reach the node; links of counted nodes lead to
    allocated nodes of smaller address. *)
Record consistent (h : store) (roots : list positive) : Prop := {
  cons_count : forall p n, Mem.read p h = Some n ->
    0 <= BinTree._refs n /\
    BinTree._refs n = handles p roots + inrefs (Mem.cells h) p;
  cons_links : forall p n c, Mem.read p h = Some n -> 0 < BinTree._refs n ->
    BinTree._left n = Some c \/ BinTree._right n = Some c ->
    (c < p)%positive /\ is_Some (Mem.read c h);
  cons_roots : forall p, p ∈ roots -> is_Some (Mem.read p h);
  cons_brk : forall p, is_Some (Mem.read p h) -> (p < Mem.brk h)%positive
}.

(** Between calls no node is left with a zero count. *)
Record wf (h : store) (roots : list positive) : Prop := {
  wf_consistent : consistent h roots;
  wf_counted : forall p n, Mem.read p h = Some n -> 0 < BinTree._refs n
}.

(** The roots a handle contributes: none when it is empty. *)
Definition root_of (tr : option positive) : list positive := option_list tr.

(** Two nodes with the same element and the same links. *)
Definition same_shape (n n' : Node) : Prop :=
  BinTree._elem n = BinTree._elem n' /\
  BinTree._left n = BinTree._left n' /\
  BinTree._right n = BinTree._right n'.

(** Every node of [h] is a node of [h'], up to its count. *)
Definition sub (h h' : store) : Prop :=
  forall p n, Mem.read p h = Some n ->
    exists n', Mem.read p h' = Some n' /\ same_shape n n'.

(** [h'] has the nodes of [h], none of them with a lower count. *)
Definition raised (h h' : store) : Prop :=
  (forall p n, Mem.read p h = Some n ->
     exists n', Mem.read p h' = Some n' /\ same_shape n n' /\
                BinTree._refs n <= BinTree._refs n') /\
  (forall p n', Mem.read p h' = Some n' ->
     exists n, Mem.read p h = Some n /\ same_shape n n' /\
               BinTree._refs n <= BinTree._refs n') /\
  Mem.brk h' = Mem.brk h.

(** No count of the store is above [b]; with [b <= INT_MAX] the counter
    [int _refs] of every node holds its count without overflow. *)
Definition bounded (h : store) (b : Z) : Prop :=
  forall p n, Mem.read p h = Some n -> BinTree._refs n <= b.

(** [h'] has no node that [h] has not, and the count of node [q] is at
    most [k q] above what it was in [h]. *)
Definition grown (k : positive -> Z) (h h' : store) : Prop :=
  Mem.brk h' = Mem.brk h /\
  forall q n', Mem.read q h' = Some n' ->
    exists n, Mem.read q h = Some n /\ BinTree._refs n' <= BinTree._refs n + k q.
End RefCount.
End RefCount.

(** ** The tree value of a [BinTreeSmart] handle *)
Module Shared.
Section Shared.
Context {T : Type}.
Local Abbreviation Node := (BinTreeSmart.Node T).
Local Abbreviation store := (Mem.heap Node).

Inductive denotes (h : store) : option positive -> Tree.tree T -> Prop :=
  | denotes_null : denotes h None Tree.Leaf
  | denotes_node p n l r :
      Mem.read p h = Some n ->
      denotes h (BinTreeSmart._left n) l ->
      denotes h (BinTreeSmart._right n) r ->
      denotes h (Some p) (Tree.Fork l (BinTreeSmart._elem n) r).

(** The node of a reference-counted tree without its count. *)
Definition strip (n : BinTree.Node T) : Node :=
  BinTreeSmart.MkNode (BinTree._elem n) (BinTree._left n) (BinTree._right n).

(** The two stores hold the same structure: both allocators are at the
    same address and every node still allocated on the manual side is
    there, with the same element and links, on the shared side. *)
Definition matches (hB : Mem.heap (BinTree.Node T)) (hS : store) : Prop :=
  Mem.brk hB = Mem.brk hS /\
  forall p n, Mem.read p hB = Some n -> Mem.read p hS = Some (strip n).

(** One input builder run on both sides: the same outcome, the same handle
    and input left, and stores that still match, the manual counts being
    right for the handles [R] in scope and the new one. *)
Definition built_alike (R : list positive)
    (rB : outcome (option positive * list (token T)) * Mem.heap (BinTree.Node T))
    (rS : outcome (option positive * list (token T)) * store) : Prop :=
  match rB.1, rS.1 with
  | Return (t, c), Return (t', c') =>
      t = t' /\ c = c' /\
      RefCount.wf rB.2 (RefCount.root_of t ++ R) /\ matches rB.2 rS.2
  | Abort, Abort => True
  | OutOfFuel, OutOfFuel => True
  | _, _ => False
  end.
End Shared.
End Shared.

(** ** Client programs

  A sequence of public operations on named tree handles, run once
  against [BinTree] and once against [BinTreeSmart]. *)
Module Client.
Section Client.
Context {T : Type} `{EqDecision T} `{Inhabited T}.

Definition var : Type := nat.

Inductive cmd : Type :=
  | NewEmpty (x : var)                       (* Tree x;                  *)
  | NewLeaf (x : var) (e : T)                (* Tree x(e);               *)
  | NewNode (x l : var) (e : T) (r : var)    (* Tree x(l, e, r);         *)
  | NewCopy (x y : var)                      (* Tree x(y);               *)
  | GetLeft (x y : var)                      (* Tree x = y.left();       *)
  | GetRight (x y : var)                     (* Tree x = y.right();      *)
  | Assign (x y : var)                       (* x = y;                   *)
  | EndScope (x : var)                       (* x goes out of scope      *)
  | ReadPreOrder (x : var) (emptyRep : T)    (* Tree x = Tree::fromPreOrderInput(emptyRep); *)
  | ReadInOrder (x : var)                    (* Tree x = Tree::fromInOrderInput();          *)
  | Elem (x : var)
  | Empty (x : var)
  | PreOrder (x : var)
  | InOrder (x : var)
  | PostOrder (x : var)
  | Levels (x : var)
  | NodeCount (x : var)
  | Depth (x : var)
  | LeafCount (x : var)
  | Equal (x y : var)
  | NotEqual (x y : var).

(** What the client sees of one operation. *)
Inductive obs : Type :=
  | Done (r : outcome unit)
  | GotElem (r : outcome T)
  | GotBool (r : outcome bool)
  | GotList (r : outcome (list T))
  | GotNumber (r : outcome Z)
  | IllFormed.

Record state (N : Type) : Type :=
  State { env : gmap var (option positive); mem : Mem.heap N; cin : list (token T) }.
Arguments State {N} env mem cin.
Arguments env {N} s.
Arguments mem {N} s.
Arguments cin {N} s.

Definition init {N} (input : list (token T)) : state N := State ∅ Mem.empty input.

(** A thrown exception is caught by the client and the program goes on;
    [Abort] and [OutOfFuel] end the run. *)
Definition ends {A} (r : outcome A) : bool :=
  match r with
  | Abort | OutOfFuel => true
  | _ => false
  end.

Definition unit_of {A} (r : outcome A) : outcome unit :=
  match r with
  | Return _ => Return tt
  | Throw e => Throw e
  | Abort => Abort
  | OutOfFuel => OutOfFuel
  end.

(** Binds [x] to the handle a constructor call produced. *)
Definition declare {N} (x : var) (s : state N) (input : list (token T))
    (r : outcome (option positive) * Mem.heap N) : obs * option (state N) :=
  match r with
  | (Return tr, h) => (Done (Return tt), Some (State (<[x := tr]> (env s)) h input))
  | (Throw e, h) => (Done (Throw e), Some (State (env s) h input))
  | (Abort, h) => (Done Abort, None)
  | (OutOfFuel, h) => (Done OutOfFuel, None)
  end.

Definition declare_read {N} (x : var) (s : state N)
    (r : outcome (option positive * list (token T)) * Mem.heap N)
    : obs * option (state N) :=
  match r with
  | (Return (tr, input), h) =>
      (Done (Return tt), Some (State (<[x := tr]> (env s)) h input))
  | (Throw e, h) => (Done (Throw e), Some (State (env s) h (cin s)))
  | (Abort, h) => (Done Abort, None)
  | (OutOfFuel, h) => (Done OutOfFuel, None)
  end.

Definition observe {N A} (mk : outcome A -> obs) (s : state N) (r : outcome A)
    : obs * option (state N) :=
  (mk r, if ends r then None else Some s).

(** *** Against [BinTree] *)
Definition stepB (c : cmd) (s : state (BinTree.Node T))
    : obs * option (state (BinTree.Node T)) :=
  let fresh x := bool_decide (env s !! x = None) in
  match c with
  | NewEmpty x =>
      if fresh x then declare x s (cin s) (Return BinTree.mkEmpty, mem s)
      else (IllFormed, None)
  | NewLeaf x e =>
      if fresh x then declare x s (cin s) (BinTree.mkLeaf e (mem s))
      else (IllFormed, None)
  | NewNode x l e r =>
      match fresh x, env s !! l, env s !! r with
      | true, Some tl, Some tr => declare x s (cin s) (BinTree.mkNode tl e tr (mem s))
      | _, _, _ => (IllFormed, None)
      end
  | NewCopy x y =>
      match fresh x, env s !! y with
      | true, Some ty => declare x s (cin s) (BinTree.copy ty (mem s))
      | _, _ => (IllFormed, None)
      end
  | GetLeft x y =>
      match fresh x, env s !! y with
      | true, Some ty => declare x s (cin s) (BinTree.left ty (mem s))
      | _, _ => (IllFormed, None)
      end
  | GetRight x y =>
      match fresh x, env s !! y with
      | true, Some ty => declare x s (cin s) (BinTree.right ty (mem s))
      | _, _ => (IllFormed, None)
      end
  | Assign x y =>
      match env s !! x, env s !! y with
      | Some tx, Some ty =>
          if bool_decide (x = y) then (Done (Return tt), Some s)
          else declare x s (cin s) (BinTree.assign tx ty (mem s))
      | _, _ => (IllFormed, None)
      end
  | EndScope x =>
      match env s !! x with
      | Some tx =>
          match BinTree.destroy tx (mem s) with
          | (Return _, h) => (Done (Return tt), Some (State (delete x (env s)) h (cin s)))
          | (r, h) => (Done r, if ends r then None else Some (State (delete x (env s)) h (cin s)))
          end
      | None => (IllFormed, None)
      end
  | ReadPreOrder x emptyRep =>
      if fresh x then declare_read x s (BinTree.fromPreOrderInput emptyRep (cin s) (mem s))
      else (IllFormed, None)
  | ReadInOrder x =>
      if fresh x then declare_read x s (BinTree.fromInOrderInput (cin s) (mem s))
      else (IllFormed, None)
  | Elem x =>
      match env s !! x with
      | Some tx => observe GotElem s (BinTree.elem tx (mem s))
      | None => (IllFormed, None)
      end
  | Empty x =>
      match env s !! x with
      | Some tx => observe GotBool s (Return (BinTree.empty tx))
      | None => (IllFormed, None)
      end
  | PreOrder x =>
      match env s !! x with
      | Some tx => observe GotList s (BinTree.preOrder tx (mem s))
      | None => (IllFormed, None)
      end
  | InOrder x =>
      match env s !! x with
      | Some tx => observe GotList s (BinTree.inOrder tx (mem s))
      | None => (IllFormed, None)
      end
  | PostOrder x =>
      match env s !! x with
      | Some tx => observe GotList s (BinTree.postOrder tx (mem s))
      | None => (IllFormed, None)
      end
  | Levels x =>
      match env s !! x with
      | Some tx => observe GotList s (BinTree.levels tx (mem s))
      | None => (IllFormed, None)
      end
  | NodeCount x =>
      match env s !! x with
      | Some tx => observe GotNumber s (BinTree.nodeCount tx (mem s))
      | None => (IllFormed, None)
      end
  | Depth x =>
      match env s !! x with
      | Some tx => observe GotNumber s (BinTree.depth tx (mem s))
      | None => (IllFormed, None)
      end
  | LeafCount x =>
      match env s !! x with
      | Some tx => observe GotNumber s (BinTree.leafCount tx (mem s))
      | None => (IllFormed, None)
      end
  | Equal x y =>
      match env s !! x, env s !! y with
      | Some tx, Some ty => observe GotBool s (BinTree.eq tx ty (mem s))
      | _, _ => (IllFormed, None)
      end
  | NotEqual x y =>
      match env s !! x, env s !! y with
      | Some tx, Some ty => observe GotBool s (BinTree.neq tx ty (mem s))
      | _, _ => (IllFormed, None)
      end
  end.

(** *** Against [BinTreeSmart]; copies and drops of a handle are the
    implicit ones of [std::shared_ptr]. *)
Definition stepS (c : cmd) (s : state (BinTreeSmart.Node T))
    : obs * option (state (BinTreeSmart.Node T)) :=
  let fresh x := bool_decide (env s !! x = None) in
  match c with
  | NewEmpty x =>
      if fresh x then declare x s (cin s) (Return BinTreeSmart.mkEmpty, mem s)
      else (IllFormed, None)
  | NewLeaf x e =>
      if fresh x then declare x s (cin s) (BinTreeSmart.mkLeaf e (mem s))
      else (IllFormed, None)
  | NewNode x l e r =>
      match fresh x, env s !! l, env s !! r with
      | true, Some tl, Some tr =>
          declare x s (cin s) (BinTreeSmart.mkNode tl e tr (mem s))
      | _, _, _ => (IllFormed, None)
      end
  | NewCopy x y =>
      match fresh x, env s !! y with
      | true, Some ty => declare x s (cin s) (Return ty, mem s)
      | _, _ => (IllFormed, None)
      end
  | GetLeft x y =>
      match fresh x, env s !! y with
      | true, Some ty => declare x s (cin s) (BinTreeSmart.left ty (mem s))
      | _, _ => (IllFormed, None)
      end
  | GetRight x y =>
      match fresh x, env s !! y with
      | true, Some ty => declare x s (cin s) (BinTreeSmart.right ty (mem s))
      | _, _ => (IllFormed, None)
      end
  | Assign x y =>
      match env s !! x, env s !! y with
      | Some tx, Some ty =>
          if bool_decide (x = y) then (Done (Return tt), Some s)
          else declare x s (cin s) (Return ty, mem s)
      | _, _ => (IllFormed, None)
      end
  | EndScope x =>
      match env s !! x with
      | Some tx => (Done (Return tt), Some (State (delete x (env s)) (mem s) (cin s)))
      | None => (IllFormed, None)
      end
  | ReadPreOrder x emptyRep =>
      if fresh x
      then declare_read x s (BinTreeSmart.fromPreOrderInput emptyRep (cin s) (mem s))
      else (IllFormed, None)
  | ReadInOrder x =>
      if fresh x then declare_read x s (BinTreeSmart.fromInOrderInput (cin s) (mem s))
      else (IllFormed, None)
  | Elem x =>
      match env s !! x with
      | Some tx => observe GotElem s (BinTreeSmart.elem tx (mem s))
      | None => (IllFormed, None)
      end
  | Empty x =>
      match env s !! x with
      | Some tx => observe GotBool s (Return (BinTreeSmart.empty tx))
      | None => (IllFormed, None)
      end
  | PreOrder x =>
      match env s !! x with
      | Some tx => observe GotList s (BinTreeSmart.preOrder tx (mem s))
      | None => (IllFormed, None)
      end
  | InOrder x =>
      match env s !! x with
      | Some tx => observe GotList s (BinTreeSmart.inOrder tx (mem s))
      | None => (IllFormed, None)
      end
  | PostOrder x =>
      match env s !! x with
      | Some tx => observe GotList s (BinTreeSmart.postOrder tx (mem s))
      | None => (IllFormed, None)
      end
  | Levels x =>
      match env s !! x with
      | Some tx => observe GotList s (BinTreeSmart.levels tx (mem s))
      | None => (IllFormed, None)
      end
  | NodeCount x =>
      match env s !! x with
      | Some tx => observe GotNumber s (BinTreeSmart.nodeCount tx (mem s))
      | None => (IllFormed, None)
      end
  | Depth x =>
      match env s !! x with
      | Some tx => observe GotNumber s (BinTreeSmart.depth tx (mem s))
      | None => (IllFormed, None)
      end
  | LeafCount x =>
      match env s !! x with
      | Some tx => observe GotNumber s (BinTreeSmart.leafCount tx (mem s))
      | None => (IllFormed, None)
      end
  | Equal x y =>
      match env s !! x, env s !! y with
      | Some tx, Some ty => observe GotBool s (BinTreeSmart.eq tx ty (mem s))
      | _, _ => (IllFormed, None)
      end
  | NotEqual x y =>
      match env s !! x, env s !! y with
      | Some tx, Some ty => observe GotBool s (BinTreeSmart.neq tx ty (mem s))
      | _, _ => (IllFormed, None)
      end
  end.

(** The observations of a whole program. *)
Fixpoint run {N} (step : cmd -> state N -> obs * option (state N))
    (prog : list cmd) (s : state N) : list obs :=
  match prog with
  | [] => []
  | c :: rest =>
      match step c s with
      | (o, Some s') => o :: run step rest s'
      | (o, None) => [o]
      end
  end.

(** The roots of the live handles of an environment. *)
Definition roots (e : gmap var (option positive)) : list positive :=
  omap snd (map_to_list e).

(** The two runs are in step: same handles, same input left, matching
    stores, and the manual counts are right for the handles in scope. *)
Definition sim (sB : state (BinTree.Node T)) (sS : state (BinTreeSmart.Node T)) : Prop :=
  env sB = env sS /\ cin sB = cin sS /\
  Shared.matches (mem sB) (mem sS) /\
  RefCount.wf (mem sB) (roots (env sB)).

(** One step on both sides: the same observation, and the runs either
    both end or go on in step. *)
Definition step_alike
    (rB : obs * option (state (BinTree.Node T)))
    (rS : obs * option (state (BinTreeSmart.Node T))) : Prop :=
  rB.1 = rS.1 /\
  match rB.2, rS.2 with
  | Some sB, Some sS => sim sB sS
  | None, None => True
  | _, _ => False
  end.

(** The states a run goes through: the one after each operation, up to
    the operation that ends the run. *)
Fixpoint trace {N} (step : cmd -> state N -> obs * option (state N))
    (prog : list cmd) (s : state N) : list (state N) :=
  match prog with
  | [] => []
  | c :: rest =>
      match step c s with
      | (_, Some s') => s' :: trace step rest s'
      | (_, None) => []
      end
  end.

Definition statesB (prog : list cmd) (input : list (token T))
    : list (state (BinTree.Node T)) :=
  trace stepB prog (init input).

Definition runB (prog : list cmd) (input : list (token T)) : list obs :=
  run stepB prog (init input).
Definition runS (prog : list cmd) (input : list (token T)) : list obs :=
  run stepS prog (init input).
End Client.
Arguments state T N : clear implicits.
Arguments State {T N} env mem cin.
Arguments env {T N} s.
Arguments mem {T N} s.
Arguments cin {T N} s.
Arguments cmd T : clear implicits.
Arguments obs T : clear implicits.
End Client.

(** ** LinkedListStack.h: stack on a singly-linked list *)
Module LinkedListStack.
Section LinkedListStack.
Context {T : Type}.

Record Node : Type := MkNode { _elem : T; _next : option positive }.

Record t : Type :=
  Build { nodes : Mem.heap Node; _top : option positive; _size : Z }.

Definition init : t := {| nodes := Mem.empty; _top := None; _size := 0 |}.

Definition empty (s : t) : bool :=
  match _top s with None => true | Some _ => false end.

Definition size (s : t) : Z := _size s.

Definition push (e : T) (s : t) : t :=
  let '(p, h) := Mem.alloc (MkNode e (_top s)) (nodes s) in
  {| nodes := h; _top := Some p; _size := _size s + 1 |}.

Definition pop (s : t) : outcome unit * t :=
  if empty s then (Throw EmptyStackException, s)
  else
    match _top s with
    | None => (Abort, s)
    | Some toRemove =>
        match Mem.read toRemove (nodes s) with
        | None => (Abort, s)
        | Some n =>
            (Return tt,
             {| nodes := Mem.dealloc toRemove (nodes s);
                _top := _next n;
                _size := _size s - 1 |})
        end
    end.

Definition top (s : t) : outcome T :=
  if empty s then Throw EmptyStackException
  else
    match _top s with
    | None => Abort
    | Some p =>
        match Mem.read p (nodes s) with
        | Some n => Return (_elem n)
        | None => Abort
        end
    end.

(** The loop of [operator==]; [fuel] bounds the number of nodes. *)
Fixpoint eq_loop `{EqDecision T} (fuel : nat) (h1 h2 : Mem.heap Node)
    (top1 top2 : option positive) : outcome bool :=
  match top1, top2 with
  | Some a1, Some a2 =>
      match fuel with
      | O => OutOfFuel
      | S fuel' =>
          match Mem.read a1 h1, Mem.read a2 h2 with
          | Some n1, Some n2 =>
              if bool_decide (_elem n1 <> _elem n2) then Return false
              else eq_loop fuel' h1 h2 (_next n1) (_next n2)
          | _, _ => Abort
          end
      end
  | _, _ => Return true
  end.

Definition eq `{EqDecision T} (lhs rhs : t) : outcome bool :=
  if bool_decide (_size lhs <> _size rhs) then Return false
  else eq_loop (Pos.to_nat (Mem.brk (nodes lhs))) (nodes lhs) (nodes rhs)
         (_top lhs) (_top rhs).

(** *** Vocabulary of the properties *)

(** The stack consists of the nodes [cells], top first. *)
Definition rep (s : t) (cells : list (positive * T)) : Prop :=
  Linked.chain _elem _next (nodes s) cells None /\
  Linked.owns (nodes s) cells /\
  _top s = Linked.first cells /\
  _size s = Z.of_nat (length cells).

(** The calls of a [Stack.op] sequence on the linked stack. *)
Definition apply (s : t) (o : Stack.op T) : t :=
  match o with
  | Stack.Push e => push e s
  | Stack.Pop => (pop s).2
  end.

Definition run (ops : list (Stack.op T)) : t := foldl apply init ops.
End LinkedListStack.
Arguments t T : clear implicits.
Arguments Node T : clear implicits.
End LinkedListStack.

(** ** ListSingle.h: singly-linked list with a sentinel node

  [_head] points to a sentinel node that holds no element; a [new Node]
  default-initialises its [_value], modelled as the value-initialised
  [T()].  A failed [assert] and the use of a null or deleted pointer are
  [Abort]. *)
Module ListLinkedSingle.
Section ListLinkedSingle.
Context {T : Type} `{Inhabited T}.

Record Node : Type := MkNode { _value : T; _next : option positive }.

Record t : Type :=
  Build { nodes : Mem.heap Node; _head : positive; _tail : option positive }.

(** The constructor. *)
Definition init : t :=
  let '(head, h) := Mem.alloc (MkNode inhabitant None) Mem.empty in
  {| nodes := h; _head := head; _tail := Some head |}.

Definition empty (l : t) : outcome bool :=
  match Mem.read (_head l) (nodes l) with
  | None => Abort
  | Some hn => Return (match _next hn with None => true | Some _ => false end)
  end.

Definition push_front (e : T) (l : t) : outcome unit * t :=
  match Mem.read (_head l) (nodes l) with
  | None => (Abort, l)
  | Some hn =>
      let '(new_node, h1) := Mem.alloc (MkNode e (_next hn)) (nodes l) in
      (Return tt,
       {| nodes := Mem.write (_head l) (MkNode (_value hn) (Some new_node)) h1;
          _head := _head l;
          _tail := if bool_decide (_tail l = Some (_head l)) then Some new_node
                   else _tail l |})
  end.

Definition push_back (e : T) (l : t) : outcome unit * t :=
  let '(new_node, h1) := Mem.alloc (MkNode e None) (nodes l) in
  match _tail l with
  | None => (Abort, l)
  | Some tl =>
      match Mem.read tl h1 with
      | None => (Abort, l)
      | Some tn =>
          (Return tt,
           {| nodes := Mem.write tl (MkNode (_value tn) (Some new_node)) h1;
              _head := _head l;
              _tail := Some new_node |})
      end
  end.

Definition pop_front (l : t) : outcome unit * t :=
  match Mem.read (_head l) (nodes l) with
  | None => (Abort, l)
  | Some hn =>
      match _next hn with
      | None => (Abort, l)
      | Some old_head =>
          match Mem.read old_head (nodes l) with
          | None => (Abort, l)
          | Some on =>
              let h1 := Mem.write (_head l) (MkNode (_value hn) (_next on)) (nodes l) in
              (Return tt,
               {| nodes := Mem.dealloc old_head h1;
                  _head := _head l;
                  _tail := match _next on with
                           | None => Some (_head l)
                           | Some _ => _tail l
                           end |})
          end
      end
  end.

(** The loop of [pop_back]: walks to the last node, [previous] one step
    behind; [fuel] bounds the number of rounds. *)
Fixpoint pop_back_loop (fuel : nat) (previous current : positive) (h : Mem.heap Node)
    : outcome (positive * positive) :=
  match Mem.read current h with
  | None => Abort
  | Some cn =>
      match _next cn with
      | None => Return (previous, current)
      | Some nx =>
          match fuel with
          | O => OutOfFuel
          | S fuel' => pop_back_loop fuel' current nx h
          end
      end
  end.

Definition pop_back (l : t) : outcome unit * t :=
  match Mem.read (_head l) (nodes l) with
  | None => (Abort, l)
  | Some hn =>
      match _next hn with
      | None => (Abort, l)
      | Some first =>
          match pop_back_loop (Pos.to_nat (Mem.brk (nodes l))) (_head l) first (nodes l) with
          | Return (previous, current) =>
              let h1 := Mem.dealloc current (nodes l) in
              match Mem.read previous h1 with
              | None => (Abort, l)
              | Some pn =>
                  (Return tt,
                   {| nodes := Mem.write previous (MkNode (_value pn) None) h1;
                      _head := _head l;
                      _tail := Some previous |})
              end
          | Throw e => (Throw e, l)
          | Abort => (Abort, l)
          | OutOfFuel => (OutOfFuel, l)
          end
      end
  end.

(** The loop of [size]; the counter is an [int]. *)
Fixpoint size_loop (fuel : nat) (current : option positive) (num_nodes : Z)
    (h : Mem.heap Node) : outcome Z :=
  match current with
  | None => Return num_nodes
  | Some c =>
      match fuel with
      | O => OutOfFuel
      | S fuel' =>
          if 2 ^ 31 - 1 <=? num_nodes then Abort
          else
            match Mem.read c h with
            | None => Abort
            | Some cn => size_loop fuel' (_next cn) (num_nodes + 1) h
            end
      end
  end.

Definition size (l : t) : outcome Z :=
  match Mem.read (_head l) (nodes l) with
  | None => Abort
  | Some hn => size_loop (Pos.to_nat (Mem.brk (nodes l))) (_next hn) 0 (nodes l)
  end.

Definition front (l : t) : outcome T :=
  match Mem.read (_head l) (nodes l) with
  | None => Abort
  | Some hn =>
      match _next hn with
      | None => Abort
      | Some f =>
          match Mem.read f (nodes l) with
          | None => Abort
          | Some fn => Return (_value fn)
          end
      end
  end.

Definition back (l : t) : outcome T :=
  match _tail l with
  | None => Abort
  | Some tl =>
      match Mem.read tl (nodes l) with
      | None => Abort
      | Some tn => Return (_value tn)
      end
  end.

(** The loop of [nth_node]: at most [n] steps, stopping at the null
    pointer. *)
Fixpoint nth_loop (n : nat) (current : option positive) (h : Mem.heap Node)
    : outcome (option positive) :=
  match n with
  | O => Return current
  | S n' =>
      match current with
      | None => Return None
      | Some c =>
          match Mem.read c h with
          | None => Abort
          | Some cn => nth_loop n' (_next cn) h
          end
      end
  end.

Definition nth_node (n : Z) (l : t) : outcome (option positive) :=
  if n <? 0 then Abort
  else
    match Mem.read (_head l) (nodes l) with
    | None => Abort
    | Some hn => nth_loop (Z.to_nat n) (_next hn) (nodes l)
    end.

Definition at_ (index : Z) (l : t) : outcome T :=
  let? result_node := nth_node index l in
  match result_node with
  | None => Abort
  | Some r =>
      match Mem.read r (nodes l) with
      | None => Abort
      | Some rn => Return (_value rn)
      end
  end.

(** [copy_nodes(start_node)]: the nodes from [start_node] on, read in the
    store [other], are copied into [h]; [fuel] bounds the depth of the
    recursion. *)
Fixpoint copy_nodes (fuel : nat) (other : Mem.heap Node) (start_node : option positive)
    (h : Mem.heap Node) : outcome (option positive * Mem.heap Node) :=
  match start_node with
  | None => Return (None, h)
  | Some s =>
      match fuel with
      | O => OutOfFuel
      | S fuel' =>
          match Mem.read s other with
          | None => Abort
          | Some sn =>
              let? (rest, h1) := copy_nodes fuel' other (_next sn) h in
              let '(result, h2) := Mem.alloc (MkNode (_value sn) rest) h1 in
              Return (Some result, h2)
          end
      end
  end.

(** [delete_list(start_node)] *)
Fixpoint delete_list (fuel : nat) (start_node : option positive) (h : Mem.heap Node)
    : outcome (Mem.heap Node) :=
  match start_node with
  | None => Return h
  | Some s =>
      match fuel with
      | O => OutOfFuel
      | S fuel' =>
          match Mem.read s h with
          | None => Abort
          | Some sn =>
              let? h1 := delete_list fuel' (_next sn) h in
              if bool_decide (is_Some (Mem.read s h1)) then Return (Mem.dealloc s h1)
              else Abort
          end
      end
  end.

(** The destructor. *)
Definition destroy (l : t) : outcome (Mem.heap Node) :=
  delete_list (Pos.to_nat (Mem.brk (nodes l))) (Some (_head l)) (nodes l).

(** The copy constructor: the nodes of [other], its sentinel included,
    are copied, then [_tail] is looked up with [nth_node(other.size()-1)]. *)
Definition copy_ctor (other : t) : outcome t :=
  let? (head, h) :=
    copy_nodes (Pos.to_nat (Mem.brk (nodes other))) (nodes other)
      (Some (_head other)) Mem.empty in
  match head with
  | None => Abort
  | Some hd =>
      let? n := size other in
      let? tail := nth_node (n - 1) {| nodes := h; _head := hd; _tail := None |} in
      Return {| nodes := h; _head := hd; _tail := tail |}
  end.

(** [*this = other] between two distinct lists. *)
Definition assign (this other : t) : outcome t :=
  match Mem.read (_head this) (nodes this) with
  | None => Abort
  | Some hn =>
      let? h1 := delete_list (Pos.to_nat (Mem.brk (nodes this))) (_next hn) (nodes this) in
      match Mem.read (_head other) (nodes other) with
      | None => Abort
      | Some on =>
          let? (copied, h2) :=
            copy_nodes (Pos.to_nat (Mem.brk (nodes other))) (nodes other) (_next on) h1 in
          match Mem.read (_head this) h2 with
          | None => Abort
          | Some hn2 =>
              let this1 :=
                {| nodes := Mem.write (_head this) (MkNode (_value hn2) copied) h2;
                   _head := _head this; _tail := _tail this |} in
              let? other_empty := empty other in
              if other_empty then Return this1
              else
                let? n := size other in
                let? tail := nth_node (n - 1) this1 in
                Return {| nodes := nodes this1; _head := _head this1; _tail := tail |}
          end
      end
  end.

(** *** Vocabulary of the properties *)

(** The nodes [cells], in this order, are in the store with their
    values, each linked to the next one and the last one to [tail]. *)
Fixpoint chain (h : Mem.heap Node) (cells : list (positive * T))
    (tail : option positive) : Prop :=
  match cells with
  | [] => True
  | (a, e) :: rest =>
      Mem.read a h = Some (MkNode e (DList.head_or tail rest)) /\ chain h rest tail
  end.

(** The list consists of the sentinel, holding [v], followed by the nodes
    [cells]; its store holds no other node and [_tail] is its last node. *)
Definition rep (l : t) (v : T) (cells : list (positive * T)) : Prop :=
  chain (nodes l) ((_head l, v) :: cells) None /\
  Linked.owns (nodes l) ((_head l, v) :: cells) /\
  _tail l = Linked.final ((_head l, v) :: cells).

(** A sequence of calls. *)
Inductive op : Type :=
  | PushFront (e : T)
  | PushBack (e : T)
  | PopFront
  | PopBack.

Definition apply (l : t) (o : op) : t :=
  match o with
  | PushFront e => (push_front e l).2
  | PushBack e => (push_back e l).2
  | PopFront => (pop_front l).2
  | PopBack => (pop_back l).2
  end.

Definition run (ops : list op) : t := foldl apply init ops.

(** The same calls on a list; a call that fails its assertion leaves it
    as it is. *)
Definition model_apply (m : list T) (o : op) : list T :=
  match o with
  | PushFront e => e :: m
  | PushBack e => m ++ [e]
  | PopFront => tail m
  | PopBack => removelast m
  end.

Definition model (ops : list op) : list T := foldl model_apply [] ops.
End ListLinkedSingle.
Arguments t T : clear implicits.
Arguments Node T : clear implicits.
Arguments op T : clear implicits.
End ListLinkedSingle.

(** * Properties of the search-tree map and set *)

(** ** Sorted lists *)
Section Sorted.
Context {A : Type} (R : A -> A -> Prop).

Lemma sorted_app (l1 l2 : list A) :
  StronglySorted R (l1 ++ l2) <->
  StronglySorted R l1 /\ StronglySorted R l2 /\
  (forall x y, x ∈ l1 -> y ∈ l2 -> R x y).
Proof.
  induction l1 as [|a l1 IH]; simpl.
  - split.
    + intros Hs. repeat split; [constructor | done |].
      intros x y Hx. by apply elem_of_nil in Hx.
    + tauto.
  - split.
    + intros Hs. apply StronglySorted_inv in Hs as [Hs Hall].
      apply IH in Hs as (H1 & H2 & H3).
      rewrite Forall_app in Hall. destruct Hall as [Ha1 Ha2].
      repeat split; [by constructor | done |].
      intros x y Hx Hy. apply elem_of_cons in Hx as [->|Hx].
      * rewrite Forall_forall in Ha2. by apply Ha2.
      * by apply H3.
    + intros (H1 & H2 & H3).
      apply StronglySorted_inv in H1 as [H1 Hall].
      constructor.
      * apply IH. repeat split; [done..|].
        intros x y Hx Hy. apply H3; [by right | done].
      * rewrite Forall_app. split; [done|].
        rewrite Forall_forall. intros y Hy. apply H3; [by left | done].
Qed.

Lemma sorted_cons (a : A) (l : list A) :
  StronglySorted R (a :: l) <-> StronglySorted R l /\ (forall y, y ∈ l -> R a y).
Proof.
  split.
  - intros Hs. apply StronglySorted_inv in Hs as [Hs Hall].
    split; [done|]. by rewrite Forall_forall in Hall.
  - intros [Hs Hall]. constructor; [done|]. by rewrite Forall_forall.
Qed.

Lemma sorted_middle (l1 : list A) (a : A) (l2 : list A) :
  StronglySorted R (l1 ++ a :: l2) <->
  StronglySorted R l1 /\ StronglySorted R l2 /\
  (forall x, x ∈ l1 -> R x a) /\ (forall y, y ∈ l2 -> R a y) /\
  (forall x y, x ∈ l1 -> y ∈ l2 -> R x y).
Proof.
  rewrite sorted_app, sorted_cons. split.
  - intros (H1 & [H2 H3] & H4). repeat split; try done.
    + intros x Hx. apply H4; [done | by left].
    + intros x y Hx Hy. apply H4; [done | by right].
  - intros (H1 & H2 & H3 & H4 & H5). repeat split; try done.
    intros x y Hx Hy. apply elem_of_cons in Hy as [->|Hy]; auto.
Qed.

Lemma sorted_drop_middle (l1 : list A) (a : A) (l2 : list A) :
  StronglySorted R (l1 ++ a :: l2) -> StronglySorted R (l1 ++ l2).
Proof.
  rewrite sorted_middle, sorted_app. tauto.
Qed.
End Sorted.

(** ** TreeMap *)
Section TreeMapFacts.
Context {K V : Type}.
Variable cless : K -> K -> bool.

(** The comparator is a strict weak ordering, as every ordered container
    of the standard library requires of its [Compare] argument. *)
Hypothesis cless_irrefl : forall x, cless x x = false.
Hypothesis cless_trans :
  forall x y z, cless x y = true -> cless y z = true -> cless x z = true.
Hypothesis cless_incomparable :
  forall x y z,
    cless x y = false -> cless y x = false ->
    cless y z = false -> cless z y = false ->
    cless x z = false /\ cless z x = false.

Local Abbreviation Node := (TreeMap.Node K V).
Local Abbreviation before := (fun x y : K => cless x y = true).
Local Abbreviation ordered := (fun p : Node => StronglySorted before (TreeMap.keys p)).

Lemma cless_equiv_l (x y z : K) :
  cless x y = false -> cless y x = false -> cless x z = true -> cless y z = true.
Proof using cless_trans cless_incomparable.
  intros Hxy Hyx Hxz.
  destruct (cless y z) eqn:Hyz; [done|].
  destruct (cless z y) eqn:Hzy.
  - by rewrite (cless_trans x z y) in Hxy.
  - destruct (cless_incomparable x y z) as [E _]; congruence.
Qed.

Lemma cless_equiv_r (x y z : K) :
  cless x y = false -> cless y x = false -> cless z x = true -> cless z y = true.
Proof using cless_trans cless_incomparable.
  intros Hxy Hyx Hzx.
  destruct (cless z y) eqn:Hzy; [done|].
  destruct (cless y z) eqn:Hyz.
  - by rewrite (cless_trans y z x) in Hyx.
  - destruct (cless_incomparable x y z) as [_ E]; congruence.
Qed.

(** *** insert *)

Lemma TreeMap_insertAux_keys (key : K) (value : V) (p : Node) (sz : Z) (x : K) :
  x ∈ TreeMap.keys (TreeMap.insertAux cless key value p sz).1 ->
  x = key \/ x ∈ TreeMap.keys p.
Proof.
  induction p as [|l IHl k v r IHr]; simpl.
  - intros Hx. apply list_elem_of_singleton in Hx. by left.
  - destruct (cless key k) eqn:E1.
    + destruct (TreeMap.insertAux cless key value l sz) as [l' sz'] eqn:El.
      simpl in *. rewrite !elem_of_app, !elem_of_cons.
      intros [Hx | Hx]; [|tauto]. destruct (IHl Hx); tauto.
    + destruct (cless k key) eqn:E2.
      * destruct (TreeMap.insertAux cless key value r sz) as [r' sz'] eqn:Er.
        simpl in *. rewrite !elem_of_app, !elem_of_cons.
        intros [Hx | [Hx | Hx]]; [tauto | tauto |]. destruct (IHr Hx); tauto.
      * simpl. tauto.
Qed.

Lemma TreeMap_insertAux_ordered (key : K) (value : V) (p : Node) (sz : Z) :
  ordered p -> ordered (TreeMap.insertAux cless key value p sz).1.
Proof using cless_trans.
  induction p as [|l IHl k v r IHr]; simpl.
  - intros _. repeat constructor.
  - intros Hs. apply sorted_middle in Hs as (Hl & Hr & Hlk & Hkr & Hlr).
    destruct (cless key k) eqn:E1.
    + pose proof (TreeMap_insertAux_keys key value l sz) as Hk.
      destruct (TreeMap.insertAux cless key value l sz) as [l' sz'] eqn:El.
      simpl in *. apply sorted_middle. repeat split; auto.
      * intros x Hx. destruct (Hk x Hx) as [->|]; auto.
      * intros x y Hx Hy. destruct (Hk x Hx) as [->|]; eauto.
    + destruct (cless k key) eqn:E2.
      * pose proof (TreeMap_insertAux_keys key value r sz) as Hk.
        destruct (TreeMap.insertAux cless key value r sz) as [r' sz'] eqn:Er.
        simpl in *. apply sorted_middle. repeat split; auto.
        -- intros y Hy. destruct (Hk y Hy) as [->|]; auto.
        -- intros x y Hx Hy. destruct (Hk y Hy) as [->|]; eauto.
      * simpl. apply sorted_middle. repeat split; auto.
Qed.

(** *** erase *)

Lemma TreeMap_unlinkSmallest_keys (aux : Node) :
  match TreeMap.unlinkSmallest aux with
  | None => aux = TreeMap.nullptr
  | Some (k, v, rest) => TreeMap.keys aux = k :: TreeMap.keys rest
  end.
Proof.
  induction aux as [|l IHl k v r _]; simpl; [done|].
  destruct (TreeMap.unlinkSmallest l) as [[[k' v'] l']|].
  - simpl. by rewrite IHl.
  - by subst l.
Qed.

Lemma TreeMap_eraseRoot_keys (l : Node) (k : K) (v : V) (r : Node) :
  TreeMap.keys (TreeMap.eraseRoot (TreeMap.node l k v r)) =
  TreeMap.keys l ++ TreeMap.keys r.
Proof.
  destruct l as [|ll lk lv lr]; [done|].
  destruct r as [|rl rk rv rr]; [by rewrite app_nil_r|].
  unfold TreeMap.eraseRoot, TreeMap.moveSmallestAndErase.
  pose proof (TreeMap_unlinkSmallest_keys (TreeMap.node rl rk rv rr)) as Hu.
  destruct (TreeMap.unlinkSmallest (TreeMap.node rl rk rv rr)) as [[[k' v'] r']|].
  - cbn [TreeMap.keys] in *. by rewrite Hu.
  - done.
Qed.

Lemma TreeMap_eraseAux_keys (p : Node) (key : K) (sz : Z) (x : K) :
  x ∈ TreeMap.keys (TreeMap.eraseAux cless p key sz).1 -> x ∈ TreeMap.keys p.
Proof.
  induction p as [|l IHl k v r IHr]; [done|].
  cbn [TreeMap.eraseAux].
  destruct (cless key k) eqn:E1.
  - destruct (TreeMap.eraseAux cless l key sz) as [l' sz'].
    simpl in *. rewrite !elem_of_app. intros [?|?]; auto.
  - destruct (cless k key) eqn:E2.
    + destruct (TreeMap.eraseAux cless r key sz) as [r' sz'].
      simpl in *. rewrite !elem_of_app, !elem_of_cons. intros [?|[?|?]]; auto.
    + cbn [fst]. rewrite TreeMap_eraseRoot_keys. simpl.
      rewrite !elem_of_app, !elem_of_cons. intros [?|?]; auto.
Qed.

Lemma TreeMap_eraseAux_ordered (p : Node) (key : K) (sz : Z) :
  ordered p -> ordered (TreeMap.eraseAux cless p key sz).1.
Proof.
  induction p as [|l IHl k v r IHr]; [done|].
  cbn [TreeMap.eraseAux TreeMap.keys]. intros Hs.
  destruct (cless key k) eqn:E1.
  - pose proof (TreeMap_eraseAux_keys l key sz) as Hk.
    destruct (TreeMap.eraseAux cless l key sz) as [l' sz'].
    simpl in *. apply sorted_middle in Hs as (Hl & Hr & Hlk & Hkr & Hlr).
    apply sorted_middle. repeat split; auto.
  - destruct (cless k key) eqn:E2.
    + pose proof (TreeMap_eraseAux_keys r key sz) as Hk.
      destruct (TreeMap.eraseAux cless r key sz) as [r' sz'].
      simpl in *. apply sorted_middle in Hs as (Hl & Hr & Hlk & Hkr & Hlr).
      apply sorted_middle. repeat split; auto.
    + cbn [fst]. rewrite TreeMap_eraseRoot_keys.
      by apply sorted_drop_middle in Hs.
Qed.

(** *** lookup *)

Lemma TreeMap_findAux_above (p : Node) (key : K) :
  (forall y, y ∈ TreeMap.keys p -> cless key y = true) ->
  TreeMap.findAux cless p key = TreeMap.nullptr.
Proof.
  induction p as [|l IHl k v r _]; [done|]. simpl. intros Hall.
  rewrite (Hall k) by (rewrite elem_of_app, elem_of_cons; auto).
  apply IHl. intros y Hy. apply Hall. rewrite elem_of_app; auto.
Qed.

Lemma TreeMap_findAux_below (p : Node) (key : K) :
  (forall y, y ∈ TreeMap.keys p -> cless y key = true) ->
  TreeMap.findAux cless p key = TreeMap.nullptr.
Proof using cless_irrefl cless_trans.
  induction p as [|l _ k v r IHr]; [done|]. simpl. intros Hall.
  assert (Hk : cless k key = true)
    by (apply Hall; rewrite elem_of_app, elem_of_cons; auto).
  destruct (cless key k) eqn:E.
  - pose proof (cless_trans k key k Hk E) as X. by rewrite cless_irrefl in X.
  - rewrite Hk. apply IHr. intros y Hy. apply Hall.
    rewrite elem_of_app, elem_of_cons; auto.
Qed.


(** *** iteration *)

Lemma TreeMap_keys_length (p : Node) : length (TreeMap.keys p) = TreeMap.nodes p.
Proof.
  induction p as [|l IHl k v r IHr]; [done|].
  simpl. rewrite length_app. simpl. lia.
Qed.

Lemma TreeMap_firstInOrder_remaining (p : Node) (anc : list Node) :
  TreeMap.remaining
    (TreeMap.MkIterator (TreeMap.firstInOrder p anc).1 (TreeMap.firstInOrder p anc).2)
  = match p with
    | TreeMap.nullptr => []
    | TreeMap.node _ _ _ _ => TreeMap.keys p ++ TreeMap.pending anc
    end.
Proof.
  revert anc. induction p as [|l IHl k v r _]; intros anc; [done|].
  destruct l as [|ll lk lv lr]; [done|].
  change (TreeMap.firstInOrder (TreeMap.node (TreeMap.node ll lk lv lr) k v r) anc)
    with (TreeMap.firstInOrder (TreeMap.node ll lk lv lr)
            (TreeMap.node (TreeMap.node ll lk lv lr) k v r :: anc)).
  rewrite IHl. cbn [TreeMap.keys TreeMap.pending].
  by rewrite <- !app_assoc.
Qed.

Lemma TreeMap_next_remaining (it : TreeMap.Iterator K V) (k : K) :
  TreeMap.key it = Return k ->
  exists it', TreeMap.next it = (Return tt, it') /\
              TreeMap.remaining it = k :: TreeMap.remaining it'.
Proof.
  destruct it as [c anc]. unfold TreeMap.key, TreeMap.next, TreeMap.remaining.
  cbn [TreeMap._current TreeMap._ancestors].
  destruct c as [|l k0 v r]; [done|]. intros [= ->].
  destruct r as [|rl rk rv rr].
  - destruct anc as [|top rest].
    + by eexists.
    + eexists; split; [done|]. cbn [TreeMap._current TreeMap._ancestors].
      by destruct top.
  - pose proof (TreeMap_firstInOrder_remaining (TreeMap.node rl rk rv rr) anc) as Hf.
    destruct (TreeMap.firstInOrder (TreeMap.node rl rk rv rr) anc) as [c' anc'].
    eexists; split; [done|].
    unfold TreeMap.remaining in Hf. cbn [fst snd TreeMap._current TreeMap._ancestors] in *.
    by rewrite Hf.
Qed.

Lemma TreeMap_walk_remaining (fuel : nat) (it : TreeMap.Iterator K V) :
  (length (TreeMap.remaining it) < fuel)%nat ->
  TreeMap.walk fuel it = Some (TreeMap.remaining it).
Proof.
  revert it. induction fuel as [|fuel IH]; intros it Hlen; [lia|].
  cbn [TreeMap.walk].
  destruct (TreeMap.is_end it) eqn:Hend.
  - unfold TreeMap.is_end, TreeMap.remaining in *. by destruct (TreeMap._current it).
  - assert (exists k, TreeMap.key it = Return k) as [k Hk].
    { unfold TreeMap.is_end, TreeMap.key in *.
      destruct (TreeMap._current it); [done | by eexists]. }
    destruct (TreeMap_next_remaining it k Hk) as (it' & Hn & Hr).
    rewrite Hk, Hn. rewrite Hr in Hlen |- *. simpl in Hlen.
    rewrite IH by lia. done.
Qed.

Lemma TreeMap_iterate_keys (m : TreeMap.t K V) :
  TreeMap.iterate m = Some (TreeMap.keys (TreeMap._root m)).
Proof.
  unfold TreeMap.iterate, TreeMap.begin_, TreeMap.mkIterator.
  pose proof (TreeMap_firstInOrder_remaining (TreeMap._root m) []) as Hf.
  destruct (TreeMap.firstInOrder (TreeMap._root m) []) as [c anc].
  cbn [fst snd] in Hf.
  assert (Hrem : TreeMap.remaining (TreeMap.MkIterator c anc) =
                 TreeMap.keys (TreeMap._root m)).
  { rewrite Hf. destruct (TreeMap._root m); [done|]. by rewrite app_nil_r. }
  rewrite TreeMap_walk_remaining; rewrite Hrem; [done|].
  rewrite TreeMap_keys_length. lia.
Qed.

(** *** sequences of operations *)





End TreeMapFacts.

(** [insertAux] stops at the node that holds the key and returns the
    structure as it is: the stored value is kept. *)
Lemma TreeMap_insertAux_present {K V : Type} (cless : K -> K -> bool)
    (key : K) (value : V) (p : TreeMap.Node K V) (sz : Z) :
  TreeMap.findAux cless p key <> TreeMap.nullptr ->
  TreeMap.insertAux cless key value p sz = (p, sz).
Proof.
  induction p as [|l IHl k v r IHr]; simpl; [done|].
  destruct (cless key k).
  - intros Hf. by rewrite IHl.
  - destruct (cless k key); [|done]. intros Hf. by rewrite IHr.
Qed.

Lemma TreeMap_insert_present {K V : Type} (cless : K -> K -> bool)
    (key : K) (value : V) (m : TreeMap.t K V) :
  TreeMap.contains cless key m = true ->
  TreeMap.insert cless key value m = m.
Proof.
  unfold TreeMap.contains, TreeMap.insert. intros Hc.
  rewrite TreeMap_insertAux_present; [by destruct m|].
  by destruct (TreeMap.findAux cless (TreeMap._root m) key).
Qed.

(** ** TreeSet *)
Section TreeSetFacts.
Context {T : Type} `{EqDecision T}.
Variable lt : T -> T -> bool.

(** [<] is a strict total order on the elements. *)
Hypothesis lt_irrefl : forall x, lt x x = false.
Hypothesis lt_trans : forall x y z, lt x y = true -> lt y z = true -> lt x z = true.
Hypothesis lt_total : forall x y, x <> y -> lt x y = true \/ lt y x = true.

Local Abbreviation Node := (TreeSet.Node T).
Local Abbreviation before := (fun x y : T => lt x y = true).
Local Abbreviation ordered := (fun p : Node => StronglySorted before (TreeSet.elems p)).

Lemma lt_asym (x y : T) : lt x y = true -> lt y x = false.
Proof using lt_irrefl lt_trans.
  intros Hxy. destruct (lt y x) eqn:Hyx; [|done].
  pose proof (lt_trans x y x Hxy Hyx) as X. by rewrite lt_irrefl in X.
Qed.

Lemma lt_neq (x y : T) : lt x y = true -> x <> y.
Proof using lt_irrefl. intros Hxy ->. by rewrite lt_irrefl in Hxy. Qed.

Lemma TreeSet_insertAux_elems (elem : T) (p : Node) (x : T) :
  x ∈ TreeSet.elems (TreeSet.insertAux lt elem p) -> x = elem \/ x ∈ TreeSet.elems p.
Proof.
  induction p as [|l IHl e r IHr]; simpl.
  - intros Hx. apply list_elem_of_singleton in Hx. by left.
  - case_bool_decide; [tauto|].
    destruct (lt elem e); simpl; rewrite !elem_of_app, !elem_of_cons.
    + intros [Hx|Hx]; [|tauto]. destruct (IHl Hx); tauto.
    + intros [Hx|[Hx|Hx]]; [tauto|tauto|]. destruct (IHr Hx); tauto.
Qed.

Lemma TreeSet_insertAux_ordered (elem : T) (p : Node) :
  ordered p -> ordered (TreeSet.insertAux lt elem p).
Proof using lt_trans lt_total.
  induction p as [|l IHl e r IHr]; simpl.
  - intros _. repeat constructor.
  - intros Hs. case_bool_decide as Hne; [done|].
    apply sorted_middle in Hs as (Hl & Hr & Hle & Her & Hlr).
    pose proof (TreeSet_insertAux_elems elem l) as Hkl.
    pose proof (TreeSet_insertAux_elems elem r) as Hkr.
    destruct (lt elem e) eqn:E1; simpl; apply sorted_middle; repeat split; auto.
    + intros x Hx. destruct (Hkl x Hx) as [->|]; auto.
    + intros x y Hx Hy. destruct (Hkl x Hx) as [->|]; eauto.
    + intros y Hy. destruct (Hkr y Hy) as [->|]; auto.
      destruct (lt_total e elem Hne); congruence.
    + intros x y Hx Hy. destruct (Hkr y Hy) as [->|]; eauto.
      destruct (lt_total e elem Hne); [eauto | congruence].
Qed.

Lemma TreeSet_unlinkSmallest_elems (aux : Node) :
  match TreeSet.unlinkSmallest aux with
  | None => aux = TreeSet.nullptr
  | Some (e, rest) => TreeSet.elems aux = e :: TreeSet.elems rest
  end.
Proof.
  induction aux as [|l IHl e r _]; simpl; [done|].
  destruct (TreeSet.unlinkSmallest l) as [[e' l']|].
  - simpl. by rewrite IHl.
  - by subst l.
Qed.

Lemma TreeSet_eraseRoot_elems (l : Node) (e : T) (r : Node) :
  TreeSet.elems (TreeSet.eraseRoot (TreeSet.node l e r)) =
  TreeSet.elems l ++ TreeSet.elems r.
Proof.
  destruct l as [|ll le lr]; [done|].
  destruct r as [|rl re rr]; [by rewrite app_nil_r|].
  unfold TreeSet.eraseRoot, TreeSet.moveSmallestAndErase.
  pose proof (TreeSet_unlinkSmallest_elems (TreeSet.node rl re rr)) as Hu.
  destruct (TreeSet.unlinkSmallest (TreeSet.node rl re rr)) as [[e' r']|].
  - cbn [TreeSet.elems] in *. by rewrite Hu.
  - done.
Qed.

Lemma TreeSet_eraseAux_elems (p : Node) (elem : T) (x : T) :
  x ∈ TreeSet.elems (TreeSet.eraseAux lt p elem) -> x ∈ TreeSet.elems p.
Proof.
  induction p as [|l IHl e r IHr]; [done|].
  cbn [TreeSet.eraseAux]. case_bool_decide.
  - rewrite TreeSet_eraseRoot_elems. simpl.
    rewrite !elem_of_app, !elem_of_cons. intros [?|?]; auto.
  - destruct (lt elem e); simpl; rewrite !elem_of_app, !elem_of_cons.
    + intros [?|?]; auto.
    + intros [?|[?|?]]; auto.
Qed.

Lemma TreeSet_eraseAux_ordered (p : Node) (elem : T) :
  ordered p -> ordered (TreeSet.eraseAux lt p elem).
Proof.
  induction p as [|l IHl e r IHr]; [done|].
  cbn [TreeSet.eraseAux TreeSet.elems]. intros Hs. case_bool_decide.
  - rewrite TreeSet_eraseRoot_elems. by apply sorted_drop_middle in Hs.
  - pose proof (TreeSet_eraseAux_elems l elem) as Hkl.
    pose proof (TreeSet_eraseAux_elems r elem) as Hkr.
    apply sorted_middle in Hs as (Hl & Hr & Hle & Her & Hlr).
    destruct (lt elem e); simpl; apply sorted_middle; repeat split; auto.
Qed.

Lemma TreeSet_findAux_above (p : Node) (elem : T) :
  (forall y, y ∈ TreeSet.elems p -> lt elem y = true) ->
  TreeSet.findAux lt p elem = TreeSet.nullptr.
Proof using lt_irrefl.
  induction p as [|l IHl e r _]; [done|]. simpl. intros Hall.
  assert (He : lt elem e = true)
    by (apply Hall; rewrite elem_of_app, elem_of_cons; auto).
  rewrite bool_decide_eq_false_2 by (intros ->; by rewrite lt_irrefl in He).
  rewrite He. apply IHl. intros y Hy. apply Hall. rewrite elem_of_app; auto.
Qed.

Lemma TreeSet_findAux_below (p : Node) (elem : T) :
  (forall y, y ∈ TreeSet.elems p -> lt y elem = true) ->
  TreeSet.findAux lt p elem = TreeSet.nullptr.
Proof using lt_irrefl lt_trans.
  induction p as [|l _ e r IHr]; [done|]. simpl. intros Hall.
  assert (He : lt e elem = true)
    by (apply Hall; rewrite elem_of_app, elem_of_cons; auto).
  rewrite bool_decide_eq_false_2 by (intros ->; by rewrite lt_irrefl in He).
  rewrite (lt_asym e elem He). apply IHr. intros y Hy. apply Hall.
  rewrite elem_of_app, elem_of_cons; auto.
Qed.

Lemma TreeSet_eraseAux_findAux (p : Node) (elem : T) :
  ordered p ->
  TreeSet.findAux lt (TreeSet.eraseAux lt p elem) elem = TreeSet.nullptr.
Proof using lt_irrefl lt_trans.
  induction p as [|l IHl e r IHr]; [done|].
  cbn [TreeSet.eraseAux TreeSet.elems]. intros Hs.
  apply sorted_middle in Hs as (Hl & Hr & Hle & Her & Hlr).
  case_bool_decide as Heq.
  - subst e.
    destruct l as [|ll le lr]; [by apply TreeSet_findAux_above|].
    destruct r as [|rl re rr]; [by apply TreeSet_findAux_below|].
    unfold TreeSet.eraseRoot, TreeSet.moveSmallestAndErase.
    pose proof (TreeSet_unlinkSmallest_elems (TreeSet.node rl re rr)) as Hu.
    destruct (TreeSet.unlinkSmallest (TreeSet.node rl re rr)) as [[e' r']|]; [|done].
    cbn [TreeSet.findAux].
    assert (He' : lt elem e' = true) by (apply Her; rewrite Hu; by left).
    rewrite bool_decide_eq_false_2 by (intros ->; by rewrite lt_irrefl in He').
    rewrite He'.
    exact (TreeSet_findAux_below (TreeSet.node ll le lr) elem Hle).
  - destruct (lt elem e) eqn:E1; cbn [TreeSet.findAux];
      rewrite bool_decide_eq_false_2 by congruence; rewrite E1; auto.
Qed.


Lemma TreeSet_elems_length (p : Node) : length (TreeSet.elems p) = TreeSet.nodes p.
Proof.
  induction p as [|l IHl e r IHr]; [done|].
  simpl. rewrite length_app. simpl. lia.
Qed.

Lemma TreeSet_firstInOrder_remaining (p : Node) (anc : list Node) :
  TreeSet.remaining
    (TreeSet.MkIterator (TreeSet.firstInOrder p anc).1 (TreeSet.firstInOrder p anc).2)
  = match p with
    | TreeSet.nullptr => []
    | TreeSet.node _ _ _ => TreeSet.elems p ++ TreeSet.pending anc
    end.
Proof.
  revert anc. induction p as [|l IHl e r _]; intros anc; [done|].
  destruct l as [|ll le lr]; [done|].
  change (TreeSet.firstInOrder (TreeSet.node (TreeSet.node ll le lr) e r) anc)
    with (TreeSet.firstInOrder (TreeSet.node ll le lr)
            (TreeSet.node (TreeSet.node ll le lr) e r :: anc)).
  rewrite IHl. cbn [TreeSet.elems TreeSet.pending].
  by rewrite <- !app_assoc.
Qed.

Lemma TreeSet_next_remaining (it : TreeSet.Iterator T) (e : T) :
  TreeSet.elem it = Return e ->
  exists it', TreeSet.next it = (Return tt, it') /\
              TreeSet.remaining it = e :: TreeSet.remaining it'.
Proof.
  destruct it as [c anc]. unfold TreeSet.elem, TreeSet.next, TreeSet.remaining.
  cbn [TreeSet._current TreeSet._ancestors].
  destruct c as [|l e0 r]; [done|]. intros [= ->].
  destruct r as [|rl re rr].
  - destruct anc as [|top rest].
    + by eexists.
    + eexists; split; [done|]. cbn [TreeSet._current TreeSet._ancestors].
      by destruct top.
  - pose proof (TreeSet_firstInOrder_remaining (TreeSet.node rl re rr) anc) as Hf.
    destruct (TreeSet.firstInOrder (TreeSet.node rl re rr) anc) as [c' anc'].
    eexists; split; [done|].
    unfold TreeSet.remaining in Hf. cbn [fst snd TreeSet._current TreeSet._ancestors] in *.
    by rewrite Hf.
Qed.

Lemma TreeSet_walk_remaining (fuel : nat) (it : TreeSet.Iterator T) :
  (length (TreeSet.remaining it) < fuel)%nat ->
  TreeSet.walk fuel it = Some (TreeSet.remaining it).
Proof.
  revert it. induction fuel as [|fuel IH]; intros it Hlen; [lia|].
  cbn [TreeSet.walk].
  destruct (TreeSet.is_end it) eqn:Hend.
  - unfold TreeSet.is_end, TreeSet.remaining in *. by destruct (TreeSet._current it).
  - assert (exists e, TreeSet.elem it = Return e) as [e He].
    { unfold TreeSet.is_end, TreeSet.elem in *.
      destruct (TreeSet._current it); [done | by eexists]. }
    destruct (TreeSet_next_remaining it e He) as (it' & Hn & Hr).
    rewrite He, Hn. rewrite Hr in Hlen |- *. simpl in Hlen.
    rewrite IH by lia. done.
Qed.

Lemma TreeSet_iterate_elems (s : TreeSet.t T) :
  TreeSet.iterate s = Some (TreeSet.elems (TreeSet._root s)).
Proof.
  unfold TreeSet.iterate, TreeSet.begin_, TreeSet.mkIterator.
  pose proof (TreeSet_firstInOrder_remaining (TreeSet._root s) []) as Hf.
  destruct (TreeSet.firstInOrder (TreeSet._root s) []) as [c anc].
  cbn [fst snd] in Hf.
  assert (Hrem : TreeSet.remaining (TreeSet.MkIterator c anc) =
                 TreeSet.elems (TreeSet._root s)).
  { rewrite Hf. destruct (TreeSet._root s); [done|]. by rewrite app_nil_r. }
  rewrite TreeSet_walk_remaining; rewrite Hrem; [done|].
  rewrite TreeSet_elems_length. lia.
Qed.

Lemma TreeSet_foldl_ordered (ops : list (TreeSet.op T)) (s : TreeSet.t T) :
  ordered (TreeSet._root s) ->
  ordered (TreeSet._root (foldl (TreeSet.apply lt) s ops)).
Proof using lt_trans lt_total.
  revert s. induction ops as [|o ops IH]; intros s Hs; [done|].
  simpl. apply IH. destruct o as [e|e]; simpl.
  - by apply TreeSet_insertAux_ordered.
  - by apply TreeSet_eraseAux_ordered.
Qed.

Lemma TreeSet_run_ordered (ops : list (TreeSet.op T)) :
  ordered (TreeSet._root (TreeSet.run lt ops)).
Proof using lt_trans lt_total.
  apply TreeSet_foldl_ordered. constructor.
Qed.



End TreeSetFacts.



(** C2 (the code departs from it): inserting under a key that is present
    keeps the old value.  Here the map holds key 1 with value 10;
    [insert(1, 20)] leaves [at(1)] at 10. *)
Theorem C2_insert_existing_key_keeps_old_value :
  let m := TreeMap.insert Z.ltb 1 10 TreeMap.init in
  TreeMap.at_ Z.ltb 1 m = Return 10 /\
  TreeMap.at_ Z.ltb 1 (TreeMap.insert Z.ltb 1 20 m) = Return 10 /\
  TreeMap.insert Z.ltb 1 20 m = m.
Proof. repeat split. Qed.

(** * Properties of the hash map *)

Section ListFacts.
Context {A : Type}.

Lemma elem_of_concat (x : A) (ls : list (list A)) :
  x ∈ concat ls <-> exists i l, ls !! i = Some l /\ x ∈ l.
Proof.
  induction ls as [|l0 ls IH]; simpl.
  - split; [by intros ?%elem_of_nil | by intros (i & l & ? & _)].
  - rewrite elem_of_app, IH. split.
    + intros [Hx | (i & l & Hl & Hx)].
      * by exists O, l0.
      * by exists (S i), l.
    + intros (i & l & Hl & Hx). destruct i as [|i]; simpl in Hl.
      * left. congruence.
      * right. by exists i, l.
Qed.

Lemma concat_replicate_nil (n : nat) : concat (replicate n (@nil A)) = [].
Proof. induction n; simpl; auto. Qed.

Lemma concat_insert (ls : list (list A)) (i : nat) (l : list A) :
  (i < length ls)%nat ->
  concat (<[i := l]> ls) = concat (take i ls) ++ l ++ concat (drop (S i) ls).
Proof.
  intros Hi. rewrite insert_take_drop by done.
  by rewrite concat_app.
Qed.

Lemma concat_lookup (ls : list (list A)) (i : nat) (l : list A) :
  ls !! i = Some l ->
  concat ls = concat (take i ls) ++ l ++ concat (drop (S i) ls).
Proof.
  intros Hi. rewrite <- (take_drop_middle ls i l Hi) at 1.
  by rewrite concat_app.
Qed.

Lemma elem_of_insert_inv (l : list A) (i : nat) (x y : A) :
  x ∈ <[i := y]> l -> x = y \/ x ∈ l.
Proof.
  revert i. induction l as [|a l IH]; intros i; [by intros ?%elem_of_nil|].
  destruct i as [|i]; simpl; rewrite !elem_of_cons.
  - tauto.
  - intros [?|Hx]; [tauto|]. destruct (IH _ Hx); tauto.
Qed.

Lemma foldl_concat {B : Type} (f : B -> A -> B) (b : B) (ls : list (list A)) :
  foldl (fun acc l => foldl f acc l) b ls = foldl f b (concat ls).
Proof.
  revert b. induction ls as [|l ls IH]; intros b; [done|].
  simpl. by rewrite foldl_app, IH.
Qed.
End ListFacts.

Section HashMapFacts.
Context {K V : Type} `{EqDecision K}.
Variable hash : K -> Z.

Local Abbreviation table := (HashMap.t K V).
Local Abbreviation chain := (list (K * V)).

(** *** Searching a chain *)

Lemma HashMap_findWithPrevious_Some (key : K) (c : chain) (pos i : nat) :
  HashMap.findWithPrevious key c pos = Some i ->
  exists j v, i = (pos + j)%nat /\ c !! j = Some (key, v) /\ key ∉ (take j c).*1.
Proof.
  revert pos. induction c as [|[k v] c IH]; intros pos; simpl; [done|].
  case_bool_decide as Hk.
  - intros [= <-]. subst k. exists O, v. repeat split; [lia|].
    simpl. by intros ?%elem_of_nil.
  - intros Hf. destruct (IH _ Hf) as (j & v' & -> & Hj & Hnot).
    exists (S j), v'. repeat split; [lia | done |].
    simpl. rewrite elem_of_cons. intros [?|?]; [simpl in *; congruence | done].
Qed.

Lemma HashMap_findWithPrevious_None (key : K) (c : chain) (pos : nat) :
  HashMap.findWithPrevious key c pos = None -> key ∉ c.*1.
Proof.
  revert pos. induction c as [|[k v] c IH]; intros pos; simpl.
  - intros _. by intros ?%elem_of_nil.
  - case_bool_decide as Hk; [done|]. intros Hf.
    rewrite elem_of_cons. intros [?|?]; [congruence|]. by eapply IH.
Qed.

Lemma HashMap_findNode_Some (key : K) (c : chain) (j : nat) :
  HashMap.findNode key c = Some j ->
  exists v, c !! j = Some (key, v) /\ key ∉ (take j c).*1.
Proof.
  intros Hf. apply HashMap_findWithPrevious_Some in Hf as (j' & v & -> & ? & ?).
  by exists v.
Qed.

Lemma HashMap_findNode_None (key : K) (c : chain) :
  HashMap.findNode key c = None -> key ∉ c.*1.
Proof. apply HashMap_findWithPrevious_None. Qed.

(** *** Bins *)

Lemma HashMap_index_lt (key : K) (binCount : Z) :
  0 < binCount -> (HashMap.index hash key binCount < Z.to_nat binCount)%nat.
Proof.
  intros Hpos. unfold HashMap.index.
  pose proof (Z.mod_pos_bound (hash key) binCount Hpos). lia.
Qed.

Lemma HashMap_bin_lookup (bins : list chain) (idx : nat) :
  (idx < length bins)%nat -> bins !! idx = Some (HashMap.bin bins idx).
Proof.
  intros Hlt. unfold HashMap.bin. by apply list_lookup_lookup_total_lt.
Qed.

Lemma HashMap_entries_bin (m : table) (k : K) (v : V) :
  HashMap.wf hash m ->
  (k, v) ∈ HashMap.entries m <->
  (k, v) ∈ HashMap.bin (HashMap._bins m) (HashMap.index hash k (HashMap._binCount m)).
Proof.
  intros [Hc Hlen Hplace _ _]. unfold HashMap.entries.
  rewrite elem_of_concat. split.
  - intros (i & l & Hl & Hkv).
    rewrite (Hplace i l k v Hl Hkv).
    unfold HashMap.bin. by rewrite (list_lookup_total_correct _ _ _ Hl).
  - intros Hkv. eexists _, _. split; [|exact Hkv].
    apply HashMap_bin_lookup. rewrite Hlen. by apply HashMap_index_lt.
Qed.

(** How the list of all entries changes when the chain of [key] is
    rewritten. *)
Lemma HashMap_entries_split (m : table) (key : K) :
  HashMap.wf hash m ->
  let idx := HashMap.index hash key (HashMap._binCount m) in
  let c := HashMap.bin (HashMap._bins m) idx in
  match HashMap.findNode key c with
  | Some pos =>
      exists X Y v0,
        c !! pos = Some (key, v0) /\
        HashMap.entries m = X ++ (key, v0) :: Y /\
        (forall x, concat (<[idx := (<[pos := x]> c)]> (HashMap._bins m)) = X ++ x :: Y) /\
        concat (<[idx := (delete pos c)]> (HashMap._bins m)) = X ++ Y
  | None =>
      (key ∉ HashMap.keys m) /\
      exists X Y,
        HashMap.entries m = X ++ Y /\
        (forall x, concat (<[idx := (x :: c)]> (HashMap._bins m)) = X ++ x :: Y)
  end.
Proof.
  intros Hwf idx c.
  assert (Hidx : (idx < length (HashMap._bins m))%nat).
  { rewrite (HashMap.wf_length _ _ Hwf). apply HashMap_index_lt, Hwf. }
  pose proof (HashMap_bin_lookup _ _ Hidx) as Hc. fold c in Hc.
  pose proof (concat_lookup _ _ _ Hc) as Hent.
  destruct (HashMap.findNode key c) as [pos|] eqn:Hf.
  - apply HashMap_findNode_Some in Hf as (v0 & Hpos & _).
    pose proof (lookup_lt_Some _ _ _ Hpos) as Hlt.
    exists (concat (take idx (HashMap._bins m)) ++ take pos c),
           (drop (S pos) c ++ concat (drop (S idx) (HashMap._bins m))), v0.
    split; [done|]. split; [|split].
    + unfold HashMap.entries. rewrite Hent.
      rewrite <- (take_drop_middle c pos _ Hpos) at 1.
      by rewrite <- !app_assoc.
    + intros x. rewrite concat_insert by done.
      rewrite insert_take_drop by done. by rewrite <- !app_assoc.
    + rewrite concat_insert by done.
      rewrite delete_take_drop. by rewrite <- !app_assoc.
  - apply HashMap_findNode_None in Hf. split.
    + unfold HashMap.keys. intros Hin.
      apply list_elem_of_fmap in Hin as ([k v] & -> & Hin). simpl in Hf.
      apply HashMap_entries_bin in Hin; [|done].
      apply Hf. apply list_elem_of_fmap. by exists (k, v).
    + exists (concat (take idx (HashMap._bins m))),
             (c ++ concat (drop (S idx) (HashMap._bins m))).
      split; [done|]. intros x. by rewrite concat_insert.
Qed.

(** Replacing the chain of bin [idx] by one whose keys all hash to [idx]
    keeps every key in its bin. *)
Lemma HashMap_place_insert (bins : list chain) (binCount : Z) (idx : nat) (c' : chain) :
  (forall i c k v, bins !! i = Some c -> (k, v) ∈ c ->
                   HashMap.index hash k binCount = i) ->
  (forall k v, (k, v) ∈ c' -> HashMap.index hash k binCount = idx) ->
  forall i c k v, <[idx := c']> bins !! i = Some c -> (k, v) ∈ c ->
                  HashMap.index hash k binCount = i.
Proof.
  intros Hold Hnew i c k v Hl Hkv.
  destruct (decide (i = idx)) as [->|Hne].
  - destruct (decide (idx < length bins)%nat) as [Hlt|Hge].
    + rewrite list_lookup_insert_eq in Hl by done. injection Hl as <-. eauto.
    + rewrite list_insert_ge in Hl by lia. eauto.
  - rewrite list_lookup_insert_ne in Hl by done. eauto.
Qed.

(** *** Lists of entries with distinct keys *)

Lemma HashMap_keys_middle (X Y : chain) (k : K) (v0 : V) :
  NoDup (X ++ (k, v0) :: Y).*1 ->
  (k ∉ X.*1) /\ (k ∉ Y.*1) /\ NoDup (X ++ Y).*1.
Proof.
  rewrite !fmap_app, fmap_cons. simpl.
  rewrite !NoDup_app, NoDup_cons. intros (HX & Hdis & HkY & HY).
  repeat split; try done.
  - intros Hin. apply (Hdis k Hin). by left.
  - intros x Hx Hy. apply (Hdis x Hx). by right.
Qed.

Lemma HashMap_not_in_keys (l : chain) (k : K) (v : V) :
  k ∉ l.*1 -> (k, v) ∉ l.
Proof.
  intros Hk Hin. apply Hk. apply list_elem_of_fmap. by exists (k, v).
Qed.

Lemma HashMap_agrees_absent (m : table) (f : K -> option V) (k : K) :
  HashMap.agrees m f -> k ∉ HashMap.keys m -> f k = None.
Proof.
  unfold HashMap.agrees. intros Hag Hk. destruct (f k) as [v|] eqn:E; [|done].
  apply Hag in E. exfalso. apply Hk. apply list_elem_of_fmap. by exists (k, v).
Qed.

Lemma HashMap_wrap32_small (z : Z) : 0 <= z < 2 ^ 32 -> wrap32 z = z.
Proof. intros Hz. unfold wrap32. by apply Z.mod_small. Qed.

(** *** erase *)

Lemma HashMap_erase_step (m : table) (f : K -> option V) (key : K) :
  HashMap.wf hash m -> HashMap.in_range m -> HashMap.agrees m f ->
  HashMap.wf hash (HashMap.erase hash key m) /\
  HashMap.agrees (HashMap.erase hash key m) (HashMap.ref_apply f (HashMap.Erase key)).
Proof.
  intros Hwf [Hb He] Hag. unfold HashMap.agrees in *.
  pose proof (HashMap_entries_split m key Hwf) as Hsplit. cbn zeta in Hsplit.
  unfold HashMap.erase.
  set (idx := HashMap.index hash key (HashMap._binCount m)) in *.
  set (c := HashMap.bin (HashMap._bins m) idx) in *.
  destruct (HashMap.findNode key c) as [pos|].
  - destruct Hsplit as (X & Y & v0 & Hpos & Hent & _ & Hdel).
    pose proof (HashMap.wf_nodup _ _ Hwf) as Hnd.
    unfold HashMap.keys in Hnd. rewrite Hent in Hnd.
    apply HashMap_keys_middle in Hnd as (HkX & HkY & Hnd').
    split.
    + constructor; simpl.
      * apply Hwf.
      * rewrite length_insert. apply Hwf.
      * apply HashMap_place_insert; [apply Hwf|].
        intros k v Hkv. apply list_elem_of_delete_inv in Hkv.
        eapply (HashMap.wf_place _ _ Hwf); [|exact Hkv].
        apply HashMap_bin_lookup. rewrite (HashMap.wf_length _ _ Hwf).
        apply HashMap_index_lt, Hwf.
      * unfold HashMap.keys, HashMap.entries. simpl. by rewrite Hdel.
      * unfold HashMap.entries. simpl. rewrite Hdel.
        pose proof (HashMap.wf_entries _ _ Hwf) as Hn.
        rewrite Hent, length_app in Hn. simpl in Hn.
        rewrite length_app. rewrite HashMap_wrap32_small; lia.
    + intros k v. unfold HashMap.entries. simpl. rewrite Hdel.
      destruct (decide (k = key)) as [->|Hne].
      * split; [|done]. rewrite elem_of_app.
        intros [Hin|Hin]; exfalso;
          [apply (HashMap_not_in_keys X key v HkX Hin)
          |apply (HashMap_not_in_keys Y key v HkY Hin)].
      * rewrite <- Hag, Hent. rewrite !elem_of_app, elem_of_cons.
        split; [tauto|]. intros [?|[?|?]]; [tauto | congruence | tauto].
  - destruct Hsplit as (Hnot & _). split; [done|].
    intros k v. simpl. destruct (decide (k = key)) as [->|Hne]; [|apply Hag].
    rewrite Hag. by rewrite (HashMap_agrees_absent m f key Hag Hnot).
Qed.

(** *** insert, after the growth test *)

Lemma HashMap_insert_core (m1 : table) (f : K -> option V) (key : K) (value : V) :
  HashMap.wf hash m1 -> HashMap._entryCount m1 < 2 ^ 32 - 1 -> HashMap.agrees m1 f ->
  let idx := HashMap.index hash key (HashMap._binCount m1) in
  let m' :=
    match HashMap.findNode key (HashMap.bin (HashMap._bins m1) idx) with
    | Some pos =>
        HashMap.Build
          (<[idx := (<[pos := (key, value)]> (HashMap.bin (HashMap._bins m1) idx))]>
             (HashMap._bins m1))
          (HashMap._binCount m1) (HashMap._entryCount m1)
    | None =>
        HashMap.Build
          (<[idx := ((key, value) :: HashMap.bin (HashMap._bins m1) idx)]>
             (HashMap._bins m1))
          (HashMap._binCount m1) (wrap32 (HashMap._entryCount m1 + 1))
    end in
  HashMap.wf hash m' /\
  HashMap.agrees m' (HashMap.ref_apply f (HashMap.Insert key value)).
Proof.
  intros Hwf He Hag idx. unfold HashMap.agrees in *.
  pose proof (HashMap_entries_split m1 key Hwf) as Hsplit. cbn zeta in Hsplit.
  fold idx in Hsplit.
  set (c := HashMap.bin (HashMap._bins m1) idx) in *.
  assert (Hc : HashMap._bins m1 !! idx = Some c).
  { apply HashMap_bin_lookup. rewrite (HashMap.wf_length _ _ Hwf).
    apply HashMap_index_lt, Hwf. }
  pose proof (HashMap.wf_nodup _ _ Hwf) as Hnd. unfold HashMap.keys in Hnd.
  destruct (HashMap.findNode key c) as [pos|]; cbn zeta.
  - destruct Hsplit as (X & Y & v0 & Hpos & Hent & Hset & _).
    rewrite Hent in Hnd.
    pose proof (HashMap_keys_middle _ _ _ _ Hnd) as (HkX & HkY & Hnd').
    split.
    + constructor; simpl.
      * apply Hwf.
      * rewrite length_insert. apply Hwf.
      * apply HashMap_place_insert; [apply Hwf|].
        intros k v Hkv. apply elem_of_insert_inv in Hkv as [[= -> ->]|Hkv]; [done|].
        by eapply (HashMap.wf_place _ _ Hwf).
      * unfold HashMap.keys, HashMap.entries. simpl. rewrite Hset.
        by rewrite fmap_app, fmap_cons in Hnd |- *.
      * unfold HashMap.entries. simpl. rewrite Hset.
        rewrite (HashMap.wf_entries _ _ Hwf), Hent.
        by rewrite !length_app.
    + intros k v. unfold HashMap.entries. simpl. rewrite Hset.
      rewrite !elem_of_app, elem_of_cons.
      destruct (decide (k = key)) as [->|Hne].
      * split; [|intros [= ->]; tauto].
        intros [Hin|[[= ->]|Hin]]; [|done|]; exfalso;
          [apply (HashMap_not_in_keys X key v HkX Hin)
          |apply (HashMap_not_in_keys Y key v HkY Hin)].
      * rewrite <- Hag, Hent. rewrite !elem_of_app, elem_of_cons.
        split; intros [?|[?|?]]; first [tauto | congruence].
  - destruct Hsplit as (Hnot & X & Y & Hent & Hcons).
    split.
    + constructor; simpl.
      * apply Hwf.
      * rewrite length_insert. apply Hwf.
      * apply HashMap_place_insert; [apply Hwf|].
        intros k v Hkv. apply elem_of_cons in Hkv as [[= -> ->]|Hkv]; [done|].
        by eapply (HashMap.wf_place _ _ Hwf).
      * unfold HashMap.keys, HashMap.entries in *. simpl. rewrite Hcons.
        rewrite Hent in Hnd, Hnot.
        rewrite fmap_app in *. rewrite fmap_cons. simpl.
        rewrite NoDup_app in *. destruct Hnd as (HX & Hdis & HY).
        rewrite elem_of_app in Hnot.
        split; [done|]. split.
        -- intros x Hx. rewrite elem_of_cons. intros [->|Hy]; [tauto|].
           by apply (Hdis x).
        -- apply NoDup_cons. tauto.
      * unfold HashMap.entries. simpl. rewrite Hcons.
        pose proof (HashMap.wf_entries _ _ Hwf) as Hn.
        rewrite Hent, length_app in Hn.
        rewrite length_app. simpl. rewrite HashMap_wrap32_small; lia.
    + intros k v. unfold HashMap.entries. simpl. rewrite Hcons.
      rewrite !elem_of_app, elem_of_cons.
      destruct (decide (k = key)) as [->|Hne].
      * split; [|intros [= ->]; tauto].
        intros [Hin|[[= ->]|Hin]]; [|done|]; exfalso; apply Hnot;
          apply list_elem_of_fmap; exists (key, v); (split; [done|]);
          rewrite Hent, elem_of_app; tauto.
      * rewrite <- Hag. rewrite Hent, !elem_of_app.
        split; [|tauto]. intros [?|[?|?]]; [tauto | congruence | tauto].
Qed.

(** *** grow *)

Lemma HashMap_rehash_foldl (binCount : Z) (l : chain) (acc : list chain) :
  0 < binCount ->
  length acc = Z.to_nat binCount ->
  (forall i c k v, acc !! i = Some c -> (k, v) ∈ c ->
                   HashMap.index hash k binCount = i) ->
  let r := foldl (HashMap.rehash_node hash binCount) acc l in
  length r = Z.to_nat binCount /\
  (forall i c k v, r !! i = Some c -> (k, v) ∈ c ->
                   HashMap.index hash k binCount = i) /\
  concat r ≡ₚ l ++ concat acc.
Proof.
  intros Hpos. revert acc. induction l as [|[k0 v0] l IH]; intros acc Hlen Hplace.
  - simpl. done.
  - cbn [foldl].
    set (idx := HashMap.index hash k0 binCount).
    assert (Hidx : (idx < length acc)%nat)
      by (rewrite Hlen; by apply HashMap_index_lt).
    pose proof (HashMap_bin_lookup _ _ Hidx) as Hc.
    destruct (IH (HashMap.rehash_node hash binCount acc (k0, v0))) as (H1 & H2 & H3).
    + unfold HashMap.rehash_node. by rewrite length_insert.
    + unfold HashMap.rehash_node. cbn [fst]. fold idx.
      apply HashMap_place_insert; [done|].
      intros k v Hkv. apply elem_of_cons in Hkv as [[= -> ->]|Hkv]; [done|].
      by eapply Hplace.
    + repeat split; [done..|].
      rewrite H3. unfold HashMap.rehash_node. cbn [fst]. fold idx.
      rewrite concat_insert by done.
      rewrite (concat_lookup acc idx _ Hc).
      simpl. by rewrite <- !Permutation_middle.
Qed.

Lemma HashMap_grow_spec (m : table) :
  HashMap.wf hash m -> HashMap._binCount m < 2 ^ 31 ->
  HashMap.wf hash (HashMap.grow hash m) /\
  HashMap._binCount (HashMap.grow hash m) = 2 * HashMap._binCount m /\
  HashMap._entryCount (HashMap.grow hash m) = HashMap._entryCount m /\
  HashMap.entries (HashMap.grow hash m) ≡ₚ HashMap.entries m.
Proof.
  intros Hwf Hb. pose proof (HashMap.wf_count _ _ Hwf) as Hpos.
  assert (Hbc : wrap32 (HashMap._binCount m * 2) = 2 * HashMap._binCount m)
    by (rewrite HashMap_wrap32_small; lia).
  unfold HashMap.grow. rewrite foldl_concat, Hbc.
  destruct (HashMap_rehash_foldl (2 * HashMap._binCount m) (concat (HashMap._bins m))
              (replicate (Z.to_nat (2 * HashMap._binCount m)) []))
    as (H1 & H2 & H3).
  - lia.
  - by rewrite length_replicate.
  - intros i c k v Hl Hkv. apply lookup_replicate in Hl as [-> _].
    by apply elem_of_nil in Hkv.
  - rewrite concat_replicate_nil, app_nil_r in H3.
    repeat split; simpl; try done.
    + lia.
    + unfold HashMap.keys, HashMap.entries. simpl. rewrite H3. apply Hwf.
    + unfold HashMap.entries. simpl. rewrite H3. apply Hwf.
Qed.

Lemma HashMap_agrees_perm (m m' : table) (f : K -> option V) :
  HashMap.entries m' ≡ₚ HashMap.entries m ->
  HashMap.agrees m f -> HashMap.agrees m' f.
Proof.
  unfold HashMap.agrees. intros Hp Hag k v. by rewrite Hp.
Qed.

(** *** insert *)

Lemma HashMap_insert_step (m : table) (f : K -> option V) (key : K) (value : V) :
  HashMap.wf hash m -> HashMap.in_range m -> HashMap.agrees m f ->
  HashMap.wf hash (HashMap.insert hash key value m) /\
  HashMap.agrees (HashMap.insert hash key value m)
    (HashMap.ref_apply f (HashMap.Insert key value)).
Proof.
  intros Hwf [Hb He] Hag. unfold HashMap.insert.
  destruct (HashMap.over_occupied (HashMap._entryCount m) (HashMap._binCount m)).
  - destruct (HashMap_grow_spec m Hwf Hb) as (Hwf' & _ & Hcount & Hperm).
    apply HashMap_insert_core; [done | lia |].
    by apply (HashMap_agrees_perm m).
  - apply HashMap_insert_core; [done | lia | done].
Qed.


(** *** observers *)

Lemma HashMap_at_spec (m : table) (f : K -> option V) (key : K) :
  HashMap.wf hash m -> HashMap.agrees m f ->
  HashMap.at_ hash key m =
  match f key with
  | Some v => Return v
  | None => Throw BadKeyException
  end.
Proof.
  intros Hwf Hag. pose proof (HashMap_entries_split m key Hwf) as Hsplit.
  cbn zeta in Hsplit. unfold HashMap.at_.
  destruct (HashMap.findNode key _) as [pos|].
  - destruct Hsplit as (X & Y & v0 & Hpos & Hent & _). rewrite Hpos.
    assert (Hf : f key = Some v0).
    { apply Hag. rewrite Hent, elem_of_app, elem_of_cons. tauto. }
    by rewrite Hf.
  - destruct Hsplit as (Hnot & _).
    by rewrite (HashMap_agrees_absent m f key Hag Hnot).
Qed.

Lemma HashMap_contains_spec (m : table) (key : K) :
  HashMap.wf hash m ->
  HashMap.contains hash key m = true <-> key ∈ HashMap.keys m.
Proof.
  intros Hwf. pose proof (HashMap_entries_split m key Hwf) as Hsplit.
  cbn zeta in Hsplit. unfold HashMap.contains.
  destruct (HashMap.findNode key _) as [pos|].
  - destruct Hsplit as (X & Y & v0 & Hpos & Hent & _). split; [|done].
    intros _. unfold HashMap.keys. rewrite Hent, fmap_app, fmap_cons.
    rewrite elem_of_app, elem_of_cons. simpl. tauto.
  - destruct Hsplit as (Hnot & _). split; [done | by intros ?].
Qed.

Lemma HashMap_size_spec (m : table) :
  HashMap.wf hash m -> HashMap.in_range m ->
  HashMap.size m = Z.of_nat (length (HashMap.keys m)).
Proof.
  intros Hwf [_ He]. unfold HashMap.size, HashMap.keys, to_int.
  rewrite length_fmap, <- (HashMap.wf_entries _ _ Hwf).
  destruct (HashMap._entryCount m <? 2 ^ 31) eqn:E; [done|].
  apply Z.ltb_ge in E. lia.
Qed.

(** *** sequences of operations *)

Lemma HashMap_init_wf : HashMap.wf hash (@HashMap.init K V).
Proof.
  constructor; try done.
  - intros i c k v Hl Hkv. apply lookup_replicate in Hl as [-> _].
    by apply elem_of_nil in Hkv.
  - constructor.
Qed.

Lemma HashMap_init_agrees : HashMap.agrees (@HashMap.init K V) (fun _ => None).
Proof. intros k v. split; [by intros ?%elem_of_nil | done]. Qed.

Lemma HashMap_within_inv (m : table) (ops : list (HashMap.op K V)) :
  HashMap.within hash m ops -> HashMap.in_range m.
Proof. destruct ops; simpl; tauto. Qed.

Lemma HashMap_foldl_spec (ops : list (HashMap.op K V)) (m : table)
    (f : K -> option V) :
  HashMap.wf hash m -> HashMap.agrees m f -> HashMap.within hash m ops ->
  let m' := foldl (HashMap.apply hash) m ops in
  HashMap.wf hash m' /\ HashMap.agrees m' (foldl HashMap.ref_apply f ops) /\
  HashMap.in_range m'.
Proof.
  revert m f. induction ops as [|o ops IH]; intros m f Hwf Hag Hin.
  - simpl in *. tauto.
  - destruct Hin as [Hr Hin]. cbn [foldl].
    assert (HashMap.wf hash (HashMap.apply hash m o) /\
            HashMap.agrees (HashMap.apply hash m o) (HashMap.ref_apply f o))
      as [Hwf' Hag'].
    { destruct o as [key value|key]; cbn [HashMap.apply].
      - by apply HashMap_insert_step.
      - by apply HashMap_erase_step. }
    by apply IH.
Qed.

End HashMapFacts.







(** * Properties of the reference-counted binary tree *)

Section RefCountFacts.
Context {T : Type} `{EqDecision T} `{Inhabited T}.
Local Abbreviation Node := (BinTree.Node T).
Local Abbreviation store := (Mem.heap Node).

(** ** Counting handles and links *)

Lemma handles_cons (p q : positive) (R : list positive) :
  RefCount.handles p (q :: R) =
  (if decide (q = p) then 1 else 0) + RefCount.handles p R.
Proof.
  unfold RefCount.handles. rewrite filter_cons.
  destruct (decide (q = p)); simpl; lia.
Qed.

Lemma handles_app (p : positive) (R1 R2 : list positive) :
  RefCount.handles p (R1 ++ R2) = RefCount.handles p R1 + RefCount.handles p R2.
Proof.
  unfold RefCount.handles. rewrite filter_app, length_app. lia.
Qed.

Lemma handles_nonneg (p : positive) (R : list positive) : 0 <= RefCount.handles p R.
Proof. unfold RefCount.handles. lia. Qed.

Lemma handles_elem (p : positive) (R : list positive) :
  p ∈ R <-> 0 < RefCount.handles p R.
Proof.
  induction R as [|q R IH].
  - split; [by intros ?%elem_of_nil | unfold RefCount.handles; simpl; lia].
  - rewrite handles_cons, elem_of_cons, IH.
    pose proof (handles_nonneg p R).
    destruct (decide (q = p)) as [->|Hne].
    + split; [lia | by left].
    + split; [intros [->|?]; [done | lia] | intros ?; right; lia].
Qed.

Lemma handles_perm (p : positive) (R R' : list positive) :
  R ≡ₚ R' -> RefCount.handles p R = RefCount.handles p R'.
Proof. intros HP. unfold RefCount.handles. by rewrite HP. Qed.

Lemma handles_root_of (p : positive) (o : option positive) :
  RefCount.handles p (RefCount.root_of o) = RefCount.points_to p o.
Proof.
  unfold RefCount.points_to. destruct o as [q|].
  - change (RefCount.root_of (Some q)) with [q].
    rewrite handles_cons. change (RefCount.handles p []) with 0.
    destruct (decide (q = p)); case_bool_decide; first [lia | congruence].
  - change (RefCount.root_of None) with (@nil positive).
    case_bool_decide; [congruence | done].
Qed.

Lemma points_to_nonneg (p : positive) (o : option positive) :
  0 <= RefCount.points_to p o.
Proof. unfold RefCount.points_to. case_bool_decide; lia. Qed.

Lemma links_nonneg (p : positive) (n : Node) : 0 <= RefCount.links p n.
Proof.
  unfold RefCount.links.
  pose proof (points_to_nonneg p (BinTree._left n)).
  pose proof (points_to_nonneg p (BinTree._right n)).
  destruct (0 <? BinTree._refs n); lia.
Qed.

Lemma links_uncounted (p : positive) (n : Node) :
  BinTree._refs n <= 0 -> RefCount.links p n = 0.
Proof.
  intros Hr. unfold RefCount.links.
  destruct (0 <? BinTree._refs n) eqn:E; [|done]. apply Z.ltb_lt in E. lia.
Qed.

Lemma links_counted (p : positive) (n : Node) :
  0 < BinTree._refs n ->
  RefCount.links p n =
  RefCount.points_to p (BinTree._left n) + RefCount.points_to p (BinTree._right n).
Proof.
  intros Hr. unfold RefCount.links.
  destruct (0 <? BinTree._refs n) eqn:E; [done|]. apply Z.ltb_ge in E. lia.
Qed.

Lemma links_pos (p : positive) (n : Node) :
  0 < BinTree._refs n ->
  BinTree._left n = Some p \/ BinTree._right n = Some p ->
  0 < RefCount.links p n.
Proof.
  intros Hr Hc. rewrite links_counted by done.
  pose proof (points_to_nonneg p (BinTree._left n)).
  pose proof (points_to_nonneg p (BinTree._right n)).
  assert (Hone : RefCount.points_to p (Some p) = 1)
    by (unfold RefCount.points_to; by rewrite bool_decide_eq_true_2).
  destruct Hc as [Hc|Hc]; rewrite Hc in *; lia.
Qed.

Lemma inrefs_empty (p : positive) : RefCount.inrefs (∅ : gmap positive Node) p = 0.
Proof. unfold RefCount.inrefs. by rewrite map_fold_empty. Qed.

Lemma inrefs_insert (cells : gmap positive Node) (q : positive) (n : Node)
    (p : positive) :
  cells !! q = None ->
  RefCount.inrefs (<[q := n]> cells) p = RefCount.links p n + RefCount.inrefs cells p.
Proof.
  intros Hq. unfold RefCount.inrefs.
  rewrite map_fold_insert_L; [done | | done]. intros. lia.
Qed.

Lemma inrefs_delete (cells : gmap positive Node) (q : positive) (n : Node)
    (p : positive) :
  cells !! q = Some n ->
  RefCount.inrefs cells p = RefCount.links p n + RefCount.inrefs (delete q cells) p.
Proof.
  intros Hq. unfold RefCount.inrefs.
  rewrite (map_fold_delete_L _ _ q n cells); [done | | done]. intros. lia.
Qed.

Lemma inrefs_update (cells : gmap positive Node) (q : positive) (n n' : Node)
    (p : positive) :
  cells !! q = Some n ->
  RefCount.inrefs (<[q := n']> cells) p =
  RefCount.inrefs cells p - RefCount.links p n + RefCount.links p n'.
Proof.
  intros Hq. rewrite <- insert_delete_eq.
  rewrite inrefs_insert by apply lookup_delete_eq.
  rewrite (inrefs_delete cells q n p Hq). lia.
Qed.

Lemma inrefs_nonneg (cells : gmap positive Node) (p : positive) :
  0 <= RefCount.inrefs cells p.
Proof.
  induction cells as [|q n cells Hq IH] using map_ind.
  - by rewrite inrefs_empty.
  - rewrite inrefs_insert by done. pose proof (links_nonneg p n). lia.
Qed.

Lemma inrefs_ge (cells : gmap positive Node) (q : positive) (n : Node) (p : positive) :
  cells !! q = Some n -> RefCount.links p n <= RefCount.inrefs cells p.
Proof.
  intros Hq. rewrite (inrefs_delete cells q n p Hq).
  pose proof (inrefs_nonneg (delete q cells) p). lia.
Qed.

Lemma inrefs_zero (cells : gmap positive Node) (p : positive) :
  (forall q n, cells !! q = Some n -> RefCount.links p n = 0) ->
  RefCount.inrefs cells p = 0.
Proof.
  induction cells as [|q n cells Hq IH] using map_ind; intros Hall.
  - by rewrite inrefs_empty.
  - rewrite inrefs_insert by done.
    rewrite (Hall q n) by apply lookup_insert_eq.
    rewrite IH; [done|]. intros q' n' Hq'. apply (Hall q' n').
    rewrite lookup_insert_ne; [done|]. intros ->. congruence.
Qed.

(** ** Reading the store *)

Lemma read_write (p q : positive) (n : Node) (h : store) :
  Mem.read q (Mem.write p n h) = if decide (p = q) then Some n else Mem.read q h.
Proof. unfold Mem.read, Mem.write. simpl. apply lookup_insert. Qed.

Lemma read_write_eq (p : positive) (n : Node) (h : store) :
  Mem.read p (Mem.write p n h) = Some n.
Proof. rewrite read_write. by rewrite decide_True. Qed.

Lemma read_write_ne (p q : positive) (n : Node) (h : store) :
  p <> q -> Mem.read q (Mem.write p n h) = Mem.read q h.
Proof. intros Hne. rewrite read_write. by rewrite decide_False. Qed.

Lemma read_dealloc (p q : positive) (h : store) :
  Mem.read q (Mem.dealloc p h) = if decide (p = q) then None else Mem.read q h.
Proof. unfold Mem.read, Mem.dealloc. simpl. apply lookup_delete. Qed.

Lemma read_alloc (n : Node) (h : store) (q : positive) :
  Mem.read q (Mem.alloc n h).2 =
  if decide (Mem.brk h = q) then Some n else Mem.read q h.
Proof. unfold Mem.read, Mem.alloc. simpl. apply lookup_insert. Qed.

Lemma is_Some_read_write (p q : positive) (n n' : Node) (h : store) :
  Mem.read p h = Some n ->
  is_Some (Mem.read q (Mem.write p n' h)) <-> is_Some (Mem.read q h).
Proof.
  intros Hp. rewrite read_write. destruct (decide (p = q)) as [<-|]; [|done].
  rewrite Hp. split; intros _; by eexists.
Qed.

(** ** Consequences of the counting invariant *)

Lemma consistent_perm (h : store) (R R' : list positive) :
  R ≡ₚ R' -> RefCount.consistent h R -> RefCount.consistent h R'.
Proof.
  intros HP [Hc Hl Hr Hb]. constructor; try done.
  - intros p n Hp. rewrite <- (handles_perm p R R' HP). by apply Hc.
  - intros p Hp. apply Hr. by rewrite HP.
Qed.

Lemma consistent_root_counted (h : store) (R : list positive) (p : positive) :
  RefCount.consistent h R -> p ∈ R ->
  exists n, Mem.read p h = Some n /\ 0 < BinTree._refs n.
Proof.
  intros Hc Hp. destruct (RefCount.cons_roots _ _ Hc p Hp) as [n Hn].
  exists n. split; [done|].
  destruct (RefCount.cons_count _ _ Hc p n Hn) as [_ Heq].
  apply handles_elem in Hp. pose proof (inrefs_nonneg (Mem.cells h) p). lia.
Qed.

Lemma consistent_child_counted (h : store) (R : list positive) (p c : positive)
    (n : Node) :
  RefCount.consistent h R -> Mem.read p h = Some n -> 0 < BinTree._refs n ->
  BinTree._left n = Some c \/ BinTree._right n = Some c ->
  (c < p)%positive /\ exists nc, Mem.read c h = Some nc /\ 0 < BinTree._refs nc.
Proof.
  intros Hc Hp Hr Hch.
  destruct (RefCount.cons_links _ _ Hc p n c Hp Hr Hch) as [Hlt [nc Hnc]].
  split; [done|]. exists nc. split; [done|].
  destruct (RefCount.cons_count _ _ Hc c nc Hnc) as [_ Heq].
  pose proof (links_pos c n Hr Hch). pose proof (inrefs_ge (Mem.cells h) p n c Hp).
  pose proof (handles_nonneg c R). lia.
Qed.

Lemma consistent_uncounted (h : store) (R : list positive) (p : positive) (n : Node) :
  RefCount.consistent h R -> Mem.read p h = Some n -> BinTree._refs n = 0 ->
  (p ∉ R) /\ forall q nq, Mem.read q h = Some nq -> RefCount.links p nq = 0.
Proof.
  intros Hc Hp Hr. destruct (RefCount.cons_count _ _ Hc p n Hp) as [_ Heq].
  pose proof (handles_nonneg p R). pose proof (inrefs_nonneg (Mem.cells h) p).
  split.
  - intros Hin%handles_elem. lia.
  - intros q nq Hq. pose proof (inrefs_ge (Mem.cells h) q nq p Hq).
    pose proof (links_nonneg p nq). lia.
Qed.

Lemma consistent_fresh (h : store) (R : list positive) :
  RefCount.consistent h R ->
  Mem.read (Mem.brk h) h = None /\ (Mem.brk h ∉ R) /\
  forall q nq, Mem.read q h = Some nq -> RefCount.links (Mem.brk h) nq = 0.
Proof.
  intros Hc.
  assert (Hnone : Mem.read (Mem.brk h) h = None).
  { destruct (Mem.read (Mem.brk h) h) eqn:E; [|done].
    assert (Hs : is_Some (Mem.read (Mem.brk h) h)) by (by eexists).
    apply (RefCount.cons_brk _ _ Hc) in Hs. lia. }
  split; [done|]. split.
  - intros Hin. destruct (RefCount.cons_roots _ _ Hc _ Hin) as [? ?]. congruence.
  - intros q nq Hq. destruct (decide (0 < BinTree._refs nq)) as [Hr|Hr].
    + rewrite links_counted by done. unfold RefCount.points_to.
      assert (Hl : forall o, (o = BinTree._left nq \/ o = BinTree._right nq) ->
                             o <> Some (Mem.brk h)).
      { intros o Ho Heq. subst o.
        assert (Hch : BinTree._left nq = Some (Mem.brk h) \/
                      BinTree._right nq = Some (Mem.brk h))
          by (destruct Ho; [left | right]; congruence).
        destruct (RefCount.cons_links _ _ Hc q nq _ Hq Hr Hch) as [_ [? ?]].
        congruence. }
      rewrite !bool_decide_eq_false_2; [done | apply Hl; tauto | apply Hl; tauto].
    + apply links_uncounted. lia.
Qed.

(** ** Changing the count of one node *)

Lemma consistent_set_refs (h : store) (R R' : list positive) (p : positive)
    (n : Node) (r' : Z) :
  RefCount.consistent h R -> Mem.read p h = Some n -> 0 <= r' ->
  (forall q,
     RefCount.handles q R' + RefCount.links q (BinTree.with_refs n r') =
     RefCount.handles q R + RefCount.links q n +
     (if decide (q = p) then r' - BinTree._refs n else 0)) ->
  (0 < r' -> forall c,
     BinTree._left n = Some c \/ BinTree._right n = Some c ->
     (c < p)%positive /\ is_Some (Mem.read c h)) ->
  (forall q, q ∈ R' -> is_Some (Mem.read q h)) ->
  RefCount.consistent (Mem.write p (BinTree.with_refs n r') h) R'.
Proof.
  intros [Hc Hl Hr Hb] Hp Hr' Hbal Hch Hroots. constructor.
  - intros q nq Hq. cbn [Mem.cells Mem.write].
    rewrite (inrefs_update (Mem.cells h) p n _ q Hp).
    specialize (Hbal q). rewrite read_write in Hq.
    destruct (decide (p = q)) as [<-|Hne].
    + injection Hq as <-. cbn [BinTree._refs BinTree.with_refs].
      destruct (Hc p n Hp) as [_ Heq]. rewrite decide_True in Hbal by done.
      split; [done | lia].
    + destruct (Hc q nq Hq) as [Hpos Heq]. rewrite decide_False in Hbal by done.
      split; [done | lia].
  - intros q nq c Hq Hrq Hcq. rewrite read_write in Hq.
    rewrite (is_Some_read_write p c n _ h Hp).
    destruct (decide (p = q)) as [<-|Hne].
    + injection Hq as <-. cbn in Hrq, Hcq. by apply Hch.
    + by apply (Hl q nq c).
  - intros q Hq. rewrite (is_Some_read_write p q n _ h Hp). by apply Hroots.
  - intros q Hq. rewrite (is_Some_read_write p q n _ h Hp) in Hq.
    cbn [Mem.brk Mem.write]. by apply Hb.
Qed.

Lemma links_with_refs_counted (q : positive) (n : Node) (r' : Z) :
  0 < BinTree._refs n -> 0 < r' ->
  RefCount.links q (BinTree.with_refs n r') = RefCount.links q n.
Proof.
  intros Hr Hr'. by rewrite !links_counted.
Qed.

Lemma links_children (q : positive) (n : Node) :
  0 < BinTree._refs n ->
  RefCount.links q n =
  RefCount.handles q
    (RefCount.root_of (BinTree._left n) ++ RefCount.root_of (BinTree._right n)).
Proof.
  intros Hr. rewrite links_counted by done.
  by rewrite handles_app, !handles_root_of.
Qed.

(** One more handle on a counted node. *)
Lemma consistent_inc (h : store) (R : list positive) (p : positive) (n : Node) :
  RefCount.consistent h R -> Mem.read p h = Some n -> 0 < BinTree._refs n ->
  RefCount.consistent (Mem.write p (BinTree.with_refs n (BinTree._refs n + 1)) h)
    (p :: R).
Proof.
  intros Hc Hp Hr. eapply consistent_set_refs; [exact Hc | exact Hp | lia | | |].
  - intros q. rewrite links_with_refs_counted by lia. rewrite handles_cons.
    destruct (decide (p = q)); destruct (decide (q = p));
      first [lia | congruence].
  - intros _ c Hch. by apply (RefCount.cons_links _ _ Hc p n c).
  - intros q [->|Hq]%elem_of_cons; [by eexists|]. by apply (RefCount.cons_roots _ _ Hc).
Qed.

(** One handle less on a node that stays counted. *)
Lemma consistent_dec (h : store) (R : list positive) (p : positive) (n : Node) :
  RefCount.consistent h (p :: R) -> Mem.read p h = Some n -> 1 < BinTree._refs n ->
  RefCount.consistent (Mem.write p (BinTree.with_refs n (BinTree._refs n - 1)) h) R.
Proof.
  intros Hc Hp Hr. eapply consistent_set_refs; [exact Hc | exact Hp | lia | | |].
  - intros q. rewrite links_with_refs_counted by lia. rewrite handles_cons.
    destruct (decide (p = q)); destruct (decide (q = p));
      first [lia | congruence].
  - intros _ c Hch. apply (RefCount.cons_links _ _ Hc p n c); [done | lia | done].
  - intros q Hq. apply (RefCount.cons_roots _ _ Hc). by right.
Qed.

(** The last handle goes: the node stops counting and its two links become
    pending releases. *)
Lemma consistent_kill (h : store) (R : list positive) (p : positive) (n : Node) :
  RefCount.consistent h (p :: R) -> Mem.read p h = Some n -> BinTree._refs n = 1 ->
  RefCount.consistent (Mem.write p (BinTree.with_refs n 0) h)
    (RefCount.root_of (BinTree._left n) ++ RefCount.root_of (BinTree._right n) ++ R).
Proof.
  intros Hc Hp Hr. eapply consistent_set_refs; [exact Hc | exact Hp | lia | | |].
  - intros q. rewrite (links_uncounted q (BinTree.with_refs n 0)) by (simpl; lia).
    rewrite (links_children q n) by lia.
    rewrite app_assoc, !handles_app, handles_cons.
    destruct (decide (p = q)); destruct (decide (q = p));
      first [lia | congruence].
  - lia.
  - intros q Hq. rewrite app_assoc in Hq. apply elem_of_app in Hq as [Hq|Hq].
    + assert (Hch : BinTree._left n = Some q \/ BinTree._right n = Some q).
      { apply elem_of_app in Hq as [Hq|Hq]; [left | right];
          unfold RefCount.root_of in Hq;
          [destruct (BinTree._left n) | destruct (BinTree._right n)];
          simpl in Hq; try (by apply elem_of_nil in Hq);
          apply list_elem_of_singleton in Hq; by subst. }
      apply (RefCount.cons_links _ _ Hc p n q); [done | lia | done].
    + apply (RefCount.cons_roots _ _ Hc). by right.
Qed.

(** The first handle on a node whose links were counted as handles. *)
Lemma consistent_revive (h : store) (R : list positive) (p : positive) (n : Node) :
  RefCount.consistent h
    (RefCount.root_of (BinTree._left n) ++ RefCount.root_of (BinTree._right n) ++ R) ->
  Mem.read p h = Some n -> BinTree._refs n = 0 ->
  (forall c, BinTree._left n = Some c \/ BinTree._right n = Some c -> (c < p)%positive) ->
  RefCount.consistent (Mem.write p (BinTree.with_refs n 1) h) (p :: R).
Proof.
  intros Hc Hp Hr Hlt.
  assert (Hin : forall c, BinTree._left n = Some c \/ BinTree._right n = Some c ->
                  c ∈ RefCount.root_of (BinTree._left n) ++
                      RefCount.root_of (BinTree._right n) ++ R).
  { intros c [Hch|Hch]; rewrite Hch, !elem_of_app;
      [left | right; left]; by apply list_elem_of_singleton. }
  eapply consistent_set_refs; [exact Hc | exact Hp | lia | | |].
  - intros q. rewrite (links_uncounted q n) by lia.
    rewrite (links_children q (BinTree.with_refs n 1)) by (simpl; lia).
    cbn [BinTree.with_refs BinTree._left BinTree._right].
    rewrite app_assoc, !handles_app, handles_cons.
    destruct (decide (p = q)); destruct (decide (q = p));
      first [lia | congruence].
  - intros _ c Hch. split; [by apply Hlt|].
    apply (RefCount.cons_roots _ _ Hc). by apply Hin.
  - intros q [->|Hq]%elem_of_cons; [by eexists|].
    apply (RefCount.cons_roots _ _ Hc). rewrite !elem_of_app. tauto.
Qed.

(** [new]: the fresh node has count zero and nothing refers to it. *)
Lemma consistent_alloc (h : store) (R : list positive) (n : Node) :
  RefCount.consistent h R -> BinTree._refs n = 0 ->
  RefCount.consistent (Mem.alloc n h).2 R.
Proof.
  intros Hc Hr. destruct (consistent_fresh h R Hc) as (Hnone & HnR & Hlinks).
  constructor.
  - intros q nq Hq. cbn [Mem.alloc snd Mem.cells].
    rewrite inrefs_insert by exact Hnone.
    rewrite (links_uncounted q n) by lia.
    rewrite read_alloc in Hq. destruct (decide (Mem.brk h = q)) as [<-|Hne].
    + injection Hq as <-. rewrite Hr.
      rewrite (inrefs_zero (Mem.cells h) (Mem.brk h)) by exact Hlinks.
      assert (RefCount.handles (Mem.brk h) R = 0); [|lia].
      pose proof (handles_nonneg (Mem.brk h) R).
      destruct (decide (0 < RefCount.handles (Mem.brk h) R)) as [Hpos|]; [|lia].
      by apply handles_elem in Hpos.
    + destruct (RefCount.cons_count _ _ Hc q nq Hq). split; [done | lia].
  - intros q nq c Hq Hrq Hch. rewrite read_alloc in Hq |- *.
    destruct (decide (Mem.brk h = q)) as [<-|Hne]; [injection Hq as <-; lia|].
    destruct (RefCount.cons_links _ _ Hc q nq c Hq Hrq Hch) as [Hlt Hs].
    split; [done|]. destruct (decide (Mem.brk h = c)); [by eexists | done].
  - intros q Hq. rewrite read_alloc.
    destruct (decide (Mem.brk h = q)); [by eexists|].
    by apply (RefCount.cons_roots _ _ Hc).
  - intros q Hq. rewrite read_alloc in Hq. cbn [Mem.alloc snd Mem.brk].
    destruct (decide (Mem.brk h = q)) as [<-|Hne]; [lia|].
    apply (RefCount.cons_brk _ _ Hc) in Hq. lia.
Qed.

(** [delete] of a node that no longer counts. *)
Lemma consistent_dealloc (h : store) (R : list positive) (p : positive) (n : Node) :
  RefCount.consistent h R -> Mem.read p h = Some n -> BinTree._refs n = 0 ->
  RefCount.consistent (Mem.dealloc p h) R.
Proof.
  intros Hc Hp Hr. destruct (consistent_uncounted h R p n Hc Hp Hr) as [HnR Hlinks].
  constructor.
  - intros q nq Hq. rewrite read_dealloc in Hq.
    destruct (decide (p = q)) as [|Hne]; [done|].
    destruct (RefCount.cons_count _ _ Hc q nq Hq) as [Hpos Heq].
    split; [done|]. cbn [Mem.dealloc Mem.cells].
    rewrite (inrefs_delete (Mem.cells h) p n q Hp) in Heq.
    rewrite (links_uncounted q n) in Heq by lia. lia.
  - intros q nq c Hq Hrq Hch. rewrite read_dealloc in Hq |- *.
    destruct (decide (p = q)) as [|Hne]; [done|].
    destruct (RefCount.cons_links _ _ Hc q nq c Hq Hrq Hch) as [Hlt Hs].
    split; [done|]. destruct (decide (p = c)) as [<-|]; [|done].
    pose proof (links_pos p nq Hrq Hch). rewrite (Hlinks q nq Hq) in *. lia.
  - intros q Hq. rewrite read_dealloc.
    destruct (decide (p = q)) as [<-|]; [done|].
    by apply (RefCount.cons_roots _ _ Hc).
  - intros q Hq. rewrite read_dealloc in Hq. cbn [Mem.dealloc Mem.brk].
    destruct (decide (p = q)); [by destruct Hq|]. by apply (RefCount.cons_brk _ _ Hc).
Qed.

(** ** Stores that differ in counts only *)

Lemma same_shape_refl (n : Node) : RefCount.same_shape n n.
Proof. by repeat split. Qed.

Lemma same_shape_trans (n1 n2 n3 : Node) :
  RefCount.same_shape n1 n2 -> RefCount.same_shape n2 n3 -> RefCount.same_shape n1 n3.
Proof. intros (? & ? & ?) (? & ? & ?). repeat split; congruence. Qed.

Lemma same_shape_with_refs (n : Node) (r : Z) :
  RefCount.same_shape n (BinTree.with_refs n r).
Proof. by repeat split. Qed.

Lemma sub_refl (h : store) : RefCount.sub h h.
Proof. intros p n Hp. exists n. split; [done | apply same_shape_refl]. Qed.

Lemma sub_trans (h1 h2 h3 : store) :
  RefCount.sub h1 h2 -> RefCount.sub h2 h3 -> RefCount.sub h1 h3.
Proof.
  intros H12 H23 p n Hp. destruct (H12 p n Hp) as (n' & Hp' & Hs).
  destruct (H23 p n' Hp') as (n'' & Hp'' & Hs').
  exists n''. split; [done | by eapply same_shape_trans].
Qed.

Lemma sub_write_refs (h : store) (p : positive) (n : Node) (r : Z) :
  Mem.read p h = Some n ->
  RefCount.sub h (Mem.write p (BinTree.with_refs n r) h) /\
  RefCount.sub (Mem.write p (BinTree.with_refs n r) h) h.
Proof.
  intros Hp. split; intros q nq Hq.
  - rewrite read_write. destruct (decide (p = q)) as [<-|].
    + exists (BinTree.with_refs n r). split; [done|].
      rewrite Hp in Hq. injection Hq as <-. apply same_shape_with_refs.
    + exists nq. split; [done | apply same_shape_refl].
  - rewrite read_write in Hq. destruct (decide (p = q)) as [<-|].
    + exists n. split; [done|]. injection Hq as <-. by repeat split.
    + exists nq. split; [done | apply same_shape_refl].
Qed.

Lemma sub_dealloc (h : store) (p : positive) : RefCount.sub (Mem.dealloc p h) h.
Proof.
  intros q nq Hq. rewrite read_dealloc in Hq. destruct (decide (p = q)); [done|].
  exists nq. split; [done | apply same_shape_refl].
Qed.

(** ** The counting primitives *)

Lemma addRef_counted (h : store) (p : positive) (n : Node) :
  Mem.read p h = Some n -> 0 <= BinTree._refs n ->
  BinTree.addRef p h =
  (Return tt, Mem.write p (BinTree.with_refs n (BinTree._refs n + 1)) h).
Proof.
  intros Hp Hr. unfold BinTree.addRef. rewrite Hp.
  destruct (0 <=? BinTree._refs n) eqn:E; [done|]. apply Z.leb_gt in E. lia.
Qed.

Lemma rmRef_counted (h : store) (p : positive) (n : Node) :
  Mem.read p h = Some n -> 0 < BinTree._refs n ->
  BinTree.rmRef p h =
  (Return tt, Mem.write p (BinTree.with_refs n (BinTree._refs n - 1)) h).
Proof.
  intros Hp Hr. unfold BinTree.rmRef. rewrite Hp.
  destruct (0 <? BinTree._refs n) eqn:E; [done|]. apply Z.ltb_ge in E. lia.
Qed.

(** ** free *)

Lemma root_of_elem (o : option positive) (p : positive) :
  p ∈ RefCount.root_of o <-> o = Some p.
Proof.
  destruct o as [q|].
  - change (RefCount.root_of (Some q)) with [q]. rewrite list_elem_of_singleton.
    split; congruence.
  - change (RefCount.root_of None) with (@nil positive).
    split; [by intros ?%elem_of_nil | done].
Qed.

Lemma freeAux_consistent (fuel : nat) (o : option positive) (h : store)
    (R : list positive) :
  RefCount.consistent h (RefCount.root_of o ++ R) ->
  (forall p, o = Some p -> (Pos.to_nat p < fuel)%nat) ->
  exists h',
    BinTree.freeAux fuel o h = (Return tt, h') /\
    RefCount.consistent h' R /\
    Mem.brk h' = Mem.brk h /\
    RefCount.sub h' h /\
    (forall q n', Mem.read q h' = Some n' -> BinTree._refs n' = 0 ->
                  Mem.read q h = Some n') /\
    (forall q n, Mem.read q h = Some n -> BinTree._refs n = 0 ->
                 Mem.read q h' = Some n).
Proof.
  revert o h R. induction fuel as [|fuel IH]; intros o h R Hc Hfuel.
  { destruct o as [p|]; [specialize (Hfuel p eq_refl); lia|].
    exists h. split; [done|]. split; [done|]. split; [done|].
    split; [apply sub_refl|]. split; done. }
  destruct o as [p|]; cycle 1.
  { exists h. split; [done|]. split; [done|]. split; [done|].
    split; [apply sub_refl|]. split; done. }
  change (RefCount.root_of (Some p) ++ R) with (p :: R) in Hc.
  specialize (Hfuel p eq_refl).
  destruct (consistent_root_counted h (p :: R) p Hc) as (n & Hp & Hr); [by left|].
  cbn [BinTree.freeAux]. unfold sbind at 1.
  rewrite (rmRef_counted h p n Hp Hr).
  set (h1 := Mem.write p (BinTree.with_refs n (BinTree._refs n - 1)) h).
  assert (Hp1 : Mem.read p h1 = Some (BinTree.with_refs n (BinTree._refs n - 1)))
    by apply read_write_eq.
  rewrite Hp1. cbn [BinTree._refs BinTree.with_refs BinTree._left BinTree._right].
  destruct (sub_write_refs h p n (BinTree._refs n - 1) Hp) as [_ Hsub1].
  fold h1 in Hsub1.
  destruct (BinTree._refs n - 1 =? 0) eqn:E.
  - (* last reference: release the children, then the node *)
    apply Z.eqb_eq in E. assert (Hr1 : BinTree._refs n = 1) by lia.
    pose proof (consistent_kill h R p n Hc Hp Hr1) as Hc1.
    subst h1. replace (BinTree._refs n - 1) with 0 in * by lia.
    set (h1 := Mem.write p (BinTree.with_refs n 0) h) in *.
    assert (Hlt : forall c, BinTree._left n = Some c \/ BinTree._right n = Some c ->
                            (Pos.to_nat c < fuel)%nat).
    { intros c Hch.
      destruct (consistent_child_counted h (p :: R) p c n Hc Hp Hr Hch) as [Hcp _].
      lia. }
    destruct (IH (BinTree._left n) h1 _ Hc1) as (h2 & Hf2 & Hc2 & Hb2 & Hs2 & Hz2 & Hk2).
    { intros c Hc'. apply Hlt. by left. }
    unfold sbind at 1. rewrite Hf2.
    assert (Hp2 : Mem.read p h2 = Some (BinTree.with_refs n 0)) by (by apply Hk2).
    rewrite Hp2. cbn [BinTree._right BinTree.with_refs].
    destruct (IH (BinTree._right n) h2 _ Hc2) as (h3 & Hf3 & Hc3 & Hb3 & Hs3 & Hz3 & Hk3).
    { intros c Hc'. apply Hlt. by right. }
    unfold sbind at 1. rewrite Hf3.
    assert (Hp3 : Mem.read p h3 = Some (BinTree.with_refs n 0)) by (by apply Hk3).
    exists (Mem.dealloc p h3). split; [done|]. split; [|split; [|split; [|split]]].
    + by apply (consistent_dealloc h3 R p (BinTree.with_refs n 0)).
    + cbn [Mem.dealloc Mem.brk]. rewrite Hb3, Hb2. done.
    + eapply sub_trans; [apply sub_dealloc|].
      eapply sub_trans; [exact Hs3|]. eapply sub_trans; [exact Hs2 | exact Hsub1].
    + intros q n' Hq Hrq. rewrite read_dealloc in Hq.
      destruct (decide (p = q)) as [|Hne]; [done|].
      apply Hz3 in Hq; [|done]. apply Hz2 in Hq; [|done].
      unfold h1 in Hq. by rewrite read_write_ne in Hq.
    + intros q nq Hq Hrq. rewrite read_dealloc.
      assert (Hne : p <> q) by (intros <-; rewrite Hp in Hq; injection Hq as <-; lia).
      rewrite decide_False by done. apply Hk3; [|done]. apply Hk2; [|done].
      unfold h1. by rewrite read_write_ne.
  - (* other references remain *)
    apply Z.eqb_neq in E. exists h1. split; [done|].
    split; [|split; [|split; [|split]]].
    + apply consistent_dec; [done | done | lia].
    + done.
    + exact Hsub1.
    + intros q n' Hq Hrq. unfold h1 in Hq. rewrite read_write in Hq.
      destruct (decide (p = q)) as [<-|]; [|done].
      injection Hq as <-. simpl in Hrq. lia.
    + intros q nq Hq Hrq. unfold h1. rewrite read_write_ne; [done|].
      intros <-. rewrite Hp in Hq. injection Hq as <-. lia.
Qed.

(** ** The operations keep the counts right *)

Lemma raised_refl (h : store) : RefCount.raised h h.
Proof.
  repeat split; intros p n Hp; exists n;
    (split; [done|]); (split; [apply same_shape_refl | lia]).
Qed.

Lemma raised_sub (h h' : store) :
  RefCount.raised h h' -> RefCount.sub h h' /\ RefCount.sub h' h.
Proof.
  intros (Hf & Hb & _). split; intros p n Hp.
  - destruct (Hf p n Hp) as (n' & ? & ? & _). by exists n'.
  - destruct (Hb p n Hp) as (n' & ? & (? & ? & ?) & _). exists n'.
    split; [done|]. repeat split; congruence.
Qed.

Lemma raised_counted (h h' : store) :
  RefCount.raised h h' ->
  (forall p n, Mem.read p h = Some n -> 0 < BinTree._refs n) ->
  forall p n', Mem.read p h' = Some n' -> 0 < BinTree._refs n'.
Proof.
  intros (_ & Hb & _) Hall p n' Hp. destruct (Hb p n' Hp) as (n & Hn & _ & Hle).
  specialize (Hall p n Hn). lia.
Qed.

Lemma raised_write (h : store) (p : positive) (n : Node) (r : Z) :
  Mem.read p h = Some n -> BinTree._refs n <= r ->
  RefCount.raised h (Mem.write p (BinTree.with_refs n r) h).
Proof.
  intros Hp Hr. repeat split.
  - intros q nq Hq. rewrite read_write. destruct (decide (p = q)) as [<-|].
    + rewrite Hp in Hq. injection Hq as <-. eexists. split; [done|].
      split; [apply same_shape_with_refs | done].
    + exists nq. split; [done|]. split; [apply same_shape_refl | lia].
  - intros q nq Hq. rewrite read_write in Hq. destruct (decide (p = q)) as [<-|].
    + injection Hq as <-. exists n. split; [done|].
      split; [apply same_shape_with_refs | done].
    + exists nq. split; [done|]. split; [apply same_shape_refl | lia].
Qed.

Lemma wf_addRef_opt (h : store) (R : list positive) (o : option positive) :
  RefCount.wf h R ->
  (forall q, o = Some q -> is_Some (Mem.read q h)) ->
  exists h',
    BinTree.addRef_opt o h = (Return tt, h') /\
    RefCount.wf h' (RefCount.root_of o ++ R) /\
    RefCount.raised h h'.
Proof.
  intros [Hc Hz] Ho. destruct o as [q|]; cycle 1.
  { exists h. split; [done|]. split; [done | apply raised_refl]. }
  destruct (Ho q eq_refl) as [n Hq]. pose proof (Hz q n Hq) as Hr.
  cbn [BinTree.addRef_opt]. rewrite (addRef_counted h q n Hq) by lia.
  eexists. split; [done|].
  assert (Hraise : RefCount.raised h
            (Mem.write q (BinTree.with_refs n (BinTree._refs n + 1)) h))
    by (apply raised_write; [done | lia]).
  split; [|done]. split.
  - by apply consistent_inc.
  - by apply (raised_counted h).
Qed.

Lemma wf_free (h : store) (R : list positive) (o : option positive) :
  RefCount.wf h (RefCount.root_of o ++ R) ->
  exists h',
    BinTree.free o h = (Return tt, h') /\
    RefCount.wf h' R /\
    Mem.brk h' = Mem.brk h /\
    RefCount.sub h' h.
Proof.
  intros [Hc Hz]. unfold BinTree.free, BinTree.depth_fuel.
  destruct (freeAux_consistent (Pos.to_nat (Mem.brk h)) o h R Hc)
    as (h' & Hf & Hc' & Hb & Hs & Hz' & _).
  { intros p ->. assert (Hin : p ∈ RefCount.root_of (Some p) ++ R) by (by left).
    apply (RefCount.cons_roots _ _ Hc), (RefCount.cons_brk _ _ Hc) in Hin. lia. }
  exists h'. split; [done|]. split; [|done]. split; [done|].
  intros p n' Hp. destruct (decide (BinTree._refs n' = 0)) as [E|E].
  - specialize (Hz' p n' Hp E). specialize (Hz p n' Hz'). lia.
  - destruct (RefCount.cons_count _ _ Hc' p n' Hp). lia.
Qed.

Lemma wf_mkNode (h : store) (R : list positive) (iz dr : option positive) (e : T) :
  RefCount.wf h R ->
  (forall q, iz = Some q \/ dr = Some q -> is_Some (Mem.read q h)) ->
  exists h',
    BinTree.mkNode iz e dr h = (Return (Some (Mem.brk h)), h') /\
    RefCount.wf h' (Mem.brk h :: R) /\
    Mem.brk h' = Pos.succ (Mem.brk h) /\
    Mem.read (Mem.brk h) h' = Some (BinTree.MkNode e iz dr 1) /\
    RefCount.sub h h' /\
    (forall q n', Mem.read q h' = Some n' ->
       q = Mem.brk h \/ exists n, Mem.read q h = Some n /\ RefCount.same_shape n n').
Proof.
  intros Hwf Hch. pose proof (RefCount.wf_consistent _ _ Hwf) as Hc.
  destruct (consistent_fresh h R Hc) as (Hnone & _ & _).
  set (p := Mem.brk h) in *.
  set (N0 := BinTree.MkNode e iz dr 0).
  set (h1 := (Mem.alloc N0 h).2).
  assert (Hne : forall q, iz = Some q \/ dr = Some q -> p <> q).
  { intros q Hq <-. destruct (Hch p Hq) as [? ?]. congruence. }
  assert (Hc1 : RefCount.consistent h1 R) by (by apply consistent_alloc).
  assert (Hr1 : forall q, is_Some (Mem.read q h) -> Mem.read q h1 = Mem.read q h).
  { intros q [nq Hq]. unfold h1. rewrite read_alloc. fold p.
    destruct (decide (p = q)) as [<-|]; [congruence | done]. }
  assert (Hp1 : Mem.read p h1 = Some N0).
  { unfold h1. rewrite read_alloc. fold p. by rewrite decide_True. }
  (* the two children *)
  assert (Hstep : forall (o : option positive) (g : store) (R' : list positive),
    RefCount.consistent g R' ->
    (forall q, o = Some q -> p <> q /\ exists nq, Mem.read q g = Some nq /\
                                               0 < BinTree._refs nq) ->
    exists g', BinTree.addRef_opt o g = (Return tt, g') /\
               RefCount.consistent g' (RefCount.root_of o ++ R') /\
               RefCount.raised g g' /\ Mem.read p g' = Mem.read p g).
  { intros o g R' Hg Ho. destruct o as [q|]; cycle 1.
    { exists g. split; [done|]. split; [done|]. split; [apply raised_refl | done]. }
    destruct (Ho q eq_refl) as (Hpq & nq & Hq & Hrq).
    cbn [BinTree.addRef_opt]. rewrite (addRef_counted g q nq Hq) by lia.
    eexists. split; [done|]. split; [by apply consistent_inc|].
    split; [apply raised_write; [done | lia] | by rewrite read_write_ne]. }
  assert (Hcounted : forall q, iz = Some q \/ dr = Some q ->
            exists nq, Mem.read q h1 = Some nq /\ 0 < BinTree._refs nq).
  { intros q Hq. destruct (Hch q Hq) as [nq Hnq]. exists nq.
    rewrite Hr1 by (by eexists). split; [done|].
    by apply (RefCount.wf_counted _ _ Hwf q). }
  destruct (Hstep iz h1 R Hc1) as (h2 & Ha2 & Hc2 & Hra2 & Hp2).
  { intros q ->. split; [apply Hne; by left | apply Hcounted; by left]. }
  destruct (Hstep dr h2 _ Hc2) as (h3 & Ha3 & Hc3 & Hra3 & Hp3).
  { intros q ->. split; [apply Hne; by right|].
    destruct (Hcounted q) as (nq & Hq1 & Hrq); [by right|].
    destruct Hra2 as (Hf2 & _). destruct (Hf2 q nq Hq1) as (nq' & ? & _ & ?).
    exists nq'. split; [done | lia]. }
  assert (Hp3' : Mem.read p h3 = Some N0) by congruence.
  (* the node itself *)
  unfold BinTree.mkNode, BinTree.newNode. unfold sbind at 1.
  change (Mem.alloc (BinTree.MkNode e iz dr 0) h) with (p, h1).
  cbn iota beta. unfold sbind at 1. unfold sbind at 1. rewrite Ha2.
  unfold sbind at 1. rewrite Ha3. unfold sret at 1.
  rewrite (addRef_counted h3 p N0 Hp3') by (simpl; lia).
  unfold sret. cbn [BinTree._refs].
  set (h4 := Mem.write p (BinTree.with_refs N0 (0 + 1)) h3).
  exists h4. split; [done|].
  assert (Hraise13 : RefCount.raised h1 h3).
  { destruct Hra2 as (Hf2 & Hb2 & Hk2). destruct Hra3 as (Hf3 & Hb3 & Hk3).
    repeat split.
    - intros q nq Hq. destruct (Hf2 q nq Hq) as (n2 & Hq2 & Hs2 & Hl2).
      destruct (Hf3 q n2 Hq2) as (n3 & Hq3 & Hs3 & Hl3).
      exists n3. split; [done|]. split; [by eapply same_shape_trans | lia].
    - intros q nq Hq. destruct (Hb3 q nq Hq) as (n2 & Hq2 & Hs2 & Hl2).
      destruct (Hb2 q n2 Hq2) as (n1 & Hq1 & Hs1 & Hl1).
      exists n1. split; [done|]. split; [by eapply same_shape_trans | lia].
    - congruence. }
  destruct Hraise13 as (Hf13 & Hb13 & Hk13).
  split; [|split; [|split; [|split]]].
  - split.
    + apply (consistent_revive h3 R p N0); [|done|done|].
      * eapply consistent_perm; [|exact Hc3].
        cbn [BinTree._left BinTree._right N0].
        rewrite !app_assoc. apply Permutation_app_tail, Permutation_app_comm.
      * intros c Hc'. cbn in Hc'.
        assert (Hs : is_Some (Mem.read c h)) by (apply Hch; tauto).
        apply (RefCount.cons_brk _ _ Hc) in Hs. by fold p in Hs.
    + intros q nq Hq. unfold h4 in Hq. rewrite read_write in Hq.
      destruct (decide (p = q)) as [<-|Hpq]; [injection Hq as <-; simpl; lia|].
      destruct (Hb13 q nq Hq) as (n1 & Hq1 & _ & Hle).
      unfold h1 in Hq1. rewrite read_alloc in Hq1. fold p in Hq1.
      rewrite decide_False in Hq1 by done.
      pose proof (RefCount.wf_counted _ _ Hwf q n1 Hq1). lia.
  - unfold h4. cbn [Mem.write Mem.brk]. rewrite Hk13. done.
  - unfold h4. by rewrite read_write_eq.
  - intros q nq Hq.
    assert (Hq1 : Mem.read q h1 = Some nq) by (rewrite Hr1; [done | by eexists]).
    destruct (Hf13 q nq Hq1) as (n3 & Hq3 & Hs3 & _).
    exists n3. split; [|done]. unfold h4. rewrite read_write_ne; [done|].
    intros <-. congruence.
  - intros q nq Hq. unfold h4 in Hq. rewrite read_write in Hq.
    destruct (decide (p = q)) as [<-|Hpq]; [by left|]. right.
    destruct (Hb13 q nq Hq) as (n1 & Hq1 & Hs1 & _).
    unfold h1 in Hq1. rewrite read_alloc in Hq1. fold p in Hq1.
    rewrite decide_False in Hq1 by done. by exists n1.
Qed.

(** ** The tree value of a handle *)

Lemma denotes_det (h : store) (r : option positive) (t1 t2 : Tree.tree T) :
  RefCount.denotes h r t1 -> RefCount.denotes h r t2 -> t1 = t2.
Proof.
  intros H1. revert t2. induction H1 as [|p n l r Hp Hl IHl Hr IHr]; intros t2 H2.
  - by inversion H2.
  - inversion H2 as [|p' n' l' r' Hp' Hl' Hr']; subst.
    rewrite Hp in Hp'. injection Hp' as <-.
    by rewrite (IHl l' Hl'), (IHr r' Hr').
Qed.

Lemma denotes_sub (h h' : store) (r : option positive) (t : Tree.tree T) :
  RefCount.sub h h' -> RefCount.denotes h r t -> RefCount.denotes h' r t.
Proof.
  intros Hsub Hd. induction Hd as [|p n l r Hp Hl IHl Hr IHr]; [constructor|].
  destruct (Hsub p n Hp) as (n' & Hp' & He & Hle & Hri).
  rewrite He. apply RefCount.denotes_node; [done | by rewrite <- Hle | by rewrite <- Hri].
Qed.

Lemma denotes_exists_below (h : store) (R : list positive) (k : nat) :
  RefCount.consistent h R ->
  forall p n, (Pos.to_nat p < k)%nat -> Mem.read p h = Some n -> 0 < BinTree._refs n ->
  exists t, RefCount.denotes h (Some p) t /\ (Tree.height t <= Pos.to_nat p)%nat.
Proof.
  intros Hc. induction k as [|k IH]; intros p n Hk Hp Hr; [lia|].
  assert (Hchild : forall o, o = BinTree._left n \/ o = BinTree._right n ->
            exists t, RefCount.denotes h o t /\ (Tree.height t < Pos.to_nat p)%nat).
  { intros [c|] Ho.
    - assert (Hch : BinTree._left n = Some c \/ BinTree._right n = Some c)
        by (destruct Ho; [left | right]; congruence).
      destruct (consistent_child_counted h R p c n Hc Hp Hr Hch)
        as (Hlt & nc & Hnc & Hrc).
      destruct (IH c nc) as (t & Ht & Hh); [lia | done | done |].
      exists t. split; [done | lia].
    - exists Tree.Leaf. split; [constructor | simpl; lia]. }
  destruct (Hchild (BinTree._left n)) as (l & Hl & Hhl); [by left|].
  destruct (Hchild (BinTree._right n)) as (r & Hr' & Hhr); [by right|].
  exists (Tree.Fork l (BinTree._elem n) r). split; [by econstructor|].
  simpl. lia.
Qed.

Lemma denotes_exists (h : store) (R : list positive) (p : positive) (n : Node) :
  RefCount.consistent h R -> Mem.read p h = Some n -> 0 < BinTree._refs n ->
  exists t, RefCount.denotes h (Some p) t /\ (Tree.height t <= Pos.to_nat p)%nat.
Proof.
  intros Hc Hp Hr.
  apply (denotes_exists_below h R (S (Pos.to_nat p)) Hc p n); [lia | done | done].
Qed.

(** Under the invariant every handle in scope has a tree value, and the
    fuel the observers take from the store is enough to walk it. *)
Lemma wf_denotes (h : store) (R : list positive) (o : option positive) :
  RefCount.wf h R -> (forall q, o = Some q -> is_Some (Mem.read q h)) ->
  exists t, RefCount.denotes h o t /\ (Tree.height t <= BinTree.depth_fuel h)%nat.
Proof.
  intros [Hc Hz] Ho. destruct o as [p|]; cycle 1.
  { exists Tree.Leaf. split; [constructor | simpl; lia]. }
  destruct (Ho p eq_refl) as [n Hp].
  destruct (denotes_exists h R p n Hc Hp (Hz p n Hp)) as (t & Ht & Hh).
  exists t. split; [done|].
  assert (Hs : is_Some (Mem.read p h)) by (by eexists).
  apply (RefCount.cons_brk _ _ Hc) in Hs. unfold BinTree.depth_fuel. lia.
Qed.

Lemma wf_denotes_height (h : store) (R : list positive) (o : option positive)
    (t : Tree.tree T) :
  RefCount.wf h R -> RefCount.denotes h o t ->
  (Tree.height t <= BinTree.depth_fuel h)%nat.
Proof.
  intros Hwf Hd. destruct (wf_denotes h R o Hwf) as (t' & Ht' & Hh).
  - intros q ->. inversion Hd; subst. by eexists.
  - by rewrite (denotes_det h o t t' Hd Ht').
Qed.

(** ** The observers compute the functions of the tree value *)

Lemma preOrderAux_denotes (h : store) (r : option positive) (t : Tree.tree T) :
  RefCount.denotes h r t ->
  forall fuel acc, (Tree.height t <= fuel)%nat ->
  BinTree.preOrderAux fuel r acc h = Return (acc ++ Tree.preorder t).
Proof.
  induction 1 as [|p n l r Hp Hl IHl Hr IHr]; intros fuel acc Hh.
  - destruct fuel; simpl; by rewrite app_nil_r.
  - destruct fuel as [|fuel]; [simpl in Hh; lia|]. simpl in Hh.
    cbn [BinTree.preOrderAux]. rewrite Hp.
    rewrite IHl by lia. cbn [obind]. rewrite IHr by lia.
    simpl. by rewrite <- !app_assoc.
Qed.

Lemma inOrderAux_denotes (h : store) (r : option positive) (t : Tree.tree T) :
  RefCount.denotes h r t ->
  forall fuel acc, (Tree.height t <= fuel)%nat ->
  BinTree.inOrderAux fuel r acc h = Return (acc ++ Tree.inorder t).
Proof.
  induction 1 as [|p n l r Hp Hl IHl Hr IHr]; intros fuel acc Hh.
  - destruct fuel; simpl; by rewrite app_nil_r.
  - destruct fuel as [|fuel]; [simpl in Hh; lia|]. simpl in Hh.
    cbn [BinTree.inOrderAux]. rewrite Hp.
    rewrite IHl by lia. cbn [obind]. rewrite IHr by lia.
    simpl. by rewrite <- !app_assoc.
Qed.

Lemma postOrderAux_denotes (h : store) (r : option positive) (t : Tree.tree T) :
  RefCount.denotes h r t ->
  forall fuel acc, (Tree.height t <= fuel)%nat ->
  BinTree.postOrderAux fuel r acc h = Return (acc ++ Tree.postorder t).
Proof.
  induction 1 as [|p n l r Hp Hl IHl Hr IHr]; intros fuel acc Hh.
  - destruct fuel; simpl; by rewrite app_nil_r.
  - destruct fuel as [|fuel]; [simpl in Hh; lia|]. simpl in Hh.
    cbn [BinTree.postOrderAux]. rewrite Hp.
    rewrite IHl by lia. cbn [obind]. rewrite IHr by lia. cbn [obind].
    simpl. by rewrite <- !app_assoc.
Qed.

Lemma nodeCountAux_denotes (h : store) (r : option positive) (t : Tree.tree T) :
  RefCount.denotes h r t ->
  forall fuel, (Tree.height t <= fuel)%nat ->
  BinTree.nodeCountAux fuel r h = Return (Tree.nodeCount t).
Proof.
  induction 1 as [|p n l r Hp Hl IHl Hr IHr]; intros fuel Hh.
  - by destruct fuel.
  - destruct fuel as [|fuel]; [simpl in Hh; lia|]. simpl in Hh.
    cbn [BinTree.nodeCountAux]. rewrite Hp.
    rewrite IHl by lia. cbn [obind]. by rewrite IHr by lia.
Qed.

Lemma depthAux_denotes (h : store) (r : option positive) (t : Tree.tree T) :
  RefCount.denotes h r t ->
  forall fuel, (Tree.height t <= fuel)%nat ->
  BinTree.depthAux fuel r h = Return (Tree.depth t).
Proof.
  induction 1 as [|p n l r Hp Hl IHl Hr IHr]; intros fuel Hh.
  - by destruct fuel.
  - destruct fuel as [|fuel]; [simpl in Hh; lia|]. simpl in Hh.
    cbn [BinTree.depthAux]. rewrite Hp.
    rewrite IHl by lia. cbn [obind]. rewrite IHr by lia. cbn [obind Tree.depth].
    by destruct (to_int (Tree.depth l) >? to_int (Tree.depth r)).
Qed.

Lemma denotes_null_inv (h : store) (t : Tree.tree T) :
  RefCount.denotes h None t -> t = Tree.Leaf.
Proof. by inversion 1. Qed.

Lemma denotes_fork_inv (h : store) (p : positive) (t : Tree.tree T) :
  RefCount.denotes h (Some p) t ->
  exists n l r, Mem.read p h = Some n /\ t = Tree.Fork l (BinTree._elem n) r /\
                RefCount.denotes h (BinTree._left n) l /\
                RefCount.denotes h (BinTree._right n) r.
Proof. inversion 1; subst. by eexists _, _, _. Qed.

Lemma leafCountAux_denotes (h : store) (r : option positive) (t : Tree.tree T) :
  RefCount.denotes h r t ->
  forall fuel, (Tree.height t <= fuel)%nat ->
  BinTree.leafCountAux fuel r h = Return (Tree.leafCount t).
Proof.
  induction 1 as [|p n l r Hp Hl IHl Hr IHr]; intros fuel Hh.
  - by destruct fuel.
  - destruct fuel as [|fuel]; [simpl in Hh; lia|]. simpl in Hh.
    cbn [BinTree.leafCountAux]. rewrite Hp.
    destruct (BinTree._left n) as [cl|] eqn:El.
    + rewrite IHl by lia. cbn [obind]. rewrite IHr by lia. cbn [obind].
      apply denotes_fork_inv in Hl as (? & ? & ? & _ & -> & _). done.
    + apply denotes_null_inv in Hl as ->.
      destruct (BinTree._right n) as [cr|] eqn:Er.
      * rewrite IHl by lia. cbn [obind]. rewrite IHr by lia. cbn [obind].
        apply denotes_fork_inv in Hr as (? & ? & ? & _ & -> & _). done.
      * by apply denotes_null_inv in Hr as ->.
Qed.

Lemma compareAux_denotes (h : store) (r1 : option positive) (t1 : Tree.tree T) :
  RefCount.denotes h r1 t1 ->
  forall r2 t2 fuel, RefCount.denotes h r2 t2 ->
  (Tree.height t1 <= fuel)%nat ->
  BinTree.compareAux fuel r1 r2 h = Return (bool_decide (t1 = t2)).
Proof.
  induction 1 as [|p1 n1 l1 rr1 Hp1 Hl1 IHl Hr1 IHr]; intros r2 t2 fuel H2 Hh.
  - destruct r2 as [p2|].
    + apply denotes_fork_inv in H2 as (? & ? & ? & _ & -> & _).
      destruct fuel; cbn [BinTree.compareAux];
        rewrite bool_decide_eq_false_2 by done; by rewrite bool_decide_eq_false_2.
    + apply denotes_null_inv in H2 as ->.
      destruct fuel; cbn [BinTree.compareAux];
        rewrite bool_decide_eq_true_2 by done; by rewrite bool_decide_eq_true_2.
  - destruct fuel as [|fuel]; [simpl in Hh; lia|]. simpl in Hh.
    cbn [BinTree.compareAux]. case_bool_decide as Heq.
    + subst r2.
      rewrite (denotes_det h (Some p1) t2 (Tree.Fork l1 (BinTree._elem n1) rr1) H2)
        by (by econstructor).
      by rewrite bool_decide_eq_true_2.
    + destruct r2 as [p2|].
      * apply denotes_fork_inv in H2 as (n2 & l2 & rr2 & Hp2 & -> & Hl2 & Hr2).
        rewrite Hp1, Hp2. case_bool_decide as He.
        -- rewrite (IHl _ _ fuel Hl2) by lia. cbn [obind].
           case_bool_decide as Hll.
           ++ rewrite (IHr _ _ fuel Hr2) by lia. subst. rewrite He.
              case_bool_decide as Hrr; [subst; by rewrite bool_decide_eq_true_2|].
              rewrite bool_decide_eq_false_2; [done | congruence].
           ++ rewrite bool_decide_eq_false_2; [done | congruence].
        -- rewrite bool_decide_eq_false_2; [done | congruence].
      * apply denotes_null_inv in H2 as ->. by rewrite bool_decide_eq_false_2.
Qed.

Lemma span_denotes (h : store) (r : option positive) (t : Tree.tree T) :
  RefCount.denotes h r t ->
  forall fuel, (Tree.height t <= fuel)%nat -> BinTree.span fuel r h = Tree.size t.
Proof.
  induction 1 as [|p n l r Hp Hl IHl Hr IHr]; intros fuel Hh.
  - by destruct fuel.
  - destruct fuel as [|fuel]; [simpl in Hh; lia|]. simpl in Hh.
    cbn [BinTree.span]. rewrite Hp. rewrite IHl, IHr by lia. done.
Qed.

Lemma entry_denotes (h : store) (o : option positive) (t : Tree.tree T) :
  RefCount.denotes h o t ->
  Forall2 (fun p t' => RefCount.denotes h (Some p) t') (option_list o) (Tree.entry t) /\
  sum_list_with Tree.size (Tree.entry t) = Tree.size t.
Proof.
  intros Hd. destruct o as [p|].
  - pose proof Hd as Hd'.
    apply denotes_fork_inv in Hd' as (? & ? & ? & _ & -> & _).
    split; [simpl; constructor; [done | constructor] | simpl; lia].
  - apply denotes_null_inv in Hd as ->. split; [constructor | done].
Qed.

Lemma levelsLoop_denotes (h : store) (fuel : nat) :
  forall pending forest ret,
  Forall2 (fun p t => RefCount.denotes h (Some p) t) pending forest ->
  (sum_list_with Tree.size forest <= fuel)%nat ->
  BinTree.levelsLoop fuel pending ret h = Return (ret ++ Tree.bfs fuel forest).
Proof.
  induction fuel as [|fuel IH]; intros pending forest ret HF Hsum.
  - destruct HF as [|p t pending forest Hd HF].
    + simpl. by rewrite app_nil_r.
    + apply denotes_fork_inv in Hd as (? & ? & ? & _ & -> & _). simpl in Hsum. lia.
  - destruct HF as [|p t pending forest Hd HF].
    + simpl. by rewrite app_nil_r.
    + apply denotes_fork_inv in Hd as (n & l & r & Hp & -> & Hl & Hr).
      cbn [BinTree.levelsLoop Tree.bfs]. rewrite Hp.
      destruct (entry_denotes h _ _ Hl) as [HFl Hsl].
      destruct (entry_denotes h _ _ Hr) as [HFr Hsr].
      rewrite (IH _ (forest ++ Tree.entry l ++ Tree.entry r)).
      * by rewrite <- app_assoc.
      * apply Forall2_app; [done|]. by apply Forall2_app.
      * rewrite !sum_list_with_app, Hsl, Hsr. simpl in Hsum. lia.
Qed.

Lemma levels_denotes (h : store) (tr : option positive) (t : Tree.tree T) :
  RefCount.denotes h tr t -> (Tree.height t <= BinTree.depth_fuel h)%nat ->
  BinTree.levels tr h = Return (Tree.levelorder t).
Proof.
  intros Hd Hh. unfold BinTree.levels, Tree.levelorder.
  destruct tr as [p|]; cbn [BinTree.empty negb].
  - rewrite (span_denotes h _ _ Hd) by done.
    destruct (entry_denotes h _ _ Hd) as [HF Hs].
    rewrite (levelsLoop_denotes h _ _ (Tree.entry t)); [done | done | lia].
  - by apply denotes_null_inv in Hd as ->.
Qed.

Lemma elem_denotes (h : store) (tr : option positive) (t : Tree.tree T) :
  RefCount.denotes h tr t ->
  BinTree.elem tr h =
  match t with
  | Tree.Leaf => Throw EmptyTreeException
  | Tree.Fork _ e _ => Return e
  end.
Proof.
  intros Hd. destruct tr as [p|].
  - apply denotes_fork_inv in Hd as (n & l & r & Hp & -> & _).
    unfold BinTree.elem. simpl. by rewrite Hp.
  - by apply denotes_null_inv in Hd as ->.
Qed.
End RefCountFacts.

(** * The same observers on the shared-pointer tree *)

Section SharedFacts.
Context {T : Type} `{EqDecision T} `{Inhabited T}.
Local Abbreviation Node := (BinTreeSmart.Node T).
Local Abbreviation store := (Mem.heap Node).

Lemma shared_det (h : store) (r : option positive) (t1 t2 : Tree.tree T) :
  Shared.denotes h r t1 -> Shared.denotes h r t2 -> t1 = t2.
Proof.
  intros H1. revert t2. induction H1 as [|p n l r Hp Hl IHl Hr IHr]; intros t2 H2.
  - by inversion H2.
  - inversion H2 as [|p' n' l' r' Hp' Hl' Hr']; subst.
    rewrite Hp in Hp'. injection Hp' as <-.
    by rewrite (IHl l' Hl'), (IHr r' Hr').
Qed.

Lemma shared_null_inv (h : store) (t : Tree.tree T) :
  Shared.denotes h None t -> t = Tree.Leaf.
Proof. by inversion 1. Qed.

Lemma shared_fork_inv (h : store) (p : positive) (t : Tree.tree T) :
  Shared.denotes h (Some p) t ->
  exists n l r, Mem.read p h = Some n /\ t = Tree.Fork l (BinTreeSmart._elem n) r /\
                Shared.denotes h (BinTreeSmart._left n) l /\
                Shared.denotes h (BinTreeSmart._right n) r.
Proof. inversion 1; subst. by eexists _, _, _. Qed.

Lemma preOrderAux_shared (h : store) (r : option positive) (t : Tree.tree T) :
  Shared.denotes h r t ->
  forall fuel acc, (Tree.height t <= fuel)%nat ->
  BinTreeSmart.preOrderAux fuel r acc h = Return (acc ++ Tree.preorder t).
Proof.
  induction 1 as [|p n l r Hp Hl IHl Hr IHr]; intros fuel acc Hh.
  - destruct fuel; simpl; by rewrite app_nil_r.
  - destruct fuel as [|fuel]; [simpl in Hh; lia|]. simpl in Hh.
    cbn [BinTreeSmart.preOrderAux]. rewrite Hp.
    rewrite IHl by lia. cbn [obind]. rewrite IHr by lia.
    simpl. by rewrite <- !app_assoc.
Qed.

Lemma inOrderAux_shared (h : store) (r : option positive) (t : Tree.tree T) :
  Shared.denotes h r t ->
  forall fuel acc, (Tree.height t <= fuel)%nat ->
  BinTreeSmart.inOrderAux fuel r acc h = Return (acc ++ Tree.inorder t).
Proof.
  induction 1 as [|p n l r Hp Hl IHl Hr IHr]; intros fuel acc Hh.
  - destruct fuel; simpl; by rewrite app_nil_r.
  - destruct fuel as [|fuel]; [simpl in Hh; lia|]. simpl in Hh.
    cbn [BinTreeSmart.inOrderAux]. rewrite Hp.
    rewrite IHl by lia. cbn [obind]. rewrite IHr by lia.
    simpl. by rewrite <- !app_assoc.
Qed.

Lemma postOrderAux_shared (h : store) (r : option positive) (t : Tree.tree T) :
  Shared.denotes h r t ->
  forall fuel acc, (Tree.height t <= fuel)%nat ->
  BinTreeSmart.postOrderAux fuel r acc h = Return (acc ++ Tree.postorder t).
Proof.
  induction 1 as [|p n l r Hp Hl IHl Hr IHr]; intros fuel acc Hh.
  - destruct fuel; simpl; by rewrite app_nil_r.
  - destruct fuel as [|fuel]; [simpl in Hh; lia|]. simpl in Hh.
    cbn [BinTreeSmart.postOrderAux]. rewrite Hp.
    rewrite IHl by lia. cbn [obind]. rewrite IHr by lia. cbn [obind].
    simpl. by rewrite <- !app_assoc.
Qed.

Lemma nodeCountAux_shared (h : store) (r : option positive) (t : Tree.tree T) :
  Shared.denotes h r t ->
  forall fuel, (Tree.height t <= fuel)%nat ->
  BinTreeSmart.nodeCountAux fuel r h = Return (Tree.nodeCount t).
Proof.
  induction 1 as [|p n l r Hp Hl IHl Hr IHr]; intros fuel Hh.
  - by destruct fuel.
  - destruct fuel as [|fuel]; [simpl in Hh; lia|]. simpl in Hh.
    cbn [BinTreeSmart.nodeCountAux]. rewrite Hp.
    rewrite IHl by lia. cbn [obind]. by rewrite IHr by lia.
Qed.

Lemma depthAux_shared (h : store) (r : option positive) (t : Tree.tree T) :
  Shared.denotes h r t ->
  forall fuel, (Tree.height t <= fuel)%nat ->
  BinTreeSmart.depthAux fuel r h = Return (Tree.depth t).
Proof.
  induction 1 as [|p n l r Hp Hl IHl Hr IHr]; intros fuel Hh.
  - by destruct fuel.
  - destruct fuel as [|fuel]; [simpl in Hh; lia|]. simpl in Hh.
    cbn [BinTreeSmart.depthAux]. rewrite Hp.
    rewrite IHl by lia. cbn [obind]. rewrite IHr by lia. cbn [obind Tree.depth].
    by destruct (to_int (Tree.depth l) >? to_int (Tree.depth r)).
Qed.

Lemma leafCountAux_shared (h : store) (r : option positive) (t : Tree.tree T) :
  Shared.denotes h r t ->
  forall fuel, (Tree.height t <= fuel)%nat ->
  BinTreeSmart.leafCountAux fuel r h = Return (Tree.leafCount t).
Proof.
  induction 1 as [|p n l r Hp Hl IHl Hr IHr]; intros fuel Hh.
  - by destruct fuel.
  - destruct fuel as [|fuel]; [simpl in Hh; lia|]. simpl in Hh.
    cbn [BinTreeSmart.leafCountAux]. rewrite Hp.
    destruct (BinTreeSmart._left n) as [cl|] eqn:El.
    + rewrite IHl by lia. cbn [obind]. rewrite IHr by lia. cbn [obind].
      apply shared_fork_inv in Hl as (? & ? & ? & _ & -> & _). done.
    + apply shared_null_inv in Hl as ->.
      destruct (BinTreeSmart._right n) as [cr|] eqn:Er.
      * rewrite IHl by lia. cbn [obind]. rewrite IHr by lia. cbn [obind].
        apply shared_fork_inv in Hr as (? & ? & ? & _ & -> & _). done.
      * by apply shared_null_inv in Hr as ->.
Qed.

Lemma compareAux_shared (h : store) (r1 : option positive) (t1 : Tree.tree T) :
  Shared.denotes h r1 t1 ->
  forall r2 t2 fuel, Shared.denotes h r2 t2 ->
  (Tree.height t1 <= fuel)%nat ->
  BinTreeSmart.compareAux fuel r1 r2 h = Return (bool_decide (t1 = t2)).
Proof.
  induction 1 as [|p1 n1 l1 rr1 Hp1 Hl1 IHl Hr1 IHr]; intros r2 t2 fuel H2 Hh.
  - destruct r2 as [p2|].
    + apply shared_fork_inv in H2 as (? & ? & ? & _ & -> & _).
      destruct fuel; cbn [BinTreeSmart.compareAux];
        rewrite bool_decide_eq_false_2 by done; by rewrite bool_decide_eq_false_2.
    + apply shared_null_inv in H2 as ->.
      destruct fuel; cbn [BinTreeSmart.compareAux];
        rewrite bool_decide_eq_true_2 by done; by rewrite bool_decide_eq_true_2.
  - destruct fuel as [|fuel]; [simpl in Hh; lia|]. simpl in Hh.
    cbn [BinTreeSmart.compareAux]. case_bool_decide as Heq.
    + subst r2.
      rewrite (shared_det h (Some p1) t2 (Tree.Fork l1 (BinTreeSmart._elem n1) rr1) H2)
        by (by econstructor).
      by rewrite bool_decide_eq_true_2.
    + destruct r2 as [p2|].
      * apply shared_fork_inv in H2 as (n2 & l2 & rr2 & Hp2 & -> & Hl2 & Hr2).
        rewrite Hp1, Hp2. case_bool_decide as He.
        -- rewrite (IHl _ _ fuel Hl2) by lia. cbn [obind].
           case_bool_decide as Hll.
           ++ rewrite (IHr _ _ fuel Hr2) by lia. subst. rewrite He.
              case_bool_decide as Hrr; [subst; by rewrite bool_decide_eq_true_2|].
              rewrite bool_decide_eq_false_2; [done | congruence].
           ++ rewrite bool_decide_eq_false_2; [done | congruence].
        -- rewrite bool_decide_eq_false_2; [done | congruence].
      * apply shared_null_inv in H2 as ->. by rewrite bool_decide_eq_false_2.
Qed.

Lemma span_shared (h : store) (r : option positive) (t : Tree.tree T) :
  Shared.denotes h r t ->
  forall fuel, (Tree.height t <= fuel)%nat -> BinTreeSmart.span fuel r h = Tree.size t.
Proof.
  induction 1 as [|p n l r Hp Hl IHl Hr IHr]; intros fuel Hh.
  - by destruct fuel.
  - destruct fuel as [|fuel]; [simpl in Hh; lia|]. simpl in Hh.
    cbn [BinTreeSmart.span]. rewrite Hp. rewrite IHl, IHr by lia. done.
Qed.

Lemma entry_shared (h : store) (o : option positive) (t : Tree.tree T) :
  Shared.denotes h o t ->
  Forall2 (fun p t' => Shared.denotes h (Some p) t') (option_list o) (Tree.entry t) /\
  sum_list_with Tree.size (Tree.entry t) = Tree.size t.
Proof.
  intros Hd. destruct o as [p|].
  - pose proof Hd as Hd'.
    apply shared_fork_inv in Hd' as (? & ? & ? & _ & -> & _).
    split; [simpl; constructor; [done | constructor] | simpl; lia].
  - apply shared_null_inv in Hd as ->. split; [constructor | done].
Qed.

Lemma levelsLoop_shared (h : store) (fuel : nat) :
  forall pending forest ret,
  Forall2 (fun p t => Shared.denotes h (Some p) t) pending forest ->
  (sum_list_with Tree.size forest <= fuel)%nat ->
  BinTreeSmart.levelsLoop fuel pending ret h = Return (ret ++ Tree.bfs fuel forest).
Proof.
  induction fuel as [|fuel IH]; intros pending forest ret HF Hsum.
  - destruct HF as [|p t pending forest Hd HF].
    + simpl. by rewrite app_nil_r.
    + apply shared_fork_inv in Hd as (? & ? & ? & _ & -> & _). simpl in Hsum. lia.
  - destruct HF as [|p t pending forest Hd HF].
    + simpl. by rewrite app_nil_r.
    + apply shared_fork_inv in Hd as (n & l & r & Hp & -> & Hl & Hr).
      cbn [BinTreeSmart.levelsLoop Tree.bfs]. rewrite Hp.
      destruct (entry_shared h _ _ Hl) as [HFl Hsl].
      destruct (entry_shared h _ _ Hr) as [HFr Hsr].
      rewrite (IH _ (forest ++ Tree.entry l ++ Tree.entry r)).
      * by rewrite <- app_assoc.
      * apply Forall2_app; [done|]. by apply Forall2_app.
      * rewrite !sum_list_with_app, Hsl, Hsr. simpl in Hsum. lia.
Qed.

Lemma levels_shared (h : store) (tr : option positive) (t : Tree.tree T) :
  Shared.denotes h tr t -> (Tree.height t <= BinTreeSmart.depth_fuel h)%nat ->
  BinTreeSmart.levels tr h = Return (Tree.levelorder t).
Proof.
  intros Hd Hh. unfold BinTreeSmart.levels, Tree.levelorder.
  destruct tr as [p|]; cbn [BinTreeSmart.empty negb].
  - rewrite (span_shared h _ _ Hd) by done.
    destruct (entry_shared h _ _ Hd) as [HF Hs].
    rewrite (levelsLoop_shared h _ _ (Tree.entry t)); [done | done | lia].
  - by apply shared_null_inv in Hd as ->.
Qed.

Lemma elem_shared (h : store) (tr : option positive) (t : Tree.tree T) :
  Shared.denotes h tr t ->
  BinTreeSmart.elem tr h =
  match t with
  | Tree.Leaf => Throw EmptyTreeException
  | Tree.Fork _ e _ => Return e
  end.
Proof.
  intros Hd. destruct tr as [p|].
  - apply shared_fork_inv in Hd as (n & l & r & Hp & -> & _).
    unfold BinTreeSmart.elem. simpl. by rewrite Hp.
  - by apply shared_null_inv in Hd as ->.
Qed.
End SharedFacts.

(** * Handles, programs and the two ownership strategies *)

Section HandleFacts.
Context {T : Type} `{EqDecision T} `{Inhabited T}.
Local Abbreviation Node := (BinTree.Node T).
Local Abbreviation store := (Mem.heap Node).

Lemma sbind_eq {S A B : Type} (m : S -> outcome A * S)
    (f : A -> S -> outcome B * S) (s : S) :
  sbind m f s =
  match m s with
  | (Return a, s') => f a s'
  | (Throw e, s') => (Throw e, s')
  | (Abort, s') => (Abort, s')
  | (OutOfFuel, s') => (OutOfFuel, s')
  end.
Proof. reflexivity. Qed.

Lemma wf_perm (h : store) (R R' : list positive) :
  R ≡ₚ R' -> RefCount.wf h R -> RefCount.wf h R'.
Proof.
  intros HP [Hc Hz]. split; [by apply (consistent_perm h R) | done].
Qed.

Lemma wf_root_valid (h : store) (R : list positive) (o : option positive) :
  RefCount.wf h R -> (forall q, o = Some q -> q ∈ R) ->
  forall q, o = Some q -> is_Some (Mem.read q h).
Proof.
  intros [Hc _] Ho q Hq. apply (RefCount.cons_roots _ _ Hc). by apply Ho.
Qed.

Lemma wf_copy (h : store) (R : list positive) (o : option positive) :
  RefCount.wf h R -> (forall q, o = Some q -> is_Some (Mem.read q h)) ->
  exists h',
    BinTree.copy o h = (Return o, h') /\
    RefCount.wf h' (RefCount.root_of o ++ R) /\ RefCount.raised h h'.
Proof.
  intros Hwf Ho. destruct (wf_addRef_opt h R o Hwf Ho) as (h' & Ha & Hwf' & Hr).
  exists h'. unfold BinTree.copy, sbind. by rewrite Ha.
Qed.

Lemma wf_fromNode (h : store) (R : list positive) (o : option positive) :
  RefCount.wf h R -> (forall q, o = Some q -> is_Some (Mem.read q h)) ->
  exists h',
    BinTree.fromNode o h = (Return o, h') /\
    RefCount.wf h' (RefCount.root_of o ++ R) /\ RefCount.raised h h'.
Proof. apply wf_copy. Qed.

Lemma wf_left (h : store) (R : list positive) (p : positive) (n : Node) :
  RefCount.wf h R -> Mem.read p h = Some n ->
  exists h',
    BinTree.left (Some p) h = (Return (BinTree._left n), h') /\
    RefCount.wf h' (RefCount.root_of (BinTree._left n) ++ R) /\
    RefCount.raised h h'.
Proof.
  intros Hwf Hp. unfold BinTree.left. cbn [BinTree.empty]. rewrite Hp.
  apply wf_fromNode; [done|]. intros q Hq.
  apply (RefCount.cons_links _ _ (RefCount.wf_consistent _ _ Hwf) p n q);
    [done | by apply (RefCount.wf_counted _ _ Hwf p) | by left].
Qed.

Lemma wf_right (h : store) (R : list positive) (p : positive) (n : Node) :
  RefCount.wf h R -> Mem.read p h = Some n ->
  exists h',
    BinTree.right (Some p) h = (Return (BinTree._right n), h') /\
    RefCount.wf h' (RefCount.root_of (BinTree._right n) ++ R) /\
    RefCount.raised h h'.
Proof.
  intros Hwf Hp. unfold BinTree.right. cbn [BinTree.empty]. rewrite Hp.
  apply wf_fromNode; [done|]. intros q Hq.
  apply (RefCount.cons_links _ _ (RefCount.wf_consistent _ _ Hwf) p n q);
    [done | by apply (RefCount.wf_counted _ _ Hwf p) | by right].
Qed.

(** Releasing one handle leaves the tree values of the others as they
    were. *)
Lemma wf_free_keeps (h h' : store) (R : list positive) (o : option positive)
    (t : Tree.tree T) :
  RefCount.wf h' R -> RefCount.sub h' h ->
  (forall q, o = Some q -> q ∈ R) ->
  RefCount.denotes h o t -> RefCount.denotes h' o t.
Proof.
  intros Hwf Hsub Ho Hd.
  destruct (wf_denotes h' R o Hwf) as (t' & Ht' & _).
  { by apply (wf_root_valid h' R). }
  pose proof (denotes_sub h' h o t' Hsub Ht') as Hd'.
  by rewrite (denotes_det h o t t' Hd Hd').
Qed.

Lemma wf_empty : RefCount.wf (Mem.empty : store) [].
Proof.
  split; [constructor|]; unfold Mem.read; simpl.
  - intros p n Hp. by rewrite lookup_empty in Hp.
  - intros p n c Hp. by rewrite lookup_empty in Hp.
  - intros p Hp. by apply elem_of_nil in Hp.
  - intros p [n Hp]. by rewrite lookup_empty in Hp.
  - intros p n Hp. by rewrite lookup_empty in Hp.
Qed.

(** ** The manual store against the shared-pointer store *)

Lemma strip_same_shape (n n' : Node) :
  RefCount.same_shape n n' -> Shared.strip n = Shared.strip n'.
Proof. intros (He & Hl & Hr). unfold Shared.strip. by rewrite He, Hl, Hr. Qed.

Lemma matches_sub (hB hB' : store) (hS : Mem.heap (BinTreeSmart.Node T)) :
  Shared.matches hB hS -> RefCount.sub hB' hB -> Mem.brk hB' = Mem.brk hB ->
  Shared.matches hB' hS.
Proof.
  intros [Hb Hn] Hsub Hbrk. split; [congruence|].
  intros p n' Hp. destruct (Hsub p n' Hp) as (n & Hn' & Hs).
  rewrite (strip_same_shape n' n Hs). by apply Hn.
Qed.

Lemma matches_raised (hB hB' : store) (hS : Mem.heap (BinTreeSmart.Node T)) :
  Shared.matches hB hS -> RefCount.raised hB hB' -> Shared.matches hB' hS.
Proof.
  intros Hm Hr. destruct (raised_sub hB hB' Hr) as [_ Hsub].
  destruct Hr as (_ & _ & Hbrk). by apply (matches_sub hB).
Qed.

Lemma denotes_matches (hB : store) (hS : Mem.heap (BinTreeSmart.Node T))
    (r : option positive) (t : Tree.tree T) :
  Shared.matches hB hS -> RefCount.denotes hB r t -> Shared.denotes hS r t.
Proof.
  intros [_ Hn] Hd. induction Hd as [|p n l r Hp Hl IHl Hr IHr]; [constructor|].
  apply (Shared.denotes_node hS p (Shared.strip n)); [by apply Hn | done | done].
Qed.

Lemma matches_mkNode (hB hB' : store) (hS : Mem.heap (BinTreeSmart.Node T))
    (R : list positive) (iz dr : option positive) (e : T) :
  RefCount.wf hB R -> Shared.matches hB hS ->
  Mem.brk hB' = Pos.succ (Mem.brk hB) ->
  Mem.read (Mem.brk hB) hB' = Some (BinTree.MkNode e iz dr 1) ->
  (forall q n', Mem.read q hB' = Some n' ->
     q = Mem.brk hB \/ exists n, Mem.read q hB = Some n /\ RefCount.same_shape n n') ->
  BinTreeSmart.mkNode iz e dr hS =
    (Return (Some (Mem.brk hB)), (Mem.alloc (BinTreeSmart.MkNode e iz dr) hS).2) /\
  Shared.matches hB' (Mem.alloc (BinTreeSmart.MkNode e iz dr) hS).2.
Proof.
  intros Hwf [Hb Hn] Hbrk Hp Hold. split.
  - unfold BinTreeSmart.mkNode, BinTreeSmart.make_shared, sbind, sret, Mem.alloc.
    simpl. by rewrite Hb.
  - split; [simpl; congruence|]. intros q n' Hq.
    unfold Mem.read, Mem.alloc. simpl. rewrite <- Hb.
    destruct (Hold q n' Hq) as [->|(n & Hq' & Hs)].
    + rewrite Hp in Hq. injection Hq as <-. by rewrite lookup_insert_eq.
    + rewrite lookup_insert_ne.
      * rewrite <- (strip_same_shape n n' Hs). by apply Hn.
      * intros <-.
        destruct (consistent_fresh hB R (RefCount.wf_consistent _ _ Hwf)) as [Hnone _].
        congruence.
Qed.

(** ** Building a node from two local handles, as both input builders do:
    [Tree res(hi, elem, hd)], then the destructors of [hd] and [hi]. *)
Lemma build_node_spec (h : store) (R : list positive) (hi hd : option positive)
    (e : T) (c : list (token T)) :
  RefCount.wf h (RefCount.root_of hd ++ RefCount.root_of hi ++ R) ->
  exists h',
    (let* res := BinTree.mkNode hi e hd in
     let* _ := BinTree.destroy hd in
     let* _ := BinTree.destroy hi in
     sret (res, c)) h = (Return (Some (Mem.brk h), c), h') /\
    RefCount.wf h' (Mem.brk h :: R) /\
    (forall o t, (forall q, o = Some q -> q ∈ R) ->
                 RefCount.denotes h o t -> RefCount.denotes h' o t) /\
    (forall l r, RefCount.denotes h hi l -> RefCount.denotes h hd r ->
                 RefCount.denotes h' (Some (Mem.brk h)) (Tree.Fork l e r)) /\
    (forall hS, Shared.matches h hS ->
       BinTreeSmart.mkNode hi e hd hS =
         (Return (Some (Mem.brk h)), (Mem.alloc (BinTreeSmart.MkNode e hi hd) hS).2) /\
       Shared.matches h' (Mem.alloc (BinTreeSmart.MkNode e hi hd) hS).2).
Proof.
  intros Hwf. set (R2 := RefCount.root_of hd ++ RefCount.root_of hi ++ R) in *.
  set (p := Mem.brk h).
  destruct (wf_mkNode h R2 hi hd e Hwf) as (h3 & Hmk & Hwf3 & Hb3 & Hp3 & Hs3 & Hold3).
  { intros q Hq. apply (RefCount.cons_roots _ _ (RefCount.wf_consistent _ _ Hwf)).
    unfold R2. rewrite !elem_of_app, !root_of_elem. tauto. }
  fold p in Hmk, Hwf3, Hb3, Hp3, Hold3.
  destruct (wf_free h3 (p :: RefCount.root_of hi ++ R) hd)
    as (h4 & Hf4 & Hwf4 & Hb4 & Hs4).
  { eapply wf_perm; [|exact Hwf3]. unfold R2. by rewrite Permutation_middle. }
  destruct (wf_free h4 (p :: R) hi) as (h5 & Hf5 & Hwf5 & Hb5 & Hs5).
  { eapply wf_perm; [|exact Hwf4]. by rewrite Permutation_middle. }
  exists h5. unfold sbind at 1. rewrite Hmk.
  unfold sbind at 1. unfold BinTree.destroy. rewrite Hf4.
  unfold sbind at 1. rewrite Hf5. split; [done|]. split; [done|].
  assert (Hsub53 : RefCount.sub h5 h3) by (by eapply sub_trans).
  assert (Hkeep : forall o t, (forall q, o = Some q -> q ∈ p :: R) ->
                    RefCount.denotes h3 o t -> RefCount.denotes h5 o t).
  { intros o t Ho Hd. by apply (wf_free_keeps h3 h5 (p :: R)). }
  split; [|split].
  - intros o t Ho Hd. apply Hkeep; [intros q Hq; right; by apply Ho|].
    by apply (denotes_sub h h3).
  - intros l r Hl Hr. apply Hkeep; [intros q [= <-]; by left|].
    change e with (BinTree._elem (BinTree.MkNode e hi hd 1)).
    apply (RefCount.denotes_node h3 p _ l r Hp3); by apply (denotes_sub h h3).
  - intros hS Hm.
    destruct (matches_mkNode h h3 hS R2 hi hd e Hwf Hm Hb3 Hp3 Hold3) as [HmkS Hm3].
    split; [done|]. apply (matches_sub h3); [done | done | congruence].
Qed.

Lemma fromPreOrder_alike (emptyRep : T) (fuel : nat) :
  forall cin (hB : store) hS R,
  RefCount.wf hB R -> Shared.matches hB hS ->
  Shared.built_alike R
    (BinTree.fromPreOrderInputAux fuel emptyRep cin hB)
    (BinTreeSmart.fromPreOrderInputAux fuel emptyRep cin hS).
Proof.
  induction fuel as [|fuel IH]; intros cin hB hS R Hwf Hm; [done|].
  cbn [BinTree.fromPreOrderInputAux BinTreeSmart.fromPreOrderInputAux].
  destruct (read_elem cin) as [e cin1].
  case_bool_decide.
  { unfold Shared.built_alike, sret. simpl. split; [done|]. split; [done|]. by split. }
  rewrite !sbind_eq.
  pose proof (IH cin1 hB hS R Hwf Hm) as IH1.
  destruct (BinTree.fromPreOrderInputAux fuel emptyRep cin1 hB)
    as [[[hi cin2]|e1| |] hB1];
    destruct (BinTreeSmart.fromPreOrderInputAux fuel emptyRep cin1 hS)
    as [[[hi' cin2']|e1'| |] hS1]; try done.
  destruct IH1 as (<- & <- & Hwf1 & Hm1). cbn [fst snd] in Hwf1, Hm1.
  rewrite !sbind_eq.
  pose proof (IH cin2 hB1 hS1 _ Hwf1 Hm1) as IH2.
  destruct (BinTree.fromPreOrderInputAux fuel emptyRep cin2 hB1)
    as [[[hd cin3]|e2| |] hB2];
    destruct (BinTreeSmart.fromPreOrderInputAux fuel emptyRep cin2 hS1)
    as [[[hd' cin3']|e2'| |] hS2]; try done.
  destruct IH2 as (<- & <- & Hwf2 & Hm2). cbn [fst snd] in Hwf2, Hm2.
  destruct (build_node_spec hB2 R hi hd e cin3 Hwf2)
    as (hB5 & Hbuild & Hwf5 & _ & _ & HS).
  destruct (HS hS2 Hm2) as [HmkS Hm5].
  rewrite Hbuild. rewrite sbind_eq, HmkS.
  unfold Shared.built_alike, sret. simpl. split; [done|]. split; [done|]. by split.
Qed.

Lemma fromInOrder_alike (fuel : nat) :
  forall cin (hB : store) hS R,
  RefCount.wf hB R -> Shared.matches hB hS ->
  Shared.built_alike R
    (BinTree.fromInOrderInputAux fuel cin hB)
    (BinTreeSmart.fromInOrderInputAux fuel cin hS).
Proof.
  induction fuel as [|fuel IH]; intros cin hB hS R Hwf Hm; [done|].
  cbn [BinTree.fromInOrderInputAux BinTreeSmart.fromInOrderInputAux].
  destruct (read_char cin) as [[c|] cin1]; [|done].
  case_bool_decide.
  { unfold Shared.built_alike, sret. simpl. split; [done|]. split; [done|]. by split. }
  case_bool_decide; [|done].
  rewrite !sbind_eq.
  pose proof (IH cin1 hB hS R Hwf Hm) as IH1.
  destruct (BinTree.fromInOrderInputAux fuel cin1 hB)
    as [[[hi cin2]|e1| |] hB1];
    destruct (BinTreeSmart.fromInOrderInputAux fuel cin1 hS)
    as [[[hi' cin2']|e1'| |] hS1]; try done.
  destruct IH1 as (<- & <- & Hwf1 & Hm1). cbn [fst snd] in Hwf1, Hm1.
  destruct (read_elem cin2) as [e cin3].
  rewrite !sbind_eq.
  pose proof (IH cin3 hB1 hS1 _ Hwf1 Hm1) as IH2.
  destruct (BinTree.fromInOrderInputAux fuel cin3 hB1)
    as [[[hd cin4]|e2| |] hB2];
    destruct (BinTreeSmart.fromInOrderInputAux fuel cin3 hS1)
    as [[[hd' cin4']|e2'| |] hS2]; try done.
  destruct IH2 as (<- & <- & Hwf2 & Hm2). cbn [fst snd] in Hwf2, Hm2.
  destruct (read_char cin4) as [[c'|] cin5]; [|done].
  case_bool_decide; [|done].
  destruct (build_node_spec hB2 R hi hd e cin5 Hwf2)
    as (hB5 & Hbuild & Hwf5 & _ & _ & HS).
  destruct (HS hS2 Hm2) as [HmkS Hm5].
  rewrite Hbuild. rewrite sbind_eq, HmkS.
  unfold Shared.built_alike, sret. simpl. split; [done|]. split; [done|]. by split.
Qed.

(** ** Observers on matching stores *)

Lemma observers_alike (hB : store) (hS : Mem.heap (BinTreeSmart.Node T))
    (R : list positive) (tx : option positive) :
  RefCount.wf hB R -> Shared.matches hB hS ->
  (forall q, tx = Some q -> q ∈ R) ->
  BinTree.elem tx hB = BinTreeSmart.elem tx hS /\
  BinTree.preOrder tx hB = BinTreeSmart.preOrder tx hS /\
  BinTree.inOrder tx hB = BinTreeSmart.inOrder tx hS /\
  BinTree.postOrder tx hB = BinTreeSmart.postOrder tx hS /\
  BinTree.levels tx hB = BinTreeSmart.levels tx hS /\
  BinTree.nodeCount tx hB = BinTreeSmart.nodeCount tx hS /\
  BinTree.depth tx hB = BinTreeSmart.depth tx hS /\
  BinTree.leafCount tx hB = BinTreeSmart.leafCount tx hS.
Proof.
  intros Hwf Hm Htx.
  destruct (wf_denotes hB R tx Hwf) as (t & Hd & Hh).
  { by apply (wf_root_valid hB R). }
  pose proof (denotes_matches hB hS tx t Hm Hd) as HdS.
  assert (HhS : (Tree.height t <= BinTreeSmart.depth_fuel hS)%nat).
  { unfold BinTreeSmart.depth_fuel. unfold BinTree.depth_fuel in Hh.
    destruct Hm as [<- _]. done. }
  unfold BinTree.preOrder, BinTree.inOrder, BinTree.postOrder, BinTree.nodeCount,
    BinTree.depth, BinTree.leafCount, BinTreeSmart.preOrder, BinTreeSmart.inOrder,
    BinTreeSmart.postOrder, BinTreeSmart.nodeCount, BinTreeSmart.depth,
    BinTreeSmart.leafCount.
  rewrite (elem_denotes hB tx t Hd), (elem_shared hS tx t HdS).
  rewrite (preOrderAux_denotes hB tx t Hd), (preOrderAux_shared hS tx t HdS) by done.
  rewrite (inOrderAux_denotes hB tx t Hd), (inOrderAux_shared hS tx t HdS) by done.
  rewrite (postOrderAux_denotes hB tx t Hd), (postOrderAux_shared hS tx t HdS) by done.
  rewrite (levels_denotes hB tx t Hd), (levels_shared hS tx t HdS) by done.
  rewrite (nodeCountAux_denotes hB tx t Hd), (nodeCountAux_shared hS tx t HdS) by done.
  rewrite (depthAux_denotes hB tx t Hd), (depthAux_shared hS tx t HdS) by done.
  rewrite (leafCountAux_denotes hB tx t Hd), (leafCountAux_shared hS tx t HdS) by done.
  repeat split.
Qed.

Lemma eq_alike (hB : store) (hS : Mem.heap (BinTreeSmart.Node T))
    (R : list positive) (tx ty : option positive) :
  RefCount.wf hB R -> Shared.matches hB hS ->
  (forall q, tx = Some q -> q ∈ R) -> (forall q, ty = Some q -> q ∈ R) ->
  BinTree.eq tx ty hB = BinTreeSmart.eq tx ty hS.
Proof.
  intros Hwf Hm Htx Hty.
  destruct (wf_denotes hB R tx Hwf) as (t1 & Hd1 & Hh1).
  { by apply (wf_root_valid hB R). }
  destruct (wf_denotes hB R ty Hwf) as (t2 & Hd2 & Hh2).
  { by apply (wf_root_valid hB R). }
  pose proof (denotes_matches hB hS tx t1 Hm Hd1) as HdS1.
  pose proof (denotes_matches hB hS ty t2 Hm Hd2) as HdS2.
  unfold BinTree.eq, BinTreeSmart.eq.
  rewrite (compareAux_denotes hB tx t1 Hd1 ty t2) by done.
  rewrite (compareAux_shared hS tx t1 HdS1 ty t2); [done | done |].
  unfold BinTreeSmart.depth_fuel. unfold BinTree.depth_fuel in Hh1.
  destruct Hm as [<- _]. done.
Qed.
End HandleFacts.

(** ** Programs *)

Section ClientFacts.
Context {T : Type} `{EqDecision T} `{Inhabited T}.
Local Abbreviation storeB := (Mem.heap (BinTree.Node T)).
Local Abbreviation storeS := (Mem.heap (BinTreeSmart.Node T)).
Local Abbreviation envT := (gmap Client.var (option positive)).

Lemma roots_cons (x : Client.var) (t : option positive)
    (l : list (Client.var * option positive)) :
  omap snd ((x, t) :: l) = RefCount.root_of t ++ omap snd l.
Proof. by destruct t. Qed.

Lemma roots_insert_fresh (e : envT) (x : Client.var) (t : option positive) :
  e !! x = None -> Client.roots (<[x := t]> e) ≡ₚ RefCount.root_of t ++ Client.roots e.
Proof.
  intros Hx. unfold Client.roots.
  rewrite (map_to_list_insert e x t Hx). by rewrite roots_cons.
Qed.

Lemma roots_delete (e : envT) (x : Client.var) (t : option positive) :
  e !! x = Some t -> Client.roots e ≡ₚ RefCount.root_of t ++ Client.roots (delete x e).
Proof.
  intros Hx. unfold Client.roots.
  rewrite <- (map_to_list_delete e x t Hx). by rewrite roots_cons.
Qed.

Lemma roots_lookup (e : envT) (x : Client.var) (q : positive) :
  e !! x = Some (Some q) -> q ∈ Client.roots e.
Proof.
  intros Hx. rewrite (roots_delete e x (Some q) Hx). by left.
Qed.

Lemma roots_valid (e : envT) (x : Client.var) (t : option positive) :
  e !! x = Some t -> forall q, t = Some q -> q ∈ Client.roots e.
Proof. intros Hx q ->. by apply (roots_lookup e x). Qed.

Lemma sim_intro (e : envT) (input : list (token T)) (hB : storeB) (hS : storeS) :
  Shared.matches hB hS -> RefCount.wf hB (Client.roots e) ->
  Client.sim (Client.State e hB input) (Client.State e hS input).
Proof.
  intros Hm Hwf. unfold Client.sim. simpl.
  split; [done|]. split; [done|]. by split.
Qed.

Lemma sim_declare (e : envT) (input : list (token T)) (hB : storeB) (hS : storeS)
    (x : Client.var) (t : option positive) :
  e !! x = None ->
  Shared.matches hB hS -> RefCount.wf hB (RefCount.root_of t ++ Client.roots e) ->
  Client.sim (Client.State (<[x := t]> e) hB input) (Client.State (<[x := t]> e) hS input).
Proof.
  intros Hx Hm Hwf. apply sim_intro; [done|].
  eapply wf_perm; [|exact Hwf]. by rewrite roots_insert_fresh.
Qed.

Lemma observe_alike {A : Type} (mk : outcome A -> Client.obs T)
    (sB : Client.state T (BinTree.Node T)) (sS : Client.state T (BinTreeSmart.Node T))
    (rB rS : outcome A) :
  Client.sim sB sS -> rB = rS ->
  Client.step_alike (Client.observe mk sB rB) (Client.observe mk sS rS).
Proof.
  intros Hsim <-. unfold Client.step_alike, Client.observe. simpl.
  split; [done|]. by destruct (Client.ends rB).
Qed.

Lemma step_sim (c : Client.cmd T)
    (sB : Client.state T (BinTree.Node T)) (sS : Client.state T (BinTreeSmart.Node T)) :
  Client.sim sB sS -> Client.step_alike (Client.stepB c sB) (Client.stepS c sS).
Proof.
  intros Hsim. pose proof Hsim as (He & Hi & Hm & Hwf).
  destruct sB as [e hB input], sS as [e' hS input']. simpl in He, Hi, Hm, Hwf.
  subst e' input'.
  assert (Hill : Client.step_alike (T := T) (Client.IllFormed, None) (Client.IllFormed, None))
    by (by split).
  destruct c as [x|x v|x l v r|x y|x y|x y|x y|x|x emptyRep|x
                 |x|x|x|x|x|x|x|x|x|x y|x y];
    cbn [Client.stepB Client.stepS Client.env Client.mem Client.cin].
  - (* NewEmpty *)
    case_bool_decide as Hx; [|done]. split; [done|]. simpl.
    by apply sim_declare.
  - (* NewLeaf *)
    case_bool_decide as Hx; [|done].
    change (BinTree.mkLeaf v) with (BinTree.mkNode None v None).
    change (BinTreeSmart.mkLeaf v) with (BinTreeSmart.mkNode None v None).
    destruct (wf_mkNode hB _ None None v Hwf) as (hB' & Hmk & Hwf' & Hb & Hp & _ & Hold).
    { by intros q [?|?]. }
    destruct (matches_mkNode hB hB' hS _ None None v Hwf Hm Hb Hp Hold) as [HmkS Hm'].
    rewrite Hmk, HmkS. split; [done|]. simpl. by apply sim_declare.
  - (* NewNode *)
    case_bool_decide as Hx; [|done].
    destruct (e !! l) as [tl|] eqn:Hl; [|done].
    destruct (e !! r) as [tr|] eqn:Hr; [|done].
    destruct (wf_mkNode hB _ tl tr v Hwf) as (hB' & Hmk & Hwf' & Hb & Hp & _ & Hold).
    { intros q [->| ->]; apply (RefCount.cons_roots _ _ (RefCount.wf_consistent _ _ Hwf));
        eauto using roots_lookup. }
    destruct (matches_mkNode hB hB' hS _ tl tr v Hwf Hm Hb Hp Hold) as [HmkS Hm'].
    rewrite Hmk, HmkS. split; [done|]. simpl. by apply sim_declare.
  - (* NewCopy *)
    case_bool_decide as Hx; [|done].
    destruct (e !! y) as [ty|] eqn:Hy; [|done].
    destruct (wf_copy hB _ ty Hwf) as (hB' & Hcp & Hwf' & Hra).
    { apply (wf_root_valid hB _ ty Hwf). by apply (roots_valid e y). }
    rewrite Hcp. split; [done|]. simpl.
    apply sim_declare; [done | by apply (matches_raised hB) | done].
  - (* GetLeft *)
    case_bool_decide as Hx; [|done].
    destruct (e !! y) as [[p|]|] eqn:Hy; [| |done].
    + destruct (RefCount.cons_roots _ _ (RefCount.wf_consistent _ _ Hwf) p) as [n Hp];
        [by apply (roots_lookup e y)|].
      destruct (wf_left hB _ p n Hwf Hp) as (hB' & Hl & Hwf' & Hra).
      rewrite Hl. unfold BinTreeSmart.left. cbn [BinTreeSmart.empty].
      destruct Hm as [Hbrk Hn]. rewrite (Hn p n Hp).
      split; [done|]. simpl.
      apply sim_declare; [done | by apply (matches_raised hB) | done].
    + split; [done|]. simpl. by apply sim_intro.
  - (* GetRight *)
    case_bool_decide as Hx; [|done].
    destruct (e !! y) as [[p|]|] eqn:Hy; [| |done].
    + destruct (RefCount.cons_roots _ _ (RefCount.wf_consistent _ _ Hwf) p) as [n Hp];
        [by apply (roots_lookup e y)|].
      destruct (wf_right hB _ p n Hwf Hp) as (hB' & Hl & Hwf' & Hra).
      rewrite Hl. unfold BinTreeSmart.right. cbn [BinTreeSmart.empty].
      destruct Hm as [Hbrk Hn]. rewrite (Hn p n Hp).
      split; [done|]. simpl.
      apply sim_declare; [done | by apply (matches_raised hB) | done].
    + split; [done|]. simpl. by apply sim_intro.
  - (* Assign *)
    destruct (e !! x) as [tx|] eqn:Hx; [|done].
    destruct (e !! y) as [ty|] eqn:Hy; [|done].
    case_bool_decide as Hxy; [by split|].
    destruct (wf_free hB (Client.roots (delete x e)) tx) as (h1 & Hf & Hwf1 & Hb1 & Hs1).
    { eapply wf_perm; [|exact Hwf]. by apply roots_delete. }
    destruct (wf_copy h1 _ ty Hwf1) as (h2 & Hcp & Hwf2 & Hra).
    { apply (wf_root_valid h1 _ ty Hwf1). apply (roots_valid (delete x e) y).
      by rewrite lookup_delete_ne. }
    unfold BinTree.assign. rewrite sbind_eq, Hf, Hcp.
    split; [done|]. simpl. rewrite <- !(insert_delete_eq e).
    apply sim_declare; [apply lookup_delete_eq | | done].
    apply (matches_raised h1); [|done]. by apply (matches_sub hB).
  - (* EndScope *)
    destruct (e !! x) as [tx|] eqn:Hx; [|done].
    destruct (wf_free hB (Client.roots (delete x e)) tx) as (h1 & Hf & Hwf1 & Hb1 & Hs1).
    { eapply wf_perm; [|exact Hwf]. by apply roots_delete. }
    unfold BinTree.destroy. rewrite Hf. split; [done|]. simpl.
    apply sim_intro; [by apply (matches_sub hB) | done].
  - (* ReadPreOrder *)
    case_bool_decide as Hx; [|done].
    pose proof (fromPreOrder_alike emptyRep (S (length input)) input hB hS _ Hwf Hm) as Ha.
    unfold BinTree.fromPreOrderInput, BinTreeSmart.fromPreOrderInput.
    destruct (BinTree.fromPreOrderInputAux _ _ _ hB) as [[[t c']|?| |] hB'];
      destruct (BinTreeSmart.fromPreOrderInputAux _ _ _ hS) as [[[t' c'']|?| |] hS'];
      try done.
    destruct Ha as (<- & <- & Hwf' & Hm'). split; [done|]. simpl.
    by apply sim_declare.
  - (* ReadInOrder *)
    case_bool_decide as Hx; [|done].
    pose proof (fromInOrder_alike (S (length input)) input hB hS _ Hwf Hm) as Ha.
    unfold BinTree.fromInOrderInput, BinTreeSmart.fromInOrderInput.
    destruct (BinTree.fromInOrderInputAux _ _ hB) as [[[t c']|?| |] hB'];
      destruct (BinTreeSmart.fromInOrderInputAux _ _ hS) as [[[t' c'']|?| |] hS'];
      try done.
    destruct Ha as (<- & <- & Hwf' & Hm'). split; [done|]. simpl.
    by apply sim_declare.
  - (* Elem *)
    destruct (e !! x) as [tx|] eqn:Hx; [|done].
    apply observe_alike; [done|].
    by apply (observers_alike hB hS _ tx Hwf Hm (roots_valid e x tx Hx)).
  - (* Empty *)
    destruct (e !! x) as [tx|] eqn:Hx; [|done]. by apply observe_alike.
  - (* PreOrder *)
    destruct (e !! x) as [tx|] eqn:Hx; [|done].
    apply observe_alike; [done|].
    by apply (observers_alike hB hS _ tx Hwf Hm (roots_valid e x tx Hx)).
  - (* InOrder *)
    destruct (e !! x) as [tx|] eqn:Hx; [|done].
    apply observe_alike; [done|].
    by apply (observers_alike hB hS _ tx Hwf Hm (roots_valid e x tx Hx)).
  - (* PostOrder *)
    destruct (e !! x) as [tx|] eqn:Hx; [|done].
    apply observe_alike; [done|].
    by apply (observers_alike hB hS _ tx Hwf Hm (roots_valid e x tx Hx)).
  - (* Levels *)
    destruct (e !! x) as [tx|] eqn:Hx; [|done].
    apply observe_alike; [done|].
    by apply (observers_alike hB hS _ tx Hwf Hm (roots_valid e x tx Hx)).
  - (* NodeCount *)
    destruct (e !! x) as [tx|] eqn:Hx; [|done].
    apply observe_alike; [done|].
    by apply (observers_alike hB hS _ tx Hwf Hm (roots_valid e x tx Hx)).
  - (* Depth *)
    destruct (e !! x) as [tx|] eqn:Hx; [|done].
    apply observe_alike; [done|].
    by apply (observers_alike hB hS _ tx Hwf Hm (roots_valid e x tx Hx)).
  - (* LeafCount *)
    destruct (e !! x) as [tx|] eqn:Hx; [|done].
    apply observe_alike; [done|].
    by apply (observers_alike hB hS _ tx Hwf Hm (roots_valid e x tx Hx)).
  - (* Equal *)
    destruct (e !! x) as [tx|] eqn:Hx; [|done].
    destruct (e !! y) as [ty|] eqn:Hy; [|done].
    apply observe_alike; [done|].
    by apply (eq_alike hB hS _ tx ty Hwf Hm (roots_valid e x tx Hx) (roots_valid e y ty Hy)).
  - (* NotEqual *)
    destruct (e !! x) as [tx|] eqn:Hx; [|done].
    destruct (e !! y) as [ty|] eqn:Hy; [|done].
    apply observe_alike; [done|]. unfold BinTree.neq, BinTreeSmart.neq.
    by rewrite (eq_alike hB hS _ tx ty Hwf Hm (roots_valid e x tx Hx)
                  (roots_valid e y ty Hy)).
Qed.

Lemma run_sim (prog : list (Client.cmd T))
    (sB : Client.state T (BinTree.Node T)) (sS : Client.state T (BinTreeSmart.Node T)) :
  Client.sim sB sS -> Client.run Client.stepB prog sB = Client.run Client.stepS prog sS.
Proof.
  revert sB sS. induction prog as [|c prog IH]; intros sB sS Hsim; [done|].
  cbn [Client.run]. destruct (step_sim c sB sS Hsim) as [Ho Hn].
  destruct (Client.stepB c sB) as [oB [sB'|]], (Client.stepS c sS) as [oS [sS'|]];
    simpl in Ho, Hn; subst; try done.
  f_equal. by apply IH.
Qed.

Lemma sim_init (input : list (token T)) :
  Client.sim (Client.init (N := BinTree.Node T) input)
             (Client.init (N := BinTreeSmart.Node T) input).
Proof.
  apply sim_intro.
  - split; [done|]. intros p n Hp. unfold Mem.read in Hp. simpl in Hp.
    by rewrite lookup_empty in Hp.
  - unfold Client.roots. rewrite map_to_list_empty. apply wf_empty.
Qed.
End ClientFacts.

(** * Facts shared by the claims about the trees *)

Section TreeClaims.
Context {T : Type} `{EqDecision T} `{Inhabited T}.
Local Abbreviation Node := (BinTree.Node T).
Local Abbreviation store := (Mem.heap Node).

Lemma eq_denotes (h : store) (R : list positive) (r1 r2 : BinTree.t)
    (t1 t2 : Tree.tree T) :
  RefCount.wf h R -> RefCount.denotes h r1 t1 -> RefCount.denotes h r2 t2 ->
  BinTree.eq r1 r2 h = Return (bool_decide (t1 = t2)).
Proof.
  intros Hwf H1 H2. unfold BinTree.eq.
  apply (compareAux_denotes h r1 t1 H1 r2 t2 _ H2).
  by apply (wf_denotes_height h R r1).
Qed.

Lemma replace_at_differs (path : list bool) (x : T) (t t' : Tree.tree T) :
  Tree.replace_at path x t = Some t' -> Tree.elem_at path t <> Some x -> t <> t'.
Proof.
  revert t t'. induction path as [|b path IH]; intros [|l e r] t' Hr He; try done.
  - simpl in Hr, He. injection Hr as <-. intros [= ->]. by apply He.
  - simpl in Hr, He. destruct b.
    + destruct (Tree.replace_at path x r) as [r'|] eqn:Hr'; [|done].
      simpl in Hr. injection Hr as <-. intros [= Heq]. by apply (IH r r').
    + destruct (Tree.replace_at path x l) as [l'|] eqn:Hl'; [|done].
      simpl in Hr. injection Hr as <-. intros [= Heq]. by apply (IH l l').
Qed.

Lemma return_inj {A : Type} (a b : A) : Return a = Return b -> a = b.
Proof. by intros [= ->]. Qed.

Lemma wf_mkNode_run (h : store) (R : list positive) (iz dr : option positive) (e : T) :
  RefCount.wf h R ->
  (forall q, iz = Some q \/ dr = Some q -> is_Some (Mem.read q h)) ->
  RefCount.wf (BinTree.mkNode iz e dr h).2 (Mem.brk h :: R).
Proof.
  intros Hwf Hv. destruct (wf_mkNode h R iz dr e Hwf Hv) as (h' & Hmk & Hwf' & _).
  by rewrite Hmk.
Qed.

Lemma serialize_length (emptyRep : T) (t : Tree.tree T) :
  length (Tree.serialize emptyRep t) = (2 * Tree.size t + 1)%nat.
Proof.
  induction t as [|l IHl e r IHr]; [done|].
  cbn [Tree.serialize Tree.size length]. rewrite length_app, IHl, IHr. lia.
Qed.

Lemma preorder_length (t : Tree.tree T) : length (Tree.preorder t) = Tree.size t.
Proof.
  induction t as [|l IHl e r IHr]; [done|].
  cbn [Tree.preorder Tree.size length]. by rewrite length_app, IHl, IHr.
Qed.

Lemma height_le_size (t : Tree.tree T) : (Tree.height t <= Tree.size t)%nat.
Proof.
  induction t as [|l IHl e r IHr]; [done|]. cbn [Tree.height Tree.size]. lia.
Qed.

(** The pre-order builder on the serialization of [t]: it returns, having
    consumed exactly the tokens of [t], a handle that denotes [t]; the
    handles that were live before still denote what they did. *)
Lemma fromPreOrder_serialize (emptyRep : T) (t : Tree.tree T) :
  forall (fuel : nat) (h : store) (R : list positive) (rest : list (token T)),
  RefCount.wf h R -> emptyRep ∉ Tree.preorder t -> (Tree.height t < fuel)%nat ->
  exists tr' h',
    BinTree.fromPreOrderInputAux fuel emptyRep (Tree.serialize emptyRep t ++ rest) h
      = (Return (tr', rest), h') /\
    RefCount.wf h' (RefCount.root_of tr' ++ R) /\
    RefCount.denotes h' tr' t /\
    (forall o t0, (forall q, o = Some q -> q ∈ R) ->
                  RefCount.denotes h o t0 -> RefCount.denotes h' o t0).
Proof.
  induction t as [|l IHl e r IHr]; intros fuel h R rest Hwf Hno Hfuel.
  - destruct fuel as [|fuel]; [simpl in Hfuel; lia|].
    exists None, h. cbn. rewrite bool_decide_eq_true_2 by done.
    split; [done|]. split; [done|]. split; [constructor|]. auto.
  - destruct fuel as [|fuel]; [simpl in Hfuel; lia|].
    cbn [Tree.height] in Hfuel. cbn [Tree.preorder] in Hno.
    apply not_elem_of_cons in Hno as [Hne Hno].
    apply not_elem_of_app in Hno as [Hnl Hnr].
    cbn [Tree.serialize]. rewrite <- app_comm_cons, <- app_assoc.
    cbn [BinTree.fromPreOrderInputAux read_elem].
    rewrite bool_decide_eq_false_2 by done.
    destruct (IHl fuel h R (Tree.serialize emptyRep r ++ rest) Hwf Hnl)
      as (hi & h1 & Hrun1 & Hwf1 & Hdl & Hkeep1); [lia|].
    destruct (IHr fuel h1 (RefCount.root_of hi ++ R) rest Hwf1 Hnr)
      as (hd & h2 & Hrun2 & Hwf2 & Hdr & Hkeep2); [lia|].
    rewrite sbind_eq, Hrun1. rewrite sbind_eq, Hrun2.
    destruct (build_node_spec h2 R hi hd e rest Hwf2)
      as (h' & Hbuild & Hwf' & Hkeep & Hnode & _).
    rewrite Hbuild. exists (Some (Mem.brk h2)), h'.
    split; [done|]. split; [exact Hwf'|]. split.
    + apply Hnode; [|done]. apply Hkeep2; [|done].
      intros q ->. apply elem_of_app. left. by apply list_elem_of_singleton.
    + intros o t0 Ho Hd. apply Hkeep; [done|]. apply Hkeep2.
      * intros q Hq. apply elem_of_app. right. by apply Ho.
      * by apply Hkeep1.
Qed.

Lemma wf_free_run (h : store) (R : list positive) (o : option positive) :
  RefCount.wf h (RefCount.root_of o ++ R) -> RefCount.wf (BinTree.free o h).2 R.
Proof.
  intros Hwf. destruct (wf_free h R o Hwf) as (h' & Hf & Hwf' & _). by rewrite Hf.
Qed.

(** A node that no handle and no link reaches is not in a store that
    satisfies the invariant. *)
Lemma wf_unreferenced (h : store) (R : list positive) (p : positive) :
  RefCount.wf h R -> p ∉ R ->
  (forall q nq, Mem.read q h = Some nq ->
     BinTree._left nq <> Some p /\ BinTree._right nq <> Some p) ->
  Mem.read p h = None.
Proof.
  intros [Hc Hpos] HpR Hno.
  destruct (Mem.read p h) as [n|] eqn:Hp; [exfalso|done].
  pose proof (Hpos p n Hp) as Hn.
  destruct (RefCount.cons_count _ _ Hc p n Hp) as [_ Hcount].
  assert (RefCount.handles p R = 0) as HR.
  { pose proof (handles_nonneg p R). pose proof (proj2 (handles_elem p R)).
    destruct (decide (0 < RefCount.handles p R)) as [Hlt|]; [|lia].
    exfalso. apply HpR. by apply handles_elem. }
  rewrite (inrefs_zero (Mem.cells h) p) in Hcount; [lia|].
  intros q nq Hq. destruct (Hno q nq Hq) as [Hl Hr].
  unfold RefCount.links, RefCount.points_to.
  rewrite !bool_decide_eq_false_2 by done. by destruct (0 <? BinTree._refs nq).
Qed.

(** Releasing a handle on [p]: the count of [p] goes down by one when
    other references remain; the node is reclaimed exactly when the handle
    was the last reference. *)
Lemma free_root_spec (h : store) (R : list positive) (p : positive) (n : Node) :
  RefCount.wf h (p :: R) -> Mem.read p h = Some n ->
  exists h',
    BinTree.free (Some p) h = (Return tt, h') /\
    RefCount.wf h' R /\ RefCount.sub h' h /\
    (1 < BinTree._refs n ->
       Mem.read p h' = Some (BinTree.with_refs n (BinTree._refs n - 1))) /\
    (BinTree._refs n = 1 <-> Mem.read p h' = None).
Proof.
  intros Hwf Hp.
  destruct (wf_free h R (Some p) Hwf) as (h' & Hf & Hwf' & Hbrk & Hsub).
  exists h'. split; [done|]. split; [done|]. split; [done|].
  pose proof Hwf as [Hc Hpos]. pose proof (Hpos p n Hp) as Hn.
  assert (1 < BinTree._refs n ->
          Mem.read p h' = Some (BinTree.with_refs n (BinTree._refs n - 1))) as Hmany.
  { intros Hgt. unfold BinTree.free in Hf.
    pose proof (RefCount.cons_brk _ _ Hc p (mk_is_Some _ _ Hp)) as Hlt.
    unfold BinTree.depth_fuel in Hf.
    destruct (Pos.to_nat (Mem.brk h)) as [|fuel] eqn:Hfuel; [lia|].
    cbn [BinTree.freeAux] in Hf. rewrite sbind_eq in Hf.
    rewrite (rmRef_counted h p n Hp Hn) in Hf. rewrite read_write_eq in Hf.
    cbn [BinTree.with_refs BinTree._refs] in Hf.
    destruct (Z.eqb_spec (BinTree._refs n - 1) 0) as [|_]; [lia|].
    injection Hf as <-. apply read_write_eq. }
  split; [exact Hmany|]. split.
  - intros Hone. apply (wf_unreferenced h' R p Hwf').
    + intros HpR. destruct (RefCount.cons_count _ _ Hc p n Hp) as [_ Hcount].
      rewrite handles_cons in Hcount. rewrite decide_True in Hcount by done.
      pose proof (inrefs_nonneg (Mem.cells h) p).
      apply handles_elem in HpR. lia.
    + intros q nq' Hq. destruct (Hsub q nq' Hq) as (nq & Hq0 & _ & Hl & Hr).
      rewrite Hl, Hr.
      destruct (RefCount.cons_count _ _ Hc p n Hp) as [_ Hcount].
      rewrite handles_cons in Hcount. rewrite decide_True in Hcount by done.
      pose proof (handles_nonneg p R). pose proof (inrefs_nonneg (Mem.cells h) p).
      pose proof (inrefs_ge (Mem.cells h) q nq p Hq0) as Hge.
      pose proof (links_nonneg p nq).
      assert (RefCount.links p nq = 0) as Hz by lia.
      rewrite (links_counted p nq (Hpos q nq Hq0)) in Hz.
      unfold RefCount.points_to in Hz.
      split; intros Heq; rewrite Heq in Hz;
        rewrite (bool_decide_eq_true_2 (Some p = Some p)) in Hz by done;
        case_bool_decide; lia.
  - intros Hnone. destruct (decide (1 < BinTree._refs n)) as [Hgt|]; [|lia].
    rewrite (Hmany Hgt) in Hnone. done.
Qed.
End TreeClaims.

(** * Upper bounds on the reference counts *)

Section CountBounds.
Context {T : Type} `{EqDecision T} `{Inhabited T}.
Local Abbreviation Node := (BinTree.Node T).
Local Abbreviation store := (Mem.heap Node).

Lemma points_to_le_1 (q : positive) (o : option positive) : RefCount.points_to q o <= 1.
Proof. unfold RefCount.points_to. case_bool_decide; lia. Qed.

Lemma grown_refl (h : store) : RefCount.grown (fun _ => 0) h h.
Proof. split; [done|]. intros q n' Hq. exists n'. split; [done | lia]. Qed.

Lemma grown_trans (k1 k2 : positive -> Z) (h1 h2 h3 : store) :
  RefCount.grown k1 h1 h2 -> RefCount.grown k2 h2 h3 ->
  RefCount.grown (fun q => k1 q + k2 q) h1 h3.
Proof.
  intros [Hb1 Hg1] [Hb2 Hg2]. split; [congruence|].
  intros q n3 Hq3. destruct (Hg2 q n3 Hq3) as (n2 & Hq2 & Hle2).
  destruct (Hg1 q n2 Hq2) as (n1 & Hq1 & Hle1). exists n1. split; [done | lia].
Qed.

Lemma grown_weaken (k k' : positive -> Z) (h h' : store) :
  (forall q, k q <= k' q) -> RefCount.grown k h h' -> RefCount.grown k' h h'.
Proof.
  intros Hk [Hb Hg]. split; [done|]. intros q n' Hq.
  destruct (Hg q n' Hq) as (n & Hn & Hle). exists n. split; [done|].
  specialize (Hk q). lia.
Qed.

Lemma grown_bounded (k : positive -> Z) (h h' : store) (b c : Z) :
  RefCount.grown k h h' -> (forall q, k q <= c) ->
  RefCount.bounded h b -> RefCount.bounded h' (b + c).
Proof.
  intros [_ Hg] Hk Hb q n' Hq. destruct (Hg q n' Hq) as (n & Hn & Hle).
  specialize (Hb q n Hn). specialize (Hk q). lia.
Qed.

Lemma bounded_mono (h : store) (b b' : Z) :
  b <= b' -> RefCount.bounded h b -> RefCount.bounded h b'.
Proof. intros Hle Hb q n Hq. specialize (Hb q n Hq). lia. Qed.

(** ** What each operation does to the counts, whatever its outcome *)

Lemma addRef_grown (p : positive) (h h' : store) (r : outcome unit) :
  BinTree.addRef p h = (r, h') ->
  (forall x, r <> Throw x) /\
  RefCount.grown (fun q => RefCount.points_to q (Some p)) h h'.
Proof.
  unfold BinTree.addRef. intros Ha.
  assert (Hsame : RefCount.grown (fun q => RefCount.points_to q (Some p)) h h).
  { apply (grown_weaken (fun _ => 0)); [|apply grown_refl].
    intros q. apply points_to_nonneg. }
  destruct (Mem.read p h) as [n|] eqn:Hp; cycle 1.
  { injection Ha as <- <-. by split. }
  destruct (0 <=? BinTree._refs n); cycle 1.
  { injection Ha as <- <-. by split. }
  injection Ha as <- <-. split; [done|]. split; [done|].
  intros q n' Hq. rewrite read_write in Hq.
  destruct (decide (p = q)) as [<-|Hne].
  - injection Hq as <-. exists n. split; [done|]. simpl.
    unfold RefCount.points_to. rewrite bool_decide_eq_true_2 by done. lia.
  - exists n'. split; [done|]. pose proof (points_to_nonneg q (Some p)). lia.
Qed.

Lemma addRef_opt_grown (o : option positive) (h h' : store) (r : outcome unit) :
  BinTree.addRef_opt o h = (r, h') ->
  (forall x, r <> Throw x) /\
  RefCount.grown (fun q => RefCount.points_to q o) h h'.
Proof.
  destruct o as [p|]; [apply addRef_grown|].
  intros [= <- <-]. split; [done|].
  apply (grown_weaken (fun _ => 0)); [|apply grown_refl].
  intros q. apply points_to_nonneg.
Qed.

Lemma rmRef_grown (p : positive) (h h' : store) (r : outcome unit) :
  BinTree.rmRef p h = (r, h') ->
  (forall x, r <> Throw x) /\ RefCount.grown (fun _ => 0) h h'.
Proof.
  unfold BinTree.rmRef. intros Ha.
  destruct (Mem.read p h) as [n|] eqn:Hp; cycle 1.
  { injection Ha as <- <-. split; [done | apply grown_refl]. }
  destruct (0 <? BinTree._refs n); cycle 1.
  { injection Ha as <- <-. split; [done | apply grown_refl]. }
  injection Ha as <- <-. split; [done|]. split; [done|].
  intros q n' Hq. rewrite read_write in Hq.
  destruct (decide (p = q)) as [<-|Hne].
  - injection Hq as <-. exists n. split; [done|]. simpl. lia.
  - exists n'. split; [done | lia].
Qed.

Lemma grown_dealloc (p : positive) (h : store) :
  RefCount.grown (fun _ => 0) h (Mem.dealloc p h).
Proof.
  split; [done|]. intros q n' Hq. rewrite read_dealloc in Hq.
  destruct (decide (p = q)); [done|]. exists n'. split; [done | lia].
Qed.

Lemma grown_zero_trans (h1 h2 h3 : store) :
  RefCount.grown (fun _ => 0) h1 h2 -> RefCount.grown (fun _ => 0) h2 h3 ->
  RefCount.grown (fun _ => 0) h1 h3.
Proof.
  intros H12 H23. apply (grown_weaken (fun q => 0 + 0)); [intros; lia|].
  by apply (grown_trans _ _ h1 h2 h3).
Qed.

(** [free] never raises a count and creates no node. *)
Lemma freeAux_grown (fuel : nat) :
  forall (o : option positive) (h h' : store) (r : outcome unit),
  BinTree.freeAux fuel o h = (r, h') ->
  (forall x, r <> Throw x) /\ RefCount.grown (fun _ => 0) h h'.
Proof.
  induction fuel as [|fuel IH]; intros o h h' r Hf.
  - destruct o as [p|]; injection Hf as <- <-; (split; [done | apply grown_refl]).
  - destruct o as [p|]; cbn [BinTree.freeAux] in Hf.
    { rewrite sbind_eq in Hf.
      destruct (BinTree.rmRef p h) as [r1 h1] eqn:E1.
      destruct (rmRef_grown p h h1 r1 E1) as [Hn1 Hg1].
      destruct r1 as [[]|x| |];
        try (injection Hf as <- <-; by split).
      destruct (Mem.read p h1) as [n|] eqn:Hp; cycle 1.
      { injection Hf as <- <-. by split. }
      destruct (BinTree._refs n =? 0); cycle 1.
      { injection Hf as <- <-. by split. }
      rewrite sbind_eq in Hf.
      destruct (BinTree.freeAux fuel (BinTree._left n) h1) as [r2 h2] eqn:E2.
      destruct (IH _ _ _ _ E2) as [Hn2 Hg2].
      pose proof (grown_zero_trans h h1 h2 Hg1 Hg2) as Hg02.
      destruct r2 as [[]|x| |];
        try (injection Hf as <- <-; by split).
      destruct (Mem.read p h2) as [n1|] eqn:Hp2; cycle 1.
      { injection Hf as <- <-. by split. }
      rewrite sbind_eq in Hf.
      destruct (BinTree.freeAux fuel (BinTree._right n1) h2) as [r3 h3] eqn:E3.
      destruct (IH _ _ _ _ E3) as [Hn3 Hg3].
      pose proof (grown_zero_trans h h2 h3 Hg02 Hg3) as Hg03.
      destruct r3 as [[]|x| |];
        try (injection Hf as <- <-; by split).
      injection Hf as <- <-. split; [done|].
      apply (grown_zero_trans h h3); [done | apply grown_dealloc]. }
    injection Hf as <- <-. split; [done | apply grown_refl].
Qed.

Lemma free_grown (o : option positive) (h h' : store) (r : outcome unit) :
  BinTree.free o h = (r, h') ->
  (forall x, r <> Throw x) /\ RefCount.grown (fun _ => 0) h h'.
Proof. apply freeAux_grown. Qed.

Lemma copy_grown (o : option positive) (h h' : store) (r : outcome BinTree.t) :
  BinTree.copy o h = (r, h') ->
  (forall x, r <> Throw x) /\
  RefCount.grown (fun q => RefCount.points_to q o) h h'.
Proof.
  unfold BinTree.copy. rewrite sbind_eq. intros Hc.
  destruct (BinTree.addRef_opt o h) as [r1 h1] eqn:E1.
  destruct (addRef_opt_grown o h h1 r1 E1) as [Hn1 Hg1].
  destruct r1 as [[]|x| |]; unfold sret in Hc; injection Hc as <- <-;
    (split; [|exact Hg1]); try done.
  intros x0 [=]. by apply (Hn1 x).
Qed.

Lemma left_grown (tr : BinTree.t) (h h' : store) (r : outcome BinTree.t) :
  BinTree.left tr h = (r, h') ->
  exists o, RefCount.grown (fun q => RefCount.points_to q o) h h' /\
    forall p n, tr = Some p -> Mem.read p h = Some n -> o = BinTree._left n.
Proof.
  unfold BinTree.left. intros Hl.
  assert (Hsame : RefCount.grown (fun q => RefCount.points_to q None) h h)
    by (apply (grown_weaken (fun _ => 0)); [intros; apply points_to_nonneg | apply grown_refl]).
  destruct tr as [p|]; cbn [BinTree.empty] in Hl; cycle 1.
  { injection Hl as <- <-. exists None. by split. }
  destruct (Mem.read p h) as [n|] eqn:Hp; cycle 1.
  { injection Hl as <- <-. exists None. split; [done|].
    intros p' n' [= <-]. by rewrite Hp. }
  exists (BinTree._left n). split; [by apply (copy_grown _ h h' r)|].
  intros p' n' [= <-]. rewrite Hp. by intros [= <-].
Qed.

Lemma right_grown (tr : BinTree.t) (h h' : store) (r : outcome BinTree.t) :
  BinTree.right tr h = (r, h') ->
  exists o, RefCount.grown (fun q => RefCount.points_to q o) h h' /\
    forall p n, tr = Some p -> Mem.read p h = Some n -> o = BinTree._right n.
Proof.
  unfold BinTree.right. intros Hl.
  assert (Hsame : RefCount.grown (fun q => RefCount.points_to q None) h h)
    by (apply (grown_weaken (fun _ => 0)); [intros; apply points_to_nonneg | apply grown_refl]).
  destruct tr as [p|]; cbn [BinTree.empty] in Hl; cycle 1.
  { injection Hl as <- <-. exists None. by split. }
  destruct (Mem.read p h) as [n|] eqn:Hp; cycle 1.
  { injection Hl as <- <-. exists None. split; [done|].
    intros p' n' [= <-]. by rewrite Hp. }
  exists (BinTree._right n). split; [by apply (copy_grown _ h h' r)|].
  intros p' n' [= <-]. rewrite Hp. by intros [= <-].
Qed.

Lemma assign_grown (this other : BinTree.t) (h h' : store) (r : outcome BinTree.t) :
  BinTree.assign this other h = (r, h') ->
  (forall x, r <> Throw x) /\
  RefCount.grown (fun q => RefCount.points_to q other) h h'.
Proof.
  unfold BinTree.assign. rewrite sbind_eq. intros Ha.
  destruct (BinTree.free this h) as [r1 h1] eqn:E1.
  destruct (free_grown this h h1 r1 E1) as [Hn1 Hg1].
  assert (Hg1' : RefCount.grown (fun q => RefCount.points_to q other) h h1)
    by (apply (grown_weaken (fun _ => 0)); [intros; apply points_to_nonneg | done]).
  destruct r1 as [[]|x| |]; try (injection Ha as <- <-; split; [|done]; try done).
  - destruct (copy_grown other h1 h' r Ha) as [Hn2 Hg2]. split; [done|].
    apply (grown_weaken (fun q => 0 + RefCount.points_to q other)); [intros; lia|].
    by apply (grown_trans _ _ h h1 h').
  - intros x0 [=]. by apply (Hn1 x).
Qed.

(** [BinTree(iz, elem, dr)] creates one node, whose count ends at 3 or
    less, and raises the count of each child by one. *)
Lemma mkNode_grown (iz dr : option positive) (e : T) (h h' : store)
    (r : outcome BinTree.t) :
  BinTree.mkNode iz e dr h = (r, h') ->
  (forall x, r <> Throw x) /\
  Mem.brk h' = Pos.succ (Mem.brk h) /\
  forall q n', Mem.read q h' = Some n' ->
    (q = Mem.brk h /\ BinTree._refs n' <= 3) \/
    (q <> Mem.brk h /\ exists n, Mem.read q h = Some n /\
       BinTree._refs n' <=
       BinTree._refs n + RefCount.points_to q iz + RefCount.points_to q dr).
Proof.
  intros Hmk. set (p := Mem.brk h) in *.
  set (N0 := BinTree.MkNode e iz dr 0).
  set (h1 := (Mem.alloc N0 h).2).
  set (k := fun q => RefCount.points_to q iz + RefCount.points_to q dr +
                     RefCount.points_to q (Some p)).
  assert (Hall : (forall x, r <> Throw x) /\ RefCount.grown k h1 h').
  { unfold BinTree.mkNode, BinTree.newNode, sbind, sret in Hmk.
    change (Mem.alloc (BinTree.MkNode e iz dr 0) h) with (p, h1) in Hmk.
    cbn iota beta in Hmk.
    destruct (BinTree.addRef_opt iz h1) as [r2 h2] eqn:E2.
    destruct (addRef_opt_grown iz h1 h2 r2 E2) as [Hn2 Hg2].
    assert (Hk2 : RefCount.grown k h1 h2).
    { apply (grown_weaken _ k) in Hg2; [done|]. intros q. unfold k.
      pose proof (points_to_nonneg q dr). pose proof (points_to_nonneg q (Some p)). lia. }
    destruct r2 as [[]|x| |]; [|by destruct (Hn2 x)| |];
      try (injection Hmk as <- <-; by split).
    destruct (BinTree.addRef_opt dr h2) as [r3 h3] eqn:E3.
    destruct (addRef_opt_grown dr h2 h3 r3 E3) as [Hn3 Hg3].
    pose proof (grown_trans _ _ h1 h2 h3 Hg2 Hg3) as Hg13. cbn beta in Hg13.
    assert (Hk3 : RefCount.grown k h1 h3).
    { apply (grown_weaken _ k) in Hg13; [done|]. intros q. unfold k.
      pose proof (points_to_nonneg q (Some p)). lia. }
    destruct r3 as [[]|x| |]; [|by destruct (Hn3 x)| |];
      try (injection Hmk as <- <-; by split).
    destruct (BinTree.addRef p h3) as [r4 h4] eqn:E4.
    destruct (addRef_grown p h3 h4 r4 E4) as [Hn4 Hg4].
    pose proof (grown_trans _ _ h1 h3 h4 Hg13 Hg4) as Hg14. cbn beta in Hg14.
    destruct r4 as [[]|x| |]; [|by destruct (Hn4 x)| |];
      injection Hmk as <- <-; (split; [done | exact Hg14]). }
  destruct Hall as [Hn [Hb Hg]]. split; [done|]. split; [by rewrite Hb|].
  intros q n' Hq. destruct (Hg q n' Hq) as (n1 & Hq1 & Hle).
  unfold h1 in Hq1. rewrite read_alloc in Hq1. fold p in Hq1.
  destruct (decide (p = q)) as [<-|Hne].
  - left. split; [done|]. injection Hq1 as <-. unfold k in Hle. simpl in Hle.
    pose proof (points_to_le_1 p iz). pose proof (points_to_le_1 p dr).
    pose proof (points_to_le_1 p (Some p)). lia.
  - right. split; [done|]. exists n1. split; [done|]. unfold k in Hle.
    assert (RefCount.points_to q (Some p) = 0) as Hz.
    { unfold RefCount.points_to. rewrite bool_decide_eq_false_2; [done|]. congruence. }
    lia.
Qed.

Lemma mkNode_bounded (iz dr : option positive) (e : T) (h h' : store)
    (r : outcome BinTree.t) (b : Z) :
  BinTree.mkNode iz e dr h = (r, h') -> 1 <= b ->
  RefCount.bounded h b -> RefCount.bounded h' (b + 2).
Proof.
  intros Hmk Hb1 Hb. destruct (mkNode_grown iz dr e h h' r Hmk) as (_ & _ & Hg).
  intros q n' Hq. destruct (Hg q n' Hq) as [[_ Hle]|(_ & n & Hn & Hle)]; [lia|].
  specialize (Hb q n Hn).
  pose proof (points_to_le_1 q iz). pose proof (points_to_le_1 q dr). lia.
Qed.

Lemma bounded_empty (b : Z) : RefCount.bounded (Mem.empty : store) b.
Proof. intros q n Hq. unfold Mem.read in Hq. simpl in Hq. by rewrite lookup_empty in Hq. Qed.

Lemma mkNode_bounded_run (iz dr : option positive) (e : T) (h : store) (b : Z) :
  1 <= b -> RefCount.bounded h b ->
  RefCount.bounded (BinTree.mkNode iz e dr h).2 (b + 2).
Proof.
  intros Hb1 Hb. destruct (BinTree.mkNode iz e dr h) as [r h'] eqn:E.
  by apply (mkNode_bounded iz dr e h h' r b).
Qed.

Lemma free_bounded_run (o : option positive) (h : store) (b : Z) :
  RefCount.bounded h b -> RefCount.bounded (BinTree.free o h).2 b.
Proof.
  intros Hb. destruct (BinTree.free o h) as [r h'] eqn:E.
  destruct (free_grown o h h' r E) as [_ Hg].
  apply (bounded_mono h' (b + 0)); [lia|].
  apply (grown_bounded _ h h' b 0 Hg); [intros; lia | done].
Qed.
End CountBounds.

(** * Bounds on the counts along a client run *)

Section ClientBounds.
Context {T : Type} `{EqDecision T} `{Inhabited T}.
Local Abbreviation Node := (BinTree.Node T).
Local Abbreviation store := (Mem.heap Node).

(** ** The counts under the invariant: handles plus links *)

Lemma links_le_2 (p : positive) (n : Node) : RefCount.links p n <= 2.
Proof.
  unfold RefCount.links. pose proof (points_to_le_1 p (BinTree._left n)).
  pose proof (points_to_le_1 p (BinTree._right n)).
  destruct (0 <? BinTree._refs n); lia.
Qed.

Lemma inrefs_le (cells : gmap positive Node) (p : positive) :
  RefCount.inrefs cells p <= 2 * Z.of_nat (size cells).
Proof.
  induction cells as [|q n cells Hq IH] using map_ind.
  - rewrite inrefs_empty, map_size_empty. lia.
  - rewrite inrefs_insert by done. rewrite map_size_insert_None by done.
    pose proof (links_le_2 p n). lia.
Qed.

Lemma handles_le (p : positive) (R : list positive) :
  RefCount.handles p R <= Z.of_nat (length R).
Proof.
  unfold RefCount.handles. pose proof (length_filter (fun q => q = p) R). lia.
Qed.

Lemma size_below (cells : gmap positive Node) (b : positive) :
  (forall q, is_Some (cells !! q) -> (q < b)%positive) ->
  (size cells < Pos.to_nat b)%nat.
Proof.
  revert cells. induction b as [|b IH] using Pos.peano_ind; intros cells Hb.
  - assert (cells = ∅) as ->.
    { apply map_empty. intros q. destruct (cells !! q) eqn:Hq; [|done].
      specialize (Hb q (mk_is_Some _ _ Hq)). lia. }
    rewrite map_size_empty. lia.
  - assert (size (delete b cells) < Pos.to_nat b)%nat as Hd.
    { apply IH. intros q [n Hq]. apply lookup_delete_Some in Hq as [Hne Hq].
      specialize (Hb q (mk_is_Some _ _ Hq)). lia. }
    rewrite map_size_delete in Hd. destruct (cells !! b); simpl in Hd; lia.
Qed.

(** A count is at most the number of handles plus two links for every
    node of the store, and the store has fewer nodes than addresses
    handed out. *)
Lemma wf_count_le (h : store) (R : list positive) (p : positive) (n : Node) :
  RefCount.wf h R -> Mem.read p h = Some n ->
  BinTree._refs n <= Z.of_nat (length R) + 2 * (Z.pos (Mem.brk h) - 1).
Proof.
  intros [Hc _] Hp. destruct (RefCount.cons_count _ _ Hc p n Hp) as [_ ->].
  pose proof (handles_le p R). pose proof (inrefs_le (Mem.cells h) p).
  pose proof (size_below (Mem.cells h) (Mem.brk h) (RefCount.cons_brk _ _ Hc)).
  pose proof (positive_nat_Z (Mem.brk h)). lia.
Qed.

(** ** The input builders create at most one node per token read *)

Lemma read_elem_cases (cin : list (token T)) :
  (exists e rest, cin = Val e :: rest /\ read_elem cin = (e, rest)) \/
  read_elem cin = (inhabitant, []).
Proof. destruct cin as [|[c|e] rest]; [by right | by right | left; by exists e, rest]. Qed.

Lemma read_char_cases (cin : list (token T)) :
  (exists c rest, cin = Chr c :: rest /\ read_char cin = (Some c, rest)) \/
  read_char cin = (None, []).
Proof. destruct cin as [|[c|e] rest]; [by right | left; by exists c, rest | by right]. Qed.

(** On an exhausted input the pre-order builder keeps reading the same
    value: unless that value is the sentinel, no call returns. *)
Lemma fromPreOrder_stuck (emptyRep : T) (fuel : nat) :
  inhabitant <> emptyRep ->
  forall (h : store) v, (BinTree.fromPreOrderInputAux fuel emptyRep [] h).1 <> Return v.
Proof.
  intros Hne. induction fuel as [|fuel IH]; intros h v; [done|].
  cbn [BinTree.fromPreOrderInputAux read_elem].
  rewrite bool_decide_eq_false_2 by done. rewrite sbind_eq.
  specialize (IH h).
  destruct (BinTree.fromPreOrderInputAux fuel emptyRep [] h) as [[a|x| |] h1];
    [by destruct (IH a) | done | done | done].
Qed.

Lemma build_node_measure (hi hd : option positive) (e : T) (c : list (token T))
    (h h' : store) (r : outcome (BinTree.t * list (token T))) :
  (let* res := BinTree.mkNode hi e hd in
   let* _ := BinTree.destroy hd in
   let* _ := BinTree.destroy hi in
   sret (res, c)) h = (r, h') ->
  (forall x, r <> Throw x) /\ Mem.brk h' = Pos.succ (Mem.brk h) /\
  forall t c', r = Return (t, c') -> c' = c.
Proof.
  unfold sbind, sret, BinTree.destroy. intros Hb.
  destruct (BinTree.mkNode hi e hd h) as [r1 h1] eqn:E1.
  destruct (mkNode_grown hi hd e h h1 r1 E1) as (Hn1 & Hb1 & _).
  destruct r1 as [res|x| |]; [|by destruct (Hn1 x)| |];
    try (injection Hb as <- <-; by repeat split).
  destruct (BinTree.free hd h1) as [r2 h2] eqn:E2.
  destruct (free_grown hd h1 h2 r2 E2) as (Hn2 & Hb2 & _).
  destruct r2 as [[]|x| |]; [|by destruct (Hn2 x)| |];
    try (injection Hb as <- <-; split; [done|]; split; [congruence | done]).
  destruct (BinTree.free hi h2) as [r3 h3] eqn:E3.
  destruct (free_grown hi h2 h3 r3 E3) as (Hn3 & Hb3 & _).
  destruct r3 as [[]|x| |]; [|by destruct (Hn3 x)| |];
    injection Hb as <- <-; (split; [done|]); (split; [congruence|]); try done.
  by intros t c' [= _ ->].
Qed.

Lemma fromPreOrder_measure (emptyRep : T) (fuel : nat) :
  forall (cin : list (token T)) (h h' : store) r,
  BinTree.fromPreOrderInputAux fuel emptyRep cin h = (r, h') ->
  (forall x, r <> Throw x) /\
  forall t cin', r = Return (t, cin') ->
    (Pos.to_nat (Mem.brk h') + length cin' <= Pos.to_nat (Mem.brk h) + length cin)%nat.
Proof.
  induction fuel as [|fuel IH]; intros cin h h' r Hf.
  { injection Hf as <- <-. by split. }
  cbn [BinTree.fromPreOrderInputAux] in Hf.
  destruct (read_elem cin) as [e cin1] eqn:Hre.
  assert (Hlen : (length cin1 <= length cin)%nat).
  { destruct (read_elem_cases cin) as [(e' & rest & -> & Hr)|Hr];
      rewrite Hr in Hre; injection Hre as <- <-; simpl; lia. }
  case_bool_decide as Hempty.
  { injection Hf as <- <-. split; [done|]. intros t cin' [= <- <-]. lia. }
  rewrite sbind_eq in Hf.
  destruct (BinTree.fromPreOrderInputAux fuel emptyRep cin1 h) as [r1 h1] eqn:E1.
  destruct (IH cin1 h h1 r1 E1) as [Hn1 Hm1].
  destruct r1 as [[hi cin2]|x| |]; [|by destruct (Hn1 x)| |];
    try (injection Hf as <- <-; by split).
  specialize (Hm1 hi cin2 eq_refl).
  rewrite sbind_eq in Hf.
  destruct (BinTree.fromPreOrderInputAux fuel emptyRep cin2 h1) as [r2 h2] eqn:E2.
  destruct (IH cin2 h1 h2 r2 E2) as [Hn2 Hm2].
  destruct r2 as [[hd cin3]|x| |]; [|by destruct (Hn2 x)| |];
    try (injection Hf as <- <-; by split).
  specialize (Hm2 hd cin3 eq_refl).
  destruct (build_node_measure hi hd e cin3 h2 h' r Hf) as (Hn3 & Hb3 & Hc3).
  split; [done|]. intros t cin' ->. rewrite (Hc3 t cin' eq_refl).
  destruct (read_elem_cases cin) as [(e' & rest & -> & Hr)|Hr];
    rewrite Hr in Hre; injection Hre as <- <-.
  - simpl. lia.
  - exfalso. apply (fromPreOrder_stuck emptyRep fuel Hempty h (hi, cin2)).
    by rewrite E1.
Qed.

Lemma fromInOrder_measure (fuel : nat) :
  forall (cin : list (token T)) (h h' : store) r,
  BinTree.fromInOrderInputAux fuel cin h = (r, h') ->
  (forall x, r <> Throw x) /\
  forall t cin', r = Return (t, cin') ->
    (Pos.to_nat (Mem.brk h') + length cin' <= Pos.to_nat (Mem.brk h) + length cin)%nat.
Proof.
  induction fuel as [|fuel IH]; intros cin h h' r Hf.
  { injection Hf as <- <-. by split. }
  cbn [BinTree.fromInOrderInputAux] in Hf.
  destruct (read_char_cases cin) as [(c & cin1 & -> & Hr)|Hr]; rewrite Hr in Hf;
    [|injection Hf as <- <-; by split].
  case_bool_decide as Hdot.
  { injection Hf as <- <-. split; [done|]. intros t cin' [= <- <-]. simpl. lia. }
  case_bool_decide as Hopen; [|injection Hf as <- <-; by split].
  rewrite sbind_eq in Hf.
  destruct (BinTree.fromInOrderInputAux fuel cin1 h) as [r1 h1] eqn:E1.
  destruct (IH cin1 h h1 r1 E1) as [Hn1 Hm1].
  destruct r1 as [[hi cin2]|x| |]; [|by destruct (Hn1 x)| |];
    try (injection Hf as <- <-; by split).
  specialize (Hm1 hi cin2 eq_refl).
  destruct (read_elem cin2) as [e cin3] eqn:Hre.
  assert (Hlen3 : (length cin3 <= length cin2)%nat).
  { destruct (read_elem_cases cin2) as [(e' & rest & -> & Hr')|Hr'];
      rewrite Hr' in Hre; injection Hre as <- <-; simpl; lia. }
  rewrite sbind_eq in Hf.
  destruct (BinTree.fromInOrderInputAux fuel cin3 h1) as [r2 h2] eqn:E2.
  destruct (IH cin3 h1 h2 r2 E2) as [Hn2 Hm2].
  destruct r2 as [[hd cin4]|x| |]; [|by destruct (Hn2 x)| |];
    try (injection Hf as <- <-; by split).
  specialize (Hm2 hd cin4 eq_refl).
  destruct (read_char_cases cin4) as [(c' & cin5 & -> & Hr4)|Hr4]; rewrite Hr4 in Hf;
    [|injection Hf as <- <-; by split].
  case_bool_decide as Hclose; [|injection Hf as <- <-; by split].
  destruct (build_node_measure hi hd e cin5 h2 h' r Hf) as (Hn3 & Hb3 & Hc3).
  split; [done|]. intros t cin' ->. rewrite (Hc3 t cin' eq_refl).
  simpl in *. lia.
Qed.

(** ** One operation declares at most one handle, and creates at most one
    node unless it reads tokens *)

Lemma size_insert_le (e : gmap Client.var (option positive)) (x : Client.var)
    (t : option positive) :
  (size (<[x := t]> e) <= S (size e))%nat.
Proof. rewrite map_size_insert. destruct (e !! x); simpl; lia. Qed.

Lemma size_delete_le (e : gmap Client.var (option positive)) (x : Client.var) :
  (size (delete x e) <= size e)%nat.
Proof. rewrite map_size_delete. destruct (e !! x); simpl; lia. Qed.

Lemma roots_length (e : gmap Client.var (option positive)) :
  (length (Client.roots e) <= size e)%nat.
Proof.
  unfold Client.roots. rewrite <- length_map_to_list.
  generalize (map_to_list e). intros l. induction l as [|[x t] l IH]; [done|].
  rewrite roots_cons, length_app. destruct t; simpl; lia.
Qed.

Lemma declare_measure (x : Client.var) (s s' : Client.state T Node)
    (input : list (token T)) (r : outcome (option positive)) (h' : store)
    (o : Client.obs T) :
  Client.declare x s input (r, h') = (o, Some s') ->
  (size (Client.env s') <= S (size (Client.env s)))%nat /\
  Client.mem s' = h' /\ Client.cin s' = input.
Proof.
  unfold Client.declare. destruct r as [tr|x0| |]; intros [= <- <-]; simpl.
  - split; [apply size_insert_le | done].
  - split; [lia | done].
Qed.

Lemma declare_read_measure (x : Client.var) (s s' : Client.state T Node)
    (r : outcome (option positive * list (token T))) (h' : store) (o : Client.obs T) :
  Client.declare_read x s (r, h') = (o, Some s') ->
  (size (Client.env s') <= S (size (Client.env s)))%nat /\
  Client.mem s' = h' /\
  ((exists t, r = Return (t, Client.cin s')) \/ (exists x0, r = Throw x0)).
Proof.
  unfold Client.declare_read. destruct r as [[tr input]|x0| |]; intros [= <- <-]; simpl.
  - split; [apply size_insert_le|]. split; [done|]. left. by exists tr.
  - split; [lia|]. split; [done|]. right. by exists x0.
Qed.

Lemma stepB_measure (c : Client.cmd T) (s s' : Client.state T Node) (o : Client.obs T) :
  Client.stepB c s = (o, Some s') ->
  (size (Client.env s') <= S (size (Client.env s)))%nat /\
  (Pos.to_nat (Mem.brk (Client.mem s')) + length (Client.cin s') <=
   S (Pos.to_nat (Mem.brk (Client.mem s)) + length (Client.cin s)))%nat.
Proof.
  destruct s as [e h input].
  assert (Hsame : forall s0 : Client.state T Node,
            Some (Client.State e h input) = Some s0 ->
            (size (Client.env s0) <= S (size e))%nat /\
            (Pos.to_nat (Mem.brk (Client.mem s0)) + length (Client.cin s0) <=
             S (Pos.to_nat (Mem.brk h) + length input))%nat).
  { intros s0 [= <-]. simpl. lia. }
  assert (Hdecl : forall x r h1,
            Client.declare x (Client.State e h input) input (r, h1) = (o, Some s') ->
            (Pos.to_nat (Mem.brk h1) <= S (Pos.to_nat (Mem.brk h)))%nat ->
            (size (Client.env s') <= S (size e))%nat /\
            (Pos.to_nat (Mem.brk (Client.mem s')) + length (Client.cin s') <=
             S (Pos.to_nat (Mem.brk h) + length input))%nat).
  { intros x r h1 Hd Hb. destruct (declare_measure _ _ _ _ _ _ _ Hd) as (Hsz & -> & ->).
    simpl in Hsz. split; [done | lia]. }
  assert (Hread : forall x r h1,
            Client.declare_read x (Client.State e h input) (r, h1) = (o, Some s') ->
            ((forall x0, r <> Throw x0) /\
             forall t cin', r = Return (t, cin') ->
               (Pos.to_nat (Mem.brk h1) + length cin' <=
                Pos.to_nat (Mem.brk h) + length input)%nat) ->
            (size (Client.env s') <= S (size e))%nat /\
            (Pos.to_nat (Mem.brk (Client.mem s')) + length (Client.cin s') <=
             S (Pos.to_nat (Mem.brk h) + length input))%nat).
  { intros x r h1 Hd [Hn Hm].
    destruct (declare_read_measure _ _ _ _ _ _ Hd) as (Hsz & -> & [[t Hr]|[x0 Hr]]).
    - simpl in Hsz. split; [done|]. specialize (Hm t _ Hr). lia.
    - by destruct (Hn x0). }
  assert (Hobs : forall {A} (mk : outcome A -> Client.obs T) (r : outcome A),
            Client.observe mk (Client.State e h input) r = (o, Some s') ->
            (size (Client.env s') <= S (size e))%nat /\
            (Pos.to_nat (Mem.brk (Client.mem s')) + length (Client.cin s') <=
             S (Pos.to_nat (Mem.brk h) + length input))%nat).
  { intros A mk r. unfold Client.observe. intros [= _ Hs].
    destruct (Client.ends r); [done|]. by apply Hsame. }
  destruct c as [x|x v|x l v r|x y|x y|x y|x y|x|x emptyRep|x
                 |x|x|x|x|x|x|x|x|x|x y|x y];
    cbn [Client.stepB Client.env Client.mem Client.cin]; intros Hs.
  - (* NewEmpty *)
    case_bool_decide; [|done]. apply (Hdecl _ _ _ Hs). lia.
  - (* NewLeaf *)
    case_bool_decide; [|done].
    change (BinTree.mkLeaf v) with (BinTree.mkNode None v None) in Hs.
    destruct (BinTree.mkNode None v None h) as [r h1] eqn:E.
    destruct (mkNode_grown _ _ _ _ _ _ E) as (_ & Hb & _).
    apply (Hdecl _ _ _ Hs). rewrite Hb, Pos2Nat.inj_succ. lia.
  - (* NewNode *)
    case_bool_decide; [|done].
    destruct (e !! l) as [tl|]; [|done]. destruct (e !! r) as [tr|]; [|done].
    destruct (BinTree.mkNode tl v tr h) as [r0 h1] eqn:E.
    destruct (mkNode_grown _ _ _ _ _ _ E) as (_ & Hb & _).
    apply (Hdecl _ _ _ Hs). rewrite Hb, Pos2Nat.inj_succ. lia.
  - (* NewCopy *)
    case_bool_decide; [|done]. destruct (e !! y) as [ty|]; [|done].
    destruct (BinTree.copy ty h) as [r0 h1] eqn:E.
    destruct (copy_grown _ _ _ _ E) as (_ & Hb & _).
    apply (Hdecl _ _ _ Hs). rewrite Hb. lia.
  - (* GetLeft *)
    case_bool_decide; [|done]. destruct (e !! y) as [ty|]; [|done].
    destruct (BinTree.left ty h) as [r0 h1] eqn:E.
    destruct (left_grown _ _ _ _ E) as (o1 & [Hb _] & _).
    apply (Hdecl _ _ _ Hs). rewrite Hb. lia.
  - (* GetRight *)
    case_bool_decide; [|done]. destruct (e !! y) as [ty|]; [|done].
    destruct (BinTree.right ty h) as [r0 h1] eqn:E.
    destruct (right_grown _ _ _ _ E) as (o1 & [Hb _] & _).
    apply (Hdecl _ _ _ Hs). rewrite Hb. lia.
  - (* Assign *)
    destruct (e !! x) as [tx|]; [|done]. destruct (e !! y) as [ty|]; [|done].
    case_bool_decide.
    { injection Hs as _ Hs. apply Hsame. by rewrite Hs. }
    destruct (BinTree.assign tx ty h) as [r0 h1] eqn:E.
    destruct (assign_grown _ _ _ _ _ E) as (_ & Hb & _).
    apply (Hdecl _ _ _ Hs). rewrite Hb. lia.
  - (* EndScope *)
    destruct (e !! x) as [tx|]; [|done].
    unfold BinTree.destroy in Hs.
    destruct (BinTree.free tx h) as [r0 h1] eqn:E.
    destruct (free_grown _ _ _ _ E) as (_ & Hb & _).
    pose proof (size_delete_le e x).
    destruct r0 as [[]|x0| |]; simpl in Hs; try done; injection Hs as _ <-; simpl;
      rewrite Hb; lia.
  - (* ReadPreOrder *)
    case_bool_decide; [|done].
    unfold BinTree.fromPreOrderInput in Hs.
    destruct (BinTree.fromPreOrderInputAux (S (length input)) emptyRep input h)
      as [r0 h1] eqn:E.
    apply (Hread _ _ _ Hs).
    by apply (fromPreOrder_measure emptyRep (S (length input)) input h h1 r0).
  - (* ReadInOrder *)
    case_bool_decide; [|done].
    unfold BinTree.fromInOrderInput in Hs.
    destruct (BinTree.fromInOrderInputAux (S (length input)) input h)
      as [r0 h1] eqn:E.
    apply (Hread _ _ _ Hs).
    by apply (fromInOrder_measure (S (length input)) input h h1 r0).
  - destruct (e !! x) as [tx|]; [|done]. by apply (Hobs _ _ _ Hs).
  - destruct (e !! x) as [tx|]; [|done]. by apply (Hobs _ _ _ Hs).
  - destruct (e !! x) as [tx|]; [|done]. by apply (Hobs _ _ _ Hs).
  - destruct (e !! x) as [tx|]; [|done]. by apply (Hobs _ _ _ Hs).
  - destruct (e !! x) as [tx|]; [|done]. by apply (Hobs _ _ _ Hs).
  - destruct (e !! x) as [tx|]; [|done]. by apply (Hobs _ _ _ Hs).
  - destruct (e !! x) as [tx|]; [|done]. by apply (Hobs _ _ _ Hs).
  - destruct (e !! x) as [tx|]; [|done]. by apply (Hobs _ _ _ Hs).
  - destruct (e !! x) as [tx|]; [|done]. by apply (Hobs _ _ _ Hs).
  - destruct (e !! x) as [tx|]; [|done]. destruct (e !! y) as [ty|]; [|done].
    by apply (Hobs _ _ _ Hs).
  - destruct (e !! x) as [tx|]; [|done]. destruct (e !! y) as [ty|]; [|done].
    by apply (Hobs _ _ _ Hs).
Qed.

(** ** Along a run no count passes [INT_MAX] *)

Lemma trace_bounded (prog : list (Client.cmd T)) :
  forall (sB : Client.state T Node) (sS : Client.state T (BinTreeSmart.Node T))
         (k m : nat),
  Client.sim sB sS ->
  (size (Client.env sB) <= k)%nat ->
  (Pos.to_nat (Mem.brk (Client.mem sB)) + length (Client.cin sB) <= m)%nat ->
  Z.of_nat k + Z.of_nat (length prog) + 2 * (Z.of_nat m + Z.of_nat (length prog) - 1)
    <= INT_MAX ->
  Forall (fun s => RefCount.bounded (Client.mem s) INT_MAX)
         (Client.trace Client.stepB prog sB).
Proof.
  induction prog as [|c prog IH]; intros sB sS k m Hsim Hk Hm Hmax; [constructor|].
  cbn [Client.trace]. pose proof (step_sim c sB sS Hsim) as [_ Hnext].
  destruct (Client.stepB c sB) as [o [sB'|]] eqn:E; [|constructor].
  destruct (Client.stepS c sS) as [o' [sS'|]]; [|done]. simpl in Hnext.
  destruct (stepB_measure c sB sB' o E) as [Hk' Hm'].
  cbn [length] in Hmax. constructor.
  - destruct Hnext as (_ & _ & _ & Hwf). intros p n Hp.
    pose proof (wf_count_le _ _ p n Hwf Hp) as Hle.
    pose proof (roots_length (Client.env sB')).
    pose proof (positive_nat_Z (Mem.brk (Client.mem sB'))). lia.
  - apply (IH sB' sS' (S k) (S m) Hnext); [lia | lia | lia].
Qed.
End ClientBounds.

(** * The claims about the two tree variants and the linear containers *)

(** A client program run against the manual variant: it reads a tree,
    takes its left child, lets the tree go out of scope, and goes on using
    the child. *)
Example client_run_example :
  Client.runB
    [Client.ReadPreOrder 0%nat "X"; Client.GetLeft 1%nat 0%nat; Client.EndScope 0%nat;
     Client.Elem 1%nat; Client.InOrder 1%nat; Client.NodeCount 1%nat;
     Client.NewLeaf 2%nat "4"; Client.NewEmpty 3%nat; Client.NewNode 4%nat 2%nat "2" 3%nat;
     Client.Equal 1%nat 4%nat; Client.GetLeft 5%nat 3%nat]%string
    [Val "1"; Val "2"; Val "4"; Val "X"; Val "X"; Val "X"; Val "3"; Val "X"; Val "X"]%string
  = [Client.Done (Return tt); Client.Done (Return tt); Client.Done (Return tt);
     Client.GotElem (Return "2"); Client.GotList (Return ["4"; "2"]);
     Client.GotNumber (Return 2);
     Client.Done (Return tt); Client.Done (Return tt); Client.Done (Return tt);
     Client.GotBool (Return true); Client.Done (Throw EmptyTreeException)]%string.
Proof. vm_compute. reflexivity. Qed.

(** C4: BinTreeSmart behaves as BinTree does.  Take a program of [n]
    operations of the client language (constructors, copies, left and
    right, assignment, end of scope, the two input builders, and the
    observers elem, empty, the four traversals, nodeCount, depth,
    leafCount, == and !=) and an input of [m] tokens with
    [3 * n + 2 * m <= INT_MAX].  The program yields the same list of
    observations when run against the shared_ptr variant as when run
    against the variant with manual counts; and in the store left by each
    operation of the run against the manual variant, every reference
    count is at or below [INT_MAX], the counter [int _refs] holding it
    without overflow: a count is the number of handles and links that
    reach the node, an operation declares at most one handle, and creates
    at most one node unless it reads tokens, when it creates at most one
    node per token. *)
Theorem C4_smart_variant_same_observations {T : Type} `{EqDecision T} `{Inhabited T}
    (prog : list (Client.cmd T)) (input : list (token T)) :
  3 * Z.of_nat (length prog) + 2 * Z.of_nat (length input) <= INT_MAX ->
  Client.runB prog input = Client.runS prog input /\
  Forall (fun s => RefCount.bounded (Client.mem s) INT_MAX)
         (Client.statesB prog input).
Proof.
  intros Hsmall. split.
  - unfold Client.runB, Client.runS. apply run_sim, sim_init.
  - unfold Client.statesB.
    apply (trace_bounded prog _ _ 0 (S (length input)) (sim_init input)).
    + simpl. rewrite map_size_empty. lia.
    + simpl. lia.
    + lia.
Qed.

Lemma C4_smart_variant_same_observations_witness :
  let prog := [Client.ReadPreOrder 0%nat 0; Client.GetLeft 1%nat 0%nat;
               Client.NewCopy 2%nat 1%nat; Client.EndScope 0%nat;
               Client.InOrder 1%nat; Client.Equal 1%nat 2%nat] in
  let input := [Val 1; Val 2; Val 0; Val 0; Val 0] in
  Client.runB prog input = Client.runS prog input /\
  Forall (fun s => RefCount.bounded (Client.mem s) INT_MAX)
         (Client.statesB prog input).
Proof.
  intros prog input.
  apply (C4_smart_variant_same_observations (T := Z) prog input).
  vm_compute. discriminate.
Defined.

(** C10: on the empty tree the four traversals return the empty sequence
    and the three counters return 0, whatever the store holds; none of them
    raises.  Only elem, left and right raise EmptyTreeException there. *)
Theorem C10_empty_tree_observers_total {T : Type} `{EqDecision T} `{Inhabited T}
    (h : Mem.heap (BinTree.Node T)) :
  BinTree.empty (BinTree.mkEmpty) = true /\
  BinTree.preOrder BinTree.mkEmpty h = Return [] /\
  BinTree.inOrder BinTree.mkEmpty h = Return [] /\
  BinTree.postOrder BinTree.mkEmpty h = Return [] /\
  BinTree.levels BinTree.mkEmpty h = Return [] /\
  BinTree.nodeCount BinTree.mkEmpty h = Return 0 /\
  BinTree.depth BinTree.mkEmpty h = Return 0 /\
  BinTree.leafCount BinTree.mkEmpty h = Return 0 /\
  BinTree.elem BinTree.mkEmpty h = Throw EmptyTreeException /\
  BinTree.left BinTree.mkEmpty h = (Throw EmptyTreeException, h) /\
  BinTree.right BinTree.mkEmpty h = (Throw EmptyTreeException, h).
Proof.
  unfold BinTree.preOrder, BinTree.inOrder, BinTree.postOrder, BinTree.levels,
    BinTree.nodeCount, BinTree.depth, BinTree.leafCount, BinTree.mkEmpty.
  destruct (BinTree.depth_fuel h); cbn; tauto.
Qed.

(** C5: a partial operation on an empty container raises the
    empty-structure exception of that container and leaves every field as
    it was: top and pop on a Stack, front and pop_front on a Queue, front,
    back, pop_front and pop_back on a List, elem, left and right on a
    BinTree (whose nodes live in the store [h]).  The observers are const
    and yield an outcome only; the mutators yield the container they were
    given. *)
Theorem C5_empty_access_raises_and_keeps_state {T : Type} `{EqDecision T} `{Inhabited T}
    (s : Stack.t T) (q : Queue.t T) (l : DList.t T)
    (tr : BinTree.t) (h : Mem.heap (BinTree.Node T)) :
  Stack.empty s = true -> Queue.empty q = true -> DList.empty l = true ->
  BinTree.empty tr = true ->
  (Stack.top s = Throw EmptyStackException /\
   Stack.pop s = (Throw EmptyStackException, s)) /\
  (Queue.front q = Throw EmptyQueueException /\
   Queue.pop_front q = (Throw EmptyQueueException, q)) /\
  (DList.front l = Throw EmptyListException /\
   DList.back l = Throw EmptyListException /\
   DList.pop_front l = (Throw EmptyListException, l) /\
   DList.pop_back l = (Throw EmptyListException, l)) /\
  (BinTree.elem tr h = Throw EmptyTreeException /\
   BinTree.left tr h = (Throw EmptyTreeException, h) /\
   BinTree.right tr h = (Throw EmptyTreeException, h)).
Proof.
  intros Hs Hq Hl Ht.
  unfold Stack.top, Stack.pop, Queue.front, Queue.pop_front, DList.front, DList.back,
    DList.pop_front, DList.pop_back, BinTree.elem, BinTree.left, BinTree.right.
  rewrite Hs, Hq, Hl, Ht. tauto.
Qed.

Lemma C5_empty_access_raises_and_keeps_state_witness :
  (Stack.top (Stack.init (T := Z)) = Throw EmptyStackException /\
   Stack.pop (Stack.init (T := Z)) = (Throw EmptyStackException, Stack.init)) /\
  (Queue.front (Queue.init (T := Z)) = Throw EmptyQueueException /\
   Queue.pop_front (Queue.init (T := Z)) = (Throw EmptyQueueException, Queue.init)) /\
  (DList.front (DList.init (T := Z)) = Throw EmptyListException /\
   DList.back (DList.init (T := Z)) = Throw EmptyListException /\
   DList.pop_front (DList.init (T := Z)) = (Throw EmptyListException, DList.init) /\
   DList.pop_back (DList.init (T := Z)) = (Throw EmptyListException, DList.init)) /\
  (BinTree.elem (T := Z) BinTree.mkEmpty Mem.empty = Throw EmptyTreeException /\
   BinTree.left (T := Z) BinTree.mkEmpty Mem.empty = (Throw EmptyTreeException, Mem.empty) /\
   BinTree.right (T := Z) BinTree.mkEmpty Mem.empty = (Throw EmptyTreeException, Mem.empty)).
Proof.
  apply (C5_empty_access_raises_and_keeps_state (T := Z)
           Stack.init Queue.init DList.init BinTree.mkEmpty Mem.empty);
    reflexivity.
Defined.

(** C9: the tree read from the tokens 1 2 X X 3 X X with X for the empty
    tree: the builder returns with all seven tokens consumed, and on the
    tree it returns nodeCount is 3, depth is 2, leafCount is 2 and inOrder
    lists 2, 1, 3. *)
Theorem C9_pre_order_example :
  let input := [Val "1"; Val "2"; Val "X"; Val "X"; Val "3"; Val "X"; Val "X"]%string in
  exists (tr : BinTree.t) (h : Mem.heap (BinTree.Node string)),
    BinTree.fromPreOrderInput "X"%string input Mem.empty = (Return (tr, []), h) /\
    BinTree.nodeCount tr h = Return 3 /\
    BinTree.depth tr h = Return 2 /\
    BinTree.leafCount tr h = Return 2 /\
    BinTree.inOrder tr h = Return ["2"; "1"; "3"]%string.
Proof.
  eexists _, _. split; [vm_compute; reflexivity|].
  repeat split; vm_compute; reflexivity.
Qed.

(** C6: [==] decides structural equality.  For two handles into a store
    that satisfies the reference-count invariant, denoting the tree values
    [t1] and [t2]: the comparison returns, and returns true exactly when
    [t1 = t2]; it returns true iff both handles are empty, or both are
    non-empty with equal root elements and left and right subtrees that
    compare equal; a handle is equal to itself; handles of structurally
    identical trees are equal whether or not they share nodes; and if [t2]
    is [t1] with the element at one position changed to a different one,
    the comparison returns false. *)
Theorem C6_equality_is_structural {T : Type} `{EqDecision T} `{Inhabited T}
    (h : Mem.heap (BinTree.Node T)) (R : list positive) (r1 r2 : BinTree.t)
    (t1 t2 : Tree.tree T) :
  RefCount.wf h R -> RefCount.denotes h r1 t1 -> RefCount.denotes h r2 t2 ->
  BinTree.eq r1 r2 h = Return (bool_decide (t1 = t2)) /\
  (BinTree.eq r1 r2 h = Return true <->
     (BinTree.empty r1 = true /\ BinTree.empty r2 = true) \/
     (exists p1 p2 n1 n2,
        r1 = Some p1 /\ r2 = Some p2 /\
        Mem.read p1 h = Some n1 /\ Mem.read p2 h = Some n2 /\
        BinTree._elem n1 = BinTree._elem n2 /\
        BinTree.eq (BinTree._left n1) (BinTree._left n2) h = Return true /\
        BinTree.eq (BinTree._right n1) (BinTree._right n2) h = Return true)) /\
  BinTree.eq r1 r1 h = Return true /\
  (t1 = t2 -> BinTree.eq r1 r2 h = Return true) /\
  (forall path x, Tree.replace_at path x t1 = Some t2 ->
                  Tree.elem_at path t1 <> Some x ->
                  BinTree.eq r1 r2 h = Return false).
Proof.
  intros Hwf H1 H2.
  pose proof (eq_denotes h R r1 r2 t1 t2 Hwf H1 H2) as Heq.
  split; [exact Heq|]. split; [|split; [|split]].
  - rewrite Heq. split.
    + intros Ht%return_inj%bool_decide_eq_true. subst t2.
      destruct r1 as [p1|], r2 as [p2|].
      * right.
        destruct (denotes_fork_inv h p1 t1 H1) as (n1 & l1 & x1 & Hp1 & -> & Hl1 & Hr1).
        destruct (denotes_fork_inv h p2 _ H2) as (n2 & l2 & x2 & Hp2 & Hf & Hl2 & Hr2).
        injection Hf as -> He ->.
        exists p1, p2, n1, n2. repeat (split; [done|]).
        rewrite (eq_denotes h R _ _ l2 l2 Hwf Hl1 Hl2).
        rewrite (eq_denotes h R _ _ x2 x2 Hwf Hr1 Hr2).
        by rewrite !bool_decide_eq_true_2.
      * apply denotes_null_inv in H2. subst t1.
        by destruct (denotes_fork_inv h p1 _ H1) as (? & ? & ? & _ & ? & _).
      * apply denotes_null_inv in H1. subst t1.
        by destruct (denotes_fork_inv h p2 _ H2) as (? & ? & ? & _ & ? & _).
      * by left.
    + intros [[He1 He2]|(p1 & p2 & n1 & n2 & -> & -> & Hp1 & Hp2 & He & Hl & Hr)].
      * destruct r1, r2; try done.
        apply denotes_null_inv in H1, H2. subst. by rewrite bool_decide_eq_true_2.
      * destruct (denotes_fork_inv h p1 t1 H1) as (n1' & l1 & x1 & Hp1' & -> & Hl1 & Hr1).
        destruct (denotes_fork_inv h p2 t2 H2) as (n2' & l2 & x2 & Hp2' & -> & Hl2 & Hr2).
        rewrite Hp1 in Hp1'. rewrite Hp2 in Hp2'.
        injection Hp1' as <-. injection Hp2' as <-.
        rewrite (eq_denotes h R _ _ l1 l2 Hwf Hl1 Hl2) in Hl.
        rewrite (eq_denotes h R _ _ x1 x2 Hwf Hr1 Hr2) in Hr.
        apply return_inj, bool_decide_eq_true in Hl, Hr. subst.
        rewrite He. by rewrite bool_decide_eq_true_2.
  - rewrite (eq_denotes h R r1 r1 t1 t1 Hwf H1 H1). by rewrite bool_decide_eq_true_2.
  - intros ->. rewrite Heq. by rewrite bool_decide_eq_true_2.
  - intros path x Hr Hx. rewrite Heq.
    rewrite bool_decide_eq_false_2; [done|]. by apply (replace_at_differs path x).
Qed.

Lemma C6_equality_is_structural_witness :
  let h : Mem.heap (BinTree.Node Z) :=
    (BinTree.mkNode None 7 None (BinTree.mkNode None 7 None Mem.empty).2).2 in
  BinTree.eq (Some 2%positive) (Some 1%positive) h = Return true /\
  BinTree.eq (Some 2%positive) (Some 2%positive) h = Return true.
Proof.
  intros h.
  assert (RefCount.wf h [2; 1]%positive) as Hwf.
  { apply (wf_mkNode_run (BinTree.mkNode None 7 None Mem.empty).2 [1%positive]
             None None 7).
    - apply (wf_mkNode_run Mem.empty [] None None 7 wf_empty).
      by intros q [?|?].
    - by intros q [?|?]. }
  assert (RefCount.denotes h (Some 2%positive) (Tree.Fork Tree.Leaf 7 Tree.Leaf)) as H2.
  { apply (RefCount.denotes_node h 2%positive (BinTree.MkNode 7 None None 1));
      [reflexivity | constructor | constructor]. }
  assert (RefCount.denotes h (Some 1%positive) (Tree.Fork Tree.Leaf 7 Tree.Leaf)) as H1.
  { apply (RefCount.denotes_node h 1%positive (BinTree.MkNode 7 None None 1));
      [reflexivity | constructor | constructor]. }
  destruct (C6_equality_is_structural h [2; 1]%positive (Some 2%positive)
              (Some 1%positive) _ _ Hwf H2 H1) as (_ & _ & Hrefl & Hsame & _).
  split; [exact (Hsame eq_refl) | exact Hrefl].
Defined.

(** C3: the pre-order round trip.  [tr] is a live handle of a store that
    satisfies the reference-count invariant, and denotes the tree [t], in
    which the sentinel [emptyRep] is not an element.  The n elements of the
    tree are those [preOrder] lists.  The pre-order tokens of [t] with the
    sentinel for every empty subtree are 2*n+1 tokens; from an input that
    starts with them [fromPreOrderInput] returns, leaving exactly the input
    that follows them, a tree that denotes [t] and that [==] finds equal
    to [tr]. *)
Theorem C3_pre_order_round_trip {T : Type} `{EqDecision T} `{Inhabited T}
    (emptyRep : T) (h : Mem.heap (BinTree.Node T)) (R : list positive)
    (tr : BinTree.t) (t : Tree.tree T) (rest : list (token T)) :
  RefCount.wf h R -> (forall q, tr = Some q -> q ∈ R) ->
  RefCount.denotes h tr t -> emptyRep ∉ Tree.preorder t ->
  exists (elems : list T) (tr' : BinTree.t) (h' : Mem.heap (BinTree.Node T)),
    BinTree.preOrder tr h = Return elems /\
    length (Tree.serialize emptyRep t) = (2 * length elems + 1)%nat /\
    BinTree.fromPreOrderInput emptyRep (Tree.serialize emptyRep t ++ rest) h
      = (Return (tr', rest), h') /\
    RefCount.denotes h' tr' t /\
    BinTree.eq tr tr' h' = Return true.
Proof.
  intros Hwf Hin Hden Hno.
  destruct (fromPreOrder_serialize emptyRep t
              (S (length (Tree.serialize emptyRep t ++ rest))) h R rest Hwf Hno)
    as (tr' & h' & Hrun & Hwf' & Hden' & Hkeep).
  { rewrite length_app, serialize_length. pose proof (height_le_size t). lia. }
  exists (Tree.preorder t), tr', h'. split; [|split; [|split; [|split]]].
  - unfold BinTree.preOrder.
    rewrite (preOrderAux_denotes h tr t Hden _ []); [done|].
    by apply (wf_denotes_height h R tr).
  - by rewrite serialize_length, preorder_length.
  - exact Hrun.
  - exact Hden'.
  - rewrite (eq_denotes h' _ tr tr' t t Hwf' (Hkeep tr t Hin Hden) Hden').
    by rewrite bool_decide_eq_true_2.
Qed.

Lemma C3_pre_order_round_trip_witness :
  let h : Mem.heap (BinTree.Node Z) := (BinTree.mkNode None 5 None Mem.empty).2 in
  exists (elems : list Z) (tr' : BinTree.t) (h' : Mem.heap (BinTree.Node Z)),
    BinTree.preOrder (Some 1%positive) h = Return elems /\
    length (Tree.serialize 0 (Tree.Fork Tree.Leaf 5 Tree.Leaf))
      = (2 * length elems + 1)%nat /\
    BinTree.fromPreOrderInput 0
      (Tree.serialize 0 (Tree.Fork Tree.Leaf 5 Tree.Leaf) ++ [Val 9]) h
      = (Return (tr', [Val 9]), h') /\
    RefCount.denotes h' tr' (Tree.Fork Tree.Leaf 5 Tree.Leaf) /\
    BinTree.eq (Some 1%positive) tr' h' = Return true.
Proof.
  intros h.
  apply (C3_pre_order_round_trip 0 h [1%positive] (Some 1%positive)
           (Tree.Fork Tree.Leaf 5 Tree.Leaf) [Val 9]).
  - apply (wf_mkNode_run Mem.empty [] None None 5 wf_empty). by intros q [?|?].
  - intros q [= <-]. by apply list_elem_of_singleton.
  - apply (RefCount.denotes_node h 1%positive (BinTree.MkNode 5 None None 1));
      [reflexivity | constructor | constructor].
  - cbn. intros Hin. apply list_elem_of_singleton in Hin. lia.
Defined.

(** C1: the counts of the manual variant.  In a store that satisfies the
    reference-count invariant (every count is the number of handles and
    links that reach the node, and no node has count zero) and whose
    counts are all below [INT_MAX], let [p] be the root of a live handle
    t1.
    - Every new handle raises the count of its root by one, leaves every
      other count as it was, and the invariant holds with the new handle:
      a copy of t1 does so for [p], t1.left() for the left child of [p]
      and t1.right() for its right child.  No count passes [INT_MAX].
    - Releasing the handle (the destructor) returns and the invariant holds
      for the remaining handles, so every node that is left has a positive
      count that matches its references; the count of [p] goes down by one
      if other references remain, and [p] is reclaimed exactly when the
      handle was its last reference.
      No node with count zero is left, no node appears, no count is
      raised, and a node that neither a remaining handle nor a remaining
      node references is gone: the descendants go with [p] as their counts
      reach zero.
    - When the left child of [p] is a node [q]: after t2 = t1.left() and
      the destruction of t1, the node [q] is still there with the count
      raised for t2 in place, t2.elem() returns the element that [q] had
      before, and t2.left() and t2.right() return the subtrees that [q]
      had before, each as a new handle that the invariant counts, with
      every count at or below [INT_MAX]. *)
Theorem C1_reference_counts_govern_lifetime {T : Type} `{EqDecision T} `{Inhabited T}
    (h : Mem.heap (BinTree.Node T)) (R : list positive) (p : positive)
    (n : BinTree.Node T) :
  RefCount.wf h (p :: R) -> Mem.read p h = Some n ->
  RefCount.bounded h (INT_MAX - 1) ->
  (exists h1,
     BinTree.copy (Some p) h = (Return (Some p), h1) /\
     Mem.read p h1 = Some (BinTree.with_refs n (BinTree._refs n + 1)) /\
     (forall c, c <> p -> Mem.read c h1 = Mem.read c h) /\
     RefCount.wf h1 (p :: p :: R) /\
     RefCount.bounded h1 INT_MAX) /\
  (forall q nq, BinTree._left n = Some q -> Mem.read q h = Some nq ->
     exists h1,
       BinTree.left (Some p) h = (Return (Some q), h1) /\
       Mem.read q h1 = Some (BinTree.with_refs nq (BinTree._refs nq + 1)) /\
       (forall c, c <> q -> Mem.read c h1 = Mem.read c h) /\
       RefCount.wf h1 (q :: p :: R) /\
       RefCount.bounded h1 INT_MAX) /\
  (forall q nq, BinTree._right n = Some q -> Mem.read q h = Some nq ->
     exists h1,
       BinTree.right (Some p) h = (Return (Some q), h1) /\
       Mem.read q h1 = Some (BinTree.with_refs nq (BinTree._refs nq + 1)) /\
       (forall c, c <> q -> Mem.read c h1 = Mem.read c h) /\
       RefCount.wf h1 (q :: p :: R) /\
       RefCount.bounded h1 INT_MAX) /\
  (exists h1,
     BinTree.destroy (Some p) h = (Return tt, h1) /\
     RefCount.wf h1 R /\
     (1 < BinTree._refs n ->
        Mem.read p h1 = Some (BinTree.with_refs n (BinTree._refs n - 1))) /\
     (BinTree._refs n = 1 <-> Mem.read p h1 = None) /\
     (forall c nc, Mem.read c h1 = Some nc ->
        0 < BinTree._refs nc /\
        exists nc0, Mem.read c h = Some nc0 /\ BinTree._refs nc <= BinTree._refs nc0) /\
     (forall c, c ∉ R ->
        (forall d nd, Mem.read d h1 = Some nd ->
           BinTree._left nd <> Some c /\ BinTree._right nd <> Some c) ->
        Mem.read c h1 = None)) /\
  (forall q, BinTree._left n = Some q ->
   exists l e r nq h1 h2 l' r' h3 h4,
     RefCount.denotes h (Some q) (Tree.Fork l e r) /\
     Mem.read q h = Some nq /\
     BinTree.left (Some p) h = (Return (Some q), h1) /\
     Mem.read q h1 = Some (BinTree.with_refs nq (BinTree._refs nq + 1)) /\
     BinTree.destroy (Some p) h1 = (Return tt, h2) /\
     RefCount.wf h2 (q :: R) /\
     BinTree.elem (Some q) h2 = Return e /\
     BinTree.left (Some q) h2 = (Return l', h3) /\ RefCount.denotes h3 l' l /\
     RefCount.wf h3 (RefCount.root_of l' ++ q :: R) /\
     BinTree.right (Some q) h2 = (Return r', h4) /\ RefCount.denotes h4 r' r /\
     RefCount.wf h4 (RefCount.root_of r' ++ q :: R) /\
     RefCount.bounded h2 INT_MAX /\ RefCount.bounded h3 INT_MAX /\
     RefCount.bounded h4 INT_MAX).
Proof.
  intros Hwf Hp Hbound. pose proof Hwf as [Hc Hpos]. pose proof (Hpos p n Hp) as Hn.
  assert (Hone : forall (o : option positive) (g g' : Mem.heap (BinTree.Node T)) b,
            RefCount.grown (fun q => RefCount.points_to q o) g g' ->
            RefCount.bounded g b -> RefCount.bounded g' (b + 1)).
  { intros o g g' b Hg Hb. apply (grown_bounded _ g g' b 1 Hg); [|done].
    intros q. apply points_to_le_1. }
  assert (Hmax : INT_MAX - 1 + 1 = INT_MAX) by lia.
  (* a new handle on the node [c] through [copy], [left] or [right] *)
  assert (Hnew : forall (c : positive) (nc : BinTree.Node T) (h1 : Mem.heap (BinTree.Node T)),
            Mem.read c h = Some nc ->
            BinTree.copy (Some c) h = (Return (Some c), h1) ->
            Mem.read c h1 = Some (BinTree.with_refs nc (BinTree._refs nc + 1)) /\
            (forall d, d <> c -> Mem.read d h1 = Mem.read d h) /\
            RefCount.bounded h1 INT_MAX).
  { intros c nc h1 Hc0 Hcp. pose proof (Hpos c nc Hc0).
    destruct (copy_grown (Some c) h h1 _ Hcp) as [_ Hg].
    unfold BinTree.copy in Hcp. rewrite sbind_eq in Hcp. cbn [BinTree.addRef_opt] in Hcp.
    rewrite (addRef_counted h c nc Hc0) in Hcp by lia.
    injection Hcp as <-. split; [apply read_write_eq|]. split.
    - intros d Hd. by rewrite read_write_ne.
    - rewrite <- Hmax. by apply (Hone (Some c) h). }
  split; [|split; [|split; [|split]]].
  - destruct (wf_copy h (p :: R) (Some p) Hwf) as (h1 & Hcp & Hwf1 & _).
    { intros ? [= <-]. by rewrite Hp. }
    destruct (Hnew p n h1 Hp Hcp) as (Hp1 & Hoth & Hb1).
    exists h1. split; [done|]. split; [done|]. split; [done|]. split; [exact Hwf1 | done].
  - intros q nq Hq Hnq.
    destruct (wf_left h (p :: R) p n Hwf Hp) as (h1 & Hleft & Hwf1 & _).
    rewrite Hq in Hleft, Hwf1. exists h1. split; [done|].
    unfold BinTree.left in Hleft. cbn [BinTree.empty] in Hleft. rewrite Hp, Hq in Hleft.
    destruct (Hnew q nq h1 Hnq Hleft) as (Hq1 & Hoth & Hb1).
    split; [done|]. split; [done|]. split; [exact Hwf1 | done].
  - intros q nq Hq Hnq.
    destruct (wf_right h (p :: R) p n Hwf Hp) as (h1 & Hright & Hwf1 & _).
    rewrite Hq in Hright, Hwf1. exists h1. split; [done|].
    unfold BinTree.right in Hright. cbn [BinTree.empty] in Hright.
    rewrite Hp, Hq in Hright.
    destruct (Hnew q nq h1 Hnq Hright) as (Hq1 & Hoth & Hb1).
    split; [done|]. split; [done|]. split; [exact Hwf1 | done].
  - destruct (free_root_spec h R p n Hwf Hp) as (h1 & Hf & Hwf1 & Hsub & Hmany & Hlast).
    destruct (free_grown (Some p) h h1 _ Hf) as [_ [_ Hlow]].
    exists h1. split; [done|]. split; [done|]. split; [done|]. split; [done|]. split.
    + intros c nc Hc1. split; [by apply (RefCount.wf_counted _ _ Hwf1 c)|].
      destruct (Hlow c nc Hc1) as (nc0 & Hc0 & Hle). exists nc0. split; [done | lia].
    + intros c HcR Hno. by apply (wf_unreferenced h1 R c Hwf1).
  - intros q Hq.
    destruct (RefCount.cons_links _ _ Hc p n q Hp Hn (or_introl Hq)) as [_ [nq Hnq]].
    destruct (wf_denotes h (p :: R) (Some q) Hwf) as (tq & Hdq & _).
    { intros ? [= <-]. by rewrite Hnq. }
    destruct (denotes_fork_inv h q tq Hdq) as (nq' & l & r & Hnq' & -> & _ & _).
    rewrite Hnq in Hnq'. injection Hnq' as <-.
    destruct (wf_left h (p :: R) p n Hwf Hp) as (h1 & Hleft & Hwf1 & Hra).
    rewrite Hq in Hleft, Hwf1.
    change (RefCount.root_of (Some q) ++ p :: R) with (q :: p :: R) in Hwf1.
    apply (wf_perm h1 _ (p :: q :: R) (Permutation_swap _ _ _)) in Hwf1.
    destruct (proj1 Hra p n Hp) as (n1 & Hp1 & _).
    destruct (free_root_spec h1 (q :: R) p n1 Hwf1 Hp1) as (h2 & Hf & Hwf2 & Hsub & _).
    pose proof (raised_sub h h1 Hra) as [Hsub1 _].
    pose proof (denotes_sub h h1 _ _ Hsub1 Hdq) as Hdq1.
    assert (RefCount.denotes h2 (Some q) (Tree.Fork l (BinTree._elem nq) r)) as Hdq2.
    { apply (wf_free_keeps h1 h2 (q :: R) (Some q) _ Hwf2 Hsub); [|done].
      intros ? [= <-]. by left. }
    destruct (denotes_fork_inv h2 q _ Hdq2) as (nq2 & l2 & r2 & Hnq2 & Hf2 & Hl2 & Hr2).
    injection Hf2 as <- He <-.
    destruct (wf_left h2 (q :: R) q nq2 Hwf2 Hnq2) as (h3 & Hleft2 & Hwf3 & Hra3).
    destruct (wf_right h2 (q :: R) q nq2 Hwf2 Hnq2) as (h4 & Hright2 & Hwf4 & Hra4).
    (* the counts: [q] is raised once, then one child of [q] once *)
    destruct (left_grown _ h h1 _ Hleft) as (o1 & Hg1 & Ho1).
    rewrite (Ho1 p n eq_refl Hp), Hq in Hg1.
    destruct (free_grown (Some p) h1 h2 _ Hf) as [_ Hg2].
    pose proof (grown_trans _ _ h h1 h2 Hg1 Hg2) as Hg02. cbn beta in Hg02.
    assert (Hchild : forall (o : option positive) (g : Mem.heap (BinTree.Node T)),
              BinTree._left nq2 = o \/ BinTree._right nq2 = o ->
              RefCount.grown (fun x => RefCount.points_to x o) h2 g ->
              RefCount.bounded g INT_MAX).
    { intros o g Ho Hg. pose proof (grown_trans _ _ h h2 g Hg02 Hg) as Hg0. cbn beta in Hg0.
      rewrite <- Hmax. apply (grown_bounded _ h g _ 1 Hg0); [|done].
      intros x. unfold RefCount.points_to.
      repeat case_bool_decide; try lia. subst o.
      assert (BinTree._left nq2 = Some q \/ BinTree._right nq2 = Some q) as Hself
        by (destruct Ho as [->| ->]; [left | right]; congruence).
      destruct (RefCount.cons_links _ _ (RefCount.wf_consistent _ _ Hwf2) q nq2 q Hnq2
                  (RefCount.wf_counted _ _ Hwf2 q nq2 Hnq2) Hself) as [Hlt _].
      lia. }
    destruct (left_grown _ h2 h3 _ Hleft2) as (o3 & Hg3 & Ho3).
    rewrite (Ho3 q nq2 eq_refl Hnq2) in Hg3.
    destruct (right_grown _ h2 h4 _ Hright2) as (o4 & Hg4 & Ho4).
    rewrite (Ho4 q nq2 eq_refl Hnq2) in Hg4.
    exists l, (BinTree._elem nq), r, nq, h1, h2,
      (BinTree._left nq2), (BinTree._right nq2), h3, h4.
    split; [done|]. split; [done|]. split; [done|]. split.
    { unfold BinTree.left in Hleft. cbn [BinTree.empty] in Hleft. rewrite Hp, Hq in Hleft.
      by destruct (Hnew q nq h1 Hnq Hleft) as (Hq1 & _). }
    split; [done|]. split; [done|]. split.
    { by rewrite (elem_denotes h2 (Some q) _ Hdq2). }
    split; [done|]. split.
    { apply (denotes_sub h2 h3); [|done]. apply (raised_sub h2 h3 Hra3). }
    split; [done|]. split; [done|]. split.
    { apply (denotes_sub h2 h4); [|done]. apply (raised_sub h2 h4 Hra4). }
    split; [done|]. split; [|split].
    + rewrite <- Hmax. apply (grown_bounded _ h h2 _ 1 Hg02); [|done].
      intros x. pose proof (points_to_le_1 x (Some q)). lia.
    + apply (Hchild (BinTree._left nq2)); [by left | done].
    + apply (Hchild (BinTree._right nq2)); [by right | done].
Qed.

Lemma C1_reference_counts_govern_lifetime_witness :
  let h0 : Mem.heap (BinTree.Node Z) := (BinTree.mkNode None 2 None Mem.empty).2 in
  let h1 := (BinTree.mkNode (Some 1%positive) 1 None h0).2 in
  let h := (BinTree.free (Some 1%positive) h1).2 in
  (exists h',
     BinTree.copy (Some 2%positive) h = (Return (Some 2%positive), h') /\
     Mem.read 2%positive h' = Some (BinTree.MkNode 1 (Some 1%positive) None 2) /\
     (forall c, c <> 2%positive -> Mem.read c h' = Mem.read c h) /\
     RefCount.wf h' [2; 2]%positive /\
     RefCount.bounded h' INT_MAX) /\
  (exists h',
     BinTree.left (Some 2%positive) h = (Return (Some 1%positive), h') /\
     Mem.read 1%positive h' = Some (BinTree.MkNode 2 None None 2) /\
     (forall c, c <> 1%positive -> Mem.read c h' = Mem.read c h) /\
     RefCount.wf h' [1; 2]%positive /\
     RefCount.bounded h' INT_MAX).
Proof.
  intros h0 h1 h.
  assert (RefCount.wf h [2%positive]) as Hwf.
  { apply (wf_free_run h1 [2%positive] (Some 1%positive)).
    apply (wf_perm h1 [2; 1]%positive); [apply Permutation_swap|].
    apply (wf_mkNode_run h0 [1%positive] (Some 1%positive) None 1).
    - apply (wf_mkNode_run Mem.empty [] None None 2 wf_empty). by intros q [?|?].
    - intros q [[= <-]|?]; [|done]. by eexists. }
  assert (RefCount.bounded h (INT_MAX - 1)) as Hb.
  { apply free_bounded_run. apply (bounded_mono h1 (1 + 2 + 2)); [by vm_compute|].
    apply mkNode_bounded_run; [lia|].
    apply mkNode_bounded_run; [lia | apply bounded_empty]. }
  destruct (C1_reference_counts_govern_lifetime h [] 2%positive
              (BinTree.MkNode 1 (Some 1%positive) None 1) Hwf eq_refl Hb)
    as (Hcopy & Hleft & _).
  split; [exact Hcopy|].
  exact (Hleft 1%positive (BinTree.MkNode 2 None None 1) eq_refl eq_refl).
Defined.

(** * Further properties of the search-tree map *)
Section TreeMapModel.
Context {K V : Type}.
Variable cless : K -> K -> bool.
Hypothesis cless_irrefl : forall x, cless x x = false.
Hypothesis cless_trans :
  forall x y z, cless x y = true -> cless y z = true -> cless x z = true.
Hypothesis cless_incomparable :
  forall x y z,
    cless x y = false -> cless y x = false ->
    cless y z = false -> cless z y = false ->
    cless x z = false /\ cless z x = false.

Local Abbreviation Node := (TreeMap.Node K V).
Local Abbreviation before := (fun x y : K => cless x y = true).
Local Abbreviation ordered := (fun p : Node => StronglySorted before (TreeMap.keys p)).
Local Abbreviation same := (TreeMap.same_key cless).
Local Abbreviation value_of := (TreeMap.value_of cless).

Lemma same_key_true (x y : K) :
  same x y = true <-> cless x y = false /\ cless y x = false.
Proof.
  unfold TreeMap.same_key. destruct (cless x y), (cless y x); simpl; intuition congruence.
Qed.

Lemma same_key_false_l (x y : K) : cless x y = true -> same x y = false.
Proof. unfold TreeMap.same_key. by intros ->. Qed.

Lemma same_key_false_r (x y : K) : cless y x = true -> same x y = false.
Proof. unfold TreeMap.same_key. intros ->. by destruct (cless x y). Qed.

Lemma same_key_before (x y z : K) :
  same x y = true -> cless x z = cless y z.
Proof using cless_trans cless_incomparable.
  intros [Hxy Hyx]%same_key_true.
  destruct (cless x z) eqn:Hxz.
  - symmetry. by apply (cless_equiv_l cless cless_trans cless_incomparable x y z).
  - destruct (cless y z) eqn:Hyz; [|done].
    rewrite (cless_equiv_l cless cless_trans cless_incomparable y x z) in Hxz; done.
Qed.

Lemma same_key_after (x y z : K) :
  same x y = true -> cless z x = cless z y.
Proof using cless_trans cless_incomparable.
  intros [Hxy Hyx]%same_key_true.
  destruct (cless z x) eqn:Hzx.
  - symmetry. by apply (cless_equiv_r cless cless_trans cless_incomparable x y z).
  - destruct (cless z y) eqn:Hzy; [|done].
    rewrite (cless_equiv_r cless cless_trans cless_incomparable y x z) in Hzx; done.
Qed.

Lemma same_key_same (x y z : K) : same x y = true -> same x z = same y z.
Proof using cless_trans cless_incomparable.
  intros Hxy. unfold TreeMap.same_key.
  by rewrite (same_key_before x y z Hxy), (same_key_after x y z Hxy).
Qed.

Lemma same_key_sym (x y : K) : same x y = same y x.
Proof. unfold TreeMap.same_key. by destruct (cless x y), (cless y x). Qed.

Lemma value_of_node (l : Node) (k : K) (v : V) (r : Node) (x : K) :
  value_of (TreeMap.node l k v r) x =
  if cless x k then value_of l x
  else if cless k x then value_of r x
  else Some v.
Proof.
  unfold TreeMap.value_of. simpl. by destruct (cless x k), (cless k x).
Qed.

Lemma value_of_above (p : Node) (x : K) :
  (forall y, y ∈ TreeMap.keys p -> cless x y = true) -> value_of p x = None.
Proof.
  intros Hall. unfold TreeMap.value_of.
  by rewrite (TreeMap_findAux_above cless p x Hall).
Qed.

Lemma value_of_below (p : Node) (x : K) :
  (forall y, y ∈ TreeMap.keys p -> cless y x = true) -> value_of p x = None.
Proof using cless_irrefl cless_trans.
  intros Hall. unfold TreeMap.value_of.
  by rewrite (TreeMap_findAux_below cless cless_irrefl cless_trans p x Hall).
Qed.

(** *** insert *)

Lemma value_of_insertAux (key : K) (value : V) (p : Node) (sz : Z) (x : K) :
  value_of (TreeMap.insertAux cless key value p sz).1 x =
  if same x key then
    match value_of p x with Some w => Some w | None => Some value end
  else value_of p x.
Proof using cless_trans cless_incomparable.
  induction p as [|l IHl k v r IHr].
  - cbn [TreeMap.insertAux fst]. rewrite value_of_node.
    unfold TreeMap.same_key, TreeMap.value_of. simpl.
    by destruct (cless x key), (cless key x).
  - cbn [TreeMap.insertAux]. destruct (cless key k) eqn:E1.
    + destruct (TreeMap.insertAux cless key value l sz) as [l' sz'] eqn:El.
      cbn [fst] in *. rewrite !value_of_node.
      destruct (cless x k) eqn:E2; [exact IHl|].
      assert (cless key x = true) as Hkx.
      { destruct (cless k x) eqn:E3; [by apply (cless_trans key k x)|].
        rewrite (same_key_after x k key); [done|]. by apply same_key_true. }
      by rewrite (same_key_false_r x key Hkx).
    + destruct (cless k key) eqn:E2.
      * destruct (TreeMap.insertAux cless key value r sz) as [r' sz'] eqn:Er.
        cbn [fst] in *. rewrite !value_of_node.
        assert (cless x k = true -> cless x key = true) as Hlt
          by (intros; by apply (cless_trans x k key)).
        destruct (cless x k) eqn:E3.
        { by rewrite (same_key_false_l x key (Hlt eq_refl)). }
        destruct (cless k x) eqn:E4; [exact IHr|].
        assert (cless x key = true) as Hxk.
        { rewrite (same_key_before x k key); [done|]. by apply same_key_true. }
        by rewrite (same_key_false_l x key Hxk).
      * cbn [fst]. destruct (same x key) eqn:S; [|done].
        rewrite value_of_node.
        by rewrite (same_key_before x key k S), E1, (same_key_after x key k S), E2.
Qed.

Lemma insertAux_size (key : K) (value : V) (p : Node) (sz : Z) :
  (TreeMap.insertAux cless key value p sz).2 =
  sz + Z.of_nat (length (TreeMap.keys (TreeMap.insertAux cless key value p sz).1))
     - Z.of_nat (length (TreeMap.keys p)).
Proof.
  induction p as [|l IHl k v r IHr]; [simpl; lia|].
  cbn [TreeMap.insertAux]. destruct (cless key k).
  - destruct (TreeMap.insertAux cless key value l sz) as [l' sz'].
    cbn [fst snd TreeMap.keys] in *. rewrite !length_app. simpl. lia.
  - destruct (cless k key); [|simpl; lia].
    destruct (TreeMap.insertAux cless key value r sz) as [r' sz'].
    cbn [fst snd TreeMap.keys] in *. rewrite !length_app. simpl. lia.
Qed.

(** *** bindings *)

Lemma bindings_keys (p : Node) : (TreeMap.bindings p).*1 = TreeMap.keys p.
Proof.
  induction p as [|l IHl k v r IHr]; [done|].
  simpl. by rewrite fmap_app, fmap_cons, IHl, IHr.
Qed.

Lemma bindings_key_elem (p : Node) (k : K) (v : V) :
  (k, v) ∈ TreeMap.bindings p -> k ∈ TreeMap.keys p.
Proof.
  intros Hin. rewrite <- bindings_keys. apply list_elem_of_fmap. by exists (k, v).
Qed.

Lemma value_of_bound (p : Node) (x : K) (v : V) :
  value_of p x = Some v ->
  exists k, (k, v) ∈ TreeMap.bindings p /\ same x k = true.
Proof.
  induction p as [|l IHl k w r IHr]; [done|].
  rewrite value_of_node. cbn [TreeMap.bindings].
  destruct (cless x k) eqn:E1.
  - intros (k' & Hin & Hs)%IHl. exists k'. split; [|done].
    apply elem_of_app. by left.
  - destruct (cless k x) eqn:E2.
    + intros (k' & Hin & Hs)%IHr. exists k'. split; [|done].
      apply elem_of_app. right. by right.
    + intros [= ->]. exists k. split; [|by apply same_key_true].
      apply elem_of_app. right. by left.
Qed.

Lemma bound_value_of (p : Node) (x k : K) (v : V) :
  ordered p -> (k, v) ∈ TreeMap.bindings p -> same x k = true ->
  value_of p x = Some v.
Proof using cless_irrefl cless_trans cless_incomparable.
  induction p as [|l IHl k0 w r IHr]; [by intros _ ?%elem_of_nil|].
  cbn [TreeMap.bindings TreeMap.keys]. intros Hs Hin Hsame.
  apply sorted_middle in Hs as (Hl & Hr & Hlk & Hkr & Hlr).
  rewrite value_of_node.
  rewrite (same_key_before x k k0 Hsame).
  rewrite (same_key_after x k k0 Hsame).
  apply elem_of_app in Hin as [Hin|Hin].
  - pose proof (Hlk k (bindings_key_elem l k v Hin)) as Hlt. rewrite Hlt.
    by apply IHl.
  - apply elem_of_cons in Hin as [[= -> ->]|Hin].
    + by rewrite cless_irrefl.
    + pose proof (Hkr k (bindings_key_elem r k v Hin)) as Hlt. rewrite Hlt.
      destruct (cless k k0) eqn:E.
      * pose proof (cless_trans k k0 k E Hlt) as X. by rewrite cless_irrefl in X.
      * by apply IHr.
Qed.

(** *** erase *)

Lemma filter_keeps_all {A : Type} (P : A -> Prop) `{forall a, Decision (P a)}
    (l : list A) :
  (forall a, a ∈ l -> P a) -> filter P l = l.
Proof.
  induction l as [|a l IH]; [done|]. intros Hall.
  rewrite filter_cons_True by (apply Hall; by left).
  f_equal. apply IH. intros b Hb. apply Hall. by right.
Qed.

Lemma unlinkSmallest_bindings (aux : Node) :
  match TreeMap.unlinkSmallest aux with
  | None => aux = TreeMap.nullptr
  | Some (k, v, rest) => TreeMap.bindings aux = (k, v) :: TreeMap.bindings rest
  end.
Proof.
  induction aux as [|l IHl k v r _]; simpl; [done|].
  destruct (TreeMap.unlinkSmallest l) as [[[k' v'] l']|].
  - simpl. by rewrite IHl.
  - by subst l.
Qed.

Lemma eraseRoot_bindings (l : Node) (k : K) (v : V) (r : Node) :
  TreeMap.bindings (TreeMap.eraseRoot (TreeMap.node l k v r)) =
  TreeMap.bindings l ++ TreeMap.bindings r.
Proof.
  destruct l as [|ll lk lv lr]; [done|].
  destruct r as [|rl rk rv rr]; [by rewrite app_nil_r|].
  unfold TreeMap.eraseRoot, TreeMap.moveSmallestAndErase.
  pose proof (unlinkSmallest_bindings (TreeMap.node rl rk rv rr)) as Hu.
  destruct (TreeMap.unlinkSmallest (TreeMap.node rl rk rv rr)) as [[[k' v'] r']|].
  - cbn [TreeMap.bindings] in *. by rewrite Hu.
  - done.
Qed.

Lemma eraseAux_bindings (p : Node) (key : K) (sz : Z) :
  ordered p ->
  TreeMap.bindings (TreeMap.eraseAux cless p key sz).1 =
  filter (fun kv : K * V => same kv.1 key = false) (TreeMap.bindings p).
Proof using cless_trans cless_incomparable.
  induction p as [|l IHl k v r IHr]; [done|].
  cbn [TreeMap.eraseAux TreeMap.keys TreeMap.bindings]. intros Hs.
  apply sorted_middle in Hs as (Hl & Hr & Hlk & Hkr & Hlr).
  rewrite filter_app.
  destruct (cless key k) eqn:E1.
  - destruct (TreeMap.eraseAux cless l key sz) as [l' sz'].
    cbn [fst TreeMap.bindings] in *.
    rewrite filter_cons_True by (by apply same_key_false_r).
    rewrite (IHl Hl). f_equal. f_equal. symmetry. apply filter_keeps_all.
    intros [y w] Hy. simpl. apply same_key_false_r.
    apply (cless_trans key k y E1). by apply Hkr, (bindings_key_elem r y w).
  - destruct (cless k key) eqn:E2.
    + destruct (TreeMap.eraseAux cless r key sz) as [r' sz'].
      cbn [fst TreeMap.bindings] in *.
      rewrite filter_cons_True by (by apply same_key_false_l).
      rewrite (IHr Hr). f_equal. symmetry. apply filter_keeps_all.
      intros [y w] Hy. simpl. apply same_key_false_l.
      apply (cless_trans y k key); [|done]. by apply Hlk, (bindings_key_elem l y w).
    + cbn [fst]. rewrite eraseRoot_bindings.
      assert (same key k = true) as Hkk by (by apply same_key_true).
      rewrite filter_cons_False
        by (simpl; rewrite same_key_sym, Hkk; done).
      f_equal; symmetry; apply filter_keeps_all; intros [y w] Hy; simpl.
      * apply same_key_false_l. rewrite (same_key_after key k y Hkk).
        by apply Hlk, (bindings_key_elem l y w).
      * apply same_key_false_r. rewrite (same_key_before key k y Hkk).
        by apply Hkr, (bindings_key_elem r y w).
Qed.

Lemma value_of_eraseAux (p : Node) (key : K) (sz : Z) (x : K) :
  ordered p ->
  value_of (TreeMap.eraseAux cless p key sz).1 x =
  if same x key then None else value_of p x.
Proof using cless_irrefl cless_trans cless_incomparable.
  intros Hs.
  pose proof (TreeMap_eraseAux_ordered cless p key sz Hs) as Hs'.
  pose proof (eraseAux_bindings p key sz Hs) as Hb.
  destruct (value_of (TreeMap.eraseAux cless p key sz).1 x) as [v|] eqn:Hv.
  - apply value_of_bound in Hv as (k & Hin & Hsame).
    rewrite Hb in Hin. apply list_elem_of_filter in Hin as [Hne Hin]. simpl in Hne.
    rewrite (same_key_same x k key Hsame), Hne.
    symmetry. by apply (bound_value_of p x k v).
  - destruct (same x key) eqn:Sx; [done|].
    destruct (value_of p x) as [v|] eqn:Hv0; [|done].
    apply value_of_bound in Hv0 as (k & Hin & Hsame).
    assert ((k, v) ∈ TreeMap.bindings (TreeMap.eraseAux cless p key sz).1) as Hin'.
    { rewrite Hb. apply list_elem_of_filter. split; [|done]. simpl.
      by rewrite <- (same_key_same x k key Hsame). }
    by rewrite (bound_value_of _ x k v Hs' Hin' Hsame) in Hv.
Qed.

Lemma eraseAux_size (p : Node) (key : K) (sz : Z) :
  (TreeMap.eraseAux cless p key sz).2 =
  sz + Z.of_nat (length (TreeMap.keys (TreeMap.eraseAux cless p key sz).1))
     - Z.of_nat (length (TreeMap.keys p)).
Proof.
  induction p as [|l IHl k v r IHr]; [simpl; lia|].
  cbn [TreeMap.eraseAux]. destruct (cless key k).
  - destruct (TreeMap.eraseAux cless l key sz) as [l' sz'].
    cbn [fst snd TreeMap.keys] in *. rewrite !length_app. simpl. lia.
  - destruct (cless k key).
    + destruct (TreeMap.eraseAux cless r key sz) as [r' sz'].
      cbn [fst snd TreeMap.keys] in *. rewrite !length_app. simpl. lia.
    + cbn [fst snd]. rewrite TreeMap_eraseRoot_keys. cbn [TreeMap.keys].
      rewrite !length_app. simpl. lia.
Qed.

Lemma insertAux_keys_length (key : K) (value : V) (p : Node) (sz : Z) :
  (length (TreeMap.keys (TreeMap.insertAux cless key value p sz).1)
   <= S (length (TreeMap.keys p)))%nat.
Proof.
  pose proof (insertAux_size key value p sz) as Hsz.
  assert ((TreeMap.insertAux cless key value p sz).2 <= sz + 1); [|lia].
  clear Hsz. induction p as [|l IHl k v r IHr]; [simpl; lia|].
  cbn [TreeMap.insertAux]. destruct (cless key k).
  - by destruct (TreeMap.insertAux cless key value l sz) as [l' sz'].
  - destruct (cless k key); [|simpl; lia].
    by destruct (TreeMap.insertAux cless key value r sz) as [r' sz'].
Qed.

Lemma eraseAux_keys_length (p : Node) (key : K) (sz : Z) :
  (length (TreeMap.keys (TreeMap.eraseAux cless p key sz).1)
   <= length (TreeMap.keys p))%nat.
Proof.
  pose proof (eraseAux_size p key sz) as Hsz.
  assert ((TreeMap.eraseAux cless p key sz).2 <= sz); [|lia].
  clear Hsz. induction p as [|l IHl k v r IHr]; [simpl; lia|].
  cbn [TreeMap.eraseAux]. destruct (cless key k).
  - by destruct (TreeMap.eraseAux cless l key sz) as [l' sz'].
  - destruct (cless k key); [|simpl; lia].
    by destruct (TreeMap.eraseAux cless r key sz) as [r' sz'].
Qed.

(** *** Sequences of calls *)

Lemma sorted_NoDup (l : list K) : StronglySorted before l -> NoDup l.
Proof using cless_irrefl.
  induction 1 as [|a l Hs IH Hall]; constructor; [|done].
  intros Hin. rewrite Forall_forall in Hall.
  pose proof (Hall a Hin) as X. simpl in X. by rewrite cless_irrefl in X.
Qed.

Lemma at_value_of (m : TreeMap.t K V) (x : K) :
  TreeMap.at_ cless x m =
  match value_of (TreeMap._root m) x with
  | Some v => Return v
  | None => Throw BadKeyException
  end.
Proof.
  unfold TreeMap.at_, TreeMap.value_of. by destruct (TreeMap.findAux _ _ _).
Qed.

Lemma contains_value_of (m : TreeMap.t K V) (x : K) :
  TreeMap.contains cless x m = true <-> is_Some (value_of (TreeMap._root m) x).
Proof.
  unfold TreeMap.contains, TreeMap.value_of.
  destruct (TreeMap.findAux _ _ _); split; done.
Qed.

Lemma tracks_apply (m : TreeMap.t K V) (f : K -> option V) (n : nat)
    (o : TreeMap.op K V) :
  TreeMap.tracks cless m f n -> TreeMap.tracks cless (TreeMap.apply cless m o) (TreeMap.model_apply cless f o) (S n).
Proof using cless_irrefl cless_trans cless_incomparable.
  intros (Hs & Hsz & Hv & Hn). destruct m as [p sz]. simpl in *.
  destruct o as [key value|key]; unfold TreeMap.apply, TreeMap.insert, TreeMap.erase;
    cbn [TreeMap._root TreeMap._size].
  - pose proof (TreeMap_insertAux_ordered cless cless_trans key value p sz Hs) as Hs'.
    pose proof (insertAux_size key value p sz) as Hsz'.
    pose proof (insertAux_keys_length key value p sz) as Hn'.
    pose proof (fun x => value_of_insertAux key value p sz x) as Hv'.
    destruct (TreeMap.insertAux cless key value p sz) as [p' sz']. simpl in *.
    unfold TreeMap.tracks. simpl.
    split; [done|]. split; [lia|]. split; [|lia].
    intros x. rewrite Hv'. by rewrite Hv.
  - pose proof (TreeMap_eraseAux_ordered cless p key sz Hs) as Hs'.
    pose proof (eraseAux_size p key sz) as Hsz'.
    pose proof (eraseAux_keys_length p key sz) as Hn'.
    pose proof (fun x => value_of_eraseAux p key sz x Hs) as Hv'.
    destruct (TreeMap.eraseAux cless p key sz) as [p' sz']. simpl in *.
    unfold TreeMap.tracks. simpl.
    split; [done|]. split; [lia|]. split; [|lia].
    intros x. rewrite Hv'. by rewrite Hv.
Qed.

Lemma tracks_foldl (ops : list (TreeMap.op K V)) :
  forall (m : TreeMap.t K V) (f : K -> option V) (n : nat),
  TreeMap.tracks cless m f n ->
  TreeMap.tracks cless (foldl (TreeMap.apply cless) m ops)
         (foldl (TreeMap.model_apply cless) f ops) (n + length ops).
Proof using cless_irrefl cless_trans cless_incomparable.
  induction ops as [|o ops IH]; intros m f n Ht.
  - simpl. by rewrite Nat.add_0_r.
  - simpl. replace (n + S (length ops))%nat with (S n + length ops)%nat by lia.
    apply IH. by apply tracks_apply.
Qed.

Lemma tracks_run (ops : list (TreeMap.op K V)) :
  TreeMap.tracks cless (TreeMap.run cless ops) (TreeMap.model cless ops) (length ops).
Proof using cless_irrefl cless_trans cless_incomparable.
  apply (tracks_foldl ops TreeMap.init (fun _ => None) 0).
  unfold TreeMap.tracks. simpl.
  split; [constructor|]. split; [done|]. split; [done|]. simpl. lia.
Qed.

(** *** find *)

Lemma findLoop_findAux (p : Node) (key : K) (anc : list Node) :
  (TreeMap.findLoop cless p key anc).1 = TreeMap.findAux cless p key.
Proof.
  revert anc. induction p as [|l IHl k v r IHr]; intros anc; [done|].
  simpl. destruct (cless key k) eqn:E1.
  - rewrite orb_true_r. apply IHl.
  - rewrite orb_false_r. destruct (cless k key); [apply IHr|done].
Qed.

(** The iterator [find] builds still owes the found key and all the keys
    after it. *)
Lemma findLoop_remaining (p : Node) (key : K) :
  forall anc, ordered p ->
  match TreeMap.findLoop cless p key anc with
  | (TreeMap.nullptr, _) => True
  | (c, anc') =>
      exists l1 k l2,
        TreeMap.keys p = l1 ++ k :: l2 /\ same k key = true /\
        (forall y, y ∈ l1 -> cless y key = true) /\
        TreeMap.remaining (TreeMap.MkIterator c anc') = k :: l2 ++ TreeMap.pending anc
  end.
Proof using cless_trans cless_incomparable.
  induction p as [|l IHl k v r IHr]; intros anc Hs; [done|].
  cbn [TreeMap.keys] in Hs.
  apply sorted_middle in Hs as (Hl & Hr & Hlk & Hkr & Hlr).
  cbn [TreeMap.findLoop]. destruct (cless key k) eqn:E1.
  - rewrite orb_true_r.
    specialize (IHl (TreeMap.node l k v r :: anc) Hl).
    destruct (TreeMap.findLoop cless l key (TreeMap.node l k v r :: anc))
      as [[|cl ck cv cr] anc']; [done|].
    destruct IHl as (l1 & k1 & l2 & Hk & Hsame & Hbefore & Hrem).
    exists l1, k1, (l2 ++ k :: TreeMap.keys r). split.
    { cbn [TreeMap.keys]. rewrite Hk. by rewrite <- app_assoc. }
    split; [done|]. split; [done|].
    rewrite Hrem. cbn [TreeMap.pending]. by rewrite <- !app_assoc.
  - rewrite orb_false_r. destruct (cless k key) eqn:E2.
    + specialize (IHr anc Hr).
      destruct (TreeMap.findLoop cless r key anc) as [[|cl ck cv cr] anc']; [done|].
      destruct IHr as (l1 & k1 & l2 & Hk & Hsame & Hbefore & Hrem).
      exists (TreeMap.keys l ++ k :: l1), k1, l2. split.
      { cbn [TreeMap.keys]. rewrite Hk. by rewrite <- app_assoc. }
      split; [done|]. split; [|done].
      intros y [Hy|Hy]%elem_of_app.
      * apply (cless_trans y k key); [by apply Hlk|done].
      * apply elem_of_cons in Hy as [->|Hy]; [done|by apply Hbefore].
    + exists (TreeMap.keys l), k, (TreeMap.keys r).
      assert (same k key = true) as Hsame by (by apply same_key_true).
      split; [done|]. split; [done|]. split; [|done].
      intros y Hy. rewrite <- (same_key_after k key y Hsame). by apply Hlk.
Qed.

(** *** operator[] *)

Lemma findOrInsert_insertAux `{Inhabited V} (p : Node) (key : K) (sz : Z) :
  (TreeMap.findOrInsert cless p key).1.1 =
    (TreeMap.insertAux cless key inhabitant p sz).1 /\
  (if (TreeMap.findOrInsert cless p key).2 then sz + 1 else sz) =
    (TreeMap.insertAux cless key inhabitant p sz).2.
Proof.
  induction p as [|l IHl k v r IHr]; [done|].
  cbn [TreeMap.findOrInsert TreeMap.insertAux]. destruct (cless key k).
  - destruct (TreeMap.findOrInsert cless l key) as [[l' ret] ins].
    destruct (TreeMap.insertAux cless key inhabitant l sz) as [l'' sz'].
    simpl in *. destruct IHl as [-> ->]. done.
  - destruct (cless k key); [|done].
    destruct (TreeMap.findOrInsert cless r key) as [[r' ret] ins].
    destruct (TreeMap.insertAux cless key inhabitant r sz) as [r'' sz'].
    simpl in *. destruct IHr as [-> ->]. done.
Qed.

Lemma findOrInsert_value_at `{Inhabited V} (p : Node) (key : K) :
  TreeMap.value_at (TreeMap.findOrInsert cless p key).1.2
                   (TreeMap.findOrInsert cless p key).1.1 =
  value_of (TreeMap.findOrInsert cless p key).1.1 key.
Proof using cless_irrefl.
  induction p as [|l IHl k v r IHr].
  - cbn. unfold TreeMap.value_of. simpl. by rewrite cless_irrefl.
  - cbn [TreeMap.findOrInsert]. destruct (cless key k) eqn:E1.
    + destruct (TreeMap.findOrInsert cless l key) as [[l' ret] ins].
      simpl in *. rewrite value_of_node, E1. exact IHl.
    + destruct (cless k key) eqn:E2.
      * destruct (TreeMap.findOrInsert cless r key) as [[r' ret] ins].
        simpl in *. rewrite value_of_node, E1, E2. exact IHr.
      * simpl. by rewrite value_of_node, E1, E2.
Qed.

Lemma findOrInsert_set_value `{Inhabited V} (p : Node) (key : K) (value : V) (x : K) :
  value_of (TreeMap.set_value_at (TreeMap.findOrInsert cless p key).1.2 value
              (TreeMap.findOrInsert cless p key).1.1) x =
  if same x key then Some value
  else value_of (TreeMap.findOrInsert cless p key).1.1 x.
Proof using cless_trans cless_incomparable.
  induction p as [|l IHl k v r IHr].
  - cbn. rewrite !value_of_node. unfold TreeMap.same_key, TreeMap.value_of. simpl.
    by destruct (cless x key), (cless key x).
  - cbn [TreeMap.findOrInsert]. destruct (cless key k) eqn:E1.
    + destruct (TreeMap.findOrInsert cless l key) as [[l' ret] ins].
      cbn [fst snd TreeMap.set_value_at] in *. rewrite !value_of_node.
      destruct (cless x k) eqn:E2; [exact IHl|].
      assert (cless key x = true) as Hkx.
      { destruct (cless k x) eqn:E3; [by apply (cless_trans key k x)|].
        rewrite (same_key_after x k key); [done|]. by apply same_key_true. }
      by rewrite (same_key_false_r x key Hkx).
    + destruct (cless k key) eqn:E2.
      * destruct (TreeMap.findOrInsert cless r key) as [[r' ret] ins].
        cbn [fst snd TreeMap.set_value_at] in *. rewrite !value_of_node.
        destruct (cless x k) eqn:E3.
        { by rewrite (same_key_false_l x key (cless_trans x k key E3 E2)). }
        destruct (cless k x) eqn:E4; [exact IHr|].
        assert (cless x key = true) as Hxk.
        { rewrite (same_key_before x k key); [done|]. by apply same_key_true. }
        by rewrite (same_key_false_l x key Hxk).
      * cbn [fst snd TreeMap.set_value_at]. rewrite !value_of_node.
        destruct (same x key) eqn:S.
        { by rewrite (same_key_before x key k S), E1, (same_key_after x key k S), E2. }
        destruct (cless x k) eqn:E3; [done|]. destruct (cless k x) eqn:E4; [done|].
        assert (same x k = true) as Hxk by (by apply same_key_true).
        rewrite (same_key_same x k key Hxk) in S.
        assert (same k key = true) by (by apply same_key_true). congruence.
Qed.

(** *** Counting *)

Lemma insertAux_absent_size (key : K) (value : V) (p : Node) (sz : Z) :
  TreeMap.findAux cless p key = TreeMap.nullptr ->
  (TreeMap.insertAux cless key value p sz).2 = sz + 1.
Proof.
  induction p as [|l IHl k v r IHr]; [done|]. simpl.
  destruct (cless key k).
  - intros Hf. specialize (IHl Hf).
    by destruct (TreeMap.insertAux cless key value l sz).
  - destruct (cless k key); [|done].
    intros Hf. specialize (IHr Hf).
    by destruct (TreeMap.insertAux cless key value r sz).
Qed.

Lemma eraseAux_absent (p : Node) (key : K) (sz : Z) :
  TreeMap.findAux cless p key = TreeMap.nullptr ->
  TreeMap.eraseAux cless p key sz = (p, sz).
Proof.
  induction p as [|l IHl k v r IHr]; [done|]. simpl.
  destruct (cless key k).
  - intros Hf. by rewrite (IHl Hf).
  - destruct (cless k key); [|done].
    intros Hf. by rewrite (IHr Hf).
Qed.

Lemma eraseAux_present_size (p : Node) (key : K) (sz : Z) :
  TreeMap.findAux cless p key <> TreeMap.nullptr ->
  (TreeMap.eraseAux cless p key sz).2 = sz - 1.
Proof.
  induction p as [|l IHl k v r IHr]; [done|]. simpl.
  destruct (cless key k).
  - intros Hf. specialize (IHl Hf).
    by destruct (TreeMap.eraseAux cless l key sz).
  - destruct (cless k key); [|done].
    intros Hf. specialize (IHr Hf).
    by destruct (TreeMap.eraseAux cless r key sz).
Qed.
End TreeMapModel.

Lemma Zltb_trans (x y z : Z) : Z.ltb x y = true -> Z.ltb y z = true -> Z.ltb x z = true.
Proof. intros ?%Z.ltb_lt ?%Z.ltb_lt. apply Z.ltb_lt. lia. Qed.

Lemma Zltb_incomparable (x y z : Z) :
  Z.ltb x y = false -> Z.ltb y x = false ->
  Z.ltb y z = false -> Z.ltb z y = false ->
  Z.ltb x z = false /\ Z.ltb z x = false.
Proof.
  intros ?%Z.ltb_ge ?%Z.ltb_ge ?%Z.ltb_ge ?%Z.ltb_ge. split; apply Z.ltb_ge; lia.
Qed.

Lemma Zltb_total (x y : Z) : x <> y -> Z.ltb x y = true \/ Z.ltb y x = true.
Proof.
  intros Hne. destruct (Z.lt_trichotomy x y) as [?|[?|?]];
    [left | done | right]; by apply Z.ltb_lt.
Qed.

(** TreeMap, [insert] of a key that is not in the map: on a map built by
    any sequence of fewer than 2^31 - 1 [insert] and [erase] calls
    (comparator a strict weak ordering), if [contains(k)] is false then
    after [insert(k, v)] the call [at(k)] returns [v], [contains(k)] is
    true, [size()] is one more, and [at(x)] gives what it gave before for
    every key [x] that the comparator tells apart from [k]; the counter
    [_size] is not negative before the call and still within [int] after
    it. *)
Theorem TreeMap_insert_binds_absent_key {K V : Type} (cless : K -> K -> bool)
    (cless_irrefl : forall x, cless x x = false)
    (cless_trans :
       forall x y z, cless x y = true -> cless y z = true -> cless x z = true)
    (cless_incomparable :
       forall x y z,
         cless x y = false -> cless y x = false ->
         cless y z = false -> cless z y = false ->
         cless x z = false /\ cless z x = false)
    (ops : list (TreeMap.op K V)) (k : K) (v : V) (x : K) :
  Z.of_nat (length ops) < 2 ^ 31 - 1 ->
  let m := TreeMap.run cless ops in
  TreeMap.contains cless k m = false ->
  TreeMap.at_ cless k (TreeMap.insert cless k v m) = Return v /\
  TreeMap.contains cless k (TreeMap.insert cless k v m) = true /\
  TreeMap.size (TreeMap.insert cless k v m) = TreeMap.size m + 1 /\
  (TreeMap.same_key cless x k = false ->
   TreeMap.at_ cless x (TreeMap.insert cless k v m) = TreeMap.at_ cless x m) /\
  0 <= TreeMap.size m /\ TreeMap.size (TreeMap.insert cless k v m) < 2 ^ 31.
Proof.
  intros Hlen m Hc.
  destruct (tracks_run cless cless_irrefl cless_trans cless_incomparable ops)
    as (_ & Htsz & _ & Htn). fold m in Htsz, Htn.
  assert (TreeMap.findAux cless (TreeMap._root m) k = TreeMap.nullptr) as Hf.
  { unfold TreeMap.contains in Hc. by destruct (TreeMap.findAux _ _ _). }
  assert (TreeMap.value_of cless (TreeMap._root m) k = None) as Hv
    by (unfold TreeMap.value_of; by rewrite Hf).
  pose proof (fun y => value_of_insertAux cless cless_trans cless_incomparable
                         k v (TreeMap._root m) (TreeMap._size m) y) as Hins.
  pose proof (insertAux_absent_size cless k v (TreeMap._root m) (TreeMap._size m) Hf)
    as Hsz.
  assert (TreeMap.same_key cless k k = true) as Hkk
    by (apply same_key_true; by rewrite cless_irrefl).
  assert (forall y, TreeMap.value_of cless (TreeMap._root (TreeMap.insert cless k v m)) y
            = if TreeMap.same_key cless y k
              then match TreeMap.value_of cless (TreeMap._root m) y with
                   | Some w => Some w | None => Some v end
              else TreeMap.value_of cless (TreeMap._root m) y) as Hins'.
  { intros y. unfold TreeMap.insert. rewrite <- Hins.
    by destruct (TreeMap.insertAux cless k v (TreeMap._root m) (TreeMap._size m)). }
  assert (TreeMap.size (TreeMap.insert cless k v m) = TreeMap.size m + 1) as Hone.
  { unfold TreeMap.size, TreeMap.insert.
    by destruct (TreeMap.insertAux cless k v (TreeMap._root m) (TreeMap._size m)). }
  split; [|split; [|split; [|split; [|split]]]].
  - rewrite at_value_of, Hins', Hkk. by rewrite Hv.
  - apply contains_value_of. rewrite Hins', Hkk, Hv. by eexists.
  - exact Hone.
  - intros Hx. rewrite !at_value_of, Hins'. by rewrite Hx.
  - unfold TreeMap.size. lia.
  - rewrite Hone. unfold TreeMap.size. lia.
Qed.

Lemma TreeMap_insert_binds_absent_key_witness :
  let m := TreeMap.run Z.ltb [TreeMap.Insert 5 50; TreeMap.Insert 2 20; TreeMap.Erase 5] in
  TreeMap.at_ Z.ltb 7 (TreeMap.insert Z.ltb 7 70 m) = Return 70 /\
  TreeMap.contains Z.ltb 7 (TreeMap.insert Z.ltb 7 70 m) = true /\
  TreeMap.size (TreeMap.insert Z.ltb 7 70 m) = TreeMap.size m + 1 /\
  (TreeMap.same_key Z.ltb 2 7 = false ->
   TreeMap.at_ Z.ltb 2 (TreeMap.insert Z.ltb 7 70 m) = TreeMap.at_ Z.ltb 2 m) /\
  0 <= TreeMap.size m /\ TreeMap.size (TreeMap.insert Z.ltb 7 70 m) < 2 ^ 31.
Proof.
  intros m.
  apply (TreeMap_insert_binds_absent_key Z.ltb Z.ltb_irrefl Zltb_trans Zltb_incomparable
           [TreeMap.Insert 5 50; TreeMap.Insert 2 20; TreeMap.Erase 5] 7 70 2).
  - reflexivity.
  - reflexivity.
Defined.

(** TreeMap, [erase]: on a map built by any sequence of fewer than 2^31
    [insert] and [erase] calls (comparator a strict weak ordering), after
    [erase(k)] the call [at(k)] throws BadKeyException, and [at(x)] gives
    what it gave before for every key [x] that the comparator tells apart
    from [k]; [size()] is one less if [k] was in the map, and if it was
    not the map is left exactly as it was; the counter [_size] stays
    within [int]: it is not negative after the call and was below 2^31
    before it. *)
Theorem TreeMap_erase_unbinds_only_its_key {K V : Type} (cless : K -> K -> bool)
    (cless_irrefl : forall x, cless x x = false)
    (cless_trans :
       forall x y z, cless x y = true -> cless y z = true -> cless x z = true)
    (cless_incomparable :
       forall x y z,
         cless x y = false -> cless y x = false ->
         cless y z = false -> cless z y = false ->
         cless x z = false /\ cless z x = false)
    (ops : list (TreeMap.op K V)) (k x : K) :
  Z.of_nat (length ops) < 2 ^ 31 ->
  let m := TreeMap.run cless ops in
  TreeMap.at_ cless k (TreeMap.erase cless k m) = Throw BadKeyException /\
  (TreeMap.same_key cless x k = false ->
   TreeMap.at_ cless x (TreeMap.erase cless k m) = TreeMap.at_ cless x m) /\
  (TreeMap.contains cless k m = true ->
   TreeMap.size (TreeMap.erase cless k m) = TreeMap.size m - 1) /\
  (TreeMap.contains cless k m = false -> TreeMap.erase cless k m = m) /\
  0 <= TreeMap.size (TreeMap.erase cless k m) <= TreeMap.size m /\
  TreeMap.size m < 2 ^ 31.
Proof.
  intros Hlen m.
  pose proof (tracks_run cless cless_irrefl cless_trans cless_incomparable ops) as Htr.
  pose proof (tracks_apply cless cless_irrefl cless_trans cless_incomparable _ _ _
                (TreeMap.Erase k) Htr) as (_ & Hesz & _ & _).
  destruct Htr as (Hs & Htsz & _ & Htn).
  cbn [TreeMap.apply] in Hesz. fold m in Hs, Htsz, Htn, Hesz.
  pose proof (fun y => value_of_eraseAux cless cless_irrefl cless_trans cless_incomparable
                         (TreeMap._root m) k (TreeMap._size m) y Hs) as Her.
  assert (forall y, TreeMap.value_of cless (TreeMap._root (TreeMap.erase cless k m)) y
            = if TreeMap.same_key cless y k then None
              else TreeMap.value_of cless (TreeMap._root m) y) as Her'.
  { intros y. unfold TreeMap.erase. rewrite <- Her.
    by destruct (TreeMap.eraseAux cless (TreeMap._root m) k (TreeMap._size m)). }
  assert (TreeMap.same_key cless k k = true) as Hkk
    by (apply same_key_true; by rewrite cless_irrefl).
  assert (TreeMap.contains cless k m = true ->
          TreeMap.size (TreeMap.erase cless k m) = TreeMap.size m - 1) as Hless.
  { intros Hc. unfold TreeMap.size, TreeMap.erase.
    pose proof (eraseAux_present_size cless (TreeMap._root m) k (TreeMap._size m)) as Hsz.
    destruct (TreeMap.eraseAux cless (TreeMap._root m) k (TreeMap._size m)).
    simpl in *. apply Hsz. unfold TreeMap.contains in Hc.
    by destruct (TreeMap.findAux _ _ _). }
  assert (TreeMap.contains cless k m = false -> TreeMap.erase cless k m = m) as Hsame.
  { intros Hc. unfold TreeMap.erase. rewrite eraseAux_absent; [by destruct m|].
    unfold TreeMap.contains in Hc. by destruct (TreeMap.findAux _ _ _). }
  split; [|split; [|split; [|split; [|split]]]].
  - by rewrite at_value_of, Her', Hkk.
  - intros Hx. by rewrite !at_value_of, Her', Hx.
  - exact Hless.
  - exact Hsame.
  - split; [unfold TreeMap.size; lia|].
    destruct (TreeMap.contains cless k m) eqn:Hc.
    + rewrite Hless by done. lia.
    + rewrite Hsame by done. lia.
  - unfold TreeMap.size. lia.
Qed.

Lemma TreeMap_erase_unbinds_only_its_key_witness :
  let m := TreeMap.run Z.ltb [TreeMap.Insert 5 50; TreeMap.Insert 2 20;
                              TreeMap.Insert 8 80; TreeMap.Insert 7 70] in
  TreeMap.at_ Z.ltb 5 (TreeMap.erase Z.ltb 5 m) = Throw BadKeyException /\
  (TreeMap.same_key Z.ltb 7 5 = false ->
   TreeMap.at_ Z.ltb 7 (TreeMap.erase Z.ltb 5 m) = TreeMap.at_ Z.ltb 7 m) /\
  (TreeMap.contains Z.ltb 5 m = true ->
   TreeMap.size (TreeMap.erase Z.ltb 5 m) = TreeMap.size m - 1) /\
  (TreeMap.contains Z.ltb 5 m = false -> TreeMap.erase Z.ltb 5 m = m) /\
  0 <= TreeMap.size (TreeMap.erase Z.ltb 5 m) <= TreeMap.size m /\
  TreeMap.size m < 2 ^ 31.
Proof.
  intros m.
  apply (TreeMap_erase_unbinds_only_its_key Z.ltb Z.ltb_irrefl Zltb_trans
           Zltb_incomparable
           [TreeMap.Insert 5 50; TreeMap.Insert 2 20;
            TreeMap.Insert 8 80; TreeMap.Insert 7 70] 5 7).
  reflexivity.
Defined.

(** TreeMap, [size()]: after any sequence of fewer than 2^31 [insert] and
    [erase] calls (comparator a strict weak ordering) [size()] is the
    number of keys the iteration lists, these keys are pairwise distinct,
    the counter has stayed within [int], and [empty()] holds exactly when
    [size()] is 0. *)
Theorem TreeMap_size_counts_keys {K V : Type} (cless : K -> K -> bool)
    (cless_irrefl : forall x, cless x x = false)
    (cless_trans :
       forall x y z, cless x y = true -> cless y z = true -> cless x z = true)
    (cless_incomparable :
       forall x y z,
         cless x y = false -> cless y x = false ->
         cless y z = false -> cless z y = false ->
         cless x z = false /\ cless z x = false)
    (ops : list (TreeMap.op K V)) :
  Z.of_nat (length ops) < 2 ^ 31 ->
  let m := TreeMap.run cless ops in
  exists keys,
    TreeMap.iterate m = Some keys /\ NoDup keys /\
    TreeMap.size m = Z.of_nat (length keys) /\
    0 <= TreeMap.size m <= Z.of_nat (length ops) /\ TreeMap.size m < 2 ^ 31 /\
    (TreeMap.empty m = true <-> TreeMap.size m = 0).
Proof.
  intros Hlen m.
  destruct (tracks_run cless cless_irrefl cless_trans cless_incomparable ops)
    as (Hs & Hsz & _ & Hn). fold m in Hs, Hsz, Hn.
  exists (TreeMap.keys (TreeMap._root m)).
  split; [apply TreeMap_iterate_keys|].
  split; [by apply (sorted_NoDup cless cless_irrefl)|].
  unfold TreeMap.size. split; [done|]. split; [lia|]. split; [lia|].
  rewrite Hsz. unfold TreeMap.empty.
  destruct (TreeMap._root m) as [|l k v r]; [done|].
  cbn [TreeMap.keys]. rewrite length_app. simpl. split; [done|lia].
Qed.

Lemma TreeMap_size_counts_keys_witness :
  let m := TreeMap.run Z.ltb [TreeMap.Insert 5 50; TreeMap.Insert 2 20;
                              TreeMap.Insert 5 51; TreeMap.Erase 9] in
  exists keys,
    TreeMap.iterate m = Some keys /\ NoDup keys /\
    TreeMap.size m = Z.of_nat (length keys) /\
    0 <= TreeMap.size m <= Z.of_nat 4 /\ TreeMap.size m < 2 ^ 31 /\
    (TreeMap.empty m = true <-> TreeMap.size m = 0).
Proof.
  intros m.
  apply (TreeMap_size_counts_keys Z.ltb Z.ltb_irrefl Zltb_trans Zltb_incomparable
           [TreeMap.Insert 5 50; TreeMap.Insert 2 20; TreeMap.Insert 5 51;
            TreeMap.Erase 9]).
  reflexivity.
Defined.

(** TreeMap, [find]: on a map built by any sequence of [insert] and
    [erase] calls (comparator a strict weak ordering), [find(key)] is
    [end()] when the key is not in the map; when it is, the iterator stands
    on the stored key that the comparator takes for [key], [value()] is
    what [at(key)] returns, and walking on with [next()] until [end()]
    lists that key and then exactly the keys that come after it in the
    iteration of the whole map, every key before it being smaller. *)
Theorem TreeMap_find_iterates_from_key {K V : Type} (cless : K -> K -> bool)
    (cless_irrefl : forall x, cless x x = false)
    (cless_trans :
       forall x y z, cless x y = true -> cless y z = true -> cless x z = true)
    (cless_incomparable :
       forall x y z,
         cless x y = false -> cless y x = false ->
         cless y z = false -> cless z y = false ->
         cless x z = false /\ cless z x = false)
    (ops : list (TreeMap.op K V)) (key : K) :
  let m := TreeMap.run cless ops in
  let it := TreeMap.find cless key m in
  (TreeMap.contains cless key m = false -> TreeMap.is_end it = true) /\
  (TreeMap.contains cless key m = true ->
   exists l1 k l2,
     TreeMap.iterate m = Some (l1 ++ k :: l2) /\
     TreeMap.same_key cless k key = true /\
     (forall y, y ∈ l1 -> cless y key = true) /\
     TreeMap.key it = Return k /\
     TreeMap.value it = TreeMap.at_ cless key m /\
     TreeMap.iterate_from m it = Some (k :: l2)).
Proof.
  intros m it.
  destruct (tracks_run cless cless_irrefl cless_trans cless_incomparable ops)
    as (Hs & _). fold m in Hs.
  pose proof (findLoop_findAux cless (TreeMap._root m) key []) as Hcur.
  pose proof (findLoop_remaining cless cless_trans cless_incomparable
                (TreeMap._root m) key [] Hs) as Hrem.
  unfold it, TreeMap.find, TreeMap.contains, TreeMap.at_.
  destruct (TreeMap.findLoop cless (TreeMap._root m) key []) as [c anc].
  simpl in Hcur. rewrite <- Hcur.
  destruct c as [|cl ck cv cr]; split; try done.
  intros _. destruct Hrem as (l1 & k & l2 & Hk & Hsame & Hbefore & Hr).
  cbn [TreeMap.pending] in Hr. rewrite app_nil_r in Hr.
  exists l1, k, l2.
  split; [by rewrite TreeMap_iterate_keys, Hk|]. split; [done|]. split; [done|].
  assert (ck = k) as -> by (cbn in Hr; congruence).
  split; [done|]. split; [done|].
  unfold TreeMap.iterate_from. rewrite TreeMap_walk_remaining; [by rewrite Hr|].
  rewrite Hr, <- TreeMap_keys_length, Hk, length_app. simpl. lia.
Qed.

Lemma TreeMap_find_iterates_from_key_witness :
  let m := TreeMap.run Z.ltb [TreeMap.Insert 5 50; TreeMap.Insert 2 20;
                              TreeMap.Insert 8 80; TreeMap.Insert 7 70] in
  TreeMap.is_end (TreeMap.find Z.ltb 6 m) = true /\
  exists l1 k l2,
    TreeMap.iterate m = Some (l1 ++ k :: l2) /\
    TreeMap.same_key Z.ltb k 7 = true /\
    (forall y, y ∈ l1 -> Z.ltb y 7 = true) /\
    TreeMap.key (TreeMap.find Z.ltb 7 m) = Return k /\
    TreeMap.value (TreeMap.find Z.ltb 7 m) = TreeMap.at_ Z.ltb 7 m /\
    TreeMap.iterate_from m (TreeMap.find Z.ltb 7 m) = Some (k :: l2).
Proof.
  intros m. split.
  - apply (TreeMap_find_iterates_from_key Z.ltb Z.ltb_irrefl Zltb_trans
             Zltb_incomparable
             [TreeMap.Insert 5 50; TreeMap.Insert 2 20;
              TreeMap.Insert 8 80; TreeMap.Insert 7 70] 6).
    reflexivity.
  - apply (TreeMap_find_iterates_from_key Z.ltb Z.ltb_irrefl Zltb_trans
             Zltb_incomparable
             [TreeMap.Insert 5 50; TreeMap.Insert 2 20;
              TreeMap.Insert 8 80; TreeMap.Insert 7 70] 7).
    reflexivity.
Defined.

(** TreeMap, [operator[]]: for a strict weak ordering and any map, reading
    [m[key]] leaves the map as [insert(key, V())] leaves it and yields
    what [at(key)] then returns: the value bound to the key, or the default
    value now bound to it.  After the assignment [m[key] = value] the call
    [at(key)] returns [value], the other keys are bound as after
    [insert(key, V())], and [size()] is as after that insert. *)
Theorem TreeMap_subscript_inserts_default {K V : Type} `{Inhabited V}
    (cless : K -> K -> bool)
    (cless_irrefl : forall x, cless x x = false)
    (cless_trans :
       forall x y z, cless x y = true -> cless y z = true -> cless x z = true)
    (cless_incomparable :
       forall x y z,
         cless x y = false -> cless y x = false ->
         cless y z = false -> cless z y = false ->
         cless x z = false /\ cless z x = false)
    (m : TreeMap.t K V) (key : K) (value : V) (x : K) :
  let m' := TreeMap.insert cless key inhabitant m in
  TreeMap.subscript_read cless key m = (TreeMap.at_ cless key m', m') /\
  (exists v, TreeMap.at_ cless key m' = Return v) /\
  TreeMap.at_ cless key (TreeMap.subscript_write cless key value m) = Return value /\
  (TreeMap.same_key cless x key = false ->
   TreeMap.at_ cless x (TreeMap.subscript_write cless key value m)
     = TreeMap.at_ cless x m') /\
  TreeMap.size (TreeMap.subscript_write cless key value m) = TreeMap.size m'.
Proof.
  intros m'.
  destruct (findOrInsert_insertAux cless (TreeMap._root m) key (TreeMap._size m))
    as [Hroot Hsize].
  pose proof (findOrInsert_value_at cless cless_irrefl (TreeMap._root m) key) as Hval.
  pose proof (fun y => findOrInsert_set_value cless cless_trans cless_incomparable
                         (TreeMap._root m) key value y) as Hset.
  assert (TreeMap.subscript cless key m =
          ((TreeMap.findOrInsert cless (TreeMap._root m) key).1.2, m')) as Hsub.
  { unfold TreeMap.subscript, m', TreeMap.insert.
    destruct (TreeMap.findOrInsert cless (TreeMap._root m) key) as [[p' ret] ins].
    destruct (TreeMap.insertAux cless key inhabitant (TreeMap._root m) (TreeMap._size m))
      as [p'' sz'']. simpl in *. by subst. }
  assert (TreeMap._root m' = (TreeMap.findOrInsert cless (TreeMap._root m) key).1.1)
    as Hroot'.
  { unfold m', TreeMap.insert. rewrite Hroot.
    by destruct (TreeMap.insertAux cless key inhabitant (TreeMap._root m)
                   (TreeMap._size m)). }
  assert (TreeMap.same_key cless key key = true) as Hkk
    by (apply same_key_true; by rewrite cless_irrefl).
  assert (is_Some (TreeMap.value_of cless (TreeMap._root m') key)) as [v Hv].
  { rewrite Hroot', Hroot.
    rewrite (value_of_insertAux cless cless_trans cless_incomparable), Hkk.
    destruct (TreeMap.value_of cless (TreeMap._root m) key); by eexists. }
  split; [|split; [|split; [|split]]].
  - unfold TreeMap.subscript_read. rewrite Hsub, Hroot', Hval, <- Hroot'.
    by rewrite at_value_of, Hv.
  - exists v. by rewrite at_value_of, Hv.
  - unfold TreeMap.subscript_write. rewrite Hsub, Hroot'.
    rewrite at_value_of. cbn [TreeMap._root]. by rewrite Hset, Hkk.
  - intros Hx. unfold TreeMap.subscript_write. rewrite Hsub.
    rewrite !at_value_of. cbn [TreeMap._root]. rewrite Hroot' at 1.
    by rewrite Hset, Hx, <- Hroot'.
  - unfold TreeMap.subscript_write. by rewrite Hsub.
Qed.

Lemma TreeMap_subscript_inserts_default_witness :
  let m := TreeMap.run Z.ltb [TreeMap.Insert 5 50; TreeMap.Insert 2 20] in
  TreeMap.at_ Z.ltb 5 (TreeMap.subscript_write Z.ltb 5 51 m) = Return 51 /\
  (TreeMap.subscript_read Z.ltb 7 m).1 = Return inhabitant.
Proof.
  intros m.
  destruct (TreeMap_subscript_inserts_default Z.ltb Z.ltb_irrefl Zltb_trans
              Zltb_incomparable m 5 51 5) as (_ & _ & Hw & _).
  destruct (TreeMap_subscript_inserts_default Z.ltb Z.ltb_irrefl Zltb_trans
              Zltb_incomparable m 7 0 7) as (Hr & _).
  split; [exact Hw|]. rewrite Hr. reflexivity.
Defined.

(** * Further properties of the search-tree set *)
Section TreeSetModel.
Context {T : Type} `{EqDecision T}.
Variable lt : T -> T -> bool.
Hypothesis lt_irrefl : forall x, lt x x = false.
Hypothesis lt_trans : forall x y z, lt x y = true -> lt y z = true -> lt x z = true.
Hypothesis lt_total : forall x y, x <> y -> lt x y = true \/ lt y x = true.

Local Abbreviation Node := (TreeSet.Node T).
Local Abbreviation before := (fun x y : T => lt x y = true).
Local Abbreviation ordered := (fun p : Node => StronglySorted before (TreeSet.elems p)).

Lemma findAux_elems (p : Node) (x : T) :
  ordered p -> (TreeSet.findAux lt p x <> TreeSet.nullptr <-> x ∈ TreeSet.elems p).
Proof using lt_irrefl lt_trans lt_total.
  induction p as [|l IHl e r IHr]; intros Hs.
  - simpl. split; [done|]. by intros ?%elem_of_nil.
  - cbn [TreeSet.elems] in *.
    apply sorted_middle in Hs as (Hl & Hr & Hle & Her & Hlr).
    cbn [TreeSet.findAux]. case_bool_decide as He.
    + subst. split; [|done]. intros _. apply elem_of_app. right. by left.
    + rewrite elem_of_app, elem_of_cons.
      destruct (lt x e) eqn:Hxe.
      * rewrite (IHl Hl). split; [by left|].
        intros [?|[->|Hin]]; [done|done|].
        pose proof (Her x Hin) as Hex. simpl in Hex.
        by rewrite (lt_asym lt lt_irrefl lt_trans e x Hex) in Hxe.
      * rewrite (IHr Hr). split; [by right; right|].
        intros [Hin|[->|?]]; [|done|done].
        pose proof (Hle x Hin) as Hxe'. simpl in Hxe'. congruence.
Qed.

Lemma contains_elems (s : TreeSet.t T) (x : T) :
  ordered (TreeSet._root s) ->
  (TreeSet.contains lt x s = true <-> x ∈ TreeSet.elems (TreeSet._root s)).
Proof using lt_irrefl lt_trans lt_total.
  intros Hs. rewrite <- (findAux_elems _ x Hs). unfold TreeSet.contains.
  destruct (TreeSet.findAux lt (TreeSet._root s) x); split; done.
Qed.

Lemma insertAux_elems_iff (e : T) (p : Node) (x : T) :
  x ∈ TreeSet.elems (TreeSet.insertAux lt e p) <-> x = e \/ x ∈ TreeSet.elems p.
Proof.
  split; [apply TreeSet_insertAux_elems|].
  induction p as [|l IHl e0 r IHr].
  - simpl. intros [->|?%elem_of_nil]; [|done]. by left.
  - cbn [TreeSet.insertAux]. case_bool_decide as He.
    + subst. intros [->|?]; [|done]. cbn. apply elem_of_app. right. by left.
    + destruct (lt e e0); cbn [TreeSet.elems];
        rewrite !elem_of_app, !elem_of_cons; intros [->|[?|[?|?]]]; auto.
Qed.

Lemma eraseAux_elems_iff (p : Node) (e : T) (x : T) :
  ordered p ->
  (x ∈ TreeSet.elems (TreeSet.eraseAux lt p e) <-> x <> e /\ x ∈ TreeSet.elems p).
Proof using lt_irrefl lt_trans lt_total.
  intros Hs. split.
  - intros Hin. split; [|by apply (TreeSet_eraseAux_elems lt p e)].
    intros ->.
    pose proof (TreeSet_eraseAux_ordered lt p e Hs) as Hs'.
    apply (findAux_elems _ e Hs') in Hin. apply Hin.
    by apply (TreeSet_eraseAux_findAux lt lt_irrefl lt_trans).
  - intros [Hne Hin]. clear Hs.
    induction p as [|l IHl e0 r IHr]; [done|].
    cbn [TreeSet.eraseAux]. cbn [TreeSet.elems] in Hin.
    apply elem_of_app in Hin. rewrite elem_of_cons in Hin.
    case_bool_decide as He.
    + subst e0. rewrite TreeSet_eraseRoot_elems. apply elem_of_app.
      destruct Hin as [?|[?|?]]; [by left|done|by right].
    + destruct (lt e e0); cbn [TreeSet.elems]; rewrite elem_of_app, elem_of_cons;
        destruct Hin as [?|[?|?]]; auto.
Qed.
End TreeSetModel.

(** TreeSet as a set: on a set built by any sequence of [insert] and
    [erase] calls ([<] a strict total order on the elements), [contains(x)]
    after [insert(e)] holds exactly when [x] is [e] or was contained
    before; [contains(x)] after [erase(e)] holds exactly when [x] is not
    [e] and was contained before; and the iteration from [begin()] to
    [end()] lists exactly the elements that [contains] accepts, none of
    them twice. *)
Theorem TreeSet_membership_laws {T : Type} `{EqDecision T} (lt : T -> T -> bool)
    (lt_irrefl : forall x, lt x x = false)
    (lt_trans : forall x y z, lt x y = true -> lt y z = true -> lt x z = true)
    (lt_total : forall x y, x <> y -> lt x y = true \/ lt y x = true)
    (ops : list (TreeSet.op T)) (e x : T) :
  let s := TreeSet.run lt ops in
  (TreeSet.contains lt x (TreeSet.insert lt e s) = true <->
     x = e \/ TreeSet.contains lt x s = true) /\
  (TreeSet.contains lt x (TreeSet.erase lt e s) = true <->
     x <> e /\ TreeSet.contains lt x s = true) /\
  (exists l, TreeSet.iterate s = Some l /\ NoDup l /\
             (x ∈ l <-> TreeSet.contains lt x s = true)).
Proof.
  intros s.
  pose proof (TreeSet_run_ordered lt lt_trans lt_total ops) as Hs. fold s in Hs.
  pose proof (contains_elems lt lt_irrefl lt_trans lt_total) as Hc.
  split; [|split].
  - rewrite (Hc (TreeSet.insert lt e s) x), (Hc s x Hs).
    + apply insertAux_elems_iff.
    + by apply (TreeSet_insertAux_ordered lt lt_trans lt_total).
  - rewrite (Hc (TreeSet.erase lt e s) x), (Hc s x Hs).
    + by apply (eraseAux_elems_iff lt lt_irrefl lt_trans lt_total).
    + by apply (TreeSet_eraseAux_ordered lt).
  - exists (TreeSet.elems (TreeSet._root s)).
    split; [apply TreeSet_iterate_elems|]. split; [|by rewrite (Hc s x Hs)].
    by apply (sorted_NoDup lt lt_irrefl).
Qed.

Lemma TreeSet_membership_laws_witness :
  let s := TreeSet.run Z.ltb [TreeSet.Insert 5; TreeSet.Insert 2; TreeSet.Erase 5] in
  (TreeSet.contains Z.ltb 7 (TreeSet.insert Z.ltb 7 s) = true <->
     7 = 7 \/ TreeSet.contains Z.ltb 7 s = true) /\
  (TreeSet.contains Z.ltb 2 (TreeSet.erase Z.ltb 2 s) = true <->
     2 <> 2 /\ TreeSet.contains Z.ltb 2 s = true).
Proof.
  intros s.
  destruct (TreeSet_membership_laws Z.ltb Z.ltb_irrefl Zltb_trans Zltb_total
              [TreeSet.Insert 5; TreeSet.Insert 2; TreeSet.Erase 5] 7 7) as (H1 & _).
  destruct (TreeSet_membership_laws Z.ltb Z.ltb_irrefl Zltb_trans Zltb_total
              [TreeSet.Insert 5; TreeSet.Insert 2; TreeSet.Erase 5] 2 2) as (_ & H2 & _).
  split; [exact H1 | exact H2].
Defined.

(** * Further properties of the hash map *)
Section HashMapMore.
Context {K V : Type} `{EqDecision K}.
Variable hash : K -> Z.

Local Abbreviation table := (HashMap.t K V).
Local Abbreviation chain := (list (K * V)).

(** *** Iteration *)

Lemma drop_bin (bins : list chain) (i : nat) :
  (i < length bins)%nat ->
  concat (drop i bins) = HashMap.bin bins i ++ concat (drop (S i) bins).
Proof.
  intros Hi. destruct (lookup_lt_is_Some_2 bins i Hi) as [c Hc].
  rewrite (drop_S bins c i Hc). unfold HashMap.bin.
  by rewrite (list_lookup_total_correct _ _ _ Hc).
Qed.

Lemma skip_empty_spec (m : table) (fuel : nat) :
  HashMap.wf hash m -> HashMap._binCount m < 2 ^ 31 ->
  forall (n : chain) (idx : Z),
  0 <= idx < HashMap._binCount m ->
  (Z.to_nat (HashMap._binCount m - idx) <= fuel)%nat ->
  exists it,
    HashMap.skip_empty fuel m n idx = Return it /\
    HashMap.remaining m it = n ++ concat (drop (S (Z.to_nat idx)) (HashMap._bins m)) /\
    (HashMap.is_end it = true -> HashMap.remaining m it = []) /\
    0 <= HashMap._idx it < HashMap._binCount m.
Proof.
  intros Hwf Hrange. pose proof Hwf as [Hc Hlen _ _ _].
  induction fuel as [|fuel IH]; intros n idx Hidx Hfuel.
  - lia.
  - destruct n as [|x n].
    + cbn [HashMap.skip_empty].
      rewrite (HashMap_wrap32_small (HashMap._binCount m - 1)) by lia.
      destruct (Z.ltb_spec idx (HashMap._binCount m - 1)) as [Hlt|Hge].
      * rewrite (HashMap_wrap32_small (idx + 1)) by lia.
        destruct (IH (HashMap.bin (HashMap._bins m) (Z.to_nat (idx + 1))) (idx + 1))
          as (it & Hit & Hrem & Hend & Hi); [lia|lia|].
        exists it. split; [done|]. split; [|done].
        rewrite Hrem. simpl.
        replace (Z.to_nat (idx + 1)) with (S (Z.to_nat idx)) by lia.
        symmetry. apply drop_bin. lia.
      * exists (HashMap.MkIterator [] idx). split; [done|].
        assert (HashMap.remaining m (HashMap.MkIterator [] idx) = []) as Hnil.
        { unfold HashMap.remaining. simpl. rewrite drop_ge by lia. done. }
        split; [|done]. rewrite Hnil. simpl. rewrite drop_ge by lia. done.
    + exists (HashMap.MkIterator (x :: n) idx). split; [done|]. by split.
Qed.

Lemma begin_spec (m : table) :
  HashMap.wf hash m -> HashMap._binCount m < 2 ^ 31 ->
  exists it,
    HashMap.begin_ m = Return it /\
    HashMap.remaining m it = HashMap.entries m /\
    (HashMap.is_end it = true -> HashMap.remaining m it = []) /\
    0 <= HashMap._idx it < HashMap._binCount m.
Proof.
  intros Hwf Hrange. pose proof Hwf as [Hc Hlen _ _ _].
  destruct (skip_empty_spec m (HashMap.skip_fuel m) Hwf Hrange
              (HashMap.bin (HashMap._bins m) 0) 0)
    as (it & Hit & Hrem & Hend & Hi); [lia|unfold HashMap.skip_fuel; lia|].
  exists it. split; [done|]. split; [|done].
  rewrite Hrem. unfold HashMap.entries. symmetry.
  apply (drop_bin (HashMap._bins m) 0). lia.
Qed.

Lemma next_spec (m : table) (it : HashMap.Iterator) (x : K * V) (rest : chain) :
  HashMap.wf hash m -> HashMap._binCount m < 2 ^ 31 ->
  0 <= HashMap._idx it < HashMap._binCount m ->
  HashMap._current it = x :: rest ->
  exists it',
    HashMap.next m it = Return it' /\
    HashMap.remaining m it = x :: HashMap.remaining m it' /\
    (HashMap.is_end it' = true -> HashMap.remaining m it' = []) /\
    0 <= HashMap._idx it' < HashMap._binCount m.
Proof.
  intros Hwf Hrange Hi Hcur. unfold HashMap.next. rewrite Hcur.
  destruct (skip_empty_spec m (HashMap.skip_fuel m) Hwf Hrange rest (HashMap._idx it))
    as (it' & Hit & Hrem & Hend & Hi'); [done|unfold HashMap.skip_fuel; lia|].
  exists it'. split; [done|]. split; [|done].
  rewrite Hrem. unfold HashMap.remaining. by rewrite Hcur.
Qed.

Lemma walk_spec (m : table) (fuel : nat) :
  HashMap.wf hash m -> HashMap._binCount m < 2 ^ 31 ->
  forall it,
  0 <= HashMap._idx it < HashMap._binCount m ->
  (HashMap.is_end it = true -> HashMap.remaining m it = []) ->
  (length (HashMap.remaining m it) < fuel)%nat ->
  HashMap.walk fuel m it = Return (HashMap.remaining m it).
Proof.
  intros Hwf Hrange. induction fuel as [|fuel IH]; intros it Hi Hend Hfuel; [lia|].
  cbn [HashMap.walk]. destruct (HashMap._current it) as [|[k v] rest] eqn:Hcur.
  - unfold HashMap.is_end in *. rewrite Hcur in *. by rewrite Hend.
  - unfold HashMap.is_end, HashMap.key, HashMap.value. rewrite Hcur. simpl.
    destruct (next_spec m it (k, v) rest Hwf Hrange Hi Hcur)
      as (it' & Hnext & Hrem & Hend' & Hi').
    rewrite Hnext. simpl. rewrite Hrem in Hfuel. simpl in Hfuel.
    rewrite (IH it' Hi' Hend') by lia. simpl. by rewrite Hrem.
Qed.

Lemma iterate_spec (m : table) :
  HashMap.wf hash m -> HashMap._binCount m < 2 ^ 31 ->
  HashMap.iterate m = Return (HashMap.entries m).
Proof.
  intros Hwf Hrange. unfold HashMap.iterate.
  destruct (begin_spec m Hwf Hrange) as (it & Hit & Hrem & Hend & Hi).
  rewrite Hit. cbn [obind]. rewrite (walk_spec m _ Hwf Hrange it Hi Hend).
  - by rewrite Hrem.
  - rewrite Hrem. unfold HashMap.entries. lia.
Qed.

(** *** Lookups as an association *)

Local Abbreviation assoc :=
  (fun (m : table) (k : K) =>
     match HashMap.at_ hash k m with Return v => Some v | _ => None end).

Lemma at_entries (m : table) (k : K) (v : V) :
  HashMap.wf hash m ->
  ((k, v) ∈ HashMap.entries m <-> HashMap.at_ hash k m = Return v).
Proof.
  intros Hwf. pose proof (HashMap_entries_split hash m k Hwf) as Hsplit.
  cbn zeta in Hsplit. unfold HashMap.at_.
  destruct (HashMap.findNode k _) as [pos|].
  - destruct Hsplit as (X & Y & v0 & Hpos & Hent & _). rewrite Hpos.
    pose proof (HashMap.wf_nodup _ _ Hwf) as Hnd. unfold HashMap.keys in Hnd.
    rewrite Hent in Hnd. apply HashMap_keys_middle in Hnd as (HX & HY & _).
    rewrite Hent, elem_of_app, elem_of_cons. split.
    + intros [Hin|[[= ->]|Hin]]; [|done|].
      * exfalso. apply HX. apply list_elem_of_fmap. by exists (k, v).
      * exfalso. apply HY. apply list_elem_of_fmap. by exists (k, v).
    + intros [= ->]. tauto.
  - destruct Hsplit as (Hnot & _). split; [|done].
    intros Hin. exfalso. apply Hnot. apply list_elem_of_fmap. by exists (k, v).
Qed.

Lemma agrees_assoc (m : table) : HashMap.wf hash m -> HashMap.agrees m (assoc m).
Proof.
  intros Hwf k v. rewrite (at_entries m k v Hwf).
  destruct (HashMap.at_ hash k m); split; congruence.
Qed.

Lemma at_agrees (m m' : table) (f : K -> option V) :
  HashMap.wf hash m -> HashMap.agrees m f ->
  HashMap.wf hash m' -> HashMap.agrees m' f ->
  forall x, HashMap.at_ hash x m = HashMap.at_ hash x m'.
Proof.
  intros Hwf Hag Hwf' Hag' x.
  by rewrite (HashMap_at_spec hash m f x Hwf Hag),
             (HashMap_at_spec hash m' f x Hwf' Hag').
Qed.

Lemma contains_findNode (m : table) (key : K) :
  HashMap.contains hash key m =
  match HashMap.findNode key
          (HashMap.bin (HashMap._bins m)
             (HashMap.index hash key (HashMap._binCount m))) with
  | Some _ => true
  | None => false
  end.
Proof. unfold HashMap.contains. by destruct (HashMap.findNode _ _). Qed.

Lemma at_findNode (m : table) (key : K) :
  HashMap.at_ hash key m =
  let c := HashMap.bin (HashMap._bins m)
             (HashMap.index hash key (HashMap._binCount m)) in
  match HashMap.findNode key c with
  | Some pos => HashMap.value_at c pos
  | None => Throw BadKeyException
  end.
Proof. done. Qed.

(** *** operator[] *)

Lemma insert_at_key (m : table) (key : K) (value : V) :
  HashMap.wf hash m -> HashMap.in_range m ->
  HashMap.at_ hash key (HashMap.insert hash key value m) = Return value.
Proof.
  intros Hwf Hr.
  destruct (HashMap_insert_step hash m (assoc m) key value Hwf Hr (agrees_assoc m Hwf))
    as [Hwf' Hag'].
  rewrite (HashMap_at_spec hash _ _ key Hwf' Hag'). simpl.
  by rewrite decide_True.
Qed.

Lemma subscript_spec `{Inhabited V} (m : table) (key : K) :
  HashMap.wf hash m -> HashMap.in_range m ->
  HashMap.subscript hash key m =
  if HashMap.contains hash key m then (HashMap.at_ hash key m, m)
  else (Return inhabitant, HashMap.insert hash key inhabitant m).
Proof.
  intros Hwf Hr. unfold HashMap.subscript.
  rewrite contains_findNode, at_findNode. cbn zeta.
  destruct (HashMap.findNode key _) as [pos|]; [done|].
  pose proof (insert_at_key m key inhabitant Hwf Hr) as Hat.
  rewrite at_findNode in Hat. cbn zeta in Hat.
  destruct (HashMap.findNode key _) as [pos|]; [|done]. by rewrite Hat.
Qed.

Lemma alter_as_insert {A : Type} (f : A -> A) (l : list A) (i : nat) (x : A) :
  l !! i = Some x -> alter f i l = <[i := f x]> l.
Proof.
  revert i. induction l as [|a l IH]; intros [|i] Hl; try done.
  - simpl in *. by injection Hl as ->.
  - simpl in *. f_equal. by apply IH.
Qed.

(** Writing through the reference to a node that holds [key]. *)
Lemma set_value_spec (m : table) (f : K -> option V) (key : K) (value : V) (pos : nat) :
  HashMap.wf hash m -> HashMap._entryCount m < 2 ^ 32 - 1 -> HashMap.agrees m f ->
  let idx := HashMap.index hash key (HashMap._binCount m) in
  HashMap.findNode key (HashMap.bin (HashMap._bins m) idx) = Some pos ->
  HashMap.wf hash (HashMap.set_value idx pos value m) /\
  HashMap.agrees (HashMap.set_value idx pos value m)
    (HashMap.ref_apply f (HashMap.Insert key value)).
Proof.
  intros Hwf He Hag idx Hfind.
  pose proof (HashMap_insert_core hash m f key value Hwf He Hag) as Hcore.
  cbn zeta in Hcore. fold idx in Hcore. rewrite Hfind in Hcore.
  destruct (HashMap_findNode_Some key _ pos Hfind) as (v0 & Hpos & _).
  unfold HashMap.set_value. by rewrite (alter_as_insert _ _ pos (key, v0) Hpos).
Qed.

Lemma agrees_ext (m : table) (f g : K -> option V) :
  (forall k, f k = g k) -> HashMap.agrees m f -> HashMap.agrees m g.
Proof. intros Hfg Hag k v. rewrite <- Hfg. apply Hag. Qed.

Lemma subscript_write_spec `{Inhabited V} (m : table) (key : K) (value : V) :
  HashMap.wf hash m -> HashMap.in_range m ->
  exists m',
    HashMap.subscript_write hash key value m = (Return tt, m') /\
    HashMap.wf hash m' /\
    HashMap.agrees m' (HashMap.ref_apply (assoc m) (HashMap.Insert key value)) /\
    HashMap._entryCount m' =
      HashMap._entryCount (HashMap.insert hash key value m).
Proof.
  intros Hwf Hr. pose proof Hr as [Hb He].
  pose proof (agrees_assoc m Hwf) as Hag.
  unfold HashMap.subscript_write.
  destruct (HashMap.findNode key
              (HashMap.bin (HashMap._bins m)
                 (HashMap.index hash key (HashMap._binCount m)))) as [pos|] eqn:Hfind.
  - eexists. split; [done|].
    destruct (set_value_spec m (assoc m) key value pos Hwf ltac:(lia) Hag Hfind)
      as [Hwf' Hag'].
    split; [done|]. split; [done|].
    cbn [HashMap.set_value HashMap._entryCount].
    (* insert finds the key too, before or after growing *)
    unfold HashMap.insert.
    set (m1 := if HashMap.over_occupied _ _ then HashMap.grow hash m else m).
    assert (HashMap.wf hash m1 /\ HashMap.entries m1 ≡ₚ HashMap.entries m /\
            HashMap._entryCount m1 = HashMap._entryCount m) as (Hwf1 & Hp1 & He1).
    { unfold m1. destruct (HashMap.over_occupied _ _); [|done].
      destruct (HashMap_grow_spec hash m Hwf Hb) as (? & _ & ? & ?). done. }
    assert (HashMap.contains hash key m1 = true) as Hc1.
    { apply (HashMap_contains_spec hash m1 key Hwf1). unfold HashMap.keys.
      rewrite Hp1. apply (HashMap_contains_spec hash m key Hwf).
      by rewrite contains_findNode, Hfind. }
    rewrite contains_findNode in Hc1.
    destruct (HashMap.findNode key
                (HashMap.bin (HashMap._bins m1)
                   (HashMap.index hash key (HashMap._binCount m1))));
      [simpl; by rewrite He1|done].
  - pose proof (insert_at_key m key inhabitant Hwf Hr) as Hat.
    destruct (HashMap_insert_step hash m (assoc m) key inhabitant Hwf Hr Hag)
      as [Hwf1 Hag1].
    rewrite at_findNode in Hat. cbn zeta in Hat.
    set (m1 := HashMap.insert hash key inhabitant m) in *.
    destruct (HashMap.findNode key
                (HashMap.bin (HashMap._bins m1)
                   (HashMap.index hash key (HashMap._binCount m1))))
      as [pos|] eqn:Hfind1; [|done].
    assert (HashMap._entryCount m1 = wrap32 (HashMap._entryCount m + 1) /\
            HashMap._entryCount (HashMap.insert hash key value m)
              = wrap32 (HashMap._entryCount m + 1)) as [He1 He2].
    { unfold m1, HashMap.insert.
      set (m0 := if HashMap.over_occupied _ _ then HashMap.grow hash m else m).
      assert (HashMap.wf hash m0 /\ HashMap.entries m0 ≡ₚ HashMap.entries m /\
              HashMap._entryCount m0 = HashMap._entryCount m) as (Hwf0 & Hp0 & He0).
      { unfold m0. destruct (HashMap.over_occupied _ _); [|done].
        destruct (HashMap_grow_spec hash m Hwf Hb) as (? & _ & ? & ?). done. }
      assert (HashMap.contains hash key m0 = false) as Hc0.
      { apply not_true_is_false. intros Hc.
        apply (HashMap_contains_spec hash m0 key Hwf0) in Hc. unfold HashMap.keys in Hc.
        rewrite Hp0 in Hc. apply (HashMap_contains_spec hash m key Hwf) in Hc.
        by rewrite contains_findNode, Hfind in Hc. }
      rewrite contains_findNode in Hc0.
      destruct (HashMap.findNode key
                  (HashMap.bin (HashMap._bins m0)
                     (HashMap.index hash key (HashMap._binCount m0)))); [done|].
      simpl. by rewrite He0. }
    pose proof (HashMap.wf_entries _ _ Hwf) as Hcount.
    rewrite (HashMap_wrap32_small (HashMap._entryCount m + 1)) in He1, He2 by lia.
    eexists. split; [done|].
    destruct (set_value_spec m1 _ key value pos Hwf1 ltac:(lia) Hag1 Hfind1)
      as [Hwf' Hag'].
    split; [done|]. split.
    + eapply agrees_ext; [|exact Hag']. intros k. simpl. by destruct (decide (k = key)).
    + cbn [HashMap.set_value HashMap._entryCount]. lia.
Qed.

(** *** find *)

Lemma find_spec (m : table) (key : K) :
  HashMap.wf hash m ->
  match HashMap.findNode key
          (HashMap.bin (HashMap._bins m)
             (HashMap.index hash key (HashMap._binCount m))) with
  | None => HashMap.is_end (HashMap.find hash key m) = true
  | Some pos =>
      exists l1 v l2,
        HashMap.entries m = l1 ++ (key, v) :: l2 /\
        HashMap._current (HashMap.find hash key m) =
          (key, v) :: drop (S pos)
                        (HashMap.bin (HashMap._bins m)
                           (HashMap.index hash key (HashMap._binCount m))) /\
        HashMap.remaining m (HashMap.find hash key m) = (key, v) :: l2 /\
        HashMap.at_ hash key m = Return v
  end.
Proof.
  intros Hwf. pose proof Hwf as [Hc Hlen _ _ _].
  unfold HashMap.find, HashMap.at_.
  set (idx := HashMap.index hash key (HashMap._binCount m)).
  set (c := HashMap.bin (HashMap._bins m) idx).
  destruct (HashMap.findNode key c) as [pos|] eqn:Hfind; [|done].
  destruct (HashMap_findNode_Some key c pos Hfind) as (v & Hpos & _).
  assert (idx < length (HashMap._bins m))%nat as Hidx.
  { rewrite Hlen. by apply HashMap_index_lt. }
  exists (concat (take idx (HashMap._bins m)) ++ take pos c), v,
    (drop (S pos) c ++ concat (drop (S idx) (HashMap._bins m))).
  rewrite Hpos. split; [|split; [|split]]; try done.
  - unfold HashMap.entries.
    rewrite (concat_lookup (HashMap._bins m) idx c)
      by (by apply HashMap_bin_lookup).
    rewrite <- (take_drop pos c) at 1. rewrite (drop_S c (key, v) pos Hpos).
    by rewrite <- !app_assoc.
  - cbn [HashMap._current]. by rewrite (drop_S c (key, v) pos Hpos).
  - unfold HashMap.remaining. cbn [HashMap._current HashMap._idx].
    rewrite (drop_S c (key, v) pos Hpos). by rewrite Nat2Z.id.
Qed.

(** *** copy *)

Lemma foldl_push (c acc : chain) : foldl (fun b n => n :: b) acc c = reverse c ++ acc.
Proof.
  revert acc. induction c as [|x c IH]; intros acc; [done|].
  simpl. rewrite IH, reverse_cons. by rewrite <- app_assoc.
Qed.

Lemma copy_bins (m : table) :
  HashMap.wf hash m -> HashMap._bins (HashMap.copy m) = reverse <$> HashMap._bins m.
Proof.
  intros [Hc Hlen _ _ _]. unfold HashMap.copy. cbn [HashMap._bins].
  apply list_eq. intros i. rewrite !list_lookup_fmap.
  destruct (decide (i < length (HashMap._bins m))%nat) as [Hi|Hi].
  - rewrite lookup_seq_lt by lia. simpl.
    rewrite (HashMap_bin_lookup (HashMap._bins m) i Hi). simpl.
    by rewrite foldl_push, app_nil_r.
  - rewrite lookup_seq_ge by lia. by rewrite lookup_ge_None_2 by lia.
Qed.

Lemma concat_reverse_perm (bins : list chain) : concat (reverse <$> bins) ≡ₚ concat bins.
Proof.
  induction bins as [|c bins IH]; [done|].
  simpl. by rewrite reverse_Permutation, IH.
Qed.

Lemma HashMap_copy_spec (m : table) :
  HashMap.wf hash m ->
  HashMap.wf hash (HashMap.copy m) /\
  HashMap.entries (HashMap.copy m) ≡ₚ HashMap.entries m.
Proof.
  intros Hwf. pose proof Hwf as [Hc Hlen Hplace Hnd Hcount].
  assert (HashMap.entries (HashMap.copy m) ≡ₚ HashMap.entries m) as Hperm.
  { unfold HashMap.entries. rewrite (copy_bins m Hwf). apply concat_reverse_perm. }
  split; [|done]. split.
  - done.
  - rewrite (copy_bins m Hwf), length_fmap. exact Hlen.
  - intros i c k v Hi Hin. rewrite (copy_bins m Hwf), list_lookup_fmap in Hi.
    destruct (HashMap._bins m !! i) as [c0|] eqn:Hc0; [|done].
    injection Hi as <-. rewrite elem_of_reverse in Hin.
    cbn [HashMap.copy HashMap._binCount]. by apply (Hplace i c0 k v).
  - unfold HashMap.keys. by rewrite Hperm.
  - cbn [HashMap.copy HashMap._entryCount]. rewrite Hcount. by rewrite Hperm.
Qed.

Lemma run_wf (ops : list (HashMap.op K V)) :
  HashMap.within hash HashMap.init ops ->
  HashMap.wf hash (HashMap.run hash ops) /\ HashMap.in_range (HashMap.run hash ops).
Proof.
  intros Hin.
  destruct (HashMap_foldl_spec hash ops HashMap.init (fun _ => None)
              (HashMap_init_wf hash) HashMap_init_agrees Hin) as (Hwf & _ & Hr).
  by split.
Qed.
End HashMapMore.

(** HashMap, iteration: on a table built by any sequence of [insert] and
    [erase] calls (counters within their types), the loop from [begin()]
    by [next()] until the iterator equals [end()] finishes and visits every
    stored entry exactly once: the keys visited are pairwise distinct,
    their number is [size()], and a pair (k, v) is visited exactly when
    [at(k)] returns [v]. *)
Theorem HashMap_iteration_visits_each_entry_once
    {K V : Type} `{EqDecision K} (hash : K -> Z) (ops : list (HashMap.op K V)) :
  HashMap.within hash HashMap.init ops ->
  let m := HashMap.run hash ops in
  exists l,
    HashMap.iterate m = Return l /\
    NoDup l.*1 /\
    Z.of_nat (length l) = HashMap.size m /\
    (forall k v, (k, v) ∈ l <-> HashMap.at_ hash k m = Return v).
Proof.
  intros Hin m. destruct (run_wf hash ops Hin) as [Hwf Hr]. fold m in Hwf, Hr.
  exists (HashMap.entries m).
  split; [apply (iterate_spec hash m Hwf), Hr|].
  split; [apply (HashMap.wf_nodup _ _ Hwf)|].
  split.
  - rewrite (HashMap_size_spec hash m Hwf Hr). unfold HashMap.keys.
    by rewrite length_fmap.
  - intros k v. by apply at_entries.
Qed.

Lemma HashMap_iteration_visits_each_entry_once_witness :
  let ops := [HashMap.Insert 1 10; HashMap.Insert 9 90; HashMap.Insert 3 30;
              HashMap.Erase 1; HashMap.Insert 11 110] in
  exists l,
    HashMap.iterate (HashMap.run id ops) = Return l /\
    NoDup l.*1 /\
    Z.of_nat (length l) = HashMap.size (HashMap.run id ops) /\
    (forall k v, (k, v) ∈ l <-> HashMap.at_ id k (HashMap.run id ops) = Return v).
Proof.
  intros ops.
  apply (HashMap_iteration_visits_each_entry_once id ops).
  vm_compute. repeat split.
Defined.

(** HashMap, [find]: on a table built by any sequence of [insert] and
    [erase] calls (counters within their types), [find(key)] equals
    [end()] when the key is not stored; when it is, the iterator stands on
    the entry of the key, [value()] is what [at(key)] returns, and walking
    on with [next()] visits exactly the entries that the full iteration
    visits after that entry. *)
Theorem HashMap_find_stands_on_key
    {K V : Type} `{EqDecision K} (hash : K -> Z) (ops : list (HashMap.op K V))
    (key : K) :
  HashMap.within hash HashMap.init ops ->
  let m := HashMap.run hash ops in
  let it := HashMap.find hash key m in
  (HashMap.contains hash key m = false -> HashMap.is_end it = true) /\
  (HashMap.contains hash key m = true ->
   exists l1 v l2,
     HashMap.iterate m = Return (l1 ++ (key, v) :: l2) /\
     HashMap.key it = Return key /\
     HashMap.value it = Return v /\
     HashMap.at_ hash key m = Return v /\
     HashMap.walk (S (length (HashMap.entries m))) m it = Return ((key, v) :: l2)).
Proof.
  intros Hin m it. destruct (run_wf hash ops Hin) as [Hwf Hr]. fold m in Hwf, Hr.
  pose proof (find_spec hash m key Hwf) as Hfind.
  rewrite contains_findNode.
  destruct (HashMap.findNode key _) as [pos|]; split; try done.
  intros _. destruct Hfind as (l1 & v & l2 & Hent & Hcur & Hrem & Hat).
  fold it in Hcur, Hrem.
  exists l1, v, l2.
  split; [by rewrite (iterate_spec hash m Hwf (proj1 Hr)), Hent|].
  unfold HashMap.key, HashMap.value. rewrite Hcur.
  split; [done|]. split; [done|]. split; [done|].
  rewrite (walk_spec hash m _ Hwf (proj1 Hr) it); [by rewrite Hrem| | |].
  - unfold it, HashMap.find.
    pose proof (HashMap_index_lt hash key (HashMap._binCount m)
                  (HashMap.wf_count _ _ Hwf)).
    destruct (HashMap.findNode key _); cbn [HashMap._idx]; lia.
  - unfold HashMap.is_end. by rewrite Hcur.
  - rewrite Hrem, Hent, length_app. simpl. lia.
Qed.

Lemma HashMap_find_stands_on_key_witness :
  let ops := [HashMap.Insert 1 10; HashMap.Insert 9 90; HashMap.Insert 3 30;
              HashMap.Erase 1; HashMap.Insert 11 110] in
  HashMap.is_end (HashMap.find id 1 (HashMap.run id ops)) = true /\
  exists l1 v l2,
    HashMap.iterate (HashMap.run id ops) = Return (l1 ++ (9, v) :: l2) /\
    HashMap.key (HashMap.find id 9 (HashMap.run id ops)) = Return 9 /\
    HashMap.value (HashMap.find id 9 (HashMap.run id ops)) = Return v /\
    HashMap.at_ id 9 (HashMap.run id ops) = Return v /\
    HashMap.walk (S (length (HashMap.entries (HashMap.run id ops))))
      (HashMap.run id ops) (HashMap.find id 9 (HashMap.run id ops))
      = Return ((9, v) :: l2).
Proof.
  intros ops.
  assert (HashMap.within id HashMap.init ops) as Hin by (vm_compute; repeat split).
  split.
  - by apply (HashMap_find_stands_on_key id ops 1 Hin).
  - by apply (HashMap_find_stands_on_key id ops 9 Hin).
Defined.

(** HashMap, [operator[]] as an rvalue: on a table built by any sequence
    of [insert] and [erase] calls (counters within their types), [m[key]]
    for a stored key returns what [at(key)] returns and leaves the table
    as it is; for a key that is not stored it leaves the table as
    [insert(key, V())] does and returns the default value. *)
Theorem HashMap_subscript_reads_or_inserts_default
    {K V : Type} `{EqDecision K} `{Inhabited V} (hash : K -> Z)
    (ops : list (HashMap.op K V)) (key : K) :
  HashMap.within hash HashMap.init ops ->
  let m := HashMap.run hash ops in
  (HashMap.contains hash key m = true ->
   HashMap.subscript hash key m = (HashMap.at_ hash key m, m) /\
   exists v, HashMap.at_ hash key m = Return v) /\
  (HashMap.contains hash key m = false ->
   HashMap.subscript hash key m
     = (Return inhabitant, HashMap.insert hash key inhabitant m) /\
   HashMap.at_ hash key (HashMap.insert hash key inhabitant m) = Return inhabitant).
Proof.
  intros Hin m. destruct (run_wf hash ops Hin) as [Hwf Hr]. fold m in Hwf, Hr.
  rewrite (subscript_spec hash m key Hwf Hr).
  split; intros Hc; rewrite Hc.
  - split; [done|].
    apply (HashMap_contains_spec hash m key Hwf) in Hc.
    apply list_elem_of_fmap in Hc as ([k v] & -> & Hkv).
    exists v. by apply (at_entries hash m k v Hwf).
  - split; [done|]. by apply insert_at_key.
Qed.

Lemma HashMap_subscript_reads_or_inserts_default_witness :
  let ops := [HashMap.Insert 1 10; HashMap.Insert 9 90; HashMap.Erase 1] in
  HashMap.subscript id 9 (HashMap.run id ops)
    = (HashMap.at_ id 9 (HashMap.run id ops), HashMap.run id ops) /\
  HashMap.subscript id 1 (HashMap.run id ops)
    = (Return inhabitant, HashMap.insert id 1 inhabitant (HashMap.run id ops)).
Proof.
  intros ops.
  assert (HashMap.within id HashMap.init ops) as Hin by (vm_compute; repeat split).
  destruct (HashMap_subscript_reads_or_inserts_default id ops 9 Hin) as [H9 _].
  destruct (HashMap_subscript_reads_or_inserts_default id ops 1 Hin) as [_ H1].
  split; [apply H9 | apply H1]; reflexivity.
Defined.

(** HashMap, [m[key] = value]: on a table built by any sequence of
    [insert] and [erase] calls (counters within their types), the
    assignment through [operator[]] returns and has the effect of
    [insert(key, value)]: afterwards [at(key)] returns [value], [at(x)]
    for every key [x] and [size()] are what they are after the insert. *)
Theorem HashMap_subscript_write_acts_as_insert
    {K V : Type} `{EqDecision K} `{Inhabited V} (hash : K -> Z)
    (ops : list (HashMap.op K V)) (key : K) (value : V) :
  HashMap.within hash HashMap.init ops ->
  let m := HashMap.run hash ops in
  exists m',
    HashMap.subscript_write hash key value m = (Return tt, m') /\
    HashMap.at_ hash key m' = Return value /\
    (forall x, HashMap.at_ hash x m' = HashMap.at_ hash x (HashMap.insert hash key value m)) /\
    HashMap.size m' = HashMap.size (HashMap.insert hash key value m).
Proof.
  intros Hin m. destruct (run_wf hash ops Hin) as [Hwf Hr]. fold m in Hwf, Hr.
  destruct (subscript_write_spec hash m key value Hwf Hr)
    as (m' & Hrun & Hwf' & Hag' & He').
  destruct (HashMap_insert_step hash m _ key value Hwf Hr (agrees_assoc hash m Hwf))
    as [Hwfi Hagi].
  exists m'. split; [done|].
  assert (forall x, HashMap.at_ hash x m' =
                    HashMap.at_ hash x (HashMap.insert hash key value m)) as Hsame
    by (by apply (at_agrees hash m' _ _ Hwf' Hag' Hwfi Hagi)).
  split; [|split; [done|]].
  - rewrite Hsame. by apply insert_at_key.
  - unfold HashMap.size. by rewrite He'.
Qed.

Lemma HashMap_subscript_write_acts_as_insert_witness :
  let ops := [HashMap.Insert 1 10; HashMap.Insert 9 90; HashMap.Erase 1] in
  exists m',
    HashMap.subscript_write id 9 91 (HashMap.run id ops) = (Return tt, m') /\
    HashMap.at_ id 9 m' = Return 91 /\
    (forall x, HashMap.at_ id x m' =
               HashMap.at_ id x (HashMap.insert id 9 91 (HashMap.run id ops))) /\
    HashMap.size m' = HashMap.size (HashMap.insert id 9 91 (HashMap.run id ops)).
Proof.
  intros ops.
  apply (HashMap_subscript_write_acts_as_insert id ops 9 91).
  vm_compute. repeat split.
Defined.

(** HashMap, copy constructor: the copy of a table built by any sequence
    of [insert] and [erase] calls (counters within their types) is a
    well-formed table with the same number of bins and the same [size()],
    in which every bin holds the nodes of the original bin in reverse
    order, and [at] and [contains] answer as on the original for every
    key. *)
Theorem HashMap_copy_keeps_the_associations
    {K V : Type} `{EqDecision K} (hash : K -> Z) (ops : list (HashMap.op K V)) :
  HashMap.within hash HashMap.init ops ->
  let m := HashMap.run hash ops in
  let c := HashMap.copy m in
  HashMap.wf hash c /\
  HashMap._bins c = reverse <$> HashMap._bins m /\
  HashMap._binCount c = HashMap._binCount m /\
  HashMap.size c = HashMap.size m /\
  (forall k, HashMap.at_ hash k c = HashMap.at_ hash k m) /\
  (forall k, HashMap.contains hash k c = HashMap.contains hash k m).
Proof.
  intros Hin m c. destruct (run_wf hash ops Hin) as [Hwf Hr]. fold m in Hwf, Hr.
  destruct (HashMap_copy_spec hash m Hwf) as [Hwfc Hperm]. fold c in Hwfc, Hperm.
  pose proof (agrees_assoc hash m Hwf) as Hag.
  pose proof (HashMap_agrees_perm m c _ Hperm Hag) as Hagc.
  split; [done|]. split; [by apply (copy_bins hash)|]. split; [done|]. split; [done|].
  assert (forall k, HashMap.at_ hash k c = HashMap.at_ hash k m) as Hat
    by (by apply (at_agrees hash c m _ Hwfc Hagc Hwf Hag)).
  split; [done|].
  intros k. pose proof (Hat k) as Hk. rewrite !at_findNode in Hk. cbn zeta in Hk.
  rewrite !contains_findNode.
  pose proof (HashMap_contains_spec hash c k Hwfc) as Hcc.
  pose proof (HashMap_contains_spec hash m k Hwf) as Hcm.
  unfold HashMap.keys in Hcc. rewrite Hperm in Hcc.
  rewrite !contains_findNode in Hcc, Hcm.
  destruct (HashMap.findNode k
              (HashMap.bin (HashMap._bins c)
                 (HashMap.index hash k (HashMap._binCount c)))),
           (HashMap.findNode k
              (HashMap.bin (HashMap._bins m)
                 (HashMap.index hash k (HashMap._binCount m)))); try done.
  - symmetry. apply Hcm, Hcc. done.
  - apply Hcc, Hcm. done.
Qed.

Lemma HashMap_copy_keeps_the_associations_witness :
  let ops := [HashMap.Insert 1 10; HashMap.Insert 9 90; HashMap.Insert 17 170] in
  let m := HashMap.run id ops in
  HashMap.size (HashMap.copy m) = HashMap.size m /\
  HashMap.at_ id 9 (HashMap.copy m) = HashMap.at_ id 9 m.
Proof.
  intros ops m.
  assert (HashMap.within id HashMap.init ops) as Hin by (vm_compute; repeat split).
  destruct (HashMap_copy_keeps_the_associations id ops Hin) as (_ & _ & _ & Hs & Hat & _).
  split; [exact Hs | exact (Hat 9)].
Defined.

(** * Properties of the array stack *)
Section StackFacts.
Context {T : Type} `{Inhabited T}.

Lemma wrap32_id (z : Z) : 0 <= z < 2 ^ 32 -> wrap32 z = z.
Proof. intros Hz. unfold wrap32. by rewrite Z.mod_small. Qed.

Lemma to_int_id (z : Z) : 0 <= z < 2 ^ 31 -> to_int z = z.
Proof.
  intros Hz. unfold to_int. destruct (Z.ltb_spec z (2 ^ 31)); [done|lia].
Qed.

Lemma Stack_copy_cells_nat (old fresh : list T) (n : nat) :
  (n <= length old)%nat -> (n <= length fresh)%nat ->
  let d := foldl (fun d i => <[i := old !!! i]> d) fresh (seq 0 n) in
  length d = length fresh /\ take n d = take n old.
Proof.
  induction n as [|n IH]; intros Ho Hf; cbn zeta.
  - split; [done|]. by rewrite !take_0.
  - rewrite seq_S, foldl_app. cbn [foldl Nat.add].
    destruct IH as [Hlen Htake]; [lia|lia|].
    split; [by rewrite length_insert|].
    destruct (lookup_lt_is_Some_2 old n) as [x Hx]; [lia|].
    rewrite (list_lookup_total_correct _ _ _ Hx).
    rewrite (take_S_r old n x Hx).
    rewrite (take_S_r _ n x) by (apply list_lookup_insert_eq; lia).
    f_equal. rewrite take_insert_ge by lia. exact Htake.
Qed.

Lemma Stack_copy_cells_spec (old fresh : list T) (n : Z) :
  0 <= n -> (Z.to_nat n <= length old)%nat -> (Z.to_nat n <= length fresh)%nat ->
  length (Stack.copy_cells old n fresh) = length fresh /\
  take (Z.to_nat n) (Stack.copy_cells old n fresh) = take (Z.to_nat n) old.
Proof. intros _ Ho Hf. by apply Stack_copy_cells_nat. Qed.

Lemma Stack_new_array_length (n : Z) : length (Stack.new_array (T := T) n) = Z.to_nat n.
Proof. unfold Stack.new_array. by rewrite length_replicate. Qed.

(** One [push]: the element goes on top; the array is doubled when it
    fills up. *)
Lemma Stack_push_spec (e : T) (s : Stack.t T) :
  Stack.ok s -> Stack._max s < 2 ^ 31 ->
  Stack.ok (Stack.push e s) /\
  Stack.elems (Stack.push e s) = Stack.elems s ++ [e] /\
  Stack._size (Stack.push e s) = Stack._size s + 1 /\
  (Stack._max (Stack.push e s) = Stack._max s \/
   Stack._max (Stack.push e s) = 2 * (Stack._size s + 1)).
Proof.
  intros ((Hs0 & Hsm) & Hlen) Hmax. unfold Stack.push.
  cbn [Stack._size Stack._max Stack._data].
  rewrite (wrap32_id (Stack._size s + 1)) by lia.
  assert (take (Z.to_nat (Stack._size s + 1))
            (<[Z.to_nat (Stack._size s) := e]> (Stack._data s))
          = Stack.elems s ++ [e]) as Htake.
  { replace (Z.to_nat (Stack._size s + 1)) with (S (Z.to_nat (Stack._size s))) by lia.
    rewrite (take_S_r _ _ e) by (apply list_lookup_insert_eq; lia).
    by rewrite take_insert_ge by lia. }
  destruct (Z.eqb_spec (Stack._size s + 1) (Stack._max s)) as [Hfull|Hroom].
  - unfold Stack.grow. cbn [Stack._size Stack._max Stack._data].
    rewrite (wrap32_id (Stack._max s * 2)) by lia.
    destruct (Stack_copy_cells_spec (<[Z.to_nat (Stack._size s) := e]> (Stack._data s))
                (Stack.new_array (Stack._max s * 2)) (Stack._size s + 1))
      as [Hl Ht]; [lia | rewrite length_insert; lia | rewrite Stack_new_array_length; lia |].
    unfold Stack.ok, Stack.elems. cbn [Stack._size Stack._max Stack._data].
    rewrite Hl, Stack_new_array_length, Ht, Htake. repeat split; lia.
  - unfold Stack.ok, Stack.elems. cbn [Stack._size Stack._max Stack._data].
    rewrite length_insert, Htake. repeat split; lia.
Qed.

Lemma Stack_elems_length (s : Stack.t T) :
  Stack.ok s -> length (Stack.elems s) = Z.to_nat (Stack._size s).
Proof.
  intros ((Hs0 & Hsm) & Hlen). unfold Stack.elems. rewrite length_take. lia.
Qed.

Lemma Stack_top_spec (s : Stack.t T) :
  Stack.ok s ->
  Stack.top s = match last (Stack.elems s) with
                | Some e => Return e
                | None => Throw EmptyStackException
                end.
Proof.
  intros Hok. pose proof (Stack_elems_length s Hok) as Hl.
  destruct Hok as ((Hs0 & Hsm) & Hlen).
  unfold Stack.top, Stack.empty. destruct (Z.eqb_spec (Stack._size s) 0) as [Hz|Hnz].
  - destruct (Stack.elems s); [done|]. simpl in Hl. lia.
  - rewrite last_lookup, Hl. unfold Stack.elems.
    rewrite lookup_take_lt by lia.
    replace (Z.to_nat (Stack._size s - 1)) with (Nat.pred (Z.to_nat (Stack._size s)))
      by lia.
    destruct (lookup_lt_is_Some_2 (Stack._data s) (Nat.pred (Z.to_nat (Stack._size s))))
      as [x Hx]; [lia|].
    by rewrite Hx, (list_lookup_total_correct _ _ _ Hx).
Qed.

Lemma Stack_pop_spec (s : Stack.t T) :
  Stack.ok s -> Stack._max s < 2 ^ 32 ->
  Stack.ok (Stack.pop s).2 /\
  Stack.elems (Stack.pop s).2 = removelast (Stack.elems s) /\
  Stack._max (Stack.pop s).2 = Stack._max s /\
  (Stack.pop s).1 = match Stack.elems s with
                    | [] => Throw EmptyStackException
                    | _ :: _ => Return tt
                    end.
Proof.
  intros Hok Hmax. pose proof (Stack_elems_length s Hok) as Hl.
  pose proof Hok as ((Hs0 & Hsm) & Hlen).
  unfold Stack.pop, Stack.empty. destruct (Z.eqb_spec (Stack._size s) 0) as [Hz|Hnz].
  - cbn [fst snd]. destruct (Stack.elems s) eqn:He; [|simpl in Hl; lia].
    done.
  - cbn [fst snd]. rewrite (wrap32_id (Stack._size s - 1)) by lia.
    unfold Stack.ok, Stack.elems in *. cbn [Stack._size Stack._max Stack._data].
    split; [lia|]. split; [|split; [done|]].
    + destruct (lookup_lt_is_Some_2 (Stack._data s) (Z.to_nat (Stack._size s - 1)))
        as [x Hx]; [lia|].
      replace (Z.to_nat (Stack._size s)) with (S (Z.to_nat (Stack._size s - 1))) by lia.
      rewrite (take_S_r _ _ x Hx). by rewrite removelast_last.
    + destruct (take (Z.to_nat (Stack._size s)) (Stack._data s)); [|done].
      simpl in Hl. lia.
Qed.

Lemma Stack_pop_size (s : Stack.t T) :
  Stack.ok s -> Stack._max s < 2 ^ 32 -> Stack._size (Stack.pop s).2 <= Stack._size s.
Proof.
  intros ((Hs0 & Hsm) & Hlen) Hmax. unfold Stack.pop, Stack.empty.
  destruct (Z.eqb_spec (Stack._size s) 0); cbn [snd Stack._size]; [lia|].
  rewrite wrap32_id; lia.
Qed.

Lemma Stack_apply_spec (s : Stack.t T) (o : Stack.op T) (n : Z) :
  Stack.ok s -> Stack._max s <= Z.max 10 (2 * n) -> Stack._size s <= n ->
  n < 2 ^ 30 ->
  Stack.ok (Stack.apply s o) /\
  Stack.elems (Stack.apply s o) = Stack.model_apply (Stack.elems s) o /\
  Stack._max (Stack.apply s o) <= Z.max 10 (2 * (n + 1)) /\
  Stack._size (Stack.apply s o) <= n + 1.
Proof.
  intros Hok Hmax Hsize Hn. destruct o as [e|]; cbn [Stack.apply Stack.model_apply].
  - destruct (Stack_push_spec e s Hok) as (Hok' & He & Hs & Hm); [lia|].
    split; [done|]. split; [done|]. split; [|lia]. destruct Hm as [->| ->]; lia.
  - destruct (Stack_pop_spec s Hok) as (Hok' & He & Hm & _); [lia|].
    split; [done|]. split; [done|]. rewrite Hm. split; [lia|].
    pose proof (Stack_pop_size s Hok). lia.
Qed.

Lemma Stack_foldl_spec (ops : list (Stack.op T)) :
  forall (s : Stack.t T) (n : Z),
  Stack.ok s -> Stack._max s <= Z.max 10 (2 * n) -> Stack._size s <= n ->
  n + Z.of_nat (length ops) < 2 ^ 30 + 1 -> 0 <= n ->
  let s' := foldl Stack.apply s ops in
  Stack.ok s' /\
  Stack.elems s' = foldl Stack.model_apply (Stack.elems s) ops /\
  Stack._max s' <= Z.max 10 (2 * (n + Z.of_nat (length ops))).
Proof.
  induction ops as [|o ops IH]; intros s n Hok Hmax Hsize Hn Hn0.
  - simpl. rewrite Z.add_0_r. done.
  - change (length (o :: ops)) with (S (length ops)) in *.
    rewrite Nat2Z.inj_succ in *. cbn [foldl]. cbn zeta.
    destruct (Stack_apply_spec s o n Hok Hmax Hsize) as (Hok' & He & Hm & Hs); [lia|].
    destruct (IH (Stack.apply s o) (n + 1) Hok' Hm Hs) as (Hok'' & He' & Hm');
      [lia|lia|].
    split; [done|]. rewrite <- He. split; [done|].
    by replace (n + Z.succ (Z.of_nat (length ops)))
      with (n + 1 + Z.of_nat (length ops)) by lia.
Qed.

Lemma Stack_init_ok : Stack.ok (Stack.init (T := T)).
Proof.
  unfold Stack.ok, Stack.init. cbn [Stack._size Stack._max Stack._data].
  rewrite Stack_new_array_length. unfold Stack.INITIAL_CAPACITY. lia.
Qed.

Lemma Stack_run_spec (ops : list (Stack.op T)) :
  Z.of_nat (length ops) < 2 ^ 30 ->
  Stack.ok (Stack.run ops) /\
  Stack.elems (Stack.run ops) = Stack.model ops /\
  Stack._max (Stack.run ops) <= Z.max 10 (2 * Z.of_nat (length ops)).
Proof.
  intros Hlen.
  destruct (Stack_foldl_spec ops Stack.init 0 Stack_init_ok) as (Hok & He & Hm);
    [unfold Stack.init, Stack.INITIAL_CAPACITY; simpl; lia | simpl; lia | lia | lia |].
  split; [done|]. split; [|done]. exact He.
Qed.

(** *** copy and comparison *)

Lemma Stack_copy_spec (s : Stack.t T) :
  Stack.ok s -> Stack._max s < 2 ^ 31 ->
  Stack.ok (Stack.copy s) /\
  Stack.elems (Stack.copy s) = Stack.elems s /\
  Stack._max (Stack.copy s) = Stack._size s + 10.
Proof.
  intros ((Hs0 & Hsm) & Hlen) Hmax. unfold Stack.copy, Stack.INITIAL_CAPACITY.
  rewrite (wrap32_id (Stack._size s + 10)) by lia.
  destruct (Stack_copy_cells_spec (Stack._data s) (Stack.new_array (Stack._size s + 10))
              (Stack._size s)) as [Hl Ht]; [lia | lia | rewrite Stack_new_array_length; lia |].
  unfold Stack.ok, Stack.elems. cbn [Stack._size Stack._max Stack._data].
  rewrite Hl, Stack_new_array_length, Ht. repeat split; lia.
Qed.

Lemma Stack_same_cells `{EqDecision T} (a b : list T) (n : nat) :
  foldl (fun (same : bool) i =>
           if same then bool_decide (a !!! i = b !!! i) else false)
        true (seq 0 n) = true
  <-> forall i, (i < n)%nat -> a !!! i = b !!! i.
Proof.
  induction n as [|n IH].
  - simpl. split; [intros _ i; lia|done].
  - rewrite seq_S, foldl_app. cbn [foldl Nat.add].
    destruct (foldl _ true (seq 0 n)) eqn:E.
    + rewrite bool_decide_eq_true. split.
      * intros Hn i Hi. destruct (decide (i = n)) as [->|]; [done|].
        apply IH; [done|lia].
      * intros Hall. apply Hall. lia.
    + split; [done|]. intros Hall.
      assert (false = true); [|done]. apply IH. intros i Hi. apply Hall. lia.
Qed.

Lemma Stack_eq_spec `{EqDecision T} (a b : Stack.t T) :
  Stack.ok a -> Stack.ok b ->
  (Stack.eq a b = true <-> Stack.elems a = Stack.elems b).
Proof.
  intros Ha Hb. pose proof (Stack_elems_length a Ha) as Hla.
  pose proof (Stack_elems_length b Hb) as Hlb.
  destruct Ha as ((Ha0 & Ham) & Hal), Hb as ((Hb0 & Hbm) & Hbl).
  unfold Stack.eq. case_bool_decide as Hsz.
  - split; [done|]. intros He. rewrite He in Hla. lia.
  - rewrite Stack_same_cells. unfold Stack.elems in *.
    rewrite <- Hsz. split.
    + intros Hall. apply list_eq. intros i.
      destruct (decide (i < Z.to_nat (Stack._size a))%nat) as [Hi|Hi].
      * rewrite !lookup_take_lt by done.
        destruct (lookup_lt_is_Some_2 (Stack._data a) i) as [x Hx]; [lia|].
        destruct (lookup_lt_is_Some_2 (Stack._data b) i) as [y Hy]; [lia|].
        pose proof (Hall i Hi) as Hxy.
        rewrite (list_lookup_total_correct _ _ _ Hx),
                (list_lookup_total_correct _ _ _ Hy) in Hxy.
        by rewrite Hx, Hy, Hxy.
      * by rewrite !lookup_take_ge by lia.
    + intros He i Hi.
      assert (take (Z.to_nat (Stack._size a)) (Stack._data a) !! i =
              take (Z.to_nat (Stack._size a)) (Stack._data b) !! i) as Hi'
        by (by rewrite He).
      rewrite !lookup_take_lt in Hi' by done.
      destruct (lookup_lt_is_Some_2 (Stack._data a) i) as [x Hx]; [lia|].
      destruct (lookup_lt_is_Some_2 (Stack._data b) i) as [y Hy]; [lia|].
      rewrite (list_lookup_total_correct _ _ _ Hx),
              (list_lookup_total_correct _ _ _ Hy).
      rewrite Hx, Hy in Hi'. by injection Hi'.
Qed.
End StackFacts.

Lemma Stack_observers_spec {T : Type} `{Inhabited T} (s : Stack.t T) :
  Stack.ok s -> Stack._max s <= 2 ^ 31 ->
  Stack.top s = match last (Stack.elems s) with
                | Some e => Return e
                | None => Throw EmptyStackException
                end /\
  Stack.size s = Z.of_nat (length (Stack.elems s)) /\
  (Stack.empty s = true <-> Stack.elems s = []).
Proof.
  intros Hok Hmax. pose proof (Stack_elems_length s Hok) as Hl.
  pose proof Hok as ((Hs0 & Hsm) & _).
  split; [by apply Stack_top_spec|]. split.
  - unfold Stack.size. rewrite to_int_id by lia. rewrite Hl, Z2Nat.id; lia.
  - unfold Stack.empty. destruct (Z.eqb_spec (Stack._size s) 0) as [Hz|Hnz].
    + split; [|done]. intros _. destruct (Stack.elems s); [done|]. simpl in Hl. lia.
    + split; [done|]. intros Hnil. rewrite Hnil in Hl. simpl in Hl. lia.
Qed.

(** Stack, last in first out: replay any sequence of fewer than 2^30
    [push] and [pop] calls on a list (push appends, pop drops the last
    element and does nothing on the empty list).  The stack then holds the
    elements of that list, bottom first: [top()] returns its last element
    or throws EmptyStackException when it is empty, [size()] is its length
    and [empty()] tells whether it is empty. *)
Theorem Stack_behaves_as_list {T : Type} `{Inhabited T} (ops : list (Stack.op T)) :
  Z.of_nat (length ops) < 2 ^ 30 ->
  let s := Stack.run ops in
  Stack.elems s = Stack.model ops /\
  Stack.top s = match last (Stack.model ops) with
                | Some e => Return e
                | None => Throw EmptyStackException
                end /\
  Stack.size s = Z.of_nat (length (Stack.model ops)) /\
  (Stack.empty s = true <-> Stack.model ops = []).
Proof.
  intros Hlen s. destruct (Stack_run_spec ops Hlen) as (Hok & He & Hm). fold s in Hok, He, Hm.
  destruct (Stack_observers_spec s Hok) as (Ht & Hs & Hem); [lia|].
  rewrite He in Ht, Hs, Hem. by repeat split; try apply Hem.
Qed.

Lemma Stack_behaves_as_list_witness :
  let ops := [Stack.Push 1; Stack.Push 2; Stack.Pop; Stack.Push 3] in
  Stack.elems (Stack.run ops) = Stack.model ops /\
  Stack.top (Stack.run ops) = match last (Stack.model ops) with
                              | Some e => Return e
                              | None => Throw EmptyStackException
                              end /\
  Stack.size (Stack.run ops) = Z.of_nat (length (Stack.model ops)) /\
  (Stack.empty (Stack.run ops) = true <-> Stack.model ops = []).
Proof.
  intros ops. apply (Stack_behaves_as_list (T := Z) ops). vm_compute. reflexivity.
Defined.

(** Stack, capacity: after any sequence of fewer than 2^30 [push] and
    [pop] calls the array has [_max] cells and fewer than [_max] of them
    are in use, so the next [push] writes inside the array; [_max] is at
    most the larger of 10 and twice the number of calls, so doubling it
    never wraps; and a [push] followed by [top()] returns the pushed
    element, followed by [pop()] gives back the elements as they were. *)
Theorem Stack_push_stays_within_the_array {T : Type} `{Inhabited T}
    (ops : list (Stack.op T)) (e : T) :
  Z.of_nat (length ops) < 2 ^ 30 ->
  let s := Stack.run ops in
  (0 <= Stack._size s < Stack._max s /\
   length (Stack._data s) = Z.to_nat (Stack._max s) /\
   Stack._max s <= Z.max 10 (2 * Z.of_nat (length ops))) /\
  Stack.top (Stack.push e s) = Return e /\
  Stack.size (Stack.push e s) = Stack.size s + 1 /\
  (Stack.pop (Stack.push e s)).1 = Return tt /\
  Stack.elems (Stack.pop (Stack.push e s)).2 = Stack.elems s.
Proof.
  intros Hlen s. destruct (Stack_run_spec ops Hlen) as (Hok & He & Hm). fold s in Hok, He, Hm.
  pose proof Hok as ((Hs0 & Hsm) & Hl).
  split; [done|].
  destruct (Stack_push_spec e s Hok) as (Hok' & He' & Hs' & Hm'); [lia|].
  pose proof Hok' as ((Hs0' & Hsm') & _).
  destruct (Stack_pop_spec (Stack.push e s) Hok') as (_ & Hep & _ & Hp1);
    [destruct Hm' as [->| ->]; lia|].
  split; [by rewrite (Stack_top_spec _ Hok'), He', last_snoc|].
  split; [unfold Stack.size; rewrite !to_int_id by lia; lia|].
  split.
  - rewrite Hp1, He'. by destruct (Stack.elems s).
  - by rewrite Hep, He', removelast_last.
Qed.

Lemma Stack_push_stays_within_the_array_witness :
  let s := Stack.run [Stack.Push 1; Stack.Push 2; Stack.Pop] in
  Stack.top (Stack.push 7 s) = Return 7 /\
  Stack.elems (Stack.pop (Stack.push 7 s)).2 = Stack.elems s.
Proof.
  intros s.
  destruct (Stack_push_stays_within_the_array (T := Z)
              [Stack.Push 1; Stack.Push 2; Stack.Pop] 7) as (_ & Ht & _ & _ & He).
  { vm_compute. reflexivity. }
  split; [exact Ht | exact He].
Defined.

(** Stack, copy and comparison: for stacks built by sequences of fewer
    than 2^30 [push] and [pop] calls, [operator==] holds exactly when the
    two stacks hold the same elements in the same order, whatever their
    capacities, and [operator!=] is its negation; the copy of a stack has
    capacity [size + 10], holds the same elements and compares equal to
    the original. *)
Theorem Stack_copy_and_comparison {T : Type} `{Inhabited T} `{EqDecision T}
    (ops1 ops2 : list (Stack.op T)) :
  Z.of_nat (length ops1) < 2 ^ 30 -> Z.of_nat (length ops2) < 2 ^ 30 ->
  let s1 := Stack.run ops1 in
  let s2 := Stack.run ops2 in
  (Stack.eq s1 s2 = true <-> Stack.elems s1 = Stack.elems s2) /\
  Stack.neq s1 s2 = negb (Stack.eq s1 s2) /\
  Stack.elems (Stack.copy s1) = Stack.elems s1 /\
  Stack._max (Stack.copy s1) = Stack._size s1 + 10 /\
  Stack.eq (Stack.copy s1) s1 = true /\
  Stack.eq s1 (Stack.copy s1) = true.
Proof.
  intros Hlen1 Hlen2 s1 s2.
  destruct (Stack_run_spec ops1 Hlen1) as (Hok1 & _ & Hm1). fold s1 in Hok1, Hm1.
  destruct (Stack_run_spec ops2 Hlen2) as (Hok2 & _ & _). fold s2 in Hok2.
  destruct (Stack_copy_spec s1 Hok1) as (Hokc & Hec & Hmc); [lia|].
  split; [by apply Stack_eq_spec|]. split; [done|]. split; [done|]. split; [done|].
  split; by apply Stack_eq_spec.
Qed.

Lemma Stack_copy_and_comparison_witness :
  let s1 := Stack.run [Stack.Push 1; Stack.Push 2; Stack.Pop; Stack.Push 3] in
  let s2 := Stack.run [Stack.Push 1; Stack.Push 3] in
  (Stack.eq s1 s2 = true <-> Stack.elems s1 = Stack.elems s2) /\
  Stack.eq (Stack.copy s1) s1 = true.
Proof.
  intros s1 s2.
  destruct (Stack_copy_and_comparison (T := Z)
              [Stack.Push 1; Stack.Push 2; Stack.Pop; Stack.Push 3]
              [Stack.Push 1; Stack.Push 3]) as (He & _ & _ & _ & Hc & _).
  { vm_compute. reflexivity. }
  { vm_compute. reflexivity. }
  split; [exact He | exact Hc].
Defined.

(** * Properties of the linked containers *)
Section MemFacts.
Context {N : Type}.

Lemma mem_read_alloc (n : N) (h : Mem.heap N) (q : positive) :
  Mem.read q (Mem.alloc n h).2 =
  if decide (Mem.brk h = q) then Some n else Mem.read q h.
Proof.
  unfold Mem.read, Mem.alloc. simpl. destruct (decide (Mem.brk h = q)) as [->|Hne].
  - by rewrite lookup_insert_eq.
  - by rewrite lookup_insert_ne.
Qed.

Lemma mem_read_write (p q : positive) (n : N) (h : Mem.heap N) :
  Mem.read q (Mem.write p n h) = if decide (p = q) then Some n else Mem.read q h.
Proof.
  unfold Mem.read, Mem.write. simpl. destruct (decide (p = q)) as [->|Hne].
  - by rewrite lookup_insert_eq.
  - by rewrite lookup_insert_ne.
Qed.

Lemma mem_read_dealloc (p q : positive) (h : Mem.heap N) :
  Mem.read q (Mem.dealloc p h) = if decide (p = q) then None else Mem.read q h.
Proof.
  unfold Mem.read, Mem.dealloc. simpl. destruct (decide (p = q)) as [->|Hne].
  - by rewrite lookup_delete_eq.
  - by rewrite lookup_delete_ne.
Qed.
End MemFacts.

Section CellFacts.
Context {T : Type}.

Lemma cells_same_address (cells : list (positive * T)) (i j : nat) (a : positive)
    (e e' : T) :
  NoDup cells.*1 -> cells !! i = Some (a, e) -> cells !! j = Some (a, e') -> i = j.
Proof.
  intros Hnd Hi Hj. apply (NoDup_lookup cells.*1 i j a Hnd).
  - by rewrite list_lookup_fmap, Hi.
  - by rewrite list_lookup_fmap, Hj.
Qed.

Lemma cells_address_elem (cells : list (positive * T)) (i : nat) (a : positive) (e : T) :
  cells !! i = Some (a, e) -> a ∈ cells.*1.
Proof.
  intros Hi. apply list_elem_of_fmap. exists (a, e). split; [done|].
  by apply (list_elem_of_lookup_2 _ i).
Qed.

Lemma final_lookup (cells : list (positive * T)) :
  Linked.final cells = fst <$> cells !! Nat.pred (length cells).
Proof. unfold Linked.final. by rewrite last_lookup. Qed.
Lemma addresses_bounded (l : list positive) (b : positive) :
  NoDup l -> (forall a, a ∈ l -> (a < b)%positive) -> (length l < Pos.to_nat b)%nat.
Proof.
  intros Hnd Hb.
  assert (Pos.to_nat <$> l ⊆+ seq 0 (Pos.to_nat b)) as Hsub.
  { apply NoDup_submseteq.
    - apply NoDup_fmap_2_strong; [|done]. intros x y _ _. apply Pos2Nat.inj.
    - intros n (a & -> & Ha)%list_elem_of_fmap. apply elem_of_seq.
      specialize (Hb a Ha). lia. }
  apply submseteq_length in Hsub. rewrite length_fmap, length_seq in Hsub.
  destruct l as [|a l]; [simpl; lia|].
  assert (Pos.to_nat <$> (a :: l) ⊆+ seq 1 (Nat.pred (Pos.to_nat b))) as Hsub'.
  { apply NoDup_submseteq.
    - apply NoDup_fmap_2_strong; [|done]. intros x y _ _. apply Pos2Nat.inj.
    - intros n (c & -> & Hc)%list_elem_of_fmap. apply elem_of_seq.
      specialize (Hb c Hc). lia. }
  apply submseteq_length in Hsub'. rewrite length_fmap, length_seq in Hsub'. lia.
Qed.
End CellFacts.

Section QueueFacts.
Context {T : Type}.
Local Abbreviation Node := (Queue.Node T).
Local Abbreviation chain := (Linked.chain (N := Node) Queue._elem Queue._next).

Lemma Queue_front_spec (q : Queue.t T) (cells : list (positive * T)) :
  Queue.rep q cells ->
  Queue.front q = match cells with
                  | [] => Throw EmptyQueueException
                  | (_, e) :: _ => Return e
                  end.
Proof.
  intros (Hch & _ & Hfirst & _). unfold Queue.front, Queue.empty. rewrite Hfirst.
  destruct cells as [|[a e] rest]; [done|].
  change (Linked.first ((a, e) :: rest)) with (Some a).
  destruct (Hch 0%nat a e eq_refl) as (n & -> & <- & _). done.
Qed.

Lemma Queue_pop_front_spec (q : Queue.t T) (cells : list (positive * T)) :
  Queue.rep q cells ->
  match cells with
  | [] => Queue.pop_front q = (Throw EmptyQueueException, q)
  | _ :: rest =>
      exists q', Queue.pop_front q = (Return tt, q') /\ Queue.rep q' rest
  end.
Proof.
  intros (Hch & (Hnd & Hall & Hbrk) & Hfirst & Hlast & Hsize).
  unfold Queue.pop_front, Queue.empty. rewrite Hfirst.
  destruct cells as [|[a e] rest]; [done|].
  change (Linked.first ((a, e) :: rest)) with (Some a).
  destruct (Hch 0%nat a e eq_refl) as (n & Hn & He & Hnext). rewrite Hn.
  eexists. split; [done|].
  assert (a ∉ rest.*1) as Ha by (by apply NoDup_cons_1_1 in Hnd).
  split; [|split; [|split; [|split]]]; cbn [Queue.nodes Queue._first Queue._last Queue._size].
  - intros i b x Hi. destruct (Hch (S i) b x Hi) as (nb & Hb & Hx & Hnb).
    exists nb. split; [|done]. rewrite mem_read_dealloc.
    rewrite decide_False; [done|]. intros ->. apply Ha.
    by apply (cells_address_elem rest i b x).
  - split; [by apply NoDup_cons_1_2 in Hnd|]. split.
    + intros b Hb. rewrite mem_read_dealloc in Hb.
      destruct (decide (a = b)) as [->|Hne]; [by destruct Hb|].
      specialize (Hall b Hb). rewrite fmap_cons in Hall.
      apply elem_of_cons in Hall as [->|]; done.
    + intros b Hb. apply Hbrk. rewrite fmap_cons. by right.
  - rewrite Hnext. unfold Linked.first. simpl. by destruct rest as [|[b x] rest'].
  - rewrite Hnext. simpl. destruct rest as [|[b x] rest']; [done|].
    rewrite Hlast. unfold Linked.final. by rewrite last_cons_cons.
  - rewrite Hsize. simpl. lia.
Qed.

Lemma Queue_push_back_spec (e : T) (q : Queue.t T) (cells : list (positive * T)) :
  Queue.rep q cells ->
  exists q', Queue.push_back e q = (Return tt, q') /\
             Queue.rep q' (cells ++ [(Mem.brk (Queue.nodes q), e)]).
Proof.
  intros (Hch & (Hnd & Hall & Hbrk) & Hfirst & Hlast & Hsize).
  set (new := Mem.brk (Queue.nodes q)).
  assert (new ∉ cells.*1) as Hnew.
  { intros Hin. specialize (Hbrk new Hin). unfold new in Hbrk. lia. }
  assert (Linked.final (cells ++ [(new, e)]) = Some new) as Hfinal.
  { unfold Linked.final. by rewrite last_snoc. }
  assert (NoDup (cells ++ [(new, e)]).*1) as Hnd'.
  { rewrite fmap_app. apply NoDup_app. split; [done|]. split.
    - intros x Hx [->|[]%elem_of_nil]%elem_of_cons. done.
    - apply NoDup_singleton. }
  unfold Queue.push_back. cbn [Mem.alloc]. fold new.
  set (h1 := Mem.Heap (<[new := Queue.MkNode e None]> (Mem.cells (Queue.nodes q)))
               (Pos.succ new)).
  assert (forall b, Mem.read b h1 =
            if decide (new = b) then Some (Queue.MkNode e None)
            else Mem.read b (Queue.nodes q)) as Hread1.
  { intros b. apply (mem_read_alloc (Queue.MkNode e None) (Queue.nodes q) b). }
  rewrite Hlast.
  destruct (Linked.final cells) as [l|] eqn:Hl.
  - (* a last node exists: it is linked to the new one *)
    rewrite final_lookup in Hl.
    destruct (cells !! Nat.pred (length cells)) as [[l' el]|] eqn:Hcl; [|done].
    injection Hl as ->.
    destruct (Hch _ l el Hcl) as (nl & Hnl & Hel & Hnextl).
    assert (l <> new) as Hlnew.
    { intros Heq. apply Hnew. rewrite <- Heq.
      by apply (cells_address_elem cells (Nat.pred (length cells)) l el). }
    rewrite Hread1, decide_False, Hnl by done.
    eexists. split; [done|].
    split; [|split; [|split; [|split]]];
      cbn [Queue.nodes Queue._first Queue._last Queue._size].
    + intros i a x Hi. rewrite mem_read_write, Hread1.
      destruct (decide (i < length cells)%nat) as [Hlt|Hge].
      * rewrite lookup_app_l in Hi by done.
        destruct (Hch i a x Hi) as (na & Hna & Hx & Hnexta).
        destruct (decide (l = a)) as [->|Hla].
        -- pose proof (cells_same_address cells _ _ a el x Hnd Hcl Hi) as <-.
           eexists. split; [done|]. simpl.
           rewrite Hnl in Hna. injection Hna as <-. split; [done|].
           replace (S (Nat.pred (length cells))) with (length cells) by lia.
           by rewrite lookup_app_r, Nat.sub_diag by lia.
        -- assert (new <> a) as Hna'.
           { intros Heq. apply Hnew. rewrite Heq.
             by apply (cells_address_elem cells i a x). }
           rewrite decide_False by done.
           exists na. split; [done|]. split; [done|]. rewrite Hnexta.
           destruct (decide (S i < length cells)%nat) as [Hlt'|Hge'].
           ++ by rewrite lookup_app_l by done.
           ++ exfalso. apply Hla.
              assert (i = Nat.pred (length cells)) as -> by lia.
              rewrite Hcl in Hi. by injection Hi.
      * rewrite lookup_app_r in Hi by lia.
        destruct (i - length cells)%nat as [|k] eqn:Hk; [|by destruct k].
        simpl in Hi. injection Hi as <- <-.
        rewrite decide_False by done. rewrite decide_True by done.
        eexists. split; [done|]. split; [done|]. simpl.
        by rewrite lookup_ge_None_2 by (rewrite length_app; simpl; lia).
    + split; [done|]. split.
      * intros b Hb. rewrite mem_read_write, Hread1 in Hb. rewrite fmap_app.
        apply elem_of_app.
        destruct (decide (l = b)) as [->|_].
        { left. by apply (cells_address_elem cells (Nat.pred (length cells)) b el). }
        destruct (decide (new = b)) as [->|_]; [right; by left|].
        left. by apply Hall.
      * intros b Hb. unfold h1. simpl. rewrite fmap_app in Hb.
        apply elem_of_app in Hb as [Hb|Hb].
        -- specialize (Hbrk b Hb). fold new in Hbrk. lia.
        -- apply list_elem_of_singleton in Hb as ->. simpl. lia.
    + rewrite Hfirst. destruct cells as [|[a x] rest]; [done|]. done.
    + done.
    + rewrite Hsize, length_app. simpl. lia.
  - (* the queue is empty *)
    assert (cells = []) as ->.
    { unfold Linked.final in Hl. destruct cells as [|c cells] using rev_ind; [done|].
      by rewrite last_snoc in Hl. }
    eexists. split; [done|]. simpl in Hfirst. rewrite Hfirst.
    split; [|split; [|split; [|split]]];
      cbn [Queue.nodes Queue._first Queue._last Queue._size app].
    + intros [|i] a x Hi; [|done]. injection Hi as <- <-.
      rewrite Hread1, decide_True by done. eexists. by split.
    + split; [done|]. split.
      * intros b Hb. rewrite Hread1 in Hb.
        destruct (decide (new = b)) as [->|_]; [by left|].
        apply Hall in Hb. by apply elem_of_nil in Hb.
      * intros b Hb. apply list_elem_of_singleton in Hb as ->. unfold h1. simpl. lia.
    + done.
    + done.
    + rewrite Hsize. simpl. lia.
Qed.

Lemma Queue_init_rep : Queue.rep (Queue.init (T := T)) [].
Proof.
  split; [by intros i a e ?|]. split; [|done].
  split; [constructor|]. split; [|by intros a ?%elem_of_nil].
  intros a [n Hn]. unfold Mem.read in Hn. simpl in Hn. by rewrite lookup_empty in Hn.
Qed.

Lemma Queue_apply_rep (q : Queue.t T) (cells : list (positive * T)) (o : Queue.op T) :
  Queue.rep q cells ->
  exists cells', Queue.rep (Queue.apply q o) cells' /\
                 cells'.*2 = Queue.model_apply cells.*2 o.
Proof.
  intros Hrep. destruct o as [e|]; cbn [Queue.apply Queue.model_apply].
  - destruct (Queue_push_back_spec e q cells Hrep) as (q' & Hq & Hrep').
    rewrite Hq. eexists. split; [exact Hrep'|]. by rewrite fmap_app.
  - pose proof (Queue_pop_front_spec q cells Hrep) as Hpop.
    destruct cells as [|c rest].
    + rewrite Hpop. by exists [].
    + destruct Hpop as (q' & Hq & Hrep'). rewrite Hq. by exists rest.
Qed.

Lemma Queue_foldl_rep (ops : list (Queue.op T)) :
  forall (q : Queue.t T) (cells : list (positive * T)),
  Queue.rep q cells ->
  exists cells', Queue.rep (foldl Queue.apply q ops) cells' /\
                 cells'.*2 = foldl Queue.model_apply cells.*2 ops.
Proof.
  induction ops as [|o ops IH]; intros q cells Hrep; [by exists cells|].
  destruct (Queue_apply_rep q cells o Hrep) as (cells1 & Hrep1 & He1).
  destruct (IH _ cells1 Hrep1) as (cells2 & Hrep2 & He2).
  exists cells2. split; [done|]. simpl. by rewrite <- He1.
Qed.

Lemma Queue_run_rep (ops : list (Queue.op T)) :
  exists cells, Queue.rep (Queue.run ops) cells /\ cells.*2 = Queue.model ops.
Proof. apply (Queue_foldl_rep ops Queue.init [] Queue_init_rep). Qed.

(** *** copy *)

Lemma chain_tail (h : Mem.heap Node) (c : positive * T) (rest : list (positive * T)) :
  chain h (c :: rest) None -> chain h rest None.
Proof. intros Hch i a e Hi. by apply (Hch (S i) a e). Qed.

(** One round of the loop of [copy] is a [push_back] on the copy. *)
Lemma Queue_copy_loop_spec (ho : Mem.heap Node) (rest : list (positive * T)) :
  forall (fuel : nat) (a : positive) (e : T) (cur : Node) (q : Queue.t T)
         (cells : list (positive * T)) (prev : positive),
  chain ho ((a, e) :: rest) None -> Mem.read a ho = Some cur ->
  Queue.rep q cells -> Queue._last q = Some prev ->
  (length rest <= fuel)%nat ->
  exists h' prev' cells',
    Queue.copy_loop fuel ho cur prev (Queue.nodes q) = Return (h', prev') /\
    Queue.rep (Queue.Build h' (Queue._first q) (Some prev')
                 (Queue._size q + Z.of_nat (length rest))) cells' /\
    cells'.*2 = cells.*2 ++ rest.*2.
Proof.
  induction rest as [|[b x] rest IH];
    intros fuel a e cur q cells prev Hch Hcur Hrep Hlast Hfuel.
  - destruct (Hch 0%nat a e eq_refl) as (n & Hn & _ & Hnext).
    rewrite Hcur in Hn. injection Hn as <-. simpl in Hnext.
    exists (Queue.nodes q), prev, cells.
    split; [destruct fuel; simpl; by rewrite Hnext|].
    split; [|by rewrite app_nil_r].
    destruct Hrep as (H1 & H2 & H3 & H4 & H5).
    split; [done|]. split; [done|]. split; [done|]. split; [by rewrite <- Hlast|].
    simpl. lia.
  - destruct (Hch 0%nat a e eq_refl) as (n & Hn & _ & Hnext).
    rewrite Hcur in Hn. injection Hn as <-. simpl in Hnext.
    destruct fuel as [|fuel]; [simpl in Hfuel; lia|].
    destruct (Hch 1%nat b x eq_refl) as (nb & Hnb & Hx & _).
    destruct (Queue_push_back_spec x q cells Hrep) as (q' & Hq & Hrep').
    unfold Queue.push_back in Hq. rewrite Hlast in Hq.
    cbn [Queue.copy_loop]. rewrite Hnext, Hnb, Hx.
    destruct (Mem.alloc (Queue.MkNode x None) (Queue.nodes q)) as [p h1] eqn:Halloc.
    destruct (Mem.read prev h1) as [pn|] eqn:Hpn; [|done].
    injection Hq as <-.
    destruct (IH fuel b x nb _ _ p (chain_tail ho _ _ Hch) Hnb Hrep' eq_refl)
      as (h' & prev' & cells' & Hloop & Hrep'' & He); [simpl in Hfuel; lia|].
    cbn [Queue.nodes] in Hloop. rewrite Hloop.
    exists h', prev', cells'. split; [done|]. split.
    + cbn [Queue._first Queue._size] in Hrep''.
      assert (Queue._first q = Linked.first cells) as Hf by apply Hrep.
      assert (Queue._last q = Linked.final cells) as Hl by apply Hrep.
      assert (match Queue._first q with Some f => Some f | None => Some p end
              = Queue._first q) as Hsame.
      { destruct (Queue._first q) eqn:E; [done|]. exfalso.
        rewrite Hf in E. rewrite Hlast in Hl.
        destruct cells; [done|done]. }
      rewrite Hsame in Hrep''.
      replace (Queue._size q + Z.of_nat (length ((b, x) :: rest)))
        with (Queue._size q + 1 + Z.of_nat (length rest)) by (simpl; lia).
      exact Hrep''.
    + rewrite He, fmap_app. simpl. by rewrite <- app_assoc.
Qed.

Lemma Queue_copy_spec (other : Queue.t T) (cells : list (positive * T)) :
  Queue.rep other cells ->
  exists q' cells',
    Queue.copy other = Return q' /\ Queue.rep q' cells' /\ cells'.*2 = cells.*2.
Proof.
  intros Hrep. pose proof Hrep as (Hch & (Hnd & Hall & Hbrk) & Hfirst & Hlast & Hsize).
  unfold Queue.copy, Queue.empty. rewrite Hfirst.
  destruct cells as [|[a e] rest].
  - exists Queue.init, []. split; [done|]. split; [apply Queue_init_rep|done].
  - change (Linked.first ((a, e) :: rest)) with (Some a).
    destruct (Hch 0%nat a e eq_refl) as (n & Hn & He & _). rewrite Hn.
    destruct (Queue_push_back_spec e Queue.init [] Queue_init_rep) as (q0 & Hq0 & Hrep0).
    unfold Queue.push_back in Hq0. cbn in Hq0. injection Hq0 as <-.
    rewrite He. cbn [Mem.alloc Mem.empty Mem.cells Mem.brk].
    destruct (Queue_copy_loop_spec (Queue.nodes other) rest
                (Pos.to_nat (Mem.brk (Queue.nodes other))) a e n _ _ 1%positive
                Hch Hn Hrep0 eq_refl)
      as (h' & prev' & cells' & Hloop & Hrep' & He').
    { pose proof (addresses_bounded _ _ Hnd Hbrk) as Hlen.
      rewrite length_fmap in Hlen. simpl in Hlen. lia. }
    cbn [Queue.nodes] in Hloop. rewrite Hloop. cbn [obind].
    eexists _, cells'. split; [done|]. split; [|by rewrite He'].
    cbn [Queue._first Queue._size] in Hrep'.
    destruct Hrep' as (H1 & H2 & H3 & H4 & H5).
    split; [done|]. split; [done|]. split; [done|]. split; [done|].
    cbn [Queue._size]. rewrite Hsize.
    assert (length cells' = length ((a, e) :: rest)) as ->; [|done].
    rewrite <- (length_fmap snd cells'), He'. simpl. by rewrite length_fmap.
Qed.

(** *** comparison *)

Lemma first_cons (a : positive) (e : T) (rest : list (positive * T)) :
  Linked.first ((a, e) :: rest) = Some a.
Proof. done. Qed.

Lemma next_is_first (rest : list (positive * T)) :
  match rest !! 0%nat with Some (b, _) => Some b | None => None end = Linked.first rest.
Proof. by destruct rest as [|[b x] rest]. Qed.

Lemma Queue_eq_loop_spec `{EqDecision T} (h1 h2 : Mem.heap Node)
    (c1 : list (positive * T)) :
  forall (c2 : list (positive * T)) (fuel : nat),
  chain h1 c1 None -> chain h2 c2 None -> length c1 = length c2 ->
  (length c1 <= fuel)%nat ->
  Queue.eq_loop fuel h1 h2 (Linked.first c1) (Linked.first c2)
    = Return (bool_decide (c1.*2 = c2.*2)).
Proof.
  induction c1 as [|[a1 e1] c1 IH]; intros [|[a2 e2] c2] fuel H1 H2 Hlen Hfuel;
    try done.
  - by destruct fuel.
  - destruct fuel as [|fuel]; [simpl in Hfuel; lia|].
    rewrite !first_cons. cbn [Queue.eq_loop].
    destruct (H1 0%nat a1 e1 eq_refl) as (n1 & -> & He1 & Hn1).
    destruct (H2 0%nat a2 e2 eq_refl) as (n2 & -> & He2 & Hn2).
    rewrite He1, He2. case_bool_decide as Hne.
    + rewrite bool_decide_eq_false_2; [done|]. simpl. congruence.
    + rewrite Hn1, Hn2.
      change (((a1, e1) :: c1) !! 1%nat) with (c1 !! 0%nat).
      change (((a2, e2) :: c2) !! 1%nat) with (c2 !! 0%nat).
      rewrite !next_is_first.
      rewrite (IH c2 fuel (chain_tail _ _ _ H1) (chain_tail _ _ _ H2))
        by (simpl in *; lia).
      f_equal. apply bool_decide_ext. rewrite !fmap_cons. cbn [snd].
      split; [intros ->; congruence | by intros [= _ ->]].
Qed.

Lemma Queue_eq_spec `{EqDecision T} (a b : Queue.t T) (ca cb : list (positive * T)) :
  Queue.rep a ca -> Queue.rep b cb ->
  Queue.eq a b = Return (bool_decide (ca.*2 = cb.*2)).
Proof.
  intros (Hcha & (Hnda & _ & Hbrka) & Hfa & _ & Hsa) (Hchb & _ & Hfb & _ & Hsb).
  unfold Queue.eq. rewrite Hsa, Hsb. case_bool_decide as Hne.
  - rewrite bool_decide_eq_false_2; [done|]. intros Heq. apply Hne.
    by rewrite <- (length_fmap snd ca), Heq, length_fmap.
  - apply Nat2Z.inj in Hne.
    rewrite Hfa, Hfb. apply Queue_eq_loop_spec; try done.
    pose proof (addresses_bounded _ _ Hnda Hbrka) as Hlen.
    rewrite length_fmap in Hlen. lia.
Qed.
End QueueFacts.

Lemma Queue_model_length {T : Type} (ops : list (Queue.op T)) (l : list T) :
  (length (foldl Queue.model_apply l ops) <= length l + length ops)%nat.
Proof.
  revert l. induction ops as [|o ops IH]; intros l; [simpl; lia|].
  simpl. specialize (IH (Queue.model_apply l o)).
  assert (length (Queue.model_apply l o) <= S (length l))%nat; [|lia].
  destruct o; simpl; [rewrite length_app; simpl; lia|].
  destruct l; simpl; lia.
Qed.

(** Queue, first in first out: replay any sequence of fewer than 2^31
    [push_back] and [pop_front] calls on a list (push_back appends,
    pop_front drops the head and does nothing on the empty list).  The
    queue then consists of one node per element of that list, linked in
    that order from [_first] to [_last], and its store holds no other
    node; [front()] returns the head of the list or throws
    EmptyQueueException when it is empty, [size()] is its length, within
    [int], and [empty()] tells whether it is empty. *)
Theorem Queue_behaves_as_list {T : Type} (ops : list (Queue.op T)) :
  Z.of_nat (length ops) < 2 ^ 31 ->
  let q := Queue.run ops in
  (exists cells, Queue.rep q cells /\ cells.*2 = Queue.model ops) /\
  Queue.front q = match Queue.model ops with
                  | [] => Throw EmptyQueueException
                  | e :: _ => Return e
                  end /\
  Queue.size q = Z.of_nat (length (Queue.model ops)) /\
  0 <= Queue.size q < 2 ^ 31 /\
  (Queue.empty q = true <-> Queue.model ops = []).
Proof.
  intros Hlen q. destruct (Queue_run_rep ops) as (cells & Hrep & He). fold q in Hrep.
  pose proof (Queue_model_length ops []) as Hml. fold (Queue.model ops) in Hml.
  simpl in Hml.
  assert (Queue.size q = Z.of_nat (length (Queue.model ops))) as Hsize.
  { unfold Queue.size. destruct Hrep as (_ & _ & _ & _ & ->).
    by rewrite <- He, length_fmap. }
  split; [by exists cells|]. split; [|split; [done|split; [lia|]]].
  - rewrite (Queue_front_spec q cells Hrep), <- He. by destruct cells as [|[a e] rest].
  - unfold Queue.empty. destruct Hrep as (_ & _ & -> & _). rewrite <- He.
    by destruct cells as [|[a e] rest].
Qed.

Lemma Queue_behaves_as_list_witness :
  let ops := [Queue.PushBack 1; Queue.PushBack 2; Queue.PopFront; Queue.PushBack 3] in
  Queue.front (Queue.run ops) = Return 2 /\
  Queue.size (Queue.run ops) = 2.
Proof.
  intros ops.
  destruct (Queue_behaves_as_list (T := Z) ops) as (_ & Hf & Hs & _).
  { vm_compute. reflexivity. }
  split; [exact Hf | exact Hs].
Defined.

(** Queue, copy and comparison: for queues built by any sequences of
    fewer than 2^31 [push_back] and [pop_front] calls each, the counters
    [_size] of both are within [int]; [operator==] returns, and returns
    true exactly when the two queues hold the same elements in the same
    order; the copy constructor returns a queue of fresh nodes with the
    same elements, which compares equal to the original and has the same
    [front()] and [size()]. *)
Theorem Queue_copy_and_comparison {T : Type} `{EqDecision T}
    (ops1 ops2 : list (Queue.op T)) :
  Z.of_nat (length ops1) < 2 ^ 31 ->
  Z.of_nat (length ops2) < 2 ^ 31 ->
  let q1 := Queue.run ops1 in
  let q2 := Queue.run ops2 in
  (0 <= Queue.size q1 < 2 ^ 31 /\ 0 <= Queue.size q2 < 2 ^ 31) /\
  Queue.eq q1 q2 = Return (bool_decide (Queue.model ops1 = Queue.model ops2)) /\
  exists c cells,
    Queue.copy q1 = Return c /\
    Queue.rep c cells /\ cells.*2 = Queue.model ops1 /\
    Queue.eq c q1 = Return true /\
    Queue.front c = Queue.front q1 /\
    Queue.size c = Queue.size q1.
Proof.
  intros Hlen1 Hlen2 q1 q2.
  destruct (Queue_run_rep ops1) as (c1 & Hrep1 & He1). fold q1 in Hrep1.
  destruct (Queue_run_rep ops2) as (c2 & Hrep2 & He2). fold q2 in Hrep2.
  split.
  { pose proof (Queue_model_length ops1 []) as Hm1. fold (Queue.model ops1) in Hm1.
    pose proof (Queue_model_length ops2 []) as Hm2. fold (Queue.model ops2) in Hm2.
    simpl in Hm1, Hm2. rewrite <- He1, length_fmap in Hm1.
    rewrite <- He2, length_fmap in Hm2. unfold Queue.size.
    destruct Hrep1 as (_ & _ & _ & _ & ->). destruct Hrep2 as (_ & _ & _ & _ & ->).
    lia. }
  split; [by rewrite (Queue_eq_spec q1 q2 c1 c2 Hrep1 Hrep2), He1, He2|].
  destruct (Queue_copy_spec q1 c1 Hrep1) as (c & cells & Hc & Hrepc & Hec).
  exists c, cells. split; [done|]. split; [done|]. split; [by rewrite Hec|].
  split; [|split].
  - rewrite (Queue_eq_spec c q1 cells c1 Hrepc Hrep1), Hec.
    by rewrite bool_decide_eq_true_2.
  - rewrite (Queue_front_spec c cells Hrepc), (Queue_front_spec q1 c1 Hrep1).
    destruct cells as [|[a e] rest], c1 as [|[a' e'] rest']; try done.
    simpl in Hec. by injection Hec as ->.
  - unfold Queue.size. destruct Hrepc as (_ & _ & _ & _ & ->).
    destruct Hrep1 as (_ & _ & _ & _ & ->).
    by rewrite <- (length_fmap snd cells), Hec, length_fmap.
Qed.

Lemma Queue_copy_and_comparison_witness :
  let ops1 := [Queue.PushBack 1; Queue.PushBack 2; Queue.PopFront; Queue.PushBack 3] in
  let ops2 := [Queue.PushBack 2; Queue.PushBack 3] in
  Queue.eq (Queue.run ops1) (Queue.run ops2) = Return true /\
  exists c, Queue.copy (Queue.run ops1) = Return c /\
            Queue.eq c (Queue.run ops1) = Return true.
Proof.
  intros ops1 ops2.
  assert (H1 : Z.of_nat (length ops1) < 2 ^ 31) by (vm_compute; reflexivity).
  assert (H2 : Z.of_nat (length ops2) < 2 ^ 31) by (vm_compute; reflexivity).
  destruct (Queue_copy_and_comparison (T := Z) ops1 ops2 H1 H2)
    as (_ & Heq & c & cells & Hc & _ & _ & Hceq & _).
  split; [exact Heq|]. exists c. split; [exact Hc | exact Hceq].
Defined.

(** * Properties of the linked stack *)
Section LinkedListStackFacts.
Context {T : Type}.
Local Abbreviation Node := (LinkedListStack.Node T).
Local Abbreviation chain :=
  (Linked.chain (N := Node) LinkedListStack._elem LinkedListStack._next).

Lemma LLStack_init_rep : LinkedListStack.rep (LinkedListStack.init (T := T)) [].
Proof.
  split; [by intros i a e ?|]. split; [|done].
  split; [constructor|]. split; [|by intros a ?%elem_of_nil].
  intros a [n Hn]. unfold Mem.read in Hn. simpl in Hn. by rewrite lookup_empty in Hn.
Qed.

Lemma LLStack_top_spec (s : LinkedListStack.t T) (cells : list (positive * T)) :
  LinkedListStack.rep s cells ->
  LinkedListStack.top s = match cells with
                          | [] => Throw EmptyStackException
                          | (_, e) :: _ => Return e
                          end.
Proof.
  intros (Hch & _ & Htop & _). unfold LinkedListStack.top, LinkedListStack.empty.
  rewrite Htop. destruct cells as [|[a e] rest]; [done|].
  change (Linked.first ((a, e) :: rest)) with (Some a).
  destruct (Hch 0%nat a e eq_refl) as (n & -> & <- & _). done.
Qed.

Lemma LLStack_push_spec (e : T) (s : LinkedListStack.t T)
    (cells : list (positive * T)) :
  LinkedListStack.rep s cells ->
  LinkedListStack.rep (LinkedListStack.push e s)
    ((Mem.brk (LinkedListStack.nodes s), e) :: cells).
Proof.
  intros (Hch & (Hnd & Hall & Hbrk) & Htop & Hsize).
  set (new := Mem.brk (LinkedListStack.nodes s)).
  assert (new ∉ cells.*1) as Hnew.
  { intros Hin. specialize (Hbrk new Hin). unfold new in Hbrk. lia. }
  unfold LinkedListStack.push.
  pose proof (mem_read_alloc (LinkedListStack.MkNode e (LinkedListStack._top s))
                (LinkedListStack.nodes s)) as Hread.
  cbn [Mem.alloc snd] in *. fold new in Hread |- *.
  set (h := Mem.Heap _ (Pos.succ new)) in *.
  assert (Mem.brk h = Pos.succ new) as Hbrk' by done.
  split; [|split; [|split]];
    cbn [LinkedListStack.nodes LinkedListStack._top LinkedListStack._size].
  - intros [|i] a x Hi.
    + injection Hi as <- <-. rewrite Hread, decide_True by done.
      eexists. split; [done|]. split; [done|]. simpl. rewrite Htop.
      by destruct cells as [|[b y] rest].
    + simpl in Hi. destruct (Hch i a x Hi) as (n & Hn & Hx & Hnext).
      exists n. split; [|done]. rewrite Hread, decide_False; [done|].
      intros Heq. apply Hnew. rewrite Heq. by apply (cells_address_elem cells i a x).
  - split; [rewrite fmap_cons; by apply NoDup_cons_2|]. split.
    + intros b Hb. rewrite Hread in Hb. rewrite fmap_cons.
      destruct (decide (new = b)) as [->|_]; [by left|]. right. by apply Hall.
    + intros b Hb. rewrite Hbrk'. rewrite fmap_cons in Hb.
      apply elem_of_cons in Hb as [->|Hb]; [simpl; lia|].
      specialize (Hbrk b Hb). fold new in Hbrk. lia.
  - done.
  - rewrite Hsize. simpl. lia.
Qed.

Lemma LLStack_pop_spec (s : LinkedListStack.t T) (cells : list (positive * T)) :
  LinkedListStack.rep s cells ->
  match cells with
  | [] => LinkedListStack.pop s = (Throw EmptyStackException, s)
  | _ :: rest =>
      exists s', LinkedListStack.pop s = (Return tt, s') /\ LinkedListStack.rep s' rest
  end.
Proof.
  intros (Hch & (Hnd & Hall & Hbrk) & Htop & Hsize).
  unfold LinkedListStack.pop, LinkedListStack.empty. rewrite Htop.
  destruct cells as [|[a e] rest]; [done|].
  change (Linked.first ((a, e) :: rest)) with (Some a).
  destruct (Hch 0%nat a e eq_refl) as (n & Hn & He & Hnext). rewrite Hn.
  eexists. split; [done|].
  assert (a ∉ rest.*1) as Ha by (by apply NoDup_cons_1_1 in Hnd).
  split; [|split; [|split]];
    cbn [LinkedListStack.nodes LinkedListStack._top LinkedListStack._size].
  - intros i b x Hi. destruct (Hch (S i) b x Hi) as (nb & Hb & Hx & Hnb).
    exists nb. split; [|done]. rewrite mem_read_dealloc.
    rewrite decide_False; [done|]. intros ->. apply Ha.
    by apply (cells_address_elem rest i b x).
  - split; [by apply NoDup_cons_1_2 in Hnd|]. split.
    + intros b Hb. rewrite mem_read_dealloc in Hb.
      destruct (decide (a = b)) as [->|Hne]; [by destruct Hb|].
      specialize (Hall b Hb). rewrite fmap_cons in Hall.
      apply elem_of_cons in Hall as [->|]; done.
    + intros b Hb. apply Hbrk. rewrite fmap_cons. by right.
  - rewrite Hnext. unfold Linked.first. simpl. by destruct rest as [|[b x] rest'].
  - rewrite Hsize. simpl. lia.
Qed.

Lemma reverse_tail (l : list T) : reverse (tail l) = removelast (reverse l).
Proof.
  destruct l as [|x l]; [done|]. simpl. rewrite reverse_cons.
  by rewrite removelast_last.
Qed.

Lemma LLStack_apply_rep (s : LinkedListStack.t T) (cells : list (positive * T))
    (o : Stack.op T) :
  LinkedListStack.rep s cells ->
  exists cells', LinkedListStack.rep (LinkedListStack.apply s o) cells' /\
                 reverse cells'.*2 = Stack.model_apply (reverse cells.*2) o.
Proof.
  intros Hrep. destruct o as [e|]; cbn [LinkedListStack.apply Stack.model_apply].
  - eexists. split; [by apply LLStack_push_spec|]. by rewrite fmap_cons, reverse_cons.
  - pose proof (LLStack_pop_spec s cells Hrep) as Hpop.
    destruct cells as [|c rest].
    + rewrite Hpop. by exists [].
    + destruct Hpop as (s' & Hs & Hrep'). rewrite Hs. exists rest.
      split; [done|]. by rewrite <- reverse_tail.
Qed.

Lemma LLStack_foldl_rep (ops : list (Stack.op T)) :
  forall (s : LinkedListStack.t T) (cells : list (positive * T)),
  LinkedListStack.rep s cells ->
  exists cells', LinkedListStack.rep (foldl LinkedListStack.apply s ops) cells' /\
                 reverse cells'.*2 = foldl Stack.model_apply (reverse cells.*2) ops.
Proof.
  induction ops as [|o ops IH]; intros s cells Hrep; [by exists cells|].
  destruct (LLStack_apply_rep s cells o Hrep) as (cells1 & Hrep1 & He1).
  destruct (IH _ cells1 Hrep1) as (cells2 & Hrep2 & He2).
  exists cells2. split; [done|]. simpl. by rewrite <- He1.
Qed.

Lemma LLStack_run_rep (ops : list (Stack.op T)) :
  exists cells, LinkedListStack.rep (LinkedListStack.run ops) cells /\
                reverse cells.*2 = Stack.model ops.
Proof. apply (LLStack_foldl_rep ops LinkedListStack.init [] LLStack_init_rep). Qed.

Lemma LLStack_chain_tail (h : Mem.heap Node) (c : positive * T)
    (rest : list (positive * T)) :
  chain h (c :: rest) None -> chain h rest None.
Proof. intros Hch i a e Hi. by apply (Hch (S i) a e). Qed.

Lemma LLStack_eq_loop_spec `{EqDecision T} (h1 h2 : Mem.heap Node)
    (c1 : list (positive * T)) :
  forall (c2 : list (positive * T)) (fuel : nat),
  chain h1 c1 None -> chain h2 c2 None -> length c1 = length c2 ->
  (length c1 <= fuel)%nat ->
  LinkedListStack.eq_loop fuel h1 h2 (Linked.first c1) (Linked.first c2)
    = Return (bool_decide (c1.*2 = c2.*2)).
Proof.
  induction c1 as [|[a1 e1] c1 IH]; intros [|[a2 e2] c2] fuel H1 H2 Hlen Hfuel;
    try done.
  - by destruct fuel.
  - destruct fuel as [|fuel]; [simpl in Hfuel; lia|].
    change (Linked.first ((a1, e1) :: c1)) with (Some a1).
    change (Linked.first ((a2, e2) :: c2)) with (Some a2).
    cbn [LinkedListStack.eq_loop].
    destruct (H1 0%nat a1 e1 eq_refl) as (n1 & -> & He1 & Hn1).
    destruct (H2 0%nat a2 e2 eq_refl) as (n2 & -> & He2 & Hn2).
    rewrite He1, He2. case_bool_decide as Hne.
    + rewrite bool_decide_eq_false_2; [done|]. simpl. congruence.
    + rewrite Hn1, Hn2.
      change (((a1, e1) :: c1) !! 1%nat) with (c1 !! 0%nat).
      change (((a2, e2) :: c2) !! 1%nat) with (c2 !! 0%nat).
      rewrite !next_is_first.
      rewrite (IH c2 fuel (LLStack_chain_tail _ _ _ H1) (LLStack_chain_tail _ _ _ H2))
        by (simpl in *; lia).
      f_equal. apply bool_decide_ext. rewrite !fmap_cons. cbn [snd].
      split; [intros ->; congruence | by intros [= _ ->]].
Qed.

Lemma LLStack_eq_spec `{EqDecision T} (a b : LinkedListStack.t T)
    (ca cb : list (positive * T)) :
  LinkedListStack.rep a ca -> LinkedListStack.rep b cb ->
  LinkedListStack.eq a b = Return (bool_decide (ca.*2 = cb.*2)).
Proof.
  intros (Hcha & (Hnda & _ & Hbrka) & Hfa & Hsa) (Hchb & _ & Hfb & Hsb).
  unfold LinkedListStack.eq. rewrite Hsa, Hsb. case_bool_decide as Hne.
  - rewrite bool_decide_eq_false_2; [done|]. intros Heq. apply Hne.
    by rewrite <- (length_fmap snd ca), Heq, length_fmap.
  - apply Nat2Z.inj in Hne.
    rewrite Hfa, Hfb. apply LLStack_eq_loop_spec; try done.
    pose proof (addresses_bounded _ _ Hnda Hbrka) as Hlen.
    rewrite length_fmap in Hlen. lia.
Qed.
End LinkedListStackFacts.

Lemma Stack_model_length {T : Type} (ops : list (Stack.op T)) (l : list T) :
  (length (foldl Stack.model_apply l ops) <= length l + length ops)%nat.
Proof.
  revert l. induction ops as [|o ops IH]; intros l; [simpl; lia|].
  simpl. specialize (IH (Stack.model_apply l o)).
  assert (length (Stack.model_apply l o) <= S (length l))%nat; [|lia].
  destruct o; simpl; [rewrite length_app; simpl; lia|].
  destruct l as [|x l] using rev_ind; [simpl; lia|].
  rewrite removelast_last, length_app. simpl. lia.
Qed.

Lemma last_reverse_head {T : Type} (l : list T) : last (reverse l) = head l.
Proof. destruct l as [|x l]; [done|]. by rewrite reverse_cons, last_snoc. Qed.

Lemma LLStack_observers_spec {T : Type} (s : LinkedListStack.t T)
    (cells : list (positive * T)) :
  LinkedListStack.rep s cells ->
  LinkedListStack.top s = match last (reverse cells.*2) with
                          | Some e => Return e
                          | None => Throw EmptyStackException
                          end /\
  LinkedListStack.size s = Z.of_nat (length (reverse cells.*2)) /\
  (LinkedListStack.empty s = true <-> reverse cells.*2 = []).
Proof.
  intros Hrep. split; [|split].
  - rewrite (LLStack_top_spec s cells Hrep), last_reverse_head.
    by destruct cells as [|[a e] rest].
  - unfold LinkedListStack.size. destruct Hrep as (_ & _ & _ & ->).
    by rewrite length_reverse, length_fmap.
  - unfold LinkedListStack.empty. destruct Hrep as (_ & _ & -> & _).
    destruct cells as [|[a e] rest]; [done|]. simpl. rewrite reverse_cons.
    split; [done|]. intros Hnil%(f_equal length).
    rewrite length_app in Hnil. simpl in Hnil. lia.
Qed.

(** LinkedListStack, last in first out: replay any sequence of fewer than
    2^31 [push] and [pop] calls on a list (push appends, pop drops the last
    element and does nothing on the empty list).  The stack then consists
    of one node per element of that list, linked from [_top] in reverse
    order, and its store holds no other node (every popped node was
    deleted); [top()] returns the last element of the list or throws
    EmptyStackException when it is empty, [size()] is its length, within
    [int], and [empty()] tells whether it is empty. *)
Theorem LinkedListStack_behaves_as_list {T : Type} (ops : list (Stack.op T)) :
  Z.of_nat (length ops) < 2 ^ 31 ->
  let s := LinkedListStack.run ops in
  (exists cells, LinkedListStack.rep s cells /\ reverse cells.*2 = Stack.model ops) /\
  LinkedListStack.top s = match last (Stack.model ops) with
                          | Some e => Return e
                          | None => Throw EmptyStackException
                          end /\
  LinkedListStack.size s = Z.of_nat (length (Stack.model ops)) /\
  0 <= LinkedListStack.size s < 2 ^ 31 /\
  (LinkedListStack.empty s = true <-> Stack.model ops = []).
Proof.
  intros Hlen s. destruct (LLStack_run_rep ops) as (cells & Hrep & He). fold s in Hrep.
  pose proof (Stack_model_length ops []) as Hml. fold (Stack.model ops) in Hml.
  simpl in Hml.
  destruct (LLStack_observers_spec s cells Hrep) as (Ht & Hs & Hem).
  rewrite He in Ht, Hs, Hem.
  split; [by exists cells|]. split; [exact Ht|]. split; [exact Hs|]. split; [lia|exact Hem].
Qed.

Lemma LinkedListStack_behaves_as_list_witness :
  let ops := [Stack.Push 1; Stack.Push 2; Stack.Pop; Stack.Push 3] in
  LinkedListStack.top (LinkedListStack.run ops) = Return 3 /\
  LinkedListStack.size (LinkedListStack.run ops) = 2.
Proof.
  intros ops.
  destruct (LinkedListStack_behaves_as_list (T := Z) ops) as (_ & Ht & Hs & _).
  { vm_compute. reflexivity. }
  split; [exact Ht | exact Hs].
Defined.

(** The two stacks are interchangeable: after the same sequence of fewer
    than 2^30 [push] and [pop] calls, the linked stack and the array stack
    give the same [top()] (the same element or the same exception), the
    same [size()] and [empty()], and their next [pop()] has the same
    outcome; and [operator==] of two linked stacks returns what
    [operator==] of the two array stacks built by the same calls
    returns. *)
Theorem LinkedListStack_agrees_with_Stack {T : Type} `{Inhabited T} `{EqDecision T}
    (ops ops' : list (Stack.op T)) :
  Z.of_nat (length ops) < 2 ^ 30 -> Z.of_nat (length ops') < 2 ^ 30 ->
  let l := LinkedListStack.run ops in
  let s := Stack.run ops in
  LinkedListStack.top l = Stack.top s /\
  LinkedListStack.size l = Stack.size s /\
  LinkedListStack.empty l = Stack.empty s /\
  (LinkedListStack.pop l).1 = (Stack.pop s).1 /\
  LinkedListStack.eq l (LinkedListStack.run ops')
    = Return (Stack.eq s (Stack.run ops')).
Proof.
  intros Hlen Hlen' l s.
  destruct (LLStack_run_rep ops) as (cells & Hrep & He). fold l in Hrep.
  destruct (LLStack_observers_spec l cells Hrep) as (Ht & Hs & Hem).
  rewrite He in Ht, Hs, Hem.
  destruct (Stack_run_spec ops Hlen) as (Hok0 & Hse & Hm0). fold s in Hok0, Hse, Hm0.
  destruct (Stack_observers_spec s Hok0) as (Hst & Hss & Hsem); [lia|].
  rewrite Hse in Hst, Hss, Hsem.
  destruct (Stack_run_spec ops Hlen) as (Hok & _). fold s in Hok.
  destruct (Stack_run_spec ops' Hlen') as (Hok' & He'' & _).
  destruct (LLStack_run_rep ops') as (cells' & Hrep' & He').
  split; [by rewrite Ht, Hst|]. split; [by rewrite Hs, Hss|]. split; [|split].
  - destruct (LinkedListStack.empty l), (Stack.empty s); try done.
    + symmetry. apply Hsem, Hem. done.
    + apply Hem, Hsem. done.
  - pose proof (LLStack_pop_spec l cells Hrep) as Hpop.
    destruct (Stack_pop_spec s Hok) as (_ & _ & _ & Hp1).
    { destruct (Stack_run_spec ops Hlen) as (_ & _ & Hm). fold s in Hm. lia. }
    rewrite Hp1, Hse, <- He.
    destruct cells as [|[a e] rest].
    + by rewrite Hpop.
    + destruct Hpop as (l' & -> & _). rewrite fmap_cons, reverse_cons.
      by destruct (reverse rest.*2).
  - rewrite (LLStack_eq_spec l _ cells cells' Hrep Hrep'). f_equal.
    apply eq_true_iff_eq. rewrite bool_decide_eq_true.
    rewrite (Stack_eq_spec s (Stack.run ops') Hok Hok'), Hse, He'', <- He, <- He'.
    split; [by intros -> | by intros ?%(inj reverse)].
Qed.

Lemma LinkedListStack_agrees_with_Stack_witness :
  let ops := [Stack.Push 1; Stack.Push 2; Stack.Pop; Stack.Push 3] in
  LinkedListStack.top (LinkedListStack.run ops) = Stack.top (Stack.run ops) /\
  LinkedListStack.size (LinkedListStack.run ops) = Stack.size (Stack.run ops).
Proof.
  intros ops.
  destruct (LinkedListStack_agrees_with_Stack (T := Z) ops ops) as (Ht & Hs & _).
  { vm_compute. reflexivity. }
  { vm_compute. reflexivity. }
  split; [exact Ht | exact Hs].
Defined.

(** * Further properties of the shared trees *)
Section TreeMore.
Context {T : Type} `{EqDecision T} `{Inhabited T}.
Local Abbreviation Node := (BinTree.Node T).
Local Abbreviation store := (Mem.heap Node).

(** *** Nothing is left when no handle is *)

Lemma wf_no_handles_above (h : store) (n : nat) :
  RefCount.wf h [] ->
  forall p, (Pos.to_nat (Mem.brk h) - Pos.to_nat p < n)%nat -> Mem.read p h = None.
Proof.
  intros Hwf. pose proof Hwf as [Hc Hpos].
  induction n as [|n IH]; intros p Hp; [lia|].
  apply (wf_unreferenced h [] p Hwf); [by intros ?%elem_of_nil|].
  intros q nq Hq.
  assert (forall c, BinTree._left nq = Some c \/ BinTree._right nq = Some c -> c <> p)
    as Hne.
  { intros c Hlink ->.
    destruct (RefCount.cons_links _ _ Hc q nq p Hq (Hpos q nq Hq) Hlink) as [Hlt _].
    pose proof (RefCount.cons_brk _ _ Hc q (mk_is_Some _ _ Hq)) as Hb.
    rewrite (IH q) in Hq; [done|lia]. }
  split; intros Heq; by apply (Hne p); auto.
Qed.

Lemma wf_no_handles_empty (h : store) : RefCount.wf h [] -> Mem.cells h = ∅.
Proof.
  intros Hwf. apply map_empty. intros p.
  apply (wf_no_handles_above h (S (Pos.to_nat (Mem.brk h))) Hwf). lia.
Qed.

Lemma destroy_all_spec (trs : list BinTree.t) :
  forall (h : store) (R : list positive),
  RefCount.wf h (concat (RefCount.root_of <$> trs) ++ R) ->
  exists h', BinTree.destroy_all trs h = (Return tt, h') /\ RefCount.wf h' R.
Proof.
  induction trs as [|tr trs IH]; intros h R Hwf; [by exists h|].
  cbn [fmap list_fmap concat] in Hwf. rewrite <- app_assoc in Hwf.
  destruct (wf_free h _ tr Hwf) as (h1 & Hf & Hwf1 & _).
  destruct (IH h1 R Hwf1) as (h' & Hd & Hwf').
  exists h'. split; [|done].
  cbn [BinTree.destroy_all]. rewrite sbind_eq. unfold BinTree.destroy. by rewrite Hf.
Qed.

(** *** The four traversals list the same nodes *)

Lemma inorder_perm (t : Tree.tree T) : Tree.inorder t ≡ₚ Tree.preorder t.
Proof.
  induction t as [|l IHl e r IHr]; [done|]. simpl.
  by rewrite <- Permutation_middle, IHl, IHr.
Qed.

Lemma postorder_perm (t : Tree.tree T) : Tree.postorder t ≡ₚ Tree.preorder t.
Proof.
  induction t as [|l IHl e r IHr]; [done|]. simpl.
  rewrite app_assoc, <- Permutation_cons_append. by rewrite IHl, IHr.
Qed.

Lemma entry_preorder (t : Tree.tree T) :
  concat (Tree.preorder <$> Tree.entry t) = Tree.preorder t.
Proof. destruct t; [done|]. simpl. by rewrite app_nil_r. Qed.

Lemma entry_forks (t : Tree.tree T) : Forall (fun t' => t' <> Tree.Leaf) (Tree.entry t).
Proof. destruct t; [constructor|]. by repeat constructor. Qed.

Lemma entry_size (t : Tree.tree T) : sum_list_with Tree.size (Tree.entry t) = Tree.size t.
Proof. destruct t; simpl; lia. Qed.

Lemma bfs_perm (fuel : nat) :
  forall forest : list (Tree.tree T),
  Forall (fun t' => t' <> Tree.Leaf) forest ->
  (sum_list_with Tree.size forest <= fuel)%nat ->
  Tree.bfs fuel forest ≡ₚ concat (Tree.preorder <$> forest).
Proof.
  induction fuel as [|fuel IH]; intros forest Hforks Hfuel.
  - destruct forest as [|[|l e r] rest]; [done| |simpl in Hfuel; lia].
    by apply Forall_cons_1 in Hforks as [? _].
  - destruct forest as [|[|l e r] rest]; [done| |].
    { by apply Forall_cons_1 in Hforks as [? _]. }
    apply Forall_cons_1 in Hforks as [_ Hrest].
    cbn [Tree.bfs fmap list_fmap concat Tree.preorder].
    rewrite IH.
    + rewrite !fmap_app, !concat_app, !entry_preorder. simpl.
      apply Permutation_skip. rewrite <- app_assoc.
      by rewrite (Permutation_app_comm (concat _)), <- app_assoc.
    + apply Forall_app. split; [done|]. apply Forall_app. split; apply entry_forks.
    + rewrite !sum_list_with_app, !entry_size. simpl in Hfuel. lia.
Qed.

Lemma levelorder_perm (t : Tree.tree T) : Tree.levelorder t ≡ₚ Tree.preorder t.
Proof.
  unfold Tree.levelorder. rewrite bfs_perm.
  - by rewrite entry_preorder.
  - apply entry_forks.
  - by rewrite entry_size.
Qed.

Lemma nodeCount_size (t : Tree.tree T) :
  Z.of_nat (Tree.size t) < 2 ^ 32 -> Tree.nodeCount t = Z.of_nat (Tree.size t).
Proof.
  induction t as [|l IHl e r IHr]; [done|]. cbn [Tree.size Tree.nodeCount]. intros Hs.
  rewrite IHl, IHr by lia. unfold wrap32. rewrite Z.mod_small; lia.
Qed.

Lemma levelorder_head (t : Tree.tree T) :
  head (Tree.levelorder t) = head (Tree.preorder t).
Proof. destruct t; [done|]. unfold Tree.levelorder. by simpl. Qed.

Lemma postorder_last (t : Tree.tree T) :
  last (Tree.postorder t) = head (Tree.preorder t).
Proof. destruct t; [done|]. simpl. by rewrite app_assoc, last_snoc. Qed.
(** *** The in-order builder *)

Lemma parenthesize_length (t : Tree.tree T) :
  length (Tree.parenthesize t) = (4 * Tree.size t + 1)%nat.
Proof.
  induction t as [|l IHl e r IHr]; [done|]. cbn [Tree.parenthesize Tree.size length].
  rewrite length_app. cbn [length]. rewrite length_app. simpl. lia.
Qed.

Lemma fromInOrder_parenthesize (t : Tree.tree T) :
  forall (fuel : nat) (h : store) (R : list positive) (rest : list (token T)),
  RefCount.wf h R -> (Tree.height t < fuel)%nat ->
  exists tr' h',
    BinTree.fromInOrderInputAux fuel (Tree.parenthesize t ++ rest) h
      = (Return (tr', rest), h') /\
    RefCount.wf h' (RefCount.root_of tr' ++ R) /\
    RefCount.denotes h' tr' t /\
    (forall o t0, (forall q, o = Some q -> q ∈ R) ->
                  RefCount.denotes h o t0 -> RefCount.denotes h' o t0).
Proof.
  induction t as [|l IHl e r IHr]; intros fuel h R rest Hwf Hfuel.
  - destruct fuel as [|fuel]; [simpl in Hfuel; lia|].
    exists None, h. cbn. split; [done|]. split; [done|]. split; [constructor|]. auto.
  - destruct fuel as [|fuel]; [simpl in Hfuel; lia|].
    cbn [Tree.height] in Hfuel.
    cbn [Tree.parenthesize]. rewrite <- app_comm_cons, <- app_assoc.
    rewrite <- app_comm_cons, <- app_assoc.
    cbn [BinTree.fromInOrderInputAux read_char].
    rewrite bool_decide_eq_false_2 by done. rewrite bool_decide_eq_true_2 by done.
    destruct (IHl fuel h R (Val e :: Tree.parenthesize r ++ [Chr ")"%char] ++ rest) Hwf)
      as (hi & h1 & Hrun1 & Hwf1 & Hdl & Hkeep1); [lia|].
    destruct (IHr fuel h1 (RefCount.root_of hi ++ R) ([Chr ")"%char] ++ rest) Hwf1)
      as (hd & h2 & Hrun2 & Hwf2 & Hdr & Hkeep2); [lia|].
    rewrite sbind_eq, Hrun1. cbn [read_elem]. rewrite sbind_eq, Hrun2.
    cbn [app read_char]. rewrite bool_decide_eq_true_2 by done.
    destruct (build_node_spec h2 R hi hd e rest Hwf2)
      as (h' & Hbuild & Hwf' & Hkeep & Hnode & _).
    rewrite Hbuild. exists (Some (Mem.brk h2)), h'.
    split; [done|]. split; [exact Hwf'|]. split.
    + apply Hnode; [|done]. apply Hkeep2; [|done].
      intros q ->. apply elem_of_app. left. by apply list_elem_of_singleton.
    + intros o t0 Ho Hd. apply Hkeep; [done|]. apply Hkeep2.
      * intros q Hq. apply elem_of_app. right. by apply Ho.
      * by apply Hkeep1.
Qed.

Lemma fromInOrder_rejects (fuel : nat) (c : ascii) (rest : list (token T)) (h : store) :
  c <> "."%char -> c <> "("%char ->
  BinTree.fromInOrderInputAux (S fuel) (Chr c :: rest) h = (Abort, h).
Proof.
  intros H1 H2. cbn [BinTree.fromInOrderInputAux read_char].
  by rewrite !bool_decide_eq_false_2.
Qed.
Lemma parenthesize_elements (t : Tree.tree T) :
  omap (fun k => match k with Val e => Some e | Chr _ => None end) (Tree.parenthesize t)
  = Tree.inorder t.
Proof.
  induction t as [|l IHl e r IHr]; [done|]. cbn [Tree.parenthesize Tree.inorder omap list_omap].
  rewrite omap_app. cbn [omap list_omap]. rewrite omap_app. cbn [omap list_omap].
  by rewrite IHl, IHr, app_nil_r.
Qed.

Lemma preOrder_wf (h : store) (R : list positive) (o : option positive) (t : Tree.tree T) :
  RefCount.wf h R -> RefCount.denotes h o t ->
  BinTree.preOrder o h = Return (Tree.preorder t).
Proof.
  intros Hwf Hd. unfold BinTree.preOrder.
  rewrite (preOrderAux_denotes h o t Hd _ []); [done|].
  by apply (wf_denotes_height h R o).
Qed.

Lemma inOrder_wf (h : store) (R : list positive) (o : option positive) (t : Tree.tree T) :
  RefCount.wf h R -> RefCount.denotes h o t ->
  BinTree.inOrder o h = Return (Tree.inorder t).
Proof.
  intros Hwf Hd. unfold BinTree.inOrder.
  rewrite (inOrderAux_denotes h o t Hd _ []); [done|].
  by apply (wf_denotes_height h R o).
Qed.
End TreeMore.

(** BinTree, no leak: in a store that satisfies the reference-count
    invariant for the handles [trs], letting all of them go out of scope
    in turn returns and leaves the store without a single node: every node
    is deleted once the last handle that reaches it is destroyed, also when
    the handles share subtrees. *)
Theorem BinTree_destructors_reclaim_every_node {T : Type} `{EqDecision T} `{Inhabited T}
    (h : Mem.heap (BinTree.Node T)) (trs : list BinTree.t) :
  RefCount.wf h (concat (RefCount.root_of <$> trs)) ->
  exists h', BinTree.destroy_all trs h = (Return tt, h') /\ Mem.cells h' = ∅.
Proof.
  intros Hwf.
  destruct (destroy_all_spec trs h []) as (h' & Hd & Hwf'); [by rewrite app_nil_r|].
  exists h'. split; [done|]. by apply wf_no_handles_empty.
Qed.

Lemma BinTree_destructors_reclaim_every_node_witness :
  let h0 : Mem.heap (BinTree.Node Z) := (BinTree.mkNode None 2 None Mem.empty).2 in
  let h := (BinTree.mkNode (Some 1%positive) 1 None h0).2 in
  exists h', BinTree.destroy_all [Some 2%positive; Some 1%positive] h = (Return tt, h') /\
             Mem.cells h' = ∅.
Proof.
  intros h0 h.
  apply (BinTree_destructors_reclaim_every_node h [Some 2%positive; Some 1%positive]).
  apply (wf_mkNode_run h0 [1%positive] (Some 1%positive) None 1).
  - apply (wf_mkNode_run Mem.empty [] None None 2 wf_empty). by intros q [?|?].
  - intros q [[= <-]|?]; [|done]. by eexists.
Defined.

(** BinTree, traversals: for a live handle of a store that satisfies the
    reference-count invariant, [preOrder], [inOrder], [postOrder] and
    [levels] all return, and return the same elements with the same
    multiplicities, each in its own order; [preOrder] and [levels] start
    with the root element and [postOrder] ends with it; and [nodeCount()]
    is the length of these lists when that is below 2^32. *)
Theorem BinTree_traversals_list_the_same_nodes {T : Type} `{EqDecision T} `{Inhabited T}
    (h : Mem.heap (BinTree.Node T)) (R : list positive) (tr : BinTree.t) :
  RefCount.wf h R -> (forall q, tr = Some q -> q ∈ R) ->
  exists pre ino post lev,
    BinTree.preOrder tr h = Return pre /\
    BinTree.inOrder tr h = Return ino /\
    BinTree.postOrder tr h = Return post /\
    BinTree.levels tr h = Return lev /\
    ino ≡ₚ pre /\ post ≡ₚ pre /\ lev ≡ₚ pre /\
    head lev = head pre /\ last post = head pre /\
    (match head pre with
     | Some e => BinTree.elem tr h = Return e
     | None => BinTree.empty tr = true
     end) /\
    (Z.of_nat (length pre) < 2 ^ 32 ->
     BinTree.nodeCount tr h = Return (Z.of_nat (length pre))).
Proof.
  intros Hwf Hin.
  destruct (wf_denotes h R tr Hwf (wf_root_valid h R tr Hwf Hin)) as (t & Hd & Hht).
  exists (Tree.preorder t), (Tree.inorder t), (Tree.postorder t), (Tree.levelorder t).
  split; [by apply (preOrderAux_denotes h tr t Hd _ [])|].
  split; [by apply (inOrderAux_denotes h tr t Hd _ [])|].
  split; [by apply (postOrderAux_denotes h tr t Hd _ [])|].
  split; [by apply levels_denotes|].
  split; [apply inorder_perm|]. split; [apply postorder_perm|].
  split; [apply levelorder_perm|].
  split; [apply levelorder_head|]. split; [apply postorder_last|].
  split.
  - rewrite (elem_denotes h tr t Hd). destruct Hd; [done|]. done.
  - intros Hlen. rewrite preorder_length in Hlen. unfold BinTree.nodeCount.
    rewrite (nodeCountAux_denotes h tr t Hd _ Hht).
    by rewrite preorder_length, nodeCount_size.
Qed.

Lemma BinTree_traversals_list_the_same_nodes_witness :
  let h0 : Mem.heap (BinTree.Node Z) := (BinTree.mkNode None 2 None Mem.empty).2 in
  let h := (BinTree.mkNode (Some 1%positive) 1 None h0).2 in
  exists pre ino post lev,
    BinTree.preOrder (Some 2%positive) h = Return pre /\
    BinTree.inOrder (Some 2%positive) h = Return ino /\
    BinTree.postOrder (Some 2%positive) h = Return post /\
    BinTree.levels (Some 2%positive) h = Return lev /\
    ino ≡ₚ pre /\ post ≡ₚ pre /\ lev ≡ₚ pre /\
    head lev = head pre /\ last post = head pre /\
    (match head pre with
     | Some e => BinTree.elem (Some 2%positive) h = Return e
     | None => BinTree.empty (Some 2%positive) = true
     end) /\
    (Z.of_nat (length pre) < 2 ^ 32 ->
     BinTree.nodeCount (Some 2%positive) h = Return (Z.of_nat (length pre))).
Proof.
  intros h0 h.
  apply (BinTree_traversals_list_the_same_nodes h [2; 1]%positive (Some 2%positive)).
  - apply (wf_mkNode_run h0 [1%positive] (Some 1%positive) None 1).
    + apply (wf_mkNode_run Mem.empty [] None None 2 wf_empty). by intros q [?|?].
    + intros q [[= <-]|?]; [|done]. by eexists.
  - intros q [= <-]. by left.
Defined.

(** BinTree, in-order input: on the text of a tree [t] in the format of
    [fromInOrderInput] ([.] for the empty tree, otherwise [(], the left
    subtree, the root element, the right subtree, [)]), read in a store
    that satisfies the reference-count invariant, the builder returns a
    handle on [t] and leaves the rest of the input unread; the invariant
    holds with the new handle (the local handles [left] and [right] are
    gone); [inOrder] of the result lists the elements of the text in the
    order of the text; the handles that were in scope keep their trees; and
    a first character other than [.] or [(] fails the assertion. *)
Theorem BinTree_fromInOrderInput_builds_the_described_tree
    {T : Type} `{EqDecision T} `{Inhabited T}
    (h : Mem.heap (BinTree.Node T)) (R : list positive)
    (t : Tree.tree T) (rest : list (token T)) :
  RefCount.wf h R ->
  (exists (tr' : BinTree.t) (h' : Mem.heap (BinTree.Node T)),
    BinTree.fromInOrderInput (Tree.parenthesize t ++ rest) h
      = (Return (tr', rest), h') /\
    RefCount.wf h' (RefCount.root_of tr' ++ R) /\
    RefCount.denotes h' tr' t /\
    BinTree.inOrder tr' h'
      = Return (omap (fun k => match k with Val e => Some e | Chr _ => None end)
                     (Tree.parenthesize t)) /\
    BinTree.preOrder tr' h' = Return (Tree.preorder t) /\
    (forall o t0, (forall q, o = Some q -> q ∈ R) ->
                  RefCount.denotes h o t0 -> RefCount.denotes h' o t0)) /\
  (forall c input, c <> "."%char -> c <> "("%char ->
     BinTree.fromInOrderInput (Chr c :: input) h = (Abort, h)).
Proof.
  intros Hwf. split.
  - destruct (fromInOrder_parenthesize t
                (S (length (Tree.parenthesize t ++ rest))) h R rest Hwf)
      as (tr' & h' & Hrun & Hwf' & Hden' & Hkeep).
    { rewrite length_app, parenthesize_length. pose proof (height_le_size t). lia. }
    exists tr', h'. split; [exact Hrun|]. split; [exact Hwf'|]. split; [exact Hden'|].
    split; [|split; [|exact Hkeep]].
    + rewrite parenthesize_elements. by apply (inOrder_wf h' (RefCount.root_of tr' ++ R)).
    + by apply (preOrder_wf h' (RefCount.root_of tr' ++ R)).
  - intros c input H1 H2. by apply fromInOrder_rejects.
Qed.

Lemma BinTree_fromInOrderInput_builds_the_described_tree_witness :
  let t := Tree.Fork (Tree.Fork Tree.Leaf 2 Tree.Leaf) 1 Tree.Leaf in
  (exists (tr' : BinTree.t) (h' : Mem.heap (BinTree.Node Z)),
    BinTree.fromInOrderInput (Tree.parenthesize t ++ [Val 7]) Mem.empty
      = (Return (tr', [Val 7]), h') /\
    RefCount.wf h' (RefCount.root_of tr' ++ []) /\
    RefCount.denotes h' tr' t /\
    BinTree.inOrder tr' h'
      = Return (omap (fun k => match k with Val e => Some e | Chr _ => None end)
                     (Tree.parenthesize t)) /\
    BinTree.preOrder tr' h' = Return (Tree.preorder t) /\
    (forall o t0, (forall q, o = Some q -> q ∈ []) ->
                  RefCount.denotes Mem.empty o t0 -> RefCount.denotes h' o t0)) /\
  (forall c input, c <> "."%char -> c <> "("%char ->
     BinTree.fromInOrderInput (Chr c :: input) (Mem.empty : Mem.heap (BinTree.Node Z))
     = (Abort, Mem.empty)).
Proof.
  intros t.
  exact (BinTree_fromInOrderInput_builds_the_described_tree Mem.empty [] t [Val 7] wf_empty).
Defined.

(** BinTree, construction: in a store whose counts are all at most
    [INT_MAX - 3], [BinTree(l, e, r)] on handles in scope allocates exactly
    one node, at an address that held none, and shares the trees of [l]
    and [r] instead of copying them: [elem()] of the result is [e],
    [left()] and [right()] return handles on the very nodes of [l] and [r],
    each call keeping the reference-count invariant, and [preOrder] of the
    result is [e] followed by the pre-orders of [l] and of [r].  The
    constructor raises no count by more than 2 and [left()], [right()] by
    one more, so every count stays at or below [INT_MAX]. *)
Theorem BinTree_node_shares_its_children {T : Type} `{EqDecision T} `{Inhabited T}
    (h : Mem.heap (BinTree.Node T)) (R : list positive) (l r : BinTree.t) (e : T) :
  RefCount.wf h R -> (forall q, l = Some q \/ r = Some q -> q ∈ R) ->
  RefCount.bounded h (INT_MAX - 3) ->
  exists (p : positive) (h1 : Mem.heap (BinTree.Node T)),
    BinTree.mkNode l e r h = (Return (Some p), h1) /\
    RefCount.wf h1 (p :: R) /\
    Mem.read p h = None /\
    (forall q, is_Some (Mem.read q h1) <-> q = p \/ is_Some (Mem.read q h)) /\
    BinTree.elem (Some p) h1 = Return e /\
    (exists h2, BinTree.left (Some p) h1 = (Return l, h2) /\
                RefCount.wf h2 (RefCount.root_of l ++ p :: R) /\
                RefCount.bounded h2 INT_MAX) /\
    (exists h2, BinTree.right (Some p) h1 = (Return r, h2) /\
                RefCount.wf h2 (RefCount.root_of r ++ p :: R) /\
                RefCount.bounded h2 INT_MAX) /\
    (exists pl pr, BinTree.preOrder l h = Return pl /\ BinTree.preOrder r h = Return pr /\
                   BinTree.preOrder (Some p) h1 = Return (e :: pl ++ pr)) /\
    RefCount.bounded h1 (INT_MAX - 1).
Proof.
  intros Hwf Hin Hbound.
  assert (Hv : forall q, l = Some q \/ r = Some q -> is_Some (Mem.read q h)).
  { intros q Hq. apply (RefCount.cons_roots _ _ (RefCount.wf_consistent _ _ Hwf)).
    by apply Hin. }
  destruct (wf_mkNode h R l r e Hwf Hv) as (h1 & Hmk & Hwf1 & Hbrk & Hp & Hsub & Hold).
  destruct (consistent_fresh h R (RefCount.wf_consistent _ _ Hwf)) as (Hnone & _ & _).
  assert (Hb1 : RefCount.bounded h1 (INT_MAX - 1)).
  { apply (bounded_mono h1 (INT_MAX - 3 + 2)); [lia|].
    apply (mkNode_bounded l r e h h1 _ _ Hmk); [unfold INT_MAX; lia | done]. }
  assert (Hb2 : forall o h2, RefCount.grown (fun q => RefCount.points_to q o) h1 h2 ->
                             RefCount.bounded h2 INT_MAX).
  { intros o h2 Hg. apply (bounded_mono h2 (INT_MAX - 1 + 1)); [lia|].
    apply (grown_bounded _ h1 h2 _ 1 Hg); [|done]. intros q. apply points_to_le_1. }
  exists (Mem.brk h), h1. split; [exact Hmk|]. split; [exact Hwf1|]. split; [exact Hnone|].
  split; [|split; [|split; [|split; [|split]]]]; [| | | | |exact Hb1].
  - intros q. split.
    + intros [n' Hq]. destruct (Hold q n' Hq) as [->|(n & Hn & _)]; [by left|].
      right. by exists n.
    + intros [->|[n Hn]]; [by eexists|].
      destruct (Hsub q n Hn) as (n' & Hn' & _). by exists n'.
  - unfold BinTree.elem. cbn [BinTree.empty]. by rewrite Hp.
  - destruct (wf_left h1 _ _ _ Hwf1 Hp) as (h2 & Hl & Hwf2 & _). exists h2.
    split; [done|]. split; [done|].
    destruct (left_grown _ h1 h2 _ Hl) as (o & Hg & _). by apply (Hb2 o).
  - destruct (wf_right h1 _ _ _ Hwf1 Hp) as (h2 & Hr & Hwf2 & _). exists h2.
    split; [done|]. split; [done|].
    destruct (right_grown _ h1 h2 _ Hr) as (o & Hg & _). by apply (Hb2 o).
  - destruct (wf_denotes h R l Hwf) as (tl & Hdl & _); [intros q Hq; apply Hv; by left|].
    destruct (wf_denotes h R r Hwf) as (tr & Hdr & _); [intros q Hq; apply Hv; by right|].
    exists (Tree.preorder tl), (Tree.preorder tr).
    split; [by apply (preOrder_wf h R)|]. split; [by apply (preOrder_wf h R)|].
    apply (preOrder_wf h1 (Mem.brk h :: R) _ (Tree.Fork tl e tr) Hwf1).
    apply (RefCount.denotes_node h1 (Mem.brk h) _ tl tr Hp); by apply (denotes_sub h h1).
Qed.

Lemma BinTree_node_shares_its_children_witness :
  let h : Mem.heap (BinTree.Node Z) := (BinTree.mkNode None 5 None Mem.empty).2 in
  exists (p : positive) (h1 : Mem.heap (BinTree.Node Z)),
    BinTree.mkNode (Some 1%positive) 3 (Some 1%positive) h = (Return (Some p), h1) /\
    RefCount.wf h1 [p; 1%positive] /\
    Mem.read p h = None /\
    (forall q, is_Some (Mem.read q h1) <-> q = p \/ is_Some (Mem.read q h)) /\
    BinTree.elem (Some p) h1 = Return 3 /\
    (exists h2, BinTree.left (Some p) h1 = (Return (Some 1%positive), h2) /\
                RefCount.wf h2 (RefCount.root_of (Some 1%positive) ++ [p; 1%positive]) /\
                RefCount.bounded h2 INT_MAX) /\
    (exists h2, BinTree.right (Some p) h1 = (Return (Some 1%positive), h2) /\
                RefCount.wf h2 (RefCount.root_of (Some 1%positive) ++ [p; 1%positive]) /\
                RefCount.bounded h2 INT_MAX) /\
    (exists pl pr, BinTree.preOrder (Some 1%positive) h = Return pl /\
                   BinTree.preOrder (Some 1%positive) h = Return pr /\
                   BinTree.preOrder (Some p) h1 = Return (3 :: pl ++ pr)) /\
    RefCount.bounded h1 (INT_MAX - 1).
Proof.
  intros h.
  apply (BinTree_node_shares_its_children h [1%positive] (Some 1%positive) (Some 1%positive) 3).
  - apply (wf_mkNode_run Mem.empty [] None None 5 wf_empty). by intros q [?|?].
  - intros q [[= <-]|[= <-]]; by apply list_elem_of_singleton.
  - apply (bounded_mono h (1 + 2)); [by vm_compute|].
    apply mkNode_bounded_run; [lia | apply bounded_empty].
Defined.

(** BinTree, assignment: in a store whose counts are all below [INT_MAX],
    [this = other] between two handle objects in scope releases the old
    tree of [this] and makes [this] share the root of [other]; no node is
    allocated, the reference-count invariant holds for the new handles,
    and every other handle in scope, [other] included, keeps its tree,
    also when the old tree of [this] contained it.  No count is raised
    except that of the root of [other], by one, so every count stays at or
    below [INT_MAX]. *)
Theorem BinTree_assignment_shares_the_assigned_tree {T : Type} `{EqDecision T} `{Inhabited T}
    (h : Mem.heap (BinTree.Node T)) (R : list positive) (this other : BinTree.t) :
  RefCount.wf h (RefCount.root_of this ++ R) -> (forall q, other = Some q -> q ∈ R) ->
  RefCount.bounded h (INT_MAX - 1) ->
  exists h' : Mem.heap (BinTree.Node T),
    BinTree.assign this other h = (Return other, h') /\
    RefCount.wf h' (RefCount.root_of other ++ R) /\
    Mem.brk h' = Mem.brk h /\
    (forall q, is_Some (Mem.read q h') -> is_Some (Mem.read q h)) /\
    (forall o t, (forall q, o = Some q -> q ∈ R) ->
                 RefCount.denotes h o t ->
                 RefCount.denotes h' o t /\
                 BinTree.preOrder o h' = BinTree.preOrder o h /\
                 BinTree.inOrder o h' = BinTree.inOrder o h) /\
    RefCount.grown (fun q => RefCount.points_to q other) h h' /\
    RefCount.bounded h' INT_MAX.
Proof.
  intros Hwf Hin Hbound.
  destruct (wf_free h R this Hwf) as (h1 & Hf & Hwf1 & Hb1 & Hs1).
  destruct (wf_copy h1 R other Hwf1 (wf_root_valid h1 R other Hwf1 Hin))
    as (h' & Hcp & Hwf' & Hraised).
  pose proof (raised_sub h1 h' Hraised) as [Hfw Hbw].
  assert (Has : BinTree.assign this other h = (Return other, h'))
    by (unfold BinTree.assign; by rewrite sbind_eq, Hf).
  destruct (assign_grown this other h h' _ Has) as [_ Hgrown].
  exists h'. split; [exact Has|].
  split; [exact Hwf'|]. split.
  { destruct Hraised as (_ & _ & ->). exact Hb1. }
  split.
  { intros q [n' Hq]. destruct (Hbw q n' Hq) as (n1 & Hq1 & _).
    destruct (Hs1 q n1 Hq1) as (n & Hn & _). by exists n. }
  split; [|split; [exact Hgrown|]].
  - intros o t Ho Hd.
    assert (Hd' : RefCount.denotes h' o t).
    { apply (denotes_sub h1 h'); [done|]. by apply (wf_free_keeps h h1 R). }
    split; [exact Hd'|].
    rewrite (preOrder_wf h' _ o t Hwf' Hd'), (preOrder_wf h _ o t Hwf Hd).
    by rewrite (inOrder_wf h' _ o t Hwf' Hd'), (inOrder_wf h _ o t Hwf Hd).
  - apply (bounded_mono h' (INT_MAX - 1 + 1)); [lia|].
    apply (grown_bounded _ h h' _ 1 Hgrown); [|done]. intros q. apply points_to_le_1.
Qed.

Lemma BinTree_assignment_shares_the_assigned_tree_witness :
  let h0 : Mem.heap (BinTree.Node Z) := (BinTree.mkNode None 2 None Mem.empty).2 in
  let h := (BinTree.mkNode (Some 1%positive) 1 None h0).2 in
  exists h' : Mem.heap (BinTree.Node Z),
    BinTree.assign (Some 2%positive) (Some 1%positive) h = (Return (Some 1%positive), h') /\
    RefCount.wf h' (RefCount.root_of (Some 1%positive) ++ [1%positive]) /\
    Mem.brk h' = Mem.brk h /\
    (forall q, is_Some (Mem.read q h') -> is_Some (Mem.read q h)) /\
    (forall o t, (forall q, o = Some q -> q ∈ [1%positive]) ->
                 RefCount.denotes h o t ->
                 RefCount.denotes h' o t /\
                 BinTree.preOrder o h' = BinTree.preOrder o h /\
                 BinTree.inOrder o h' = BinTree.inOrder o h) /\
    RefCount.grown (fun q => RefCount.points_to q (Some 1%positive)) h h' /\
    RefCount.bounded h' INT_MAX.
Proof.
  intros h0 h.
  apply (BinTree_assignment_shares_the_assigned_tree h [1%positive]
           (Some 2%positive) (Some 1%positive)).
  - apply (wf_mkNode_run h0 [1%positive] (Some 1%positive) None 1).
    + apply (wf_mkNode_run Mem.empty [] None None 2 wf_empty). by intros q [?|?].
    + intros q [[= <-]|?]; [|done]. by eexists.
  - intros q [= <-]. by apply list_elem_of_singleton.
  - apply (bounded_mono h (1 + 2 + 2)); [by vm_compute|].
    apply mkNode_bounded_run; [lia|].
    apply mkNode_bounded_run; [lia | apply bounded_empty].
Defined.

(** * The doubly-linked list *)
Section DListFacts.
Context {T : Type}.
Local Abbreviation Node := (DList.Node T).
Local Abbreviation store := (Mem.heap Node).
Local Abbreviation cell := (positive * T)%type.

Lemma head_or_first (cells : list cell) : DList.head_or None cells = Linked.first cells.
Proof. by destruct cells as [|[b x] rest]. Qed.

Lemma last_or_final (cells : list cell) : DList.last_or None cells = Linked.final cells.
Proof.
  unfold DList.last_or, Linked.final. by destruct (last cells) as [[a x]|].
Qed.

Lemma last_or_cons (prev : option positive) (a : positive) (e : T) (rest : list cell) :
  DList.last_or prev ((a, e) :: rest) = DList.last_or (Some a) rest.
Proof.
  unfold DList.last_or. destruct rest as [|c rest]; [done|].
  rewrite last_cons_cons, (last_cons c rest).
  destruct (last rest) as [[b x]|]; [done|]. by destruct c.
Qed.

Lemma last_or_snoc (prev : option positive) (l : list cell) (a : positive) (e : T) :
  DList.last_or prev (l ++ [(a, e)]) = Some a.
Proof. unfold DList.last_or. by rewrite last_snoc. Qed.

Lemma head_or_app (tail : option positive) (l1 l2 : list cell) :
  DList.head_or tail (l1 ++ l2) = DList.head_or (DList.head_or tail l2) l1.
Proof. by destruct l1 as [|[b x] rest]. Qed.

Lemma last_or_app (prev : option positive) (l1 l2 : list cell) :
  DList.last_or prev (l1 ++ l2) = DList.last_or (DList.last_or prev l1) l2.
Proof.
  revert prev. induction l1 as [|[a e] l1 IH]; intros prev; [done|].
  rewrite <- app_comm_cons, !last_or_cons. apply IH.
Qed.

Lemma DList_chain_frame (h h' : store) (prev : option positive) (cells : list cell)
    (tail : option positive) :
  (forall a, a ∈ cells.*1 -> Mem.read a h' = Mem.read a h) ->
  DList.chain h prev cells tail -> DList.chain h' prev cells tail.
Proof.
  revert prev. induction cells as [|[a e] rest IH]; intros prev Hsame; [done|].
  intros [Ha Hrest]. split.
  - rewrite Hsame; [done|]. by left.
  - apply IH; [|done]. intros q Hq. apply Hsame. by right.
Qed.

Lemma DList_chain_app (h : store) (prev : option positive) (l1 l2 : list cell)
    (tail : option positive) :
  DList.chain h prev (l1 ++ l2) tail <->
  DList.chain h prev l1 (DList.head_or tail l2) /\
  DList.chain h (DList.last_or prev l1) l2 tail.
Proof.
  revert prev. induction l1 as [|[a e] l1 IH]; intros prev.
  - simpl. unfold DList.last_or. simpl. tauto.
  - rewrite <- app_comm_cons. cbn [DList.chain]. rewrite IH, head_or_app, last_or_cons.
    tauto.
Qed.

(** The node of a cell, as the chain has it. *)
Lemma DList_chain_middle (h : store) (prev : option positive) (l1 l2 : list cell)
    (a : positive) (e : T) (tail : option positive) :
  DList.chain h prev (l1 ++ (a, e) :: l2) tail ->
  Mem.read a h
  = Some (DList.MkNode e (DList.head_or tail l2) (DList.last_or prev l1)).
Proof. intros [_ [Ha _]]%DList_chain_app. exact Ha. Qed.

Lemma DList_chain_elem_of (h : store) (prev : option positive) (cells : list cell)
    (tail : option positive) (a : positive) :
  DList.chain h prev cells tail -> a ∈ cells.*1 -> is_Some (Mem.read a h).
Proof.
  intros Hch ([b e] & -> & Hc)%list_elem_of_fmap.
  apply list_elem_of_split in Hc as (l1 & l2 & ->). simpl.
  rewrite (DList_chain_middle h prev l1 l2 b e tail Hch). by eexists.
Qed.

(** [node->_next = v] on the last node of a chain, [node->_prev = v] on
    its first node. *)
Lemma DList_set_next_final (h : store) (prev : option positive) (l1 : list cell)
    (tail tail' : option positive) :
  DList.chain h prev l1 tail -> NoDup l1.*1 ->
  exists h',
    DList.set_next (Linked.final l1) tail' h = Some h' /\
    DList.chain h' prev l1 tail' /\
    (forall q, q ∉ l1.*1 -> Mem.read q h' = Mem.read q h) /\
    Mem.brk h' = Mem.brk h /\
    (forall q, is_Some (Mem.read q h') <-> is_Some (Mem.read q h)).
Proof.
  revert prev. induction l1 as [|[a e] l1 IH]; intros prev Hch Hnd.
  { exists h. by repeat split. }
  destruct Hch as [Ha Hrest]. rewrite fmap_cons in Hnd.
  apply NoDup_cons in Hnd as [Hnot Hnd].
  destruct l1 as [|[b x] l1].
  - unfold Linked.final. simpl. rewrite Ha. eexists. split; [done|]. simpl.
    split; [|split; [|split; [done|]]].
    + split; [|done]. by rewrite mem_read_write, decide_True.
    + intros q Hq. rewrite mem_read_write, decide_False; [done|].
      intros ->. apply Hq. by left.
    + intros q. rewrite mem_read_write. destruct (decide (a = q)) as [<-|]; [|done].
      rewrite Ha. split; by eexists.
  - destruct (IH (Some a) Hrest Hnd) as (h' & Hset & Hch' & Hout & Hbrk & Hdom).
    exists h'. split.
    { unfold Linked.final in *. by rewrite last_cons_cons. }
    split; [|split; [|done]].
    + split; [|done]. rewrite Hout; [|done]. exact Ha.
    + intros q Hq. apply Hout. intros Hin. apply Hq. by right.
Qed.

Lemma DList_set_prev_first (h : store) (prev prev' : option positive) (l2 : list cell)
    (tail : option positive) :
  DList.chain h prev l2 tail -> NoDup l2.*1 ->
  exists h',
    DList.set_prev (Linked.first l2) prev' h = Some h' /\
    DList.chain h' prev' l2 tail /\
    (forall q, q ∉ l2.*1 -> Mem.read q h' = Mem.read q h) /\
    Mem.brk h' = Mem.brk h /\
    (forall q, is_Some (Mem.read q h') <-> is_Some (Mem.read q h)).
Proof.
  intros Hch Hnd. destruct l2 as [|[b x] l2].
  { exists h. by repeat split. }
  destruct Hch as [Hb Hrest]. rewrite fmap_cons in Hnd.
  apply NoDup_cons in Hnd as [Hnot Hnd].
  unfold Linked.first. simpl. rewrite Hb. eexists. split; [done|]. simpl.
  split; [|split; [|split; [done|]]].
  - split; [by rewrite mem_read_write, decide_True|].
    apply (DList_chain_frame h); [|done]. intros q Hq.
    rewrite mem_read_write, decide_False; [done|]. by intros ->.
  - intros q Hq. rewrite mem_read_write, decide_False; [done|].
    intros ->. apply Hq. by left.
  - intros q. rewrite mem_read_write. destruct (decide (b = q)) as [<-|]; [|done].
    rewrite Hb. split; by eexists.
Qed.

Lemma wrap32_succ (n : Z) : wrap32 (wrap32 n + 1) = wrap32 (n + 1).
Proof. unfold wrap32. by rewrite Zplus_mod_idemp_l. Qed.

Lemma wrap32_pred (n : Z) : wrap32 (wrap32 (n + 1) - 1) = wrap32 n.
Proof.
  unfold wrap32. rewrite Zminus_mod_idemp_l. f_equal. lia.
Qed.

Lemma owns_split (h : store) (l1 l2 : list cell) :
  Linked.owns h (l1 ++ l2) ->
  NoDup l1.*1 /\ NoDup l2.*1 /\ (forall q, q ∈ l1.*1 -> q ∉ l2.*1).
Proof.
  intros (Hnd & _). rewrite fmap_app in Hnd.
  apply NoDup_app in Hnd as (H1 & Hd & H2). done.
Qed.

(** [insertElem] between the last node of [l1] and the first of [l2]. *)
Lemma DList_insertElem_spec (l : DList.t T) (l1 l2 : list cell) (e : T) :
  DList.chain (DList.nodes l) None (l1 ++ l2) None ->
  Linked.owns (DList.nodes l) (l1 ++ l2) ->
  exists l',
    DList.insertElem e (Linked.final l1) (Linked.first l2) l
      = (Return (Mem.brk (DList.nodes l)), l') /\
    DList.chain (DList.nodes l') None (l1 ++ (Mem.brk (DList.nodes l), e) :: l2) None /\
    Linked.owns (DList.nodes l') (l1 ++ (Mem.brk (DList.nodes l), e) :: l2) /\
    DList._first l' = DList._first l /\ DList._last l' = DList._last l /\
    DList._size l' = wrap32 (DList._size l + 1).
Proof.
  intros Hch Hown. destruct (owns_split _ l1 l2 Hown) as (Hnd1 & Hnd2 & Hdisj).
  destruct Hown as (Hnd & Hall & Hlt).
  set (h := DList.nodes l) in *. set (new := Mem.brk h).
  apply DList_chain_app in Hch as [Hc1 Hc2].
  assert (Hfresh : forall q, q ∈ (l1 ++ l2).*1 -> q <> new).
  { intros q Hq ->. specialize (Hlt _ Hq). unfold new in Hlt. lia. }
  assert (Hf1 : forall q, q ∈ l1.*1 -> q <> new).
  { intros q Hq. apply Hfresh. rewrite fmap_app. apply elem_of_app. by left. }
  assert (Hf2 : forall q, q ∈ l2.*1 -> q <> new).
  { intros q Hq. apply Hfresh. rewrite fmap_app. apply elem_of_app. by right. }
  set (h1 := (Mem.alloc (DList.MkNode e (Linked.first l2) (Linked.final l1)) h).2).
  assert (Hr1 : forall q, q <> new -> Mem.read q h1 = Mem.read q h).
  { intros q Hq. unfold h1. rewrite mem_read_alloc, decide_False; [done|].
    intros Heq. apply Hq. by rewrite <- Heq. }
  assert (Hnew1 : Mem.read new h1
                  = Some (DList.MkNode e (Linked.first l2) (Linked.final l1))).
  { unfold h1. by rewrite mem_read_alloc, decide_True. }
  assert (Hc1' : DList.chain h1 None l1 (DList.head_or None l2)).
  { apply (DList_chain_frame h); [|done]. intros q Hq. apply Hr1. by apply Hf1. }
  destruct (DList_set_next_final h1 None l1 _ (Some new) Hc1' Hnd1)
    as (h2 & Hset1 & Hc1'' & Hout1 & Hbrk1 & Hdom1).
  assert (Hc2' : DList.chain h2 (DList.last_or None l1) l2 None).
  { apply (DList_chain_frame h); [|done]. intros q Hq. rewrite Hout1.
    - apply Hr1. by apply Hf2.
    - intros Hq1. by apply (Hdisj q Hq1). }
  destruct (DList_set_prev_first h2 _ (Some new) l2 None Hc2' Hnd2)
    as (h3 & Hset2 & Hc2'' & Hout2 & Hbrk2 & Hdom2).
  eexists. split.
  { unfold DList.insertElem. cbn [Mem.alloc]. fold h. fold new.
    change (Mem.Heap (<[new:=_]> (Mem.cells h)) (Pos.succ new)) with h1.
    rewrite Hset1, Hset2. reflexivity. }
  cbn [DList.nodes DList._first DList._last DList._size].
  assert (Hnew3 : Mem.read new h3
                  = Some (DList.MkNode e (Linked.first l2) (Linked.final l1))).
  { rewrite Hout2, Hout1; [done| |].
    - intros Hq. by apply (Hf1 new Hq).
    - intros Hq. by apply (Hf2 new Hq). }
  split; [|split; [|done]].
  - apply DList_chain_app. split.
    + cbn [DList.head_or]. apply (DList_chain_frame h2); [|done].
      intros q Hq. apply Hout2. by apply Hdisj.
    + split; [|done]. by rewrite Hnew3, head_or_first, last_or_final.
  - split; [|split].
    + rewrite fmap_app, fmap_cons. apply NoDup_app. split; [done|]. split.
      * intros q Hq [->|Hq2]%elem_of_cons; [by apply (Hf1 new Hq)|].
        by apply (Hdisj q Hq).
      * apply NoDup_cons. split; [|done]. intros Hq. by apply (Hf2 new Hq).
    + intros q Hq. apply Hdom2, Hdom1 in Hq. rewrite fmap_app, fmap_cons.
      destruct (decide (q = new)) as [->|Hne].
      { apply elem_of_app. right. by left. }
      rewrite Hr1 in Hq by done. apply Hall in Hq. rewrite fmap_app in Hq.
      apply elem_of_app in Hq as [Hq|Hq]; apply elem_of_app; [by left|].
      right. by right.
    + intros q Hq. rewrite Hbrk2, Hbrk1. unfold h1. cbn [Mem.alloc snd Mem.brk].
      fold h. fold new. rewrite fmap_app, fmap_cons in Hq.
      assert (Hcase : q = new \/ q ∈ (l1 ++ l2).*1).
      { rewrite fmap_app. apply elem_of_app in Hq as [Hq|[->|Hq]%elem_of_cons].
        - right. apply elem_of_app. by left.
        - by left.
        - right. apply elem_of_app. by right. }
      destruct Hcase as [->|Hq']; [lia|]. specialize (Hlt q Hq'). fold new in Hlt. lia.
Qed.

(** [deleteElem] on the node between [l1] and [l2]. *)
Lemma DList_deleteElem_spec (l : DList.t T) (l1 l2 : list cell) (a : positive) (e : T) :
  DList.chain (DList.nodes l) None (l1 ++ (a, e) :: l2) None ->
  Linked.owns (DList.nodes l) (l1 ++ (a, e) :: l2) ->
  exists l',
    DList.deleteElem (Some a) l = (Return tt, l') /\
    DList.chain (DList.nodes l') None (l1 ++ l2) None /\
    Linked.owns (DList.nodes l') (l1 ++ l2) /\
    DList._first l' = DList._first l /\ DList._last l' = DList._last l /\
    DList._size l' = wrap32 (DList._size l - 1).
Proof.
  intros Hch Hown. pose proof (DList_chain_middle _ _ _ _ _ _ _ Hch) as Ha.
  destruct (owns_split _ l1 ((a, e) :: l2) Hown) as (Hnd1 & Hnd2 & Hdisj).
  destruct Hown as (Hnd & Hall & Hlt).
  set (h := DList.nodes l) in *.
  rewrite fmap_cons in Hnd2. apply NoDup_cons in Hnd2 as [Ha2 Hnd2]. simpl in Ha2.
  assert (Ha1 : a ∉ l1.*1).
  { intros Hq. apply (Hdisj a Hq). by left. }
  assert (Hdisj' : forall q, q ∈ l1.*1 -> q ∉ l2.*1).
  { intros q Hq Hq2. apply (Hdisj q Hq). by right. }
  apply DList_chain_app in Hch as [Hc1 [_ Hc2]]. cbn [DList.head_or] in Hc1.
  destruct (DList_set_next_final h None l1 _ (Linked.first l2) Hc1 Hnd1)
    as (h1 & Hset1 & Hc1' & Hout1 & Hbrk1 & Hdom1).
  assert (Hc2' : DList.chain h1 (Some a) l2 None).
  { apply (DList_chain_frame h); [|done]. intros q Hq. apply Hout1.
    intros Hq1. by apply (Hdisj' q Hq1). }
  destruct (DList_set_prev_first h1 _ (Linked.final l1) l2 None Hc2' Hnd2)
    as (h2 & Hset2 & Hc2'' & Hout2 & Hbrk2 & Hdom2).
  rewrite <- head_or_first in Hc1'. rewrite <- last_or_final in Hc2''.
  eexists. split.
  { unfold DList.deleteElem. fold h. rewrite Ha. cbn [DList._prev DList._next].
    rewrite last_or_final, head_or_first, Hset1, Hset2. reflexivity. }
  cbn [DList.nodes DList._first DList._last DList._size].
  assert (Hr : forall q, q <> a -> Mem.read q (Mem.dealloc a h2) = Mem.read q h2).
  { intros q Hq. rewrite mem_read_dealloc, decide_False; [done|]. by intros ->. }
  split; [|split; [|done]].
  - apply DList_chain_app. split.
    + apply (DList_chain_frame h1); [|done]. intros q Hq. rewrite Hr.
      * apply Hout2. by apply Hdisj'.
      * by intros ->.
    + apply (DList_chain_frame h2); [|done]. intros q Hq. apply Hr. by intros ->.
  - split; [|split].
    + rewrite fmap_app. apply NoDup_app. done.
    + intros q Hq. destruct (decide (q = a)) as [->|Hne].
      { rewrite mem_read_dealloc, decide_True in Hq by done. by destruct Hq. }
      rewrite Hr in Hq by done. apply Hdom2, Hdom1, Hall in Hq.
      rewrite fmap_app, fmap_cons in Hq. rewrite fmap_app.
      apply elem_of_app in Hq as [Hq|[->|Hq]%elem_of_cons]; apply elem_of_app;
        [by left | done | by right].
    + intros q Hq. cbn [Mem.dealloc Mem.brk]. rewrite Hbrk2, Hbrk1. apply Hlt.
      rewrite fmap_app, fmap_cons. rewrite fmap_app in Hq.
      apply elem_of_app in Hq as [Hq|Hq]; apply elem_of_app; [by left|].
      right. by right.
Qed.

(** *** The operations on the represented list *)

Lemma final_snoc (l : list cell) (a : positive) (e : T) :
  Linked.final (l ++ [(a, e)]) = Some a.
Proof. unfold Linked.final. by rewrite last_snoc. Qed.

Lemma final_cons_cons (c c' : cell) (l : list cell) :
  Linked.final (c :: c' :: l) = Linked.final (c' :: l).
Proof. unfold Linked.final. by rewrite last_cons_cons. Qed.

Lemma final_app_cons (l1 : list cell) (c : cell) (l2 : list cell) :
  Linked.final (l1 ++ c :: l2) = Linked.final (c :: l2).
Proof.
  unfold Linked.final. rewrite last_app. by destruct (last (c :: l2)) eqn:E;
    [|apply last_None in E].
Qed.

Lemma first_app_cons (c : cell) (l1 l2 : list cell) :
  Linked.first ((c :: l1) ++ l2) = Linked.first (c :: l1).
Proof. done. Qed.

Lemma DList_init_rep : DList.rep (DList.init (T := T)) [].
Proof.
  unfold DList.rep, DList.init, Linked.owns. simpl. repeat split; try done.
  - constructor.
  - intros a [n Hn]. unfold Mem.read in Hn. simpl in Hn. by rewrite lookup_empty in Hn.
  - intros a Ha. by apply elem_of_nil in Ha.
Qed.

Lemma DList_empty_spec (l : DList.t T) (cells : list cell) :
  DList.rep l cells -> DList.empty l = bool_decide (cells = []).
Proof.
  intros (_ & _ & Hf & _). unfold DList.empty. rewrite Hf.
  by destruct cells as [|[a e] rest].
Qed.

Lemma DList_front_spec (l : DList.t T) (cells : list cell) :
  DList.rep l cells ->
  DList.front l = match cells with
                  | [] => Throw EmptyListException
                  | (_, e) :: _ => Return e
                  end.
Proof.
  intros (Hch & _ & Hf & _). unfold DList.front, DList.empty. rewrite Hf.
  destruct cells as [|[a e] rest]; [done|]. destruct Hch as [Ha _].
  unfold Linked.first. simpl. by rewrite Ha.
Qed.

Lemma DList_back_spec (l : DList.t T) (cells : list cell) :
  DList.rep l cells ->
  DList.back l = match last cells with
                 | None => Throw EmptyListException
                 | Some (_, e) => Return e
                 end.
Proof.
  intros (Hch & _ & Hf & Hl & _). unfold DList.back, DList.empty. rewrite Hf, Hl.
  destruct cells as [|c rest _] using rev_ind; [done|]. destruct c as [a e].
  rewrite last_snoc, final_snoc.
  replace (Linked.first (rest ++ [(a, e)])) with (Some (fst (hd (a, e) (rest ++ [(a, e)]))))
    by (by destruct rest).
  by rewrite (DList_chain_middle _ _ _ _ _ _ _ Hch).
Qed.

Lemma DList_push_front_spec (l : DList.t T) (cells : list cell) (e : T) :
  DList.rep l cells ->
  exists l', DList.push_front e l = (Return tt, l') /\
             DList.rep l' ((Mem.brk (DList.nodes l), e) :: cells).
Proof.
  intros (Hch & Hown & Hf & Hl & Hs).
  destruct (DList_insertElem_spec l [] cells e Hch Hown)
    as (l1 & Hins & Hch1 & Hown1 & Hf1 & Hl1 & Hs1).
  unfold DList.push_front. rewrite Hf.
  change (@None positive) with (Linked.final (@nil cell)) at 1. rewrite Hins.
  eexists. split; [done|]. split; [exact Hch1|]. split; [exact Hown1|].
  cbn [DList._first DList._last DList._size]. split; [done|]. split.
  - rewrite Hl1, Hl. destruct cells as [|c rest]; [done|]. rewrite final_cons_cons.
    unfold Linked.final. destruct (last (c :: rest)) eqn:E; [done|].
    by apply last_None in E.
  - rewrite Hs1, Hs, wrap32_succ. f_equal. simpl length. lia.
Qed.

Lemma DList_push_back_spec (l : DList.t T) (cells : list cell) (e : T) :
  DList.rep l cells ->
  exists l', DList.push_back e l = (Return tt, l') /\
             DList.rep l' (cells ++ [(Mem.brk (DList.nodes l), e)]).
Proof.
  intros (Hch & Hown & Hf & Hl & Hs).
  rewrite <- (app_nil_r cells) in Hch, Hown.
  destruct (DList_insertElem_spec l cells [] e Hch Hown)
    as (l1 & Hins & Hch1 & Hown1 & Hf1 & Hl1 & Hs1).
  unfold DList.push_back. rewrite Hl.
  change (@None positive) with (Linked.first (@nil cell)) at 1. rewrite Hins.
  eexists. split; [done|]. split; [exact Hch1|]. split; [exact Hown1|].
  cbn [DList._first DList._last DList._size]. split; [|split].
  - rewrite Hf1, Hf. by destruct cells as [|[a x] rest].
  - by rewrite final_snoc.
  - rewrite Hs1, Hs, wrap32_succ. f_equal. rewrite length_app. simpl. lia.
Qed.

Lemma DList_pop_front_spec (l : DList.t T) (a : positive) (e : T) (rest : list cell) :
  DList.rep l ((a, e) :: rest) ->
  exists l', DList.pop_front l = (Return tt, l') /\ DList.rep l' rest.
Proof.
  intros (Hch & Hown & Hf & Hl & Hs).
  pose proof (DList_chain_middle _ _ [] _ _ _ _ Hch) as Ha.
  set (l1 := {| DList.nodes := DList.nodes l; DList._first := DList.head_or None rest;
                DList._last := DList._last l; DList._size := DList._size l |}).
  destruct (DList_deleteElem_spec l1 [] rest a e Hch Hown)
    as (l2 & Hdel & Hch2 & Hown2 & Hf2 & Hl2 & Hs2).
  unfold DList.pop_front, DList.empty. rewrite Hf. cbn [Linked.first head fmap option_fmap option_map fst].
  rewrite Ha. cbn [DList._next]. fold l1. rewrite Hdel.
  eexists. split; [done|]. split; [exact Hch2|]. split; [exact Hown2|].
  cbn [DList._first DList._last DList._size]. rewrite Hf2, Hl2, Hs2.
  cbn [l1 DList._first DList._last DList._size]. split; [|split].
  - apply head_or_first.
  - rewrite Hl. destruct rest as [|c rest]; [done|]. destruct c as [b x].
    cbn [DList.head_or]. apply final_cons_cons.
  - rewrite Hs. cbn [length]. rewrite Nat2Z.inj_succ, <- Z.add_1_r. apply wrap32_pred.
Qed.

Lemma DList_pop_back_spec (l : DList.t T) (a : positive) (e : T) (rest : list cell) :
  DList.rep l (rest ++ [(a, e)]) ->
  exists l', DList.pop_back l = (Return tt, l') /\ DList.rep l' rest.
Proof.
  intros Hrep. pose proof Hrep as (Hch & Hown & Hf & Hl & Hs).
  pose proof (DList_chain_middle _ _ _ _ _ _ _ Hch) as Ha.
  set (l1 := {| DList.nodes := DList.nodes l; DList._first := DList._first l;
                DList._last := DList.last_or None rest; DList._size := DList._size l |}).
  destruct (DList_deleteElem_spec l1 rest [] a e Hch Hown)
    as (l2 & Hdel & Hch2 & Hown2 & Hf2 & Hl2 & Hs2).
  rewrite app_nil_r in Hch2, Hown2.
  unfold DList.pop_back. rewrite (DList_empty_spec l _ Hrep).
  rewrite bool_decide_eq_false_2 by (by destruct rest).
  rewrite Hl, final_snoc, Ha. cbn [DList._prev]. fold l1. rewrite Hdel.
  eexists. split; [done|]. split; [exact Hch2|]. split; [exact Hown2|].
  cbn [DList._first DList._last DList._size]. rewrite Hf2, Hl2, Hs2.
  cbn [l1 DList._first DList._last DList._size]. split; [|split].
  - rewrite Hf, last_or_final. destruct rest as [|c rest]; [done|].
    unfold Linked.final. destruct (last (c :: rest)) eqn:E; [done|].
    by apply last_None in E.
  - apply last_or_final.
  - rewrite Hs, length_app. cbn [length]. rewrite Nat2Z.inj_add. apply wrap32_pred.
Qed.

(** *** Indexing and iterators *)

Lemma DList_at_loop_spec (h : store) (cells : list cell) :
  forall (prev : option positive) (n : nat),
  DList.chain h prev cells None ->
  DList.at_loop n (Linked.first cells) h
  = match cells !! n with
    | Some (_, e) => Return e
    | None => Abort
    end.
Proof.
  induction cells as [|[a e] rest IH]; intros prev n Hch.
  { by destruct n. }
  destruct Hch as [Ha Hrest]. unfold Linked.first. cbn [head fmap option_fmap option_map fst].
  destruct n as [|n]; cbn [DList.at_loop]; rewrite Ha; [done|].
  cbn [DList._next]. rewrite head_or_first. by apply (IH (Some a)).
Qed.

Lemma DList_at_spec (l : DList.t T) (cells : list cell) (idx : Z) :
  DList.rep l cells -> Z.of_nat (length cells) <= 2 ^ 31 -> 0 <= idx ->
  DList.at_ idx l
  = match cells !! Z.to_nat idx with
    | Some (_, e) => Return e
    | None => Throw InvalidAccessException
    end.
Proof.
  intros (Hch & _ & Hf & _ & Hs) Hlen Hidx. unfold DList.at_. rewrite Hs.
  unfold wrap32. rewrite Z.mod_small by lia.
  destruct (Z.leb_spec (Z.of_nat (length cells)) idx) as [Hout|Hin].
  - rewrite lookup_ge_None_2; [done|]. lia.
  - destruct (Z.leb_spec (2 ^ 31) idx) as [?|_]; [lia|].
    rewrite Hf, (DList_at_loop_spec _ cells None _ Hch).
    destruct (lookup_lt_is_Some_2 cells (Z.to_nat idx)) as [[a e] Hc]; [lia|].
    by rewrite Hc.
Qed.

Lemma DList_advance_spec (l : DList.t T) (n : nat) :
  forall (cells : list cell) (prev : option positive),
  DList.chain (DList.nodes l) prev cells None ->
  DList.advance n (DList.MkIterator (Linked.first cells)) l
  = if bool_decide (n <= length cells)%nat
    then Return (DList.MkIterator (Linked.first (drop n cells)))
    else Throw InvalidAccessException.
Proof.
  induction n as [|n IH]; intros cells prev Hch.
  { cbn [DList.advance]. rewrite bool_decide_eq_true_2 by lia. by rewrite drop_0. }
  cbn [DList.advance]. unfold DList.next. cbn [DList._current].
  destruct cells as [|[a e] rest]; [done|]. destruct Hch as [Ha Hrest].
  unfold Linked.first at 1. cbn [head fmap option_fmap option_map fst].
  rewrite Ha. cbn [obind DList._next]. rewrite head_or_first, (IH rest (Some a) Hrest).
  cbn [length drop]. by repeat case_bool_decide; try lia.
Qed.

Lemma DList_walk_spec (l : DList.t T) (cells : list cell) :
  forall (prev : option positive) (fuel : nat),
  DList.chain (DList.nodes l) prev cells None -> (length cells <= fuel)%nat ->
  DList.walk fuel (DList.MkIterator (Linked.first cells)) l = Return cells.*2.
Proof.
  induction cells as [|[a e] rest IH]; intros prev fuel Hch Hfuel.
  { by destruct fuel. }
  destruct fuel as [|fuel]; [simpl in Hfuel; lia|]. destruct Hch as [Ha Hrest].
  cbn [DList.walk DList.is_end DList._current Linked.first head fmap option_fmap
       option_map fst].
  unfold DList.elem, DList.next. cbn [DList._current]. rewrite Ha. cbn [obind DList._next DList._elem].
  rewrite head_or_first, (IH (Some a) fuel Hrest) by (simpl in Hfuel; lia). done.
Qed.

Lemma DList_iterate_spec (l : DList.t T) (cells : list cell) :
  DList.rep l cells -> DList.iterate l = Return cells.*2.
Proof.
  intros (Hch & (Hnd & _ & Hlt) & Hf & _). unfold DList.iterate, DList.begin_.
  rewrite Hf. apply (DList_walk_spec l cells None); [done|].
  pose proof (addresses_bounded cells.*1 _ Hnd Hlt) as Hb.
  rewrite length_fmap in Hb. lia.
Qed.

Lemma same_addresses (l1 l2 : list cell) (a : positive) (e e' : T) :
  (l1 ++ (a, e') :: l2).*1 = (l1 ++ (a, e) :: l2).*1.
Proof. by rewrite !fmap_app, !fmap_cons. Qed.

Lemma DList_set_spec (l : DList.t T) (l1 l2 : list cell) (a : positive) (e e' : T) :
  DList.rep l (l1 ++ (a, e) :: l2) ->
  exists l', DList.set e' (DList.MkIterator (Some a)) l = (Return tt, l') /\
             DList.rep l' (l1 ++ (a, e') :: l2).
Proof.
  intros (Hch & Hown & Hf & Hl & Hs).
  pose proof (DList_chain_middle _ _ _ _ _ _ _ Hch) as Ha.
  destruct (owns_split _ l1 ((a, e) :: l2) Hown) as (Hnd1 & Hnd2 & Hdisj).
  rewrite fmap_cons in Hnd2. apply NoDup_cons in Hnd2 as [Ha2 Hnd2]. simpl in Ha2.
  assert (Ha1 : a ∉ l1.*1).
  { intros Hq. apply (Hdisj a Hq). by left. }
  unfold DList.set. cbn [DList._current]. rewrite Ha. cbn [DList._next DList._prev].
  eexists. split; [done|].
  set (h' := Mem.write a _ (DList.nodes l)).
  assert (Hr : forall q, q <> a -> Mem.read q h' = Mem.read q (DList.nodes l)).
  { intros q Hq. unfold h'. rewrite mem_read_write, decide_False; [done|]. by intros ->. }
  apply DList_chain_app in Hch as [Hc1 [_ Hc2]].
  split; [|split; [|split; [|split]]]; cbn [DList.nodes DList._first DList._last DList._size].
  - apply DList_chain_app. split; [|split].
    + apply (DList_chain_frame (DList.nodes l)); [|done]. intros q Hq. apply Hr. by intros ->.
    + unfold h'. by rewrite mem_read_write, decide_True.
    + apply (DList_chain_frame (DList.nodes l)); [|done]. intros q Hq. apply Hr. by intros ->.
  - destruct Hown as (Hnd & Hall & Hlt). unfold Linked.owns.
    rewrite (same_addresses l1 l2 a e e'). split; [done|]. split; [|done].
    intros q Hq. apply Hall. destruct (decide (q = a)) as [->|Hne].
    + rewrite Ha. by eexists.
    + by rewrite <- Hr.
  - rewrite Hf. by destruct l1.
  - rewrite Hl, !final_app_cons. destruct l2 as [|c l2]; [done|].
    by rewrite !final_cons_cons.
  - rewrite Hs, !length_app. done.
Qed.

Lemma first_not_elem (c : cell) (l1 l2 : list cell) (a : positive) :
  a ∉ (c :: l1).*1 -> Some a <> Linked.first ((c :: l1) ++ l2).
Proof. intros Hq [= ->]. apply Hq. by left. Qed.

Lemma final_elem (c : cell) (l : list cell) :
  exists x, Linked.final (c :: l) = Some x /\ x ∈ (c :: l).*1.
Proof.
  unfold Linked.final. destruct (last (c :: l)) as [d|] eqn:E.
  - exists d.1. split; [done|]. apply list_elem_of_fmap. exists d. split; [done|].
    rewrite last_lookup in E. by apply (list_elem_of_lookup_2 _ _ _ E).
  - by apply last_None in E.
Qed.

Lemma DList_erase_spec (l : DList.t T) (l1 l2 : list cell) (a : positive) (e : T) :
  DList.rep l (l1 ++ (a, e) :: l2) ->
  exists l', DList.erase (DList.MkIterator (Some a)) l
             = (Return (DList.MkIterator (Linked.first l2)), l') /\
             DList.rep l' (l1 ++ l2).
Proof.
  intros Hrep. pose proof Hrep as (Hch & Hown & Hf & Hl & Hs).
  pose proof (DList_chain_middle _ _ _ _ _ _ _ Hch) as Ha.
  destruct (owns_split _ l1 ((a, e) :: l2) Hown) as (Hnd1 & Hnd2 & Hdisj).
  rewrite fmap_cons in Hnd2. apply NoDup_cons in Hnd2 as [Ha2 Hnd2]. simpl in Ha2.
  assert (Ha1 : a ∉ l1.*1).
  { intros Hq. apply (Hdisj a Hq). by left. }
  unfold DList.erase. cbn [DList._current].
  destruct l1 as [|c l1].
  { destruct (DList_pop_front_spec l a e l2 Hrep) as (l' & Hpop & Hrep').
    rewrite Hf, bool_decide_eq_true_2 by done. rewrite sbind_eq, Hpop.
    exists l'. split; [|done]. by destruct Hrep' as (_ & _ & -> & _). }
  rewrite Hf, bool_decide_eq_false_2 by (by apply first_not_elem).
  rewrite Hl, final_app_cons. destruct l2 as [|d l2].
  { destruct (DList_pop_back_spec l a e (c :: l1) Hrep) as (l' & Hpop & Hrep').
    rewrite bool_decide_eq_true_2 by done. rewrite sbind_eq, Hpop.
    exists l'. by rewrite app_nil_r. }
  rewrite final_cons_cons. destruct (final_elem d l2) as (x & -> & Hx).
  rewrite bool_decide_eq_false_2 by (intros [= ->]; done).
  rewrite Ha. cbn [DList._next].
  destruct (DList_deleteElem_spec l (c :: l1) (d :: l2) a e Hch Hown)
    as (l' & Hdel & Hch' & Hown' & Hf' & Hl' & Hs').
  rewrite sbind_eq, Hdel. exists l'. split.
  { unfold sret. by rewrite head_or_first. }
  split; [done|]. split; [done|]. split; [by rewrite Hf', Hf|]. split.
  - by rewrite Hl', Hl, !final_app_cons, final_cons_cons.
  - rewrite Hs', Hs.
    match goal with
    | |- wrap32 (wrap32 ?A - 1) = wrap32 ?B =>
        replace A with (B + 1) by (rewrite !length_app; simpl; lia)
    end.
    apply wrap32_pred.
Qed.

Lemma DList_insert_spec (l : DList.t T) (l1 l2 : list cell) (e : T) :
  DList.rep l (l1 ++ l2) ->
  exists l', DList.insert e (DList.MkIterator (Linked.first l2)) l = (Return tt, l') /\
             DList.rep l' (l1 ++ (Mem.brk (DList.nodes l), e) :: l2).
Proof.
  intros Hrep. pose proof Hrep as (Hch & Hown & Hf & Hl & Hs).
  destruct (owns_split _ l1 l2 Hown) as (Hnd1 & Hnd2 & Hdisj).
  unfold DList.insert. cbn [DList._current].
  destruct l1 as [|c l1].
  { rewrite Hf, bool_decide_eq_true_2 by done. by apply DList_push_front_spec. }
  destruct l2 as [|[b x] l2].
  { rewrite Hf, bool_decide_eq_false_2 by done. unfold Linked.first at 1. simpl head.
    cbn [fmap option_fmap option_map].
    destruct (DList_push_back_spec l _ e Hrep) as (l' & Hpush & Hrep').
    exists l'. split; [done|]. by rewrite app_nil_r in Hrep'. }
  assert (Hb : b ∉ (c :: l1).*1).
  { intros Hq. apply (Hdisj b Hq). by left. }
  rewrite Hf, bool_decide_eq_false_2; cycle 1.
  { intros Heq. symmetry in Heq. by apply (first_not_elem c l1 ((b, x) :: l2) b Hb). }
  unfold Linked.first at 1. cbn [head fmap option_fmap option_map fst].
  rewrite (DList_chain_middle _ _ _ _ _ _ _ Hch). cbn [DList._prev].
  destruct (DList_insertElem_spec l (c :: l1) ((b, x) :: l2) e Hch Hown)
    as (l' & Hins & Hch' & Hown' & Hf' & Hl' & Hs').
  rewrite last_or_final, sbind_eq.
  change (Some b) with (Linked.first ((b, x) :: l2)). rewrite Hins.
  exists l'. split; [done|]. split; [done|]. split; [done|].
  split; [by rewrite Hf', Hf|]. split.
  - by rewrite Hl', Hl, !final_app_cons, final_cons_cons.
  - rewrite Hs', Hs, wrap32_succ, !length_app. cbn [length]. f_equal. lia.
Qed.

(** *** Sequences of calls *)

Lemma DList_begin_advance (l : DList.t T) (cells : list cell) (i : nat) :
  DList.rep l cells ->
  DList.advance i (DList.begin_ l) l
  = if bool_decide (i <= length cells)%nat
    then Return (DList.MkIterator (Linked.first (drop i cells)))
    else Throw InvalidAccessException.
Proof.
  intros (Hch & _ & Hf & _). unfold DList.begin_. rewrite Hf.
  by apply (DList_advance_spec l i cells None).
Qed.

Lemma delete_out {A : Type} (l : list A) (i : nat) :
  (length l <= i)%nat -> delete i l = l.
Proof.
  intros Hi. rewrite delete_take_drop, take_ge, drop_ge by lia. apply app_nil_r.
Qed.

Lemma DList_apply_rep (l : DList.t T) (cells : list cell) (o : DList.op T) :
  DList.rep l cells ->
  exists cells', DList.rep (DList.apply l o) cells' /\
                 cells'.*2 = DList.model_apply cells.*2 o.
Proof.
  intros Hrep. destruct o as [e|e| | |i e|i|i e]; cbn [DList.apply DList.model_apply].
  - destruct (DList_push_front_spec l cells e Hrep) as (l' & -> & Hrep').
    eexists. split; [exact Hrep'|done].
  - destruct (DList_push_back_spec l cells e Hrep) as (l' & -> & Hrep').
    eexists. split; [exact Hrep'|]. by rewrite fmap_app.
  - destruct cells as [|[a e] rest].
    + exists []. split; [|done]. unfold DList.pop_front.
      by rewrite (DList_empty_spec l [] Hrep).
    + destruct (DList_pop_front_spec l a e rest Hrep) as (l' & -> & Hrep').
      by exists rest.
  - destruct cells as [|[a e] rest _] using rev_ind.
    + exists []. split; [|done]. unfold DList.pop_back.
      by rewrite (DList_empty_spec l [] Hrep).
    + destruct (DList_pop_back_spec l a e rest Hrep) as (l' & -> & Hrep').
      exists rest. split; [done|]. rewrite fmap_app. simpl.
      by rewrite removelast_last.
  - rewrite (DList_begin_advance l cells i Hrep), length_fmap. case_bool_decide as Hi.
    + rewrite <- (take_drop i cells) in Hrep.
      destruct (DList_insert_spec l _ _ e Hrep) as (l' & -> & Hrep').
      eexists. split; [exact Hrep'|].
      by rewrite fmap_app, fmap_cons, fmap_take, fmap_drop.
    + by exists cells.
  - rewrite (DList_begin_advance l cells i Hrep). case_bool_decide as Hi; cycle 1.
    { exists cells. split; [done|]. rewrite delete_out; [done|]. rewrite length_fmap. lia. }
    destruct (cells !! i) as [[a e]|] eqn:Hc.
    + pose proof Hrep as Hrep0. rewrite <- (take_drop_middle cells i _ Hc) in Hrep.
      rewrite (drop_S cells (a, e) i Hc).
      destruct (DList_erase_spec l _ _ a e Hrep) as (l' & Her & Hrep').
      unfold Linked.first at 1. cbn [head fmap option_fmap option_map fst].
      rewrite Her. eexists. split; [exact Hrep'|].
      rewrite fmap_app, fmap_take, fmap_drop. by rewrite delete_take_drop.
    + apply lookup_ge_None in Hc. rewrite drop_ge by done. exists cells.
      split; [done|]. rewrite delete_out; [done|]. rewrite length_fmap. lia.
  - rewrite (DList_begin_advance l cells i Hrep). case_bool_decide as Hi; cycle 1.
    { exists cells. split; [done|]. rewrite list_insert_ge; [done|].
      rewrite length_fmap. lia. }
    destruct (cells !! i) as [[a x]|] eqn:Hc.
    + rewrite <- (take_drop_middle cells i _ Hc) in Hrep.
      rewrite (drop_S cells (a, x) i Hc).
      destruct (DList_set_spec l _ _ a x e Hrep) as (l' & Hset & Hrep').
      unfold Linked.first at 1. cbn [head fmap option_fmap option_map fst].
      rewrite Hset. eexists. split; [exact Hrep'|].
      rewrite fmap_app, fmap_cons, fmap_take, fmap_drop. cbn [snd].
      rewrite insert_take_drop; [done|]. rewrite length_fmap.
      by apply lookup_lt_Some in Hc.
    + apply lookup_ge_None in Hc. rewrite drop_ge by done. exists cells.
      split; [done|]. rewrite list_insert_ge; [done|]. rewrite length_fmap. lia.
Qed.

Lemma DList_foldl_rep (ops : list (DList.op T)) :
  forall (l : DList.t T) (cells : list cell),
  DList.rep l cells ->
  exists cells', DList.rep (foldl DList.apply l ops) cells' /\
                 cells'.*2 = foldl DList.model_apply cells.*2 ops.
Proof.
  induction ops as [|o ops IH]; intros l cells Hrep; [by exists cells|].
  cbn [foldl]. destruct (DList_apply_rep l cells o Hrep) as (cells1 & Hrep1 & <-).
  by apply IH.
Qed.

Lemma DList_run_rep (ops : list (DList.op T)) :
  exists cells, DList.rep (DList.run ops) cells /\ cells.*2 = DList.model ops.
Proof. apply (DList_foldl_rep ops DList.init [] DList_init_rep). Qed.

(** *** Copy, destruction, assignment and comparison *)

Lemma DList_rep_length_fuel (l : DList.t T) (cells : list cell) :
  DList.rep l cells -> (length cells <= Pos.to_nat (Mem.brk (DList.nodes l)))%nat.
Proof.
  intros (_ & (Hnd & _ & Hlt) & _).
  pose proof (addresses_bounded cells.*1 _ Hnd Hlt) as Hb.
  rewrite length_fmap in Hb. lia.
Qed.

Lemma DList_copy_loop_spec (other : store) (suffix : list cell) :
  forall (prev : option positive) (fuel : nat) (this : DList.t T) (acc : list cell),
  DList.chain other prev suffix None -> (length suffix <= fuel)%nat ->
  DList.rep this acc ->
  exists this' cells',
    DList.copy_loop fuel other (Linked.first suffix) this = Return this' /\
    DList.rep this' cells' /\ cells'.*2 = acc.*2 ++ suffix.*2.
Proof.
  induction suffix as [|[a e] suffix IH]; intros prev fuel this acc Hch Hfuel Hrep.
  { exists this, acc. split; [by destruct fuel|]. split; [done|]. by rewrite app_nil_r. }
  destruct fuel as [|fuel]; [simpl in Hfuel; lia|]. destruct Hch as [Ha Hrest].
  unfold Linked.first. cbn [head fmap option_fmap option_map fst DList.copy_loop].
  rewrite Ha. cbn [DList._elem DList._next].
  destruct (DList_push_back_spec this acc e Hrep) as (this1 & -> & Hrep1).
  rewrite head_or_first.
  destruct (IH (Some a) fuel this1 (acc ++ [(Mem.brk (DList.nodes this), e)]) Hrest)
    as (this' & cells' & Hloop & Hrep' & He); [simpl in Hfuel; lia | exact Hrep1 |].
  exists this', cells'. split; [done|]. split; [done|].
  rewrite He, fmap_app, fmap_cons, <- app_assoc. done.
Qed.

Lemma DList_copy_spec (this other : DList.t T) (cells : list cell) :
  (forall q, Mem.read q (DList.nodes this) = None) -> DList._last this = None ->
  DList.rep other cells ->
  exists c cells',
    DList.copy this other = Return c /\ DList.rep c cells' /\ cells'.*2 = cells.*2.
Proof.
  intros Hnone Hlast Hrep. pose proof Hrep as (Hch & _ & Hf & _).
  unfold DList.copy. rewrite Hf, Hlast.
  apply (DList_copy_loop_spec _ cells None _ _ [] Hch (DList_rep_length_fuel other cells Hrep)).
  split; [done|]. split; [|done]. split; [constructor|]. split.
  - intros q [n Hq]. cbn [DList.nodes] in Hq. by rewrite Hnone in Hq.
  - intros q Hq. by apply elem_of_nil in Hq.
Qed.

Lemma DList_copy_ctor_spec (other : DList.t T) (cells : list cell) :
  DList.rep other cells ->
  exists c cells',
    DList.copy_ctor other = Return c /\ DList.rep c cells' /\ cells'.*2 = cells.*2.
Proof.
  intros Hrep. apply DList_copy_spec; [|done|done].
  intros q. unfold Mem.read. simpl. apply lookup_empty.
Qed.

Lemma DList_free_loop_spec (cells : list cell) :
  forall (prev : option positive) (fuel : nat) (h : store),
  DList.chain h prev cells None -> NoDup cells.*1 -> (length cells <= fuel)%nat ->
  exists h',
    DList.free_loop fuel (Linked.first cells) h = Return h' /\
    (forall q, Mem.read q h' = if decide (q ∈ cells.*1) then None else Mem.read q h) /\
    Mem.brk h' = Mem.brk h.
Proof.
  induction cells as [|[a e] rest IH]; intros prev fuel h Hch Hnd Hfuel.
  { exists h. split; [by destruct fuel|]. split; [|done]. intros q.
    rewrite decide_False; [done|]. apply not_elem_of_nil. }
  destruct fuel as [|fuel]; [simpl in Hfuel; lia|]. destruct Hch as [Ha Hrest].
  rewrite fmap_cons in Hnd. apply NoDup_cons in Hnd as [Hnot Hnd]. simpl in Hnot.
  unfold Linked.first. cbn [head fmap option_fmap option_map fst DList.free_loop].
  rewrite Ha. cbn [DList._next]. rewrite head_or_first.
  destruct (IH (Some a) fuel (Mem.dealloc a h)) as (h' & Hloop & Hread & Hbrk);
    [|done|simpl in Hfuel; lia|].
  { apply (DList_chain_frame h); [|done]. intros q Hq.
    rewrite mem_read_dealloc, decide_False; [done|]. by intros ->. }
  exists h'. split; [done|]. split; [|done]. intros q. rewrite Hread, fmap_cons.
  cbn [fst]. rewrite mem_read_dealloc.
  destruct (decide (q ∈ rest.*1)) as [Hin|Hout].
  - rewrite decide_True; [done|]. by right.
  - destruct (decide (a = q)) as [->|Hne].
    + rewrite decide_True; [done|]. by left.
    + rewrite decide_False; [done|]. intros [->|?]%elem_of_cons; done.
Qed.

Lemma DList_free_spec (l : DList.t T) (cells : list cell) :
  DList.rep l cells ->
  exists l',
    DList.free l = Return l' /\
    (forall q, Mem.read q (DList.nodes l') = None) /\
    DList._first l' = None /\ DList._last l' = None.
Proof.
  intros Hrep. pose proof Hrep as (Hch & (Hnd & Hall & Hlt) & Hf & _).
  destruct (DList_free_loop_spec cells None _ _ Hch Hnd (DList_rep_length_fuel l cells Hrep))
    as (h' & Hloop & Hread & _).
  unfold DList.free. rewrite Hf, Hloop.
  assert (Hcheck : match Linked.first cells with
                   | Some a =>
                       match Mem.read a (DList.nodes l) with
                       | Some nd => match DList._prev nd with
                                    | Some _ => Abort
                                    | None => Return tt
                                    end
                       | None => Abort
                       end
                   | None => Return tt
                   end = Return tt).
  { destruct cells as [|[a e] rest]; [done|]. destruct Hch as [Ha _].
    unfold Linked.first. simpl. by rewrite Ha. }
  rewrite Hcheck. cbn [obind]. eexists. split; [done|].
  cbn [DList.nodes DList._first DList._last]. split; [|done].
  intros q. rewrite Hread. destruct (decide (q ∈ cells.*1)) as [|Hout]; [done|].
  destruct (Mem.read q (DList.nodes l)) as [n|] eqn:Hq; [|done].
  exfalso. apply Hout, Hall. by eexists.
Qed.

Lemma DList_assign_spec (this other : DList.t T) (c1 c2 : list cell) :
  DList.rep this c1 -> DList.rep other c2 ->
  exists l' cells',
    DList.assign this other = Return l' /\ DList.rep l' cells' /\ cells'.*2 = c2.*2.
Proof.
  intros H1 H2. destruct (DList_free_spec this c1 H1) as (this1 & Hfree & Hnone & _ & Hlast).
  unfold DList.assign. rewrite Hfree. cbn [obind]. by apply DList_copy_spec.
Qed.

Lemma DList_eq_loop_spec `{EqDecision T} (h1 h2 : store) (c1 : list cell) :
  forall (c2 : list cell) (prev1 prev2 : option positive) (fuel : nat),
  DList.chain h1 prev1 c1 None -> DList.chain h2 prev2 c2 None ->
  length c1 = length c2 -> (length c1 <= fuel)%nat ->
  DList.eq_loop fuel h1 h2 (Linked.first c1) (Linked.first c2)
  = Return (bool_decide (c1.*2 = c2.*2)).
Proof.
  induction c1 as [|[a1 e1] c1 IH]; intros c2 prev1 prev2 fuel Hch1 Hch2 Hlen Hfuel.
  { destruct c2; [|done]. by destruct fuel. }
  destruct c2 as [|[a2 e2] c2]; [done|].
  destruct fuel as [|fuel]; [simpl in Hfuel; lia|].
  destruct Hch1 as [Ha1 Hr1]. destruct Hch2 as [Ha2 Hr2].
  unfold Linked.first. cbn [head fmap option_fmap option_map fst DList.eq_loop].
  rewrite Ha1, Ha2. cbn [DList._elem DList._next]. rewrite !fmap_cons. cbn [snd].
  case_bool_decide as He.
  - rewrite bool_decide_eq_false_2; [done|]. by intros [= ? ?].
  - subst e2. rewrite !head_or_first.
    rewrite (IH c2 (Some a1) (Some a2) fuel Hr1 Hr2) by (simpl in *; lia).
    f_equal. apply bool_decide_ext. split; [by intros ->|by intros [= ?]].
Qed.

Lemma DList_eq_spec `{EqDecision T} (l1 l2 : DList.t T) (c1 c2 : list cell) :
  DList.rep l1 c1 -> DList.rep l2 c2 ->
  Z.of_nat (length c1) < 2 ^ 32 -> Z.of_nat (length c2) < 2 ^ 32 ->
  DList.eq l1 l2 = Return (bool_decide (c1.*2 = c2.*2)).
Proof.
  intros H1 H2 Hb1 Hb2. pose proof H1 as (Hch1 & _ & Hf1 & _ & Hs1).
  pose proof H2 as (Hch2 & _ & Hf2 & _ & Hs2).
  unfold DList.eq. rewrite Hs1, Hs2. unfold wrap32. rewrite !Z.mod_small by lia.
  case_bool_decide as Hsz.
  - rewrite bool_decide_eq_false_2; [done|]. intros Heq%(f_equal length).
    rewrite !length_fmap in Heq. lia.
  - rewrite Hf1, Hf2.
    apply (DList_eq_loop_spec _ _ c1 c2 None None); [done|done|lia|].
    by apply DList_rep_length_fuel.
Qed.

Lemma DList_elem_first (l : DList.t T) (prev : option positive) (l2 : list cell) :
  DList.chain (DList.nodes l) prev l2 None ->
  DList.elem (DList.MkIterator (Linked.first l2)) l
  = match l2 with
    | [] => Throw InvalidAccessException
    | (_, x) :: _ => Return x
    end.
Proof.
  intros Hch. destruct l2 as [|[b x] l2]; [done|]. destruct Hch as [Hb _].
  unfold DList.elem, Linked.first. simpl. by rewrite Hb.
Qed.

Lemma DList_rep_suffix (l : DList.t T) (l1 l2 : list cell) :
  DList.rep l (l1 ++ l2) ->
  DList.chain (DList.nodes l) (DList.last_or None l1) l2 None.
Proof. intros (Hch & _). by apply DList_chain_app in Hch as [_ ?]. Qed.

Lemma cells_empty (h : store) : (forall q, Mem.read q h = None) -> Mem.cells h = ∅.
Proof. intros Hnone. apply map_empty. intros q. apply Hnone. Qed.
End DListFacts.

(** List, the calls on a list: replay any sequence of [push_front],
    [push_back], [pop_front], [pop_back], [insert] and [erase] at the
    iterator a number of steps after [begin()], and [set] through such an
    iterator, on a list of values (a call that throws changes nothing).
    The doubly-linked list then consists of one node per element, linked
    both ways in that order, its store holding no other node; the loop from
    [begin()] to [end()] returns the elements in order; [front()] and
    [back()] return the first and the last one, or throw
    EmptyListException; [size()] is the length modulo 2^32 and [empty()]
    tells whether the list is empty. *)
Theorem List_behaves_as_list {T : Type} (ops : list (DList.op T)) :
  let l := DList.run ops in
  let m := DList.model ops in
  (exists cells, DList.rep l cells /\ cells.*2 = m) /\
  DList.iterate l = Return m /\
  DList.front l = match m with
                  | [] => Throw EmptyListException
                  | e :: _ => Return e
                  end /\
  DList.back l = match last m with
                 | None => Throw EmptyListException
                 | Some e => Return e
                 end /\
  DList.size l = wrap32 (Z.of_nat (length m)) /\
  (DList.empty l = true <-> m = []).
Proof.
  intros l m. destruct (DList_run_rep ops) as (cells & Hrep & He).
  fold l in Hrep. fold m in He.
  split; [by exists cells|]. split; [by rewrite (DList_iterate_spec l cells Hrep), He|].
  split; [|split; [|split]].
  - rewrite (DList_front_spec l cells Hrep), <- He. by destruct cells as [|[a e] rest].
  - rewrite (DList_back_spec l cells Hrep), <- He, fmap_last.
    by destruct (last cells) as [[a e]|].
  - unfold DList.size. destruct Hrep as (_ & _ & _ & _ & ->).
    by rewrite <- He, length_fmap.
  - rewrite (DList_empty_spec l cells Hrep), <- He, bool_decide_eq_true.
    by destruct cells.
Qed.

(** List, indexing and iterators: for a list of at most 2^31 elements
    built by any sequence of calls, [at(idx)] returns the element at
    position [idx] of the list and throws InvalidAccessException from the
    length on; the iterator [i] steps after [begin()] stands on the element
    that [at(i)] returns; after as many steps as there are elements it
    equals [end()], where [next()] and the element access throw
    InvalidAccessException, as does stepping further. *)
Theorem List_at_and_iterators_agree {T : Type} (ops : list (DList.op T))
    (idx : Z) (i : nat) :
  Z.of_nat (length (DList.model ops)) <= 2 ^ 31 -> 0 <= idx ->
  let l := DList.run ops in
  let m := DList.model ops in
  DList.at_ idx l = match m !! Z.to_nat idx with
                    | Some e => Return e
                    | None => Throw InvalidAccessException
                    end /\
  (exists it, DList.advance (length m) (DList.begin_ l) l = Return it /\
              DList.is_end it = true /\
              DList.next it l = Throw InvalidAccessException /\
              DList.elem it l = Throw InvalidAccessException) /\
  ((i < length m)%nat ->
   exists it, DList.advance i (DList.begin_ l) l = Return it /\
              DList.is_end it = false /\
              DList.elem it l = DList.at_ (Z.of_nat i) l) /\
  ((length m < i)%nat ->
   DList.advance i (DList.begin_ l) l = Throw InvalidAccessException).
Proof.
  intros Hlen Hidx l m. destruct (DList_run_rep ops) as (cells & Hrep & He).
  fold l in Hrep. fold m in He, Hlen.
  assert (Hlc : length cells = length m) by (by rewrite <- He, length_fmap).
  assert (Hat : forall j, 0 <= j ->
            DList.at_ j l = match m !! Z.to_nat j with
                            | Some e => Return e
                            | None => Throw InvalidAccessException
                            end).
  { intros j Hj. rewrite (DList_at_spec l cells j Hrep) by lia.
    rewrite <- He, list_lookup_fmap. by destruct (cells !! Z.to_nat j) as [[a e]|]. }
  split; [by apply Hat|]. split; [|split].
  - eexists. rewrite (DList_begin_advance l cells _ Hrep), bool_decide_eq_true_2 by lia.
    split; [done|]. rewrite drop_ge by lia. done.
  - intros Hi. eexists. rewrite (DList_begin_advance l cells _ Hrep), bool_decide_eq_true_2 by lia.
    split; [done|]. destruct (lookup_lt_is_Some_2 cells i) as [[a e] Hc]; [lia|].
    rewrite Hat, Nat2Z.id by lia. rewrite <- He, list_lookup_fmap, Hc.
    pose proof (take_drop_middle cells i _ Hc) as Hsplit.
    rewrite <- Hsplit in Hrep. apply DList_rep_suffix in Hrep.
    rewrite (drop_S cells (a, e) i Hc). split; [done|].
    by rewrite (DList_elem_first l _ _ Hrep).
  - intros Hi. by rewrite (DList_begin_advance l cells _ Hrep), bool_decide_eq_false_2 by lia.
Qed.

Lemma List_at_and_iterators_agree_witness :
  let ops := [DList.PushBack 1; DList.PushBack 2; DList.PushFront 0] in
  DList.at_ 1 (DList.run ops) = match DList.model ops !! Z.to_nat 1 with
                                | Some e => Return e
                                | None => Throw InvalidAccessException
                                end /\
  exists it, DList.advance 1 (DList.begin_ (DList.run ops)) (DList.run ops) = Return it /\
             DList.is_end it = false /\
             DList.elem it (DList.run ops) = DList.at_ (Z.of_nat 1) (DList.run ops).
Proof.
  intros ops.
  assert (Hlen : Z.of_nat (length (DList.model ops)) <= 2 ^ 31) by (vm_compute; discriminate).
  assert (Hidx : 0 <= 1) by lia.
  pose proof (List_at_and_iterators_agree (T := Z) ops 1 1 Hlen Hidx) as (Hat & _ & Hit & _).
  split; [exact Hat|]. apply Hit. simpl. lia.
Defined.

(** List, [insert] and [erase] through an iterator: on a list built by any
    sequence of calls, with the iterator [i] steps after [begin()]
    ([i] at most the length), [insert(e, it)] puts [e] just before
    position [i] and [it] still stands on the same element; [erase(it)]
    removes the element at position [i] and returns an iterator from which
    the loop lists exactly the elements that followed it; and
    [erase(end())] throws InvalidAccessException and leaves the list as it
    is. *)
Theorem List_insert_and_erase_at_iterator {T : Type} (ops : list (DList.op T))
    (i : nat) (e : T) :
  (i <= length (DList.model ops))%nat ->
  let l := DList.run ops in
  let m := DList.model ops in
  exists it,
    DList.advance i (DList.begin_ l) l = Return it /\
    (exists l', DList.insert e it l = (Return tt, l') /\
                DList.iterate l' = Return (take i m ++ e :: drop i m) /\
                DList.size l' = wrap32 (DList.size l + 1) /\
                DList.elem it l' = DList.elem it l) /\
    match m !! i with
    | Some x =>
        exists it' l', DList.erase it l = (Return it', l') /\
                       DList.iterate l' = Return (delete i m) /\
                       DList.size l' = wrap32 (DList.size l - 1) /\
                       DList.walk (length m) it' l' = Return (drop (S i) m)
    | None => DList.erase it l = (Throw InvalidAccessException, l)
    end.
Proof.
  intros Hi l m. destruct (DList_run_rep ops) as (cells & Hrep & He).
  fold l in Hrep. fold m in He, Hi.
  assert (Hlc : length cells = length m) by (by rewrite <- He, length_fmap).
  eexists. rewrite (DList_begin_advance l cells _ Hrep), bool_decide_eq_true_2 by lia.
  split; [done|]. split.
  - pose proof Hrep as Hrep0. rewrite <- (take_drop i cells) in Hrep.
    destruct (DList_insert_spec l _ _ e Hrep) as (l' & Hins & Hrep').
    exists l'. split; [done|]. split; [|split].
    + rewrite (DList_iterate_spec l' _ Hrep'), <- He.
      by rewrite fmap_app, fmap_cons, fmap_take, fmap_drop.
    + unfold DList.size. destruct Hrep' as (_ & _ & _ & _ & ->).
      destruct Hrep0 as (_ & _ & _ & _ & ->). rewrite wrap32_succ. f_equal.
      rewrite length_app. cbn [length]. rewrite <- (take_drop i cells) at 3.
      rewrite length_app. lia.
    + rewrite (DList_elem_first l _ _ (DList_rep_suffix l _ _ Hrep)).
      replace (take i cells ++ (Mem.brk (DList.nodes l), e) :: drop i cells)
        with ((take i cells ++ [(Mem.brk (DList.nodes l), e)]) ++ drop i cells) in Hrep'
        by (by rewrite <- app_assoc).
      by rewrite (DList_elem_first l' _ _ (DList_rep_suffix l' _ _ Hrep')).
  - rewrite <- He, list_lookup_fmap. destruct (cells !! i) as [[a x]|] eqn:Hc; cbn [fmap option_fmap option_map].
    + pose proof Hrep as Hrep0. rewrite <- (take_drop_middle cells i _ Hc) in Hrep.
      destruct (DList_erase_spec l _ _ a x Hrep) as (l' & Her & Hrep').
      rewrite (drop_S cells (a, x) i Hc).
      eexists _, l'. split; [exact Her|]. split; [|split].
      * rewrite (DList_iterate_spec l' _ Hrep').
        by rewrite fmap_app, fmap_take, fmap_drop, delete_take_drop.
      * unfold DList.size. destruct Hrep' as (_ & _ & _ & _ & ->).
        destruct Hrep0 as (_ & _ & _ & _ & ->). symmetry.
        match goal with
        | |- wrap32 (wrap32 ?A - 1) = wrap32 ?B => replace A with (B + 1)
        end; [apply wrap32_pred|].
        rewrite length_app, length_take, length_drop. apply lookup_lt_Some in Hc. lia.
      * rewrite <- fmap_drop. apply (DList_walk_spec l' _ _ _ (DList_rep_suffix l' _ _ Hrep')).
        rewrite length_drop, length_fmap. lia.
    + apply lookup_ge_None in Hc. by rewrite drop_ge by done.
Qed.

Lemma List_insert_and_erase_at_iterator_witness :
  let ops := [DList.PushBack 1; DList.PushBack 2; DList.PushBack 3] in
  exists it,
    DList.advance 1 (DList.begin_ (DList.run ops)) (DList.run ops) = Return it /\
    (exists l', DList.insert 9 it (DList.run ops) = (Return tt, l') /\
                DList.iterate l' = Return [1; 9; 2; 3]) /\
    (exists it' l', DList.erase it (DList.run ops) = (Return it', l') /\
                    DList.iterate l' = Return [1; 3]).
Proof.
  intros ops.
  assert (Hi : (1 <= length (DList.model ops))%nat) by (simpl; lia).
  destruct (List_insert_and_erase_at_iterator (T := Z) ops 1 9 Hi)
    as (it & Hadv & (l' & Hins & Hit & _) & Herase).
  exists it. split; [exact Hadv|]. split.
  - exists l'. split; [exact Hins | exact Hit].
  - destruct Herase as (it' & l'' & Her & Hit' & _). by exists it', l''.
Defined.

(** List, copy, assignment, destruction and comparison: for lists of fewer
    than 2^32 elements built by any sequences of calls, [operator==]
    returns true exactly when the two lists hold the same elements in the
    same order and [operator!=] the opposite; the copy constructor returns
    a list with the same elements and size that compares equal to the
    original; the assignment returns a list with the elements of the
    assigned one, all nodes of the old value deleted; and [free()] leaves
    the store of the list without a node. *)
Theorem List_copy_assign_and_comparison {T : Type} `{EqDecision T}
    (ops1 ops2 : list (DList.op T)) :
  Z.of_nat (length (DList.model ops1)) < 2 ^ 32 ->
  Z.of_nat (length (DList.model ops2)) < 2 ^ 32 ->
  let l1 := DList.run ops1 in
  let l2 := DList.run ops2 in
  DList.eq l1 l2 = Return (bool_decide (DList.model ops1 = DList.model ops2)) /\
  DList.neq l1 l2 = Return (negb (bool_decide (DList.model ops1 = DList.model ops2))) /\
  (exists c, DList.copy_ctor l1 = Return c /\
             DList.iterate c = Return (DList.model ops1) /\
             DList.size c = DList.size l1 /\
             DList.eq c l1 = Return true) /\
  (exists l' cells, DList.assign l1 l2 = Return l' /\
                    DList.rep l' cells /\
                    DList.iterate l' = Return (DList.model ops2) /\
                    DList.eq l' l2 = Return true) /\
  (exists l', DList.free l1 = Return l' /\
              Mem.cells (DList.nodes l') = ∅ /\ DList.empty l' = true).
Proof.
  intros Hb1 Hb2 l1 l2.
  destruct (DList_run_rep ops1) as (c1 & Hrep1 & He1). fold l1 in Hrep1.
  destruct (DList_run_rep ops2) as (c2 & Hrep2 & He2). fold l2 in Hrep2.
  assert (Hl1 : length c1 = length (DList.model ops1)) by (by rewrite <- He1, length_fmap).
  assert (Hl2 : length c2 = length (DList.model ops2)) by (by rewrite <- He2, length_fmap).
  assert (Heq : DList.eq l1 l2
                = Return (bool_decide (DList.model ops1 = DList.model ops2))).
  { rewrite (DList_eq_spec l1 l2 c1 c2 Hrep1 Hrep2) by lia. by rewrite He1, He2. }
  split; [exact Heq|]. split; [unfold DList.neq; by rewrite Heq|].
  split; [|split].
  - destruct (DList_copy_ctor_spec l1 c1 Hrep1) as (c & cells' & Hcopy & Hrep' & He').
    assert (Hl' : length cells' = length c1).
    { apply (f_equal length) in He'. by rewrite !length_fmap in He'. }
    exists c. split; [done|]. split; [|split].
    + by rewrite (DList_iterate_spec c cells' Hrep'), He', He1.
    + unfold DList.size. destruct Hrep' as (_ & _ & _ & _ & ->).
      destruct Hrep1 as (_ & _ & _ & _ & ->). by rewrite Hl'.
    + rewrite (DList_eq_spec c l1 cells' c1 Hrep' Hrep1) by lia.
      by rewrite bool_decide_eq_true_2.
  - destruct (DList_assign_spec l1 l2 c1 c2 Hrep1 Hrep2) as (l' & cells' & Has & Hrep' & He').
    assert (Hl' : length cells' = length c2).
    { apply (f_equal length) in He'. by rewrite !length_fmap in He'. }
    exists l', cells'. split; [done|]. split; [done|]. split.
    + by rewrite (DList_iterate_spec l' cells' Hrep'), He', He2.
    + rewrite (DList_eq_spec l' l2 cells' c2 Hrep' Hrep2) by lia.
      by rewrite bool_decide_eq_true_2.
  - destruct (DList_free_spec l1 c1 Hrep1) as (l' & Hfree & Hnone & Hf & _).
    exists l'. split; [done|]. split; [by apply cells_empty|].
    unfold DList.empty. by rewrite Hf.
Qed.

Lemma List_copy_assign_and_comparison_witness :
  let ops1 := [DList.PushBack 1; DList.PushFront 0] in
  let ops2 := [DList.PushBack 0; DList.PushBack 1; DList.PushBack 2; DList.PopBack] in
  DList.eq (DList.run ops1) (DList.run ops2)
  = Return (bool_decide (DList.model ops1 = DList.model ops2)) /\
  (exists c, DList.copy_ctor (DList.run ops1) = Return c /\
             DList.iterate c = Return (DList.model ops1) /\
             DList.size c = DList.size (DList.run ops1) /\
             DList.eq c (DList.run ops1) = Return true).
Proof.
  intros ops1 ops2.
  assert (Hb1 : Z.of_nat (length (DList.model ops1)) < 2 ^ 32) by (vm_compute; reflexivity).
  assert (Hb2 : Z.of_nat (length (DList.model ops2)) < 2 ^ 32) by (vm_compute; reflexivity).
  pose proof (List_copy_assign_and_comparison (T := Z) ops1 ops2 Hb1 Hb2)
    as (Heq & _ & Hcopy & _).
  split; [exact Heq | exact Hcopy].
Defined.

(** * The singly-linked list with a sentinel *)
Section SingleFacts.
Context {T : Type} `{Inhabited T}.
Local Abbreviation Node := (ListLinkedSingle.Node T).
Local Abbreviation store := (Mem.heap Node).
Local Abbreviation cell := (positive * T)%type.
Local Abbreviation schain := ListLinkedSingle.chain.

Lemma schain_frame (h h' : store) (cells : list cell) (tail : option positive) :
  (forall a, a ∈ cells.*1 -> Mem.read a h' = Mem.read a h) ->
  schain h cells tail -> schain h' cells tail.
Proof.
  induction cells as [|[a e] rest IH]; intros Hsame; [done|].
  intros [Ha Hrest]. split.
  - rewrite Hsame; [done|]. by left.
  - apply IH; [|done]. intros q Hq. apply Hsame. by right.
Qed.

Lemma schain_app (h : store) (l1 l2 : list cell) (tail : option positive) :
  schain h (l1 ++ l2) tail <->
  schain h l1 (DList.head_or tail l2) /\ schain h l2 tail.
Proof.
  induction l1 as [|[a e] l1 IH]; [simpl; tauto|].
  rewrite <- app_comm_cons. cbn [ListLinkedSingle.chain]. rewrite IH, head_or_app. tauto.
Qed.

Lemma schain_middle (h : store) (l1 l2 : list cell) (a : positive) (e : T)
    (tail : option positive) :
  schain h (l1 ++ (a, e) :: l2) tail ->
  Mem.read a h = Some (ListLinkedSingle.MkNode e (DList.head_or tail l2)).
Proof. intros [_ [Ha _]]%schain_app. exact Ha. Qed.

(** [node->_next = v] on the node between [l1] and [l2]. *)
Lemma schain_relink (h : store) (l1 l2 l2' : list cell) (a : positive) (e : T)
    (tail tail' : option positive) :
  schain h (l1 ++ [(a, e)]) (DList.head_or tail l2) -> a ∉ l1.*1 ->
  schain (Mem.write a (ListLinkedSingle.MkNode e (DList.head_or tail' l2')) h)
    (l1 ++ [(a, e)]) (DList.head_or tail' l2').
Proof.
  intros [Hc1 _]%schain_app Ha. apply schain_app. split.
  - apply (schain_frame h); [|done]. intros q Hq.
    rewrite mem_read_write, decide_False; [done|]. by intros ->.
  - split; [|done]. by rewrite mem_read_write, decide_True.
Qed.

Lemma owns_write (h : store) (cells : list cell) (a : positive) (n : Node) :
  Linked.owns h cells -> a ∈ cells.*1 -> Linked.owns (Mem.write a n h) cells.
Proof.
  intros (Hnd & Hall & Hlt) Ha. split; [done|]. split; [|done].
  intros q Hq. rewrite mem_read_write in Hq.
  destruct (decide (a = q)) as [<-|]; [done|]. by apply Hall.
Qed.

Lemma owns_fresh (h : store) (cells : list cell) :
  Linked.owns h cells -> Mem.brk h ∉ cells.*1.
Proof. intros (_ & _ & Hlt) Hin. specialize (Hlt _ Hin). lia. Qed.

(** One more node, allocated at the address counter, anywhere in the
    list. *)
Lemma owns_alloc (h : store) (l1 l2 : list cell) (n : Node) (e : T) :
  Linked.owns h (l1 ++ l2) ->
  Linked.owns (Mem.alloc n h).2 (l1 ++ (Mem.brk h, e) :: l2).
Proof.
  intros Hown. pose proof (owns_fresh h _ Hown) as Hfresh.
  destruct Hown as (Hnd & Hall & Hlt).
  assert (Hperm : (l1 ++ (Mem.brk h, e) :: l2).*1 ≡ₚ Mem.brk h :: (l1 ++ l2).*1).
  { rewrite !fmap_app, fmap_cons. symmetry. apply Permutation_middle. }
  split; [|split].
  - rewrite Hperm. by apply NoDup_cons.
  - intros q Hq. rewrite Hperm. rewrite mem_read_alloc in Hq.
    destruct (decide (Mem.brk h = q)) as [<-|]; [by left|]. right. by apply Hall.
  - intros q Hq. rewrite Hperm in Hq. cbn [Mem.alloc snd Mem.brk].
    apply elem_of_cons in Hq as [->|Hq]; [lia|]. specialize (Hlt q Hq). lia.
Qed.

(** One node less. *)
Lemma owns_dealloc (h : store) (l1 l2 : list cell) (a : positive) (e : T) :
  Linked.owns h (l1 ++ (a, e) :: l2) -> Linked.owns (Mem.dealloc a h) (l1 ++ l2).
Proof.
  intros (Hnd & Hall & Hlt).
  assert (Hperm : (l1 ++ (a, e) :: l2).*1 ≡ₚ a :: (l1 ++ l2).*1).
  { rewrite !fmap_app, fmap_cons. symmetry. apply Permutation_middle. }
  rewrite Hperm in Hnd. apply NoDup_cons in Hnd as [Ha Hnd].
  split; [done|]. split.
  - intros q Hq. rewrite mem_read_dealloc in Hq.
    destruct (decide (a = q)) as [<-|Hne]; [by destruct Hq|].
    apply Hall in Hq. rewrite Hperm in Hq. by apply elem_of_cons in Hq as [->|Hq].
  - intros q Hq. cbn [Mem.dealloc Mem.brk]. apply Hlt. rewrite Hperm. by right.
Qed.

Lemma Single_init_rep : ListLinkedSingle.rep (ListLinkedSingle.init (T := T)) inhabitant [].
Proof.
  unfold ListLinkedSingle.rep, ListLinkedSingle.init. cbn.
  split; [|split; [|done]].
  - split; [|done]. unfold Mem.read. cbn. by rewrite lookup_insert_eq.
  - split; [|split].
    + apply NoDup_singleton.
    + intros q [n Hq]. unfold Mem.read in Hq. cbn in Hq.
      destruct (decide (q = 1%positive)) as [->|Hne]; [by left|].
      by rewrite lookup_insert_ne, lookup_empty in Hq.
    + intros q [->|Hq]%elem_of_cons; [done|]. by apply elem_of_nil in Hq.
Qed.

Lemma Single_head_node (l : ListLinkedSingle.t T) (v : T) (cells : list cell) :
  ListLinkedSingle.rep l v cells ->
  Mem.read (ListLinkedSingle._head l) (ListLinkedSingle.nodes l)
  = Some (ListLinkedSingle.MkNode v (Linked.first cells)).
Proof. intros ([Hh _] & _). by rewrite Hh, head_or_first. Qed.

Lemma Single_push_front_spec (l : ListLinkedSingle.t T) (v : T) (cells : list cell) (e : T) :
  ListLinkedSingle.rep l v cells ->
  exists l', ListLinkedSingle.push_front e l = (Return tt, l') /\
             ListLinkedSingle.rep l' v ((Mem.brk (ListLinkedSingle.nodes l), e) :: cells).
Proof.
  intros Hrep. pose proof (Single_head_node l v cells Hrep) as Hh.
  destruct Hrep as (Hch & Hown & Ht). destruct Hch as [_ Hcells].
  pose proof (owns_fresh _ _ Hown) as Hfresh.
  set (hd := ListLinkedSingle._head l) in *. set (h := ListLinkedSingle.nodes l) in *.
  set (new := Mem.brk h) in *.
  unfold ListLinkedSingle.push_front. fold hd h. rewrite Hh.
  cbn [Mem.alloc ListLinkedSingle._next ListLinkedSingle._value]. fold new.
  eexists. split; [done|].
  set (h1 := Mem.Heap (<[new:=_]> (Mem.cells h)) (Pos.succ new)).
  assert (Hh1 : h1 = (Mem.alloc (ListLinkedSingle.MkNode e (Linked.first cells)) h).2) by done.
  assert (Hne : hd <> new).
  { intros Heq. apply Hfresh. rewrite <- Heq. by left. }
  split; [|split]; cbn [ListLinkedSingle.nodes ListLinkedSingle._head ListLinkedSingle._tail].
  - split; [by rewrite mem_read_write, decide_True|]. split.
    + rewrite mem_read_write, decide_False by done.
      by rewrite Hh1, mem_read_alloc, decide_True, head_or_first.
    + apply (schain_frame h); [|done]. intros q Hq.
      rewrite mem_read_write, decide_False; cycle 1.
      { intros <-. destruct Hown as (Hnd & _). rewrite fmap_cons in Hnd.
        by apply NoDup_cons in Hnd as [? _]. }
      rewrite Hh1, mem_read_alloc, decide_False; [done|].
      intros Heq. apply Hfresh. fold new in Heq. rewrite Heq. by right.
  - apply owns_write; [|by left]. rewrite Hh1.
    apply (owns_alloc h [(hd, v)] cells _ e Hown).
  - rewrite Ht. destruct cells as [|c rest].
    + by rewrite bool_decide_eq_true_2.
    + rewrite !final_cons_cons. destruct (final_elem c rest) as (x & Hx & Hin).
      rewrite Hx, bool_decide_eq_false_2; [done|]. intros [= ->].
      destruct Hown as (Hnd & _). rewrite fmap_cons in Hnd.
      by apply NoDup_cons in Hnd as [? _].
Qed.

Lemma head_not_cell (h : store) (hd : positive) (v : T) (cells : list cell) :
  Linked.owns h ((hd, v) :: cells) -> hd ∉ cells.*1.
Proof.
  intros (Hnd & _). rewrite fmap_cons in Hnd. by apply NoDup_cons in Hnd as [? _].
Qed.

Lemma Single_push_back_spec (l : ListLinkedSingle.t T) (v : T) (cells : list cell) (e : T) :
  ListLinkedSingle.rep l v cells ->
  exists l', ListLinkedSingle.push_back e l = (Return tt, l') /\
             ListLinkedSingle.rep l' v (cells ++ [(Mem.brk (ListLinkedSingle.nodes l), e)]).
Proof.
  intros (Hch & Hown & Ht). pose proof (owns_fresh _ _ Hown) as Hfresh.
  set (hd := ListLinkedSingle._head l) in *. set (h := ListLinkedSingle.nodes l) in *.
  set (new := Mem.brk h) in *.
  destruct (exists_last (l := (hd, v) :: cells)) as (pre & [a x] & Hfull); [done|].
  rewrite Hfull in Hch, Hown, Ht, Hfresh. rewrite final_snoc in Ht.
  pose proof (schain_middle _ _ _ _ _ _ Hch) as Ha.
  assert (Hane : a <> new).
  { intros ->. apply Hfresh. rewrite fmap_app. apply elem_of_app. right. by left. }
  assert (Hapre : a ∉ pre.*1).
  { destruct Hown as (Hnd & _). rewrite fmap_app in Hnd.
    apply NoDup_app in Hnd as (_ & Hd & _). intros Hin. apply (Hd a Hin). by left. }
  unfold ListLinkedSingle.push_back. cbn [Mem.alloc]. fold h new. rewrite Ht.
  set (h1 := Mem.Heap (<[new:=_]> (Mem.cells h)) (Pos.succ new)).
  assert (Hh1 : h1 = (Mem.alloc (ListLinkedSingle.MkNode e None) h).2) by done.
  assert (Ha1 : Mem.read a h1 = Mem.read a h).
  { rewrite Hh1, mem_read_alloc, decide_False; [done|]. intros Heq. by apply Hane. }
  rewrite Ha1, Ha. cbn [ListLinkedSingle._value]. eexists. split; [done|].
  assert (Hcells : (hd, v) :: cells ++ [(new, e)] = (pre ++ [(a, x)]) ++ [(new, e)]).
  { by rewrite app_comm_cons, Hfull. }
  unfold ListLinkedSingle.rep.
  cbn [ListLinkedSingle.nodes ListLinkedSingle._head ListLinkedSingle._tail].
  fold hd. rewrite Hcells. split; [|split].
  - apply schain_app. split.
    + apply (schain_relink h1 pre [] [(new, e)] a x None None); [|done].
      apply (schain_frame h); [|done]. intros q Hq.
      rewrite Hh1, mem_read_alloc, decide_False; [done|]. intros Heq. apply Hfresh.
      fold new in Heq. by rewrite Heq.
    + split; [|done]. rewrite mem_read_write, decide_False by done.
      by rewrite Hh1, mem_read_alloc, decide_True.
  - apply owns_write.
    + rewrite <- (app_nil_r (pre ++ [(a, x)])) in Hown. rewrite Hh1.
      apply (owns_alloc h (pre ++ [(a, x)]) [] _ e Hown).
    + rewrite !fmap_app. apply elem_of_app. left. apply elem_of_app. right. by left.
  - by rewrite final_snoc.
Qed.

Lemma Single_pop_empty (l : ListLinkedSingle.t T) (v : T) :
  ListLinkedSingle.rep l v [] ->
  ListLinkedSingle.pop_front l = (Abort, l) /\ ListLinkedSingle.pop_back l = (Abort, l).
Proof.
  intros Hrep. pose proof (Single_head_node l v [] Hrep) as Hh.
  unfold ListLinkedSingle.pop_front, ListLinkedSingle.pop_back. by rewrite Hh.
Qed.

Lemma Single_pop_front_spec (l : ListLinkedSingle.t T) (v : T) (a : positive) (e : T)
    (rest : list cell) :
  ListLinkedSingle.rep l v ((a, e) :: rest) ->
  exists l', ListLinkedSingle.pop_front l = (Return tt, l') /\
             ListLinkedSingle.rep l' v rest.
Proof.
  intros Hrep. pose proof (Single_head_node l v _ Hrep) as Hh.
  destruct Hrep as (Hch & Hown & Ht).
  pose proof (head_not_cell _ _ _ _ Hown) as Hhd.
  set (hd := ListLinkedSingle._head l) in *. set (h := ListLinkedSingle.nodes l) in *.
  destruct Hch as [_ [Ha Hrest]].
  assert (Hane : hd <> a).
  { intros ->. apply Hhd. by left. }
  assert (Harest : a ∉ rest.*1).
  { destruct Hown as (Hnd & _). rewrite !fmap_cons in Hnd.
    apply NoDup_cons in Hnd as [_ Hnd]. by apply NoDup_cons in Hnd as [? _]. }
  unfold ListLinkedSingle.pop_front. fold hd h. rewrite Hh.
  cbn [ListLinkedSingle._next Linked.first head fmap option_fmap option_map fst].
  rewrite Ha. cbn [ListLinkedSingle._next ListLinkedSingle._value].
  eexists. split; [done|]. unfold ListLinkedSingle.rep.
  cbn [ListLinkedSingle.nodes ListLinkedSingle._head ListLinkedSingle._tail]. fold hd.
  split; [|split].
  - split.
    + rewrite mem_read_dealloc, decide_False by done.
      by rewrite mem_read_write, decide_True.
    + apply (schain_frame h); [|done]. intros q Hq.
      rewrite mem_read_dealloc, decide_False by (by intros ->).
      rewrite mem_read_write, decide_False; [done|]. intros <-. apply Hhd. by right.
  - apply (owns_dealloc _ [(hd, v)] rest a e). apply owns_write; [done|]. by left.
  - destruct rest as [|[b x] rest]; [done|]. cbn [DList.head_or].
    by rewrite Ht, !final_cons_cons.
Qed.

(** The loop of [pop_back] stops on the last node, [previous] on the one
    before it. *)
Lemma Single_pop_back_loop_spec (h : store) (a : positive) (e : T) (mid : list cell) :
  forall (p : positive) (x : T) (fuel : nat),
  schain h ((p, x) :: mid ++ [(a, e)]) None -> (length mid <= fuel)%nat ->
  exists c pr,
    Linked.first (mid ++ [(a, e)]) = Some c /\
    Linked.final ((p, x) :: mid) = Some pr /\
    ListLinkedSingle.pop_back_loop fuel p c h = Return (pr, a).
Proof.
  induction mid as [|[b y] mid IH]; intros p x fuel Hch Hfuel.
  - exists a, p. split; [done|]. split; [done|]. destruct Hch as [_ [Ha _]].
    destruct fuel; simpl; by rewrite Ha.
  - destruct fuel as [|fuel]; [simpl in Hfuel; lia|].
    destruct Hch as [_ Hch]. pose proof Hch as [Hb _].
    destruct (IH b y fuel Hch) as (c & pr & Hc & Hpr & Hloop); [simpl in Hfuel; lia|].
    exists b, pr. split; [done|]. split; [by rewrite final_cons_cons|].
    cbn [ListLinkedSingle.pop_back_loop]. rewrite Hb. cbn [ListLinkedSingle._next].
    rewrite head_or_first, Hc. exact Hloop.
Qed.

Lemma Single_pop_back_spec (l : ListLinkedSingle.t T) (v : T) (a : positive) (e : T)
    (rest : list cell) :
  ListLinkedSingle.rep l v (rest ++ [(a, e)]) ->
  exists l', ListLinkedSingle.pop_back l = (Return tt, l') /\
             ListLinkedSingle.rep l' v rest.
Proof.
  intros Hrep. pose proof (Single_head_node l v _ Hrep) as Hh.
  destruct Hrep as (Hch & Hown & Ht).
  set (hd := ListLinkedSingle._head l) in *. set (h := ListLinkedSingle.nodes l) in *.
  assert (Hfuel : (length rest <= Pos.to_nat (Mem.brk h))%nat).
  { destruct Hown as (Hnd & _ & Hlt).
    pose proof (addresses_bounded _ _ Hnd Hlt) as Hb.
    rewrite length_fmap in Hb. simpl in Hb. rewrite length_app in Hb. lia. }
  destruct (Single_pop_back_loop_spec h a e rest hd v _ Hch Hfuel)
    as (c & pr & Hc & Hpr & Hloop).
  destruct (exists_last (l := (hd, v) :: rest)) as (pre & [p x] & Hfull); [done|].
  assert (Hpp : pr = p).
  { rewrite Hfull, final_snoc in Hpr. by injection Hpr. }
  subst pr. rewrite app_comm_cons, Hfull in Hch, Hown.
  assert (Hnd : NoDup ((pre ++ [(p, x)]) ++ [(a, e)]).*1) by (by destruct Hown).
  rewrite !fmap_app in Hnd. apply NoDup_app in Hnd as (Hnd1 & Hd1 & _).
  apply NoDup_app in Hnd1 as (_ & Hd2 & _).
  assert (Hpa : p <> a).
  { intros ->. apply (Hd1 a); [|by left]. apply elem_of_app. right. by left. }
  assert (Hppre : p ∉ pre.*1).
  { intros Hin. apply (Hd2 p Hin). by left. }
  pose proof (proj1 (schain_app _ _ _ _) Hch) as [Hc1 _].
  pose proof (schain_middle _ _ _ _ _ _ Hc1) as Hp. cbn [DList.head_or] in Hp.
  unfold ListLinkedSingle.pop_back. fold hd h. rewrite Hh.
  cbn [ListLinkedSingle._next]. rewrite Hc, Hloop.
  rewrite mem_read_dealloc, decide_False by (by intros ->). rewrite Hp.
  cbn [ListLinkedSingle._value]. eexists. split; [done|]. unfold ListLinkedSingle.rep.
  cbn [ListLinkedSingle.nodes ListLinkedSingle._head ListLinkedSingle._tail]. fold hd.
  rewrite Hfull. split; [|split].
  - apply (schain_relink (Mem.dealloc a h) pre [(a, e)] [] p x None None); [|done].
    apply (schain_frame h); [|done]. intros q Hq.
    rewrite mem_read_dealloc, decide_False; [done|]. intros <-.
    apply (Hd1 a); [|by left]. by rewrite <- fmap_app.
  - apply owns_write.
    + rewrite <- (app_nil_r (pre ++ [(p, x)])). by apply (owns_dealloc h _ [] a e).
    + rewrite fmap_app. apply elem_of_app. right. by left.
  - by rewrite final_snoc.
Qed.

(** *** Observers *)

Lemma Single_empty_spec (l : ListLinkedSingle.t T) (v : T) (cells : list cell) :
  ListLinkedSingle.rep l v cells ->
  ListLinkedSingle.empty l = Return (bool_decide (cells = [])).
Proof.
  intros Hrep. unfold ListLinkedSingle.empty. rewrite (Single_head_node l v cells Hrep).
  by destruct cells as [|[a e] rest].
Qed.

Lemma Single_front_spec (l : ListLinkedSingle.t T) (v : T) (cells : list cell) :
  ListLinkedSingle.rep l v cells ->
  ListLinkedSingle.front l = match cells with
                             | [] => Abort
                             | (_, e) :: _ => Return e
                             end.
Proof.
  intros Hrep. unfold ListLinkedSingle.front. rewrite (Single_head_node l v cells Hrep).
  destruct cells as [|[a e] rest]; [done|]. destruct Hrep as ([_ [Ha _]] & _).
  cbn [Linked.first head fmap option_fmap option_map fst ListLinkedSingle._next].
  by rewrite Ha.
Qed.

Lemma Single_back_spec (l : ListLinkedSingle.t T) (v : T) (cells : list cell) :
  ListLinkedSingle.rep l v cells ->
  ListLinkedSingle.back l = Return (match last cells with
                                    | Some (_, e) => e
                                    | None => v
                                    end).
Proof.
  intros (Hch & _ & Ht). unfold ListLinkedSingle.back. rewrite Ht.
  destruct (exists_last (l := (ListLinkedSingle._head l, v) :: cells))
    as (pre & [a x] & Hfull); [done|].
  assert (Hlast : last ((ListLinkedSingle._head l, v) :: cells) = Some (a, x)).
  { rewrite Hfull. apply last_snoc. }
  rewrite Hfull in Hch |- *. rewrite final_snoc, (schain_middle _ _ _ _ _ _ Hch).
  cbn [ListLinkedSingle._value]. f_equal. rewrite last_cons in Hlast.
  destruct (last cells) as [[b y]|]; by injection Hlast.
Qed.

Lemma Single_nth_loop_spec (h : store) (cells : list cell) :
  forall n : nat,
  schain h cells None ->
  ListLinkedSingle.nth_loop n (Linked.first cells) h = Return (Linked.first (drop n cells)).
Proof.
  induction cells as [|[a e] rest IH]; intros n Hch.
  { by destruct n. }
  destruct n as [|n]; [done|]. destruct Hch as [Ha Hrest].
  cbn [ListLinkedSingle.nth_loop Linked.first head fmap option_fmap option_map fst].
  rewrite Ha. cbn [ListLinkedSingle._next drop]. rewrite head_or_first. by apply IH.
Qed.

Lemma Single_nth_node_spec (l : ListLinkedSingle.t T) (v : T) (cells : list cell) (n : Z) :
  ListLinkedSingle.rep l v cells ->
  ListLinkedSingle.nth_node n l
  = if n <? 0 then Abort else Return (Linked.first (drop (Z.to_nat n) cells)).
Proof.
  intros Hrep. unfold ListLinkedSingle.nth_node. destruct (n <? 0); [done|].
  rewrite (Single_head_node l v cells Hrep). cbn [ListLinkedSingle._next].
  apply Single_nth_loop_spec. by destruct Hrep as ([_ ?] & _).
Qed.

Lemma Single_at_spec (l : ListLinkedSingle.t T) (v : T) (cells : list cell) (idx : Z) :
  ListLinkedSingle.rep l v cells ->
  ListLinkedSingle.at_ idx l
  = if idx <? 0 then Abort
    else match cells !! Z.to_nat idx with
         | Some (_, e) => Return e
         | None => Abort
         end.
Proof.
  intros Hrep. unfold ListLinkedSingle.at_.
  rewrite (Single_nth_node_spec l v cells idx Hrep). destruct (idx <? 0); [done|].
  cbn [obind]. destruct (cells !! Z.to_nat idx) as [[a e]|] eqn:Hc.
  - rewrite (drop_S cells (a, e) _ Hc).
    cbn [Linked.first head fmap option_fmap option_map fst].
    destruct Hrep as ([_ Hch] & _). rewrite <- (take_drop_middle cells _ _ Hc) in Hch.
    by rewrite (schain_middle _ _ _ _ _ _ Hch).
  - apply lookup_ge_None in Hc. by rewrite drop_ge.
Qed.

Lemma Single_size_loop_spec (h : store) (cells : list cell) :
  forall (fuel : nat) (acc : Z),
  schain h cells None -> (length cells <= fuel)%nat ->
  0 <= acc -> acc + Z.of_nat (length cells) < 2 ^ 31 ->
  ListLinkedSingle.size_loop fuel (Linked.first cells) acc h
  = Return (acc + Z.of_nat (length cells)).
Proof.
  induction cells as [|[a e] rest IH]; intros fuel acc Hch Hfuel Hacc Hb.
  { destruct fuel; simpl; f_equal; lia. }
  destruct fuel as [|fuel]; [simpl in Hfuel; lia|]. destruct Hch as [Ha Hrest].
  cbn [ListLinkedSingle.size_loop Linked.first head fmap option_fmap option_map fst].
  cbn [length] in Hb. rewrite Nat2Z.inj_succ in Hb.
  destruct (Z.leb_spec (2 ^ 31 - 1) acc) as [?|_]; [lia|].
  rewrite Ha. cbn [ListLinkedSingle._next]. rewrite head_or_first.
  rewrite IH; [|done|simpl in Hfuel; lia|lia|lia]. f_equal. cbn [length]. lia.
Qed.

Lemma Single_fuel (l : ListLinkedSingle.t T) (v : T) (cells : list cell) :
  ListLinkedSingle.rep l v cells ->
  (S (length cells) < Pos.to_nat (Mem.brk (ListLinkedSingle.nodes l)))%nat.
Proof.
  intros (_ & (Hnd & _ & Hlt) & _). pose proof (addresses_bounded _ _ Hnd Hlt) as Hb.
  rewrite length_fmap in Hb. simpl in Hb. lia.
Qed.

Lemma Single_size_spec (l : ListLinkedSingle.t T) (v : T) (cells : list cell) :
  ListLinkedSingle.rep l v cells -> Z.of_nat (length cells) < 2 ^ 31 ->
  ListLinkedSingle.size l = Return (Z.of_nat (length cells)).
Proof.
  intros Hrep Hb. unfold ListLinkedSingle.size.
  rewrite (Single_head_node l v cells Hrep). cbn [ListLinkedSingle._next].
  pose proof (Single_fuel l v cells Hrep). destruct Hrep as ([_ Hch] & _).
  rewrite (Single_size_loop_spec _ cells _ 0 Hch); [done|lia|lia|lia].
Qed.

(** *** Sequences of calls *)

Lemma Single_apply_rep (l : ListLinkedSingle.t T) (v : T) (cells : list cell)
    (o : ListLinkedSingle.op T) :
  ListLinkedSingle.rep l v cells ->
  exists cells', ListLinkedSingle.rep (ListLinkedSingle.apply l o) v cells' /\
                 cells'.*2 = ListLinkedSingle.model_apply cells.*2 o.
Proof.
  intros Hrep. destruct o as [e|e| |];
    cbn [ListLinkedSingle.apply ListLinkedSingle.model_apply].
  - destruct (Single_push_front_spec l v cells e Hrep) as (l' & -> & Hrep').
    eexists. split; [exact Hrep'|done].
  - destruct (Single_push_back_spec l v cells e Hrep) as (l' & -> & Hrep').
    eexists. split; [exact Hrep'|]. by rewrite fmap_app.
  - destruct cells as [|[a e] rest].
    + exists []. split; [|done]. by rewrite (proj1 (Single_pop_empty l v Hrep)).
    + destruct (Single_pop_front_spec l v a e rest Hrep) as (l' & -> & Hrep').
      by exists rest.
  - destruct cells as [|[a e] rest _] using rev_ind.
    + exists []. split; [|done]. by rewrite (proj2 (Single_pop_empty l v Hrep)).
    + destruct (Single_pop_back_spec l v a e rest Hrep) as (l' & -> & Hrep').
      exists rest. split; [done|]. rewrite fmap_app. simpl.
      by rewrite removelast_last.
Qed.

Lemma Single_foldl_rep (ops : list (ListLinkedSingle.op T)) :
  forall (l : ListLinkedSingle.t T) (v : T) (cells : list cell),
  ListLinkedSingle.rep l v cells ->
  exists cells', ListLinkedSingle.rep (foldl ListLinkedSingle.apply l ops) v cells' /\
                 cells'.*2 = foldl ListLinkedSingle.model_apply cells.*2 ops.
Proof.
  induction ops as [|o ops IH]; intros l v cells Hrep; [by exists cells|].
  cbn [foldl]. destruct (Single_apply_rep l v cells o Hrep) as (cells1 & Hrep1 & <-).
  by apply IH.
Qed.

Lemma Single_run_rep (ops : list (ListLinkedSingle.op T)) :
  exists cells, ListLinkedSingle.rep (ListLinkedSingle.run ops) inhabitant cells /\
                cells.*2 = ListLinkedSingle.model ops.
Proof. apply (Single_foldl_rep ops ListLinkedSingle.init inhabitant [] Single_init_rep). Qed.

(** *** Copy, assignment and destruction *)

Lemma Single_nth_node_chain (l : ListLinkedSingle.t T) (v : T) (cells : list cell) (n : Z) :
  schain (ListLinkedSingle.nodes l) ((ListLinkedSingle._head l, v) :: cells) None ->
  ListLinkedSingle.nth_node n l
  = if n <? 0 then Abort else Return (Linked.first (drop (Z.to_nat n) cells)).
Proof.
  intros [Hh Hch]. unfold ListLinkedSingle.nth_node. destruct (n <? 0); [done|].
  rewrite Hh. cbn [ListLinkedSingle._next]. rewrite head_or_first.
  by apply Single_nth_loop_spec.
Qed.

Lemma first_drop_last (c : cell) (l : list cell) :
  Linked.first (drop (length l) (c :: l)) = Linked.final (c :: l).
Proof.
  unfold Linked.first, Linked.final. rewrite last_lookup, head_lookup, lookup_drop.
  cbn [length Nat.pred]. by rewrite Nat.add_0_r.
Qed.

Lemma Single_copy_nodes_spec (other : store) (cs : list cell) :
  forall (fuel : nat) (h : store),
  schain other cs None -> (length cs <= fuel)%nat ->
  exists cs' h',
    ListLinkedSingle.copy_nodes fuel other (Linked.first cs) h
      = Return (Linked.first cs', h') /\
    schain h' cs' None /\ cs'.*2 = cs.*2 /\ NoDup cs'.*1 /\
    (forall a, a ∈ cs'.*1 -> (Mem.brk h <= a < Mem.brk h')%positive) /\
    (Mem.brk h <= Mem.brk h')%positive /\
    (forall q, (q < Mem.brk h)%positive -> Mem.read q h' = Mem.read q h) /\
    (forall q, is_Some (Mem.read q h') -> q ∈ cs'.*1 \/ is_Some (Mem.read q h)).
Proof.
  induction cs as [|[s e] rest IH]; intros fuel h Hch Hfuel.
  { exists [], h. split; [by destruct fuel|]. split; [done|]. split; [done|].
    split; [constructor|]. split; [by intros a Ha%elem_of_nil|].
    split; [lia|]. split; [done|]. intros q Hq. by right. }
  destruct fuel as [|fuel]; [simpl in Hfuel; lia|]. destruct Hch as [Hs Hrest].
  destruct (IH fuel h Hrest) as (cs1 & h1 & Hcopy & Hch1 & He1 & Hnd1 & Hb1 & Hbrk1 & Hold1 & Hdom1);
    [simpl in Hfuel; lia|].
  set (new := Mem.brk h1).
  exists ((new, e) :: cs1), (Mem.alloc (ListLinkedSingle.MkNode e (Linked.first cs1)) h1).2.
  assert (Hnew : new ∉ cs1.*1).
  { intros Hin. specialize (Hb1 _ Hin). unfold new in Hb1. lia. }
  split.
  { cbn [ListLinkedSingle.copy_nodes Linked.first head fmap option_fmap option_map fst].
    rewrite Hs. cbn [ListLinkedSingle._next ListLinkedSingle._value].
    rewrite head_or_first, Hcopy. done. }
  split; [|split; [|split; [|split; [|split; [|split]]]]].
  - split.
    + by rewrite mem_read_alloc, decide_True, head_or_first.
    + apply (schain_frame h1); [|done]. intros q Hq.
      rewrite mem_read_alloc, decide_False; [done|]. intros Heq. apply Hnew.
      fold new in Heq. by rewrite Heq.
  - by rewrite !fmap_cons, He1.
  - rewrite fmap_cons. by apply NoDup_cons.
  - intros a Ha. rewrite fmap_cons in Ha. cbn [Mem.alloc snd Mem.brk]. fold new.
    apply elem_of_cons in Ha as [->|Ha]; [unfold new; simpl; lia|].
    specialize (Hb1 a Ha). fold new in Hb1. lia.
  - cbn [Mem.alloc snd Mem.brk]. lia.
  - intros q Hq. rewrite mem_read_alloc, decide_False; [by apply Hold1|]. lia.
  - intros q Hq. rewrite mem_read_alloc in Hq. rewrite fmap_cons.
    destruct (decide (Mem.brk h1 = q)) as [<-|Hne]; [left; by left|].
    destruct (Hdom1 q Hq) as [Hin|Hs']; [left; by right|by right].
Qed.

Lemma Single_delete_list_spec (cs : list cell) :
  forall (fuel : nat) (h : store),
  schain h cs None -> NoDup cs.*1 -> (length cs <= fuel)%nat ->
  exists h',
    ListLinkedSingle.delete_list fuel (Linked.first cs) h = Return h' /\
    (forall q, Mem.read q h' = if decide (q ∈ cs.*1) then None else Mem.read q h) /\
    Mem.brk h' = Mem.brk h.
Proof.
  induction cs as [|[s e] rest IH]; intros fuel h Hch Hnd Hfuel.
  { exists h. split; [by destruct fuel|]. split; [|done]. intros q.
    rewrite decide_False; [done|]. apply not_elem_of_nil. }
  destruct fuel as [|fuel]; [simpl in Hfuel; lia|]. destruct Hch as [Hs Hrest].
  rewrite fmap_cons in Hnd. apply NoDup_cons in Hnd as [Hnot Hnd]. simpl in Hnot.
  destruct (IH fuel h Hrest Hnd) as (h1 & Hdel & Hread & Hbrk); [simpl in Hfuel; lia|].
  exists (Mem.dealloc s h1). split.
  { cbn [ListLinkedSingle.delete_list Linked.first head fmap option_fmap option_map fst].
    rewrite Hs. cbn [ListLinkedSingle._next]. rewrite head_or_first, Hdel. cbn [obind].
    rewrite bool_decide_eq_true_2; [done|]. rewrite Hread, decide_False by done.
    rewrite Hs. by eexists. }
  split; [|done]. intros q. rewrite mem_read_dealloc, fmap_cons. cbn [fst].
  destruct (decide (s = q)) as [->|Hne].
  - rewrite decide_True; [done|]. by left.
  - rewrite Hread. destruct (decide (q ∈ rest.*1)) as [Hin|Hout].
    + rewrite decide_True; [done|]. by right.
    + rewrite decide_False; [done|]. intros [->|?]%elem_of_cons; done.
Qed.

Lemma Single_copy_ctor_spec (other : ListLinkedSingle.t T) (v : T) (cells : list cell) :
  ListLinkedSingle.rep other v cells -> Z.of_nat (length cells) < 2 ^ 31 ->
  match cells with
  | [] => ListLinkedSingle.copy_ctor other = Abort
  | _ :: _ =>
      exists c cells',
        ListLinkedSingle.copy_ctor other = Return c /\
        ListLinkedSingle.rep c v cells' /\ cells'.*2 = cells.*2
  end.
Proof.
  intros Hrep Hb. pose proof (Single_size_spec other v cells Hrep Hb) as Hsize.
  pose proof (Single_fuel other v cells Hrep) as Hfuel.
  destruct Hrep as (Hch & _ & _).
  destruct (Single_copy_nodes_spec _ _ (Pos.to_nat (Mem.brk (ListLinkedSingle.nodes other)))
              Mem.empty Hch)
    as (cs' & h' & Hcopy & Hch' & He & Hnd & Hbnd & _ & _ & Hdom); [simpl; lia|].
  destruct cs' as [|[hd' v'] cells']; [done|]. rewrite !fmap_cons in He.
  injection He as -> He.
  assert (Hlen : length cells' = length cells).
  { apply (f_equal length) in He. by rewrite !length_fmap in He. }
  unfold ListLinkedSingle.copy_ctor.
  change (Some (ListLinkedSingle._head other))
    with (Linked.first ((ListLinkedSingle._head other, v) :: cells)).
  rewrite Hcopy. cbn [obind Linked.first head fmap option_fmap option_map fst].
  rewrite Hsize. cbn [obind].
  rewrite (Single_nth_node_chain
             {| ListLinkedSingle.nodes := h'; ListLinkedSingle._head := hd';
                ListLinkedSingle._tail := None |} v cells' _ Hch').
  destruct cells as [|c cells]; [done|].
  destruct cells' as [|c' cells']; [done|].
  cbn [length] in *. destruct (Z.ltb_spec (Z.of_nat (S (length cells)) - 1) 0) as [?|_]; [lia|].
  cbn [obind]. eexists _, (c' :: cells'). split; [done|]. split; [|done].
  split; [exact Hch'|]. split.
  - split; [done|]. split.
    + intros q Hq. destruct (Hdom q Hq) as [?|[n Hn]]; [done|].
      unfold Mem.read in Hn. simpl in Hn. by rewrite lookup_empty in Hn.
    + intros q Hq. by apply Hbnd.
  - cbn [ListLinkedSingle._tail ListLinkedSingle._head].
    replace (Z.to_nat (Z.of_nat (S (length cells)) - 1)) with (length cells') by lia.
    by rewrite first_drop_last, final_cons_cons.
Qed.

Lemma Single_assign_spec (this other : ListLinkedSingle.t T) (v1 v2 : T)
    (c1 c2 : list cell) :
  ListLinkedSingle.rep this v1 c1 -> ListLinkedSingle.rep other v2 c2 ->
  Z.of_nat (length c2) < 2 ^ 31 ->
  exists l' cells',
    ListLinkedSingle.assign this other = Return l' /\
    schain (ListLinkedSingle.nodes l') ((ListLinkedSingle._head l', v1) :: cells') None /\
    Linked.owns (ListLinkedSingle.nodes l') ((ListLinkedSingle._head l', v1) :: cells') /\
    cells'.*2 = c2.*2 /\
    ListLinkedSingle._tail l'
    = match c2 with
      | [] => ListLinkedSingle._tail this
      | _ :: _ => Linked.final ((ListLinkedSingle._head l', v1) :: cells')
      end /\
    (forall q, q ∈ c1.*1 -> Mem.read q (ListLinkedSingle.nodes l') = None) /\
    (Mem.brk (ListLinkedSingle.nodes this) <= Mem.brk (ListLinkedSingle.nodes l'))%positive.
Proof.
  intros Hrep1 Hrep2 Hb.
  pose proof (Single_head_node this v1 c1 Hrep1) as Hh1.
  pose proof (Single_head_node other v2 c2 Hrep2) as Hh2.
  pose proof (Single_size_spec other v2 c2 Hrep2 Hb) as Hsize.
  pose proof (Single_empty_spec other v2 c2 Hrep2) as Hempty.
  pose proof (Single_fuel this v1 c1 Hrep1) as Hfuel1.
  pose proof (Single_fuel other v2 c2 Hrep2) as Hfuel2.
  destruct Hrep1 as ([_ Hch1] & Hown1 & Ht1). destruct Hrep2 as ([_ Hch2] & _ & _).
  pose proof (head_not_cell _ _ _ _ Hown1) as Hhd.
  destruct Hown1 as (Hnd1 & Hall1 & Hlt1).
  set (hd := ListLinkedSingle._head this) in *.
  set (hT := ListLinkedSingle.nodes this) in *.
  rewrite fmap_cons in Hnd1. apply NoDup_cons in Hnd1 as [_ Hnd1].
  destruct (Single_delete_list_spec c1 (Pos.to_nat (Mem.brk hT)) hT Hch1 Hnd1)
    as (h1 & Hdel & Hread1 & Hbrk1); [lia|].
  destruct (Single_copy_nodes_spec _ c2
              (Pos.to_nat (Mem.brk (ListLinkedSingle.nodes other))) h1 Hch2)
    as (cs' & h2 & Hcopy & Hch' & He & Hnd' & Hbnd & Hbrk2 & Hold & Hdom); [lia|].
  assert (Hhdlt : (hd < Mem.brk h1)%positive).
  { rewrite Hbrk1. apply Hlt1. by left. }
  assert (Hhd2 : Mem.read hd h2
                 = Some (ListLinkedSingle.MkNode v1 (Linked.first c1))).
  { rewrite Hold by done. by rewrite Hread1, decide_False. }
  assert (Hhdcs : hd ∉ cs'.*1).
  { intros Hin. specialize (Hbnd _ Hin). lia. }
  set (h3 := Mem.write hd (ListLinkedSingle.MkNode v1 (Linked.first cs')) h2).
  assert (Hch3 : schain h3 ((hd, v1) :: cs') None).
  { split; [unfold h3; by rewrite mem_read_write, decide_True, head_or_first|].
    apply (schain_frame h2); [|done]. intros q Hq. unfold h3.
    rewrite mem_read_write, decide_False; [done|]. by intros <-. }
  assert (Hgone : forall q, q ∈ c1.*1 -> Mem.read q h3 = None).
  { intros q Hq. unfold h3. rewrite mem_read_write, decide_False by (by intros <-).
    rewrite Hold; [by rewrite Hread1, decide_True|].
    rewrite Hbrk1. apply Hlt1. by right. }
  assert (Hown3 : Linked.owns h3 ((hd, v1) :: cs')).
  { split; [|split].
    - rewrite fmap_cons. by apply NoDup_cons.
    - intros q Hq. unfold h3 in Hq. rewrite mem_read_write in Hq. rewrite fmap_cons.
      destruct (decide (hd = q)) as [<-|Hne]; [by left|]. right.
      destruct (Hdom q Hq) as [?|Hq1]; [done|]. exfalso.
      rewrite Hread1 in Hq1. destruct (decide (q ∈ c1.*1)) as [|Hout]; [by destruct Hq1|].
      apply Hall1 in Hq1. rewrite fmap_cons in Hq1.
      by apply elem_of_cons in Hq1 as [->|?].
    - intros q Hq. rewrite fmap_cons in Hq. unfold h3. cbn [Mem.write Mem.brk].
      apply elem_of_cons in Hq as [->|Hq]; [simpl; lia|]. by apply Hbnd. }
  assert (Hlen : length cs' = length c2).
  { apply (f_equal length) in He. by rewrite !length_fmap in He. }
  unfold ListLinkedSingle.assign. fold hd hT. rewrite Hh1.
  cbn [ListLinkedSingle._next]. rewrite Hdel. cbn [obind]. rewrite Hh2.
  cbn [ListLinkedSingle._next]. rewrite Hcopy. cbn [obind]. rewrite Hhd2.
  cbn [ListLinkedSingle._value]. fold h3. rewrite Hempty. cbn [obind].
  destruct c2 as [|d2 c2].
  - rewrite bool_decide_eq_true_2 by done. eexists _, cs'. split; [done|].
    cbn [ListLinkedSingle.nodes ListLinkedSingle._head ListLinkedSingle._tail].
    repeat (split; [done|]). unfold h3. cbn [Mem.write Mem.brk]. lia.
  - rewrite bool_decide_eq_false_2 by done. rewrite Hsize. cbn [obind].
    set (this1 := {| ListLinkedSingle.nodes := h3; ListLinkedSingle._head := hd;
                     ListLinkedSingle._tail := ListLinkedSingle._tail this |}).
    rewrite (Single_nth_node_chain this1 v1 cs' _ Hch3).
    destruct cs' as [|c' cs']; [done|]. cbn [length] in *.
    destruct (Z.ltb_spec (Z.of_nat (S (length c2)) - 1) 0) as [?|_]; [lia|].
    cbn [obind]. eexists _, (c' :: cs'). split; [done|].
    cbn [ListLinkedSingle.nodes ListLinkedSingle._head ListLinkedSingle._tail this1].
    split; [done|]. split; [done|]. split; [done|]. split; [|split; [done|]].
    + replace (Z.to_nat (Z.of_nat (S (length c2)) - 1)) with (length cs') by lia.
      by rewrite first_drop_last, final_cons_cons.
    + unfold h3. cbn [Mem.write Mem.brk]. lia.
Qed.
End SingleFacts.

(** ListLinkedSingle, the calls on a list: replay any sequence of
    [push_front], [push_back], [pop_front] and [pop_back] calls on a list
    of values (a pop on the empty list fails its assertion and changes
    nothing).  While the list has fewer than 2^31 elements it consists of
    the sentinel followed by one node per element, in that order, with
    [_tail] on the last node and no other node in its store; [empty()],
    [size()] and [front()] are those of the list of values, [front()]
    failing its assertion on the empty list; [back()] returns the last
    element, and on the empty list the value of the sentinel; [at(index)]
    returns the element at that position and fails its assertion for a
    negative index or one from the length on. *)
Theorem ListSingle_behaves_as_list {T : Type} `{Inhabited T}
    (ops : list (ListLinkedSingle.op T)) (idx : Z) :
  Z.of_nat (length (ListLinkedSingle.model ops)) < 2 ^ 31 ->
  let l := ListLinkedSingle.run ops in
  let m := ListLinkedSingle.model ops in
  (exists cells, ListLinkedSingle.rep l inhabitant cells /\ cells.*2 = m) /\
  ListLinkedSingle.empty l = Return (bool_decide (m = [])) /\
  ListLinkedSingle.size l = Return (Z.of_nat (length m)) /\
  ListLinkedSingle.front l = match m with
                             | [] => Abort
                             | e :: _ => Return e
                             end /\
  ListLinkedSingle.back l = Return (match last m with
                                    | Some e => e
                                    | None => inhabitant
                                    end) /\
  ListLinkedSingle.at_ idx l
  = (if idx <? 0 then Abort
     else match m !! Z.to_nat idx with
          | Some e => Return e
          | None => Abort
          end) /\
  (m = [] -> ListLinkedSingle.pop_front l = (Abort, l) /\
             ListLinkedSingle.pop_back l = (Abort, l)).
Proof.
  intros Hb l m. destruct (Single_run_rep ops) as (cells & Hrep & He).
  fold l in Hrep. fold m in He, Hb.
  assert (Hlen : length cells = length m) by (by rewrite <- He, length_fmap).
  split; [by exists cells|]. split; [|split; [|split; [|split; [|split]]]].
  - rewrite (Single_empty_spec l _ cells Hrep). f_equal. rewrite <- He.
    by destruct cells.
  - rewrite (Single_size_spec l _ cells Hrep) by lia. by rewrite Hlen.
  - rewrite (Single_front_spec l _ cells Hrep), <- He. by destruct cells as [|[a e] rest].
  - rewrite (Single_back_spec l _ cells Hrep), <- He, fmap_last.
    by destruct (last cells) as [[a e]|].
  - rewrite (Single_at_spec l _ cells idx Hrep), <- He, list_lookup_fmap.
    by destruct (cells !! Z.to_nat idx) as [[a e]|].
  - intros Hm. rewrite <- He in Hm. apply fmap_nil_inv in Hm. subst cells.
    by apply (Single_pop_empty l inhabitant).
Qed.

Lemma ListSingle_behaves_as_list_witness :
  let ops := [ListLinkedSingle.PushBack 2; ListLinkedSingle.PushFront 1;
              ListLinkedSingle.PushBack 3; ListLinkedSingle.PopFront] in
  ListLinkedSingle.size (ListLinkedSingle.run ops) = Return 2 /\
  ListLinkedSingle.front (ListLinkedSingle.run ops) = Return 2 /\
  ListLinkedSingle.back (ListLinkedSingle.run ops) = Return 3.
Proof.
  intros ops.
  assert (Hb : Z.of_nat (length (ListLinkedSingle.model ops)) < 2 ^ 31)
    by (vm_compute; reflexivity).
  pose proof (ListSingle_behaves_as_list (T := Z) ops 0 Hb) as (_ & _ & Hs & Hf & Hbk & _).
  split; [exact Hs|]. split; [exact Hf | exact Hbk].
Defined.

(** ListLinkedSingle, copy constructor: for a list of fewer than 2^31
    elements built by any sequence of calls, copying a list that is not
    empty returns a list of fresh nodes with the same elements, [_tail] on
    its last node, and the same [front()], [back()] and [size()]; copying
    an empty list fails the assertion of [nth_node], which is called with
    the index [size() - 1 = -1]. *)
Theorem ListSingle_copy_constructor_needs_an_element {T : Type} `{Inhabited T}
    (ops : list (ListLinkedSingle.op T)) :
  Z.of_nat (length (ListLinkedSingle.model ops)) < 2 ^ 31 ->
  let l := ListLinkedSingle.run ops in
  match ListLinkedSingle.model ops with
  | [] => ListLinkedSingle.copy_ctor l = Abort
  | _ :: _ =>
      exists c cells,
        ListLinkedSingle.copy_ctor l = Return c /\
        ListLinkedSingle.rep c inhabitant cells /\
        cells.*2 = ListLinkedSingle.model ops /\
        ListLinkedSingle.front c = ListLinkedSingle.front l /\
        ListLinkedSingle.back c = ListLinkedSingle.back l /\
        ListLinkedSingle.size c = ListLinkedSingle.size l
  end.
Proof.
  intros Hb l. destruct (Single_run_rep ops) as (cells & Hrep & He). fold l in Hrep.
  assert (Hlen : length cells = length (ListLinkedSingle.model ops))
    by (by rewrite <- He, length_fmap).
  pose proof (Single_copy_ctor_spec l _ cells Hrep) as Hcopy.
  rewrite <- He in *. destruct cells as [|c0 cells]; [apply Hcopy; simpl; lia|].
  destruct Hcopy as (c & cells' & Hc & Hrep' & He'); [lia|].
  exists c, cells'. split; [done|]. split; [done|]. split; [done|].
  assert (Hlen' : length cells' = length (c0 :: cells)).
  { apply (f_equal length) in He'. by rewrite !length_fmap in He'. }
  split; [|split].
  - rewrite (Single_front_spec c _ _ Hrep'), (Single_front_spec l _ _ Hrep).
    destruct cells' as [|[a' e'] cells']; [done|]. destruct c0 as [a0 e0].
    rewrite !fmap_cons in He'. by injection He' as -> _.
  - rewrite (Single_back_spec c _ _ Hrep'), (Single_back_spec l _ _ Hrep).
    f_equal. apply (f_equal last) in He'. rewrite !fmap_last in He'.
    destruct (last cells') as [[a' e']|], (last (c0 :: cells)) as [[a0 e0]|];
      try done. by injection He'.
  - rewrite (Single_size_spec c _ _ Hrep'), (Single_size_spec l _ _ Hrep) by lia.
    by rewrite Hlen'.
Qed.

Lemma ListSingle_copy_constructor_needs_an_element_witness :
  ListLinkedSingle.copy_ctor (ListLinkedSingle.run (T := Z) []) = Abort /\
  exists c cells,
    ListLinkedSingle.copy_ctor (ListLinkedSingle.run [ListLinkedSingle.PushBack 4]) = Return c /\
    ListLinkedSingle.rep c inhabitant cells /\ cells.*2 = [4].
Proof.
  assert (Hb0 : Z.of_nat (length (ListLinkedSingle.model (T := Z) [])) < 2 ^ 31)
    by (vm_compute; reflexivity).
  assert (Hb1 : Z.of_nat (length (ListLinkedSingle.model [ListLinkedSingle.PushBack 4]))
                < 2 ^ 31) by (vm_compute; reflexivity).
  split.
  - exact (ListSingle_copy_constructor_needs_an_element (T := Z) [] Hb0).
  - destruct (ListSingle_copy_constructor_needs_an_element (T := Z)
                [ListLinkedSingle.PushBack 4] Hb1) as (c & cells & Hc & Hrep & He & _).
    by exists c, cells.
Defined.

(** ListLinkedSingle, assignment: for lists built by any sequences of
    calls, the assigned one of fewer than 2^31 elements, [this = other]
    returns; if [other] is not empty, [this] then holds the elements of
    [other] in fresh nodes, its old nodes deleted.  If [other] is empty,
    [this] becomes empty but [_tail] is not reset: when [this] was not
    empty it still points to a deleted node, so that [back()] and the next
    [push_back] use a deleted node. *)
Theorem ListSingle_assigning_an_empty_list_leaves_tail_dangling
    {T : Type} `{Inhabited T} (ops1 ops2 : list (ListLinkedSingle.op T)) (e : T) :
  Z.of_nat (length (ListLinkedSingle.model ops2)) < 2 ^ 31 ->
  let this := ListLinkedSingle.run ops1 in
  let other := ListLinkedSingle.run ops2 in
  exists l',
    ListLinkedSingle.assign this other = Return l' /\
    match ListLinkedSingle.model ops2, ListLinkedSingle.model ops1 with
    | _ :: _, _ =>
        exists cells, ListLinkedSingle.rep l' inhabitant cells /\
                      cells.*2 = ListLinkedSingle.model ops2
    | [], [] => ListLinkedSingle.rep l' inhabitant []
    | [], _ :: _ =>
        ListLinkedSingle.empty l' = Return true /\
        ListLinkedSingle._tail l' = ListLinkedSingle._tail this /\
        (exists a, ListLinkedSingle._tail l' = Some a /\
                   Mem.read a (ListLinkedSingle.nodes l') = None) /\
        ListLinkedSingle.back l' = Abort /\
        ListLinkedSingle.push_back e l' = (Abort, l')
    end.
Proof.
  intros Hb this other.
  destruct (Single_run_rep ops1) as (c1 & Hrep1 & He1). fold this in Hrep1.
  destruct (Single_run_rep ops2) as (c2 & Hrep2 & He2). fold other in Hrep2.
  assert (Hlen : length c2 = length (ListLinkedSingle.model ops2))
    by (by rewrite <- He2, length_fmap).
  destruct (Single_assign_spec this other _ _ c1 c2 Hrep1 Hrep2)
    as (l' & cells' & Has & Hch & Hown & He & Ht & Hgone & Hbrk); [lia|].
  exists l'. split; [done|]. rewrite <- He2, <- He1.
  destruct c2 as [|d2 c2]; cbn [fmap list_fmap].
  - apply fmap_nil_inv in He. subst cells'.
    destruct Hrep1 as (_ & Hown1 & Ht1).
    assert (Hhead : ListLinkedSingle._head l' = ListLinkedSingle._head this).
    { unfold ListLinkedSingle.assign in Has.
      destruct (Mem.read _ _); [|done].
      destruct (ListLinkedSingle.delete_list _ _ _); try done. cbn [obind] in Has.
      destruct (Mem.read _ _); [|done].
      destruct (ListLinkedSingle.copy_nodes _ _ _ _) as [[? ?]| | |]; try done.
      cbn [obind] in Has. destruct (Mem.read _ _); [|done].
      destruct (ListLinkedSingle.empty other) as [[|]| | |]; try done; cbn [obind] in Has.
      - by injection Has as <-.
      - destruct (ListLinkedSingle.size other); try done. cbn [obind] in Has.
        destruct (ListLinkedSingle.nth_node _ _); try done. by injection Has as <-. }
    destruct c1 as [|d1 c1]; cbn [fmap list_fmap].
    + split; [done|]. split; [done|]. by rewrite Ht, Ht1, Hhead.
    + assert (Hempty : ListLinkedSingle.empty l' = Return true).
      { unfold ListLinkedSingle.empty. by destruct Hch as [-> _]. }
      rewrite final_cons_cons in Ht1. destruct (final_elem d1 c1) as (a & Ha & Hin).
      rewrite Ha in Ht1. rewrite Ht1 in Ht.
      assert (Hread : Mem.read a (ListLinkedSingle.nodes l') = None) by (by apply Hgone).
      split; [done|]. split; [by rewrite Ht, Ht1|]. split; [by exists a|]. split.
      * unfold ListLinkedSingle.back. by rewrite Ht, Hread.
      * unfold ListLinkedSingle.push_back. cbn [Mem.alloc]. rewrite Ht.
        assert (Hne : Mem.brk (ListLinkedSingle.nodes l') <> a).
        { destruct Hown1 as (_ & _ & Hlt). intros Heq.
          assert (a < Mem.brk (ListLinkedSingle.nodes this))%positive; [|lia].
          apply Hlt. rewrite fmap_cons. by right. }
        unfold Mem.read in *. cbn [Mem.cells]. by rewrite lookup_insert_ne, Hread.
  - exists cells'. split; [|done]. done.
Qed.

Lemma ListSingle_assigning_an_empty_list_leaves_tail_dangling_witness :
  let this := ListLinkedSingle.run [ListLinkedSingle.PushBack 1] in
  let other := ListLinkedSingle.run (T := Z) [] in
  exists l',
    ListLinkedSingle.assign this other = Return l' /\
    ListLinkedSingle.empty l' = Return true /\
    ListLinkedSingle.back l' = Abort /\
    ListLinkedSingle.push_back 5 l' = (Abort, l').
Proof.
  intros this other.
  assert (Hb : Z.of_nat (length (ListLinkedSingle.model (T := Z) [])) < 2 ^ 31)
    by (vm_compute; reflexivity).
  destruct (ListSingle_assigning_an_empty_list_leaves_tail_dangling (T := Z)
              [ListLinkedSingle.PushBack 1] [] 5 Hb) as (l' & Has & Hem & _ & _ & Hbk & Hpb).
  exists l'. split; [exact Has|]. split; [exact Hem|]. split; [exact Hbk | exact Hpb].
Defined.
